(** * NERD bootstrap compiler: lexer, parser, IR emitter and driver

    A shallow embedding of [bootstrap/src/lexer.c], [parser.c], [codegen.c]
    and the [cmd_compile] / [cmd_run] / [cmd_tokens] commands of [main.c],
    followed by the properties of the specification that concern them and
    by further properties of the code.

    Conventions.
    - C [int] and [size_t] values are [Z]; the registers, labels and slots
      handled here stay far below the 32-bit range.
    - A [double] is modelled by the exact rational it denotes ([Q], kept in
      lowest terms).  Every number that occurs in the scenarios is a small
      integer, on which binary64 arithmetic is exact.
    - The output [FILE*] of the emitter is the list of the lines written so
      far, one element per emitted line; [stderr] is the list of messages. *)

From Stdlib Require Import List String Ascii ZArith QArith Lia Bool DecimalString.
From Stdlib Require DecimalPos DecimalZ.
Import ListNotations.

Local Open Scope Z_scope.
Set Warnings "-register-all".
Set Warnings "-notation-incompatible-prefix".
Set Warnings "-notation-overridden".

(* ================================================================== *)
(** * Tokens ([nerd.h]) *)
(* ================================================================== *)

Inductive TokenType : Type :=
  (* keywords *)
  | TOK_FN | TOK_RET | TOK_TYPE | TOK_IF | TOK_ELSE | TOK_OR | TOK_OK
  | TOK_ERR | TOK_LET | TOK_CALL | TOK_OUT | TOK_DONE | TOK_REPEAT | TOK_AS
  | TOK_WHILE | TOK_NEG | TOK_INC | TOK_DEC
  (* types *)
  | TOK_NUM | TOK_INT | TOK_STR | TOK_BOOL | TOK_VOID
  (* operators *)
  | TOK_PLUS | TOK_MINUS | TOK_TIMES | TOK_OVER | TOK_MOD | TOK_EQ | TOK_NEQ
  | TOK_LT | TOK_GT | TOK_LTE | TOK_GTE | TOK_AND | TOK_NOT
  (* positional references *)
  | TOK_FIRST | TOK_SECOND | TOK_THIRD | TOK_FOURTH
  (* number words *)
  | TOK_ZERO | TOK_ONE | TOK_TWO | TOK_THREE | TOK_FOUR | TOK_FIVE | TOK_SIX
  | TOK_SEVEN | TOK_EIGHT | TOK_NINE | TOK_TEN
  (* standard library modules *)
  | TOK_MATH | TOK_LIST | TOK_TIME | TOK_HTTP | TOK_JSON
  (* literals and identifiers *)
  | TOK_NUMBER | TOK_STRING | TOK_IDENT
  (* special *)
  | TOK_NEWLINE | TOK_EOF.

(** The integer value of each enumerator, in declaration order. *)
Definition token_code (t : TokenType) : Z :=
  match t with
  | TOK_FN => 0 | TOK_RET => 1 | TOK_TYPE => 2 | TOK_IF => 3 | TOK_ELSE => 4
  | TOK_OR => 5 | TOK_OK => 6 | TOK_ERR => 7 | TOK_LET => 8 | TOK_CALL => 9
  | TOK_OUT => 10 | TOK_DONE => 11 | TOK_REPEAT => 12 | TOK_AS => 13
  | TOK_WHILE => 14 | TOK_NEG => 15 | TOK_INC => 16 | TOK_DEC => 17
  | TOK_NUM => 18 | TOK_INT => 19 | TOK_STR => 20 | TOK_BOOL => 21
  | TOK_VOID => 22
  | TOK_PLUS => 23 | TOK_MINUS => 24 | TOK_TIMES => 25 | TOK_OVER => 26
  | TOK_MOD => 27 | TOK_EQ => 28 | TOK_NEQ => 29 | TOK_LT => 30
  | TOK_GT => 31 | TOK_LTE => 32 | TOK_GTE => 33 | TOK_AND => 34
  | TOK_NOT => 35
  | TOK_FIRST => 36 | TOK_SECOND => 37 | TOK_THIRD => 38 | TOK_FOURTH => 39
  | TOK_ZERO => 40 | TOK_ONE => 41 | TOK_TWO => 42 | TOK_THREE => 43
  | TOK_FOUR => 44 | TOK_FIVE => 45 | TOK_SIX => 46 | TOK_SEVEN => 47
  | TOK_EIGHT => 48 | TOK_NINE => 49 | TOK_TEN => 50
  | TOK_MATH => 51 | TOK_LIST => 52 | TOK_TIME => 53 | TOK_HTTP => 54
  | TOK_JSON => 55
  | TOK_NUMBER => 56 | TOK_STRING => 57 | TOK_IDENT => 58
  | TOK_NEWLINE => 59 | TOK_EOF => 60
  end.

Definition tok_eqb (a b : TokenType) : bool := token_code a =? token_code b.

(** [Token]: the [value_len] field of the C struct is [String.length value]. *)
Record Token : Type := mkToken {
  ttype  : TokenType;
  value  : string;
  line   : Z;
  column : Z
}.

(* ================================================================== *)
(** * Lexer ([lexer.c]) *)
(* ================================================================== *)

Definition NUL : ascii := Ascii.zero.
Definition LF : ascii := ascii_of_nat 10.
Definition CR : ascii := ascii_of_nat 13.
Definition TAB : ascii := ascii_of_nat 9.
Definition DQUOTE : ascii := ascii_of_nat 34.
Definition BACKSLASH : ascii := ascii_of_nat 92.

(** The keyword table, in the order of the C array. *)
Definition keywords : list (string * TokenType) :=
  [ ("fn", TOK_FN); ("ret", TOK_RET); ("type", TOK_TYPE); ("if", TOK_IF);
    ("else", TOK_ELSE); ("or", TOK_OR); ("ok", TOK_OK); ("err", TOK_ERR);
    ("let", TOK_LET); ("call", TOK_CALL); ("out", TOK_OUT);
    ("done", TOK_DONE); ("repeat", TOK_REPEAT); ("as", TOK_AS);
    ("while", TOK_WHILE); ("neg", TOK_NEG); ("inc", TOK_INC);
    ("dec", TOK_DEC);
    ("num", TOK_NUM); ("int", TOK_INT); ("str", TOK_STR);
    ("bool", TOK_BOOL); ("void", TOK_VOID);
    ("plus", TOK_PLUS); ("minus", TOK_MINUS); ("times", TOK_TIMES);
    ("over", TOK_OVER); ("mod", TOK_MOD); ("eq", TOK_EQ); ("neq", TOK_NEQ);
    ("lt", TOK_LT); ("gt", TOK_GT); ("lte", TOK_LTE); ("gte", TOK_GTE);
    ("and", TOK_AND); ("not", TOK_NOT);
    ("first", TOK_FIRST); ("second", TOK_SECOND); ("third", TOK_THIRD);
    ("fourth", TOK_FOURTH);
    ("zero", TOK_ZERO); ("one", TOK_ONE); ("two", TOK_TWO);
    ("three", TOK_THREE); ("four", TOK_FOUR); ("five", TOK_FIVE);
    ("six", TOK_SIX); ("seven", TOK_SEVEN); ("eight", TOK_EIGHT);
    ("nine", TOK_NINE); ("ten", TOK_TEN);
    ("math", TOK_MATH); ("list", TOK_LIST); ("time", TOK_TIME);
    ("http", TOK_HTTP); ("json", TOK_JSON) ]%string.

Fixpoint lookup_keyword_in (tbl : list (string * TokenType)) (word : string)
  : TokenType :=
  match tbl with
  | [] => TOK_IDENT
  | (w, t) :: rest => if String.eqb w word then t else lookup_keyword_in rest word
  end.

Definition lookup_keyword (word : string) : TokenType :=
  lookup_keyword_in keywords word.

(** Lexer state.  [source] is the unread part of the input ([source + pos]
    in C); [tokens] are the tokens produced so far, in order. *)
Record Lexer : Type := mkLexer {
  source   : string;
  lline    : Z;
  lcolumn  : Z;
  ltokens  : list Token
}.

Definition lexer_create (src : string) : Lexer :=
  {| source := src; lline := 1; lcolumn := 1; ltokens := [] |}.

Definition strlen (s : string) : Z := Z.of_nat (String.length s).

Definition lexer_add_token (lx : Lexer) (t : TokenType) (v : string) : Lexer :=
  {| source := source lx; lline := lline lx; lcolumn := lcolumn lx;
     ltokens := ltokens lx ++
       [ {| ttype := t; value := v; line := lline lx;
            column := lcolumn lx - strlen v |} ] |}.

Definition lexer_current (lx : Lexer) : ascii :=
  match source lx with
  | EmptyString => NUL
  | String c _ => c
  end.

Definition lexer_peek (lx : Lexer) : ascii :=
  match source lx with
  | String _ (String c _) => c
  | _ => NUL
  end.

Definition lexer_advance (lx : Lexer) : Lexer :=
  match source lx with
  | EmptyString => lx
  | String _ rest =>
      {| source := rest; lline := lline lx; lcolumn := lcolumn lx + 1;
         ltokens := ltokens lx |}
  end.

Definition char_between (lo hi c : ascii) : bool :=
  (nat_of_ascii lo <=? nat_of_ascii c)%nat && (nat_of_ascii c <=? nat_of_ascii hi)%nat.

Definition is_alpha (c : ascii) : bool :=
  char_between "a" "z" c || char_between "A" "Z" c || Ascii.eqb c "_".

Definition is_digit (c : ascii) : bool := char_between "0" "9" c.

Definition is_alnum (c : ascii) : bool := is_alpha c || is_digit c.

(** [while (pred(lexer_current(lexer))) lexer_advance(lexer);] returns the
    characters stepped over and the state reached.  The recursion follows
    the unread input. *)
Fixpoint span_chars (pred : ascii -> bool) (s : string) : string * string :=
  match s with
  | EmptyString => (EmptyString, EmptyString)
  | String c rest =>
      if pred c then
        let (taken, rem) := span_chars pred rest in (String c taken, rem)
      else (EmptyString, s)
  end.

Definition lexer_skip_while (pred : ascii -> bool) (lx : Lexer)
  : string * Lexer :=
  let (taken, rem) := span_chars pred (source lx) in
  (taken,
   {| source := rem; lline := lline lx;
      lcolumn := lcolumn lx + strlen taken; ltokens := ltokens lx |}).

Definition lexer_scan_word (lx : Lexer) : Lexer :=
  let (word, lx1) := lexer_skip_while is_alnum lx in
  lexer_add_token lx1 (lookup_keyword word) word.

Definition lexer_scan_number (lx : Lexer) : Lexer :=
  let (int_part, lx1) := lexer_skip_while is_digit lx in
  if Ascii.eqb (lexer_current lx1) "." && is_digit (lexer_peek lx1) then
    let lx2 := lexer_advance lx1 in
    let (frac_part, lx3) := lexer_skip_while is_digit lx2 in
    lexer_add_token lx3 TOK_NUMBER (int_part ++ String "." frac_part)
  else
    lexer_add_token lx1 TOK_NUMBER int_part.

(** The body of a string literal, after the opening quote: the raw text up
    to the closing quote and the input from that quote on.  [None] is the
    "Unterminated string" failure (a newline, or the end of the input or a
    NUL byte, before the closing quote). *)
Fixpoint scan_string_body (s : string) : option (string * string) :=
  match s with
  | EmptyString => None
  | String c rest =>
      if Ascii.eqb c DQUOTE then Some (EmptyString, s)
      else if Ascii.eqb c NUL then None
      else if Ascii.eqb c LF then None
      else
        match rest with
        | String d rest' =>
            if Ascii.eqb c BACKSLASH && Ascii.eqb d DQUOTE then
              match scan_string_body rest' with
              | Some (body, rem) => Some (String c (String d body), rem)
              | None => None
              end
            else
              match scan_string_body rest with
              | Some (body, rem) => Some (String c body, rem)
              | None => None
              end
        | EmptyString => None
        end
  end.

Definition lexer_scan_string (lx : Lexer) : option Lexer :=
  let lx1 := lexer_advance lx in
  match scan_string_body (source lx1) with
  | None => None
  | Some (body, rem) =>
      let lx2 := {| source := rem; lline := lline lx1;
                    lcolumn := lcolumn lx1 + strlen body;
                    ltokens := ltokens lx1 |} in
      Some (lexer_advance (lexer_add_token lx2 TOK_STRING body))
  end.

Definition not_eol (c : ascii) : bool :=
  negb (Ascii.eqb c LF) && negb (Ascii.eqb c NUL).

(** Outcome of a fuelled run of a loop of the front end. *)
Inductive lex_result : Type :=
  | LexOk (lx : Lexer)
  | LexError
  | LexFuel.

(** The main loop of [lexer_tokenize]; every iteration consumes at least
    one character, so [fuel] above the input length is never exhausted. *)
Fixpoint lexer_loop (fuel : nat) (lx : Lexer) : lex_result :=
  match fuel with
  | O => LexFuel
  | S fuel' =>
      match source lx with
      | EmptyString => LexOk (lexer_add_token lx TOK_EOF EmptyString)
      | String c _ =>
          if Ascii.eqb c " " || Ascii.eqb c TAB || Ascii.eqb c CR then
            lexer_loop fuel' (lexer_advance lx)
          else if Ascii.eqb c LF then
            let lx1 := lexer_advance (lexer_add_token lx TOK_NEWLINE "\n") in
            lexer_loop fuel'
              {| source := source lx1; lline := lline lx1 + 1; lcolumn := 1;
                 ltokens := ltokens lx1 |}
          else if (Ascii.eqb c "-" && Ascii.eqb (lexer_peek lx) "-")
                  || Ascii.eqb c "#" then
            lexer_loop fuel' (snd (lexer_skip_while not_eol lx))
          else if Ascii.eqb c DQUOTE then
            match lexer_scan_string lx with
            | Some lx1 => lexer_loop fuel' lx1
            | None => LexError
            end
          else if is_digit c then lexer_loop fuel' (lexer_scan_number lx)
          else if is_alpha c then lexer_loop fuel' (lexer_scan_word lx)
          else LexError
      end
  end.

Definition lexer_tokenize (src : string) : lex_result :=
  lexer_loop (S (String.length src)) (lexer_create src).

(* ================================================================== *)
(** * Syntax tree ([nerd.h]) *)
(* ================================================================== *)

(** A [double], as the exact rational it denotes. *)
Definition double : Type := Q.

Definition double_of_Z (z : Z) : double := inject_Z z.

Definition d0 : double := double_of_Z 0.
Definition d1 : double := double_of_Z 1.

(** Expression nodes.  The [line] field of [ASTNode] is written by
    [ast_create] and never read; it is left out of the tree. *)
Inductive Expr : Type :=
  | NODE_NUM (val : double)
  | NODE_STR (str : string)
  | NODE_BOOL (b : bool)
  | NODE_VAR (name : string)
  | NODE_POSITIONAL (index : Z)
  | NODE_BINOP (op : string) (left right : Expr)
  | NODE_UNARYOP (op : string) (operand : Expr)
  | NODE_CALL (module : option string) (func : string) (args : list Expr).

(** Statement nodes.  A child pointer that may be [NULL] is an [option]. *)
Inductive Stmt : Type :=
  | NODE_RETURN (variant : Z) (val : Expr)
  | NODE_IF (condition : Expr) (then_stmt else_stmt : option Stmt)
  | NODE_LET (name : string) (val : Expr)
  | NODE_EXPR_STMT (expr : Expr)
  | NODE_OUT (val : Expr)
  | NODE_REPEAT (count : Expr) (var_name : option string) (body : list Stmt)
  | NODE_WHILE (condition : Expr) (body : list Stmt)
  | NODE_INC (var_name : string) (amount : option Expr)
  | NODE_DEC (var_name : string) (amount : option Expr).

Record FuncDef : Type := mkFuncDef {
  func_name : string;
  params    : list string;
  func_body : list Stmt
}.

Record TypeDef : Type := mkTypeDef {
  type_name : string;
  is_union  : bool
}.

Record Program : Type := mkProgram {
  types     : list TypeDef;
  functions : list FuncDef
}.

(* ================================================================== *)
(** * Parser ([parser.c]) *)
(* ================================================================== *)

(** The parser reads [tokens[pos]] and only moves [pos] forward, so its
    state is the unread part of the token array.  The array produced by the
    lexer ends with [TOK_EOF], which is never stepped over. *)
Definition Parser : Type := list Token.

Definition eof_token : Token :=
  {| ttype := TOK_EOF; value := EmptyString; line := 0; column := 0 |}.

Definition parser_current (p : Parser) : Token := hd eof_token p.

Definition parser_check (p : Parser) (t : TokenType) : bool :=
  tok_eqb (ttype (parser_current p)) t.

Definition parser_at_end (p : Parser) : bool := parser_check p TOK_EOF.

(** [parser_advance] returns the token stepped over.  No call site reaches
    it at [TOK_EOF] (each one first checks for another kind); there the
    model returns the current token and leaves the state alone. *)
Definition parser_advance (p : Parser) : Token * Parser :=
  if parser_at_end p then (parser_current p, p)
  else (parser_current p, tl p).

Definition parser_match (p : Parser) (t : TokenType) : bool * Parser :=
  if parser_check p t then (true, snd (parser_advance p)) else (false, p).

(** [parser_expect]: [None] stands for the diagnostic and the [NULL]. *)
Definition parser_expect (p : Parser) (t : TokenType)
  : option (Token * Parser) :=
  if parser_check p t then Some (parser_advance p) else None.

(** [while (parser_match(parser, TOK_NEWLINE));] *)
Fixpoint parser_skip_newlines (p : Parser) : Parser :=
  match p with
  | [] => []
  | t :: rest =>
      if tok_eqb (ttype t) TOK_NEWLINE then parser_skip_newlines rest else p
  end.

Definition parser_at_end_of_line (p : Parser) : bool :=
  parser_check p TOK_NEWLINE || parser_check p TOK_EOF.

Definition is_type_token (p : Parser) : bool :=
  let t := ttype (parser_current p) in
  tok_eqb t TOK_NUM || tok_eqb t TOK_INT || tok_eqb t TOK_STR ||
  tok_eqb t TOK_BOOL || tok_eqb t TOK_VOID || tok_eqb t TOK_LIST.

Definition is_module_token (p : Parser) : bool :=
  let t := ttype (parser_current p) in
  tok_eqb t TOK_MATH || tok_eqb t TOK_STR || tok_eqb t TOK_LIST ||
  tok_eqb t TOK_TIME || tok_eqb t TOK_HTTP || tok_eqb t TOK_JSON ||
  tok_eqb t TOK_ERR.

Definition is_end_of_expr (p : Parser) : bool :=
  let t := ttype (parser_current p) in
  parser_at_end_of_line p ||
  tok_eqb t TOK_PLUS || tok_eqb t TOK_MINUS || tok_eqb t TOK_TIMES ||
  tok_eqb t TOK_OVER || tok_eqb t TOK_MOD || tok_eqb t TOK_EQ ||
  tok_eqb t TOK_NEQ || tok_eqb t TOK_LT || tok_eqb t TOK_GT ||
  tok_eqb t TOK_LTE || tok_eqb t TOK_GTE || tok_eqb t TOK_AND ||
  tok_eqb t TOK_OR || tok_eqb t TOK_RET || tok_eqb t TOK_LET ||
  tok_eqb t TOK_IF || tok_eqb t TOK_ELSE || tok_eqb t TOK_CALL ||
  tok_eqb t TOK_OUT || tok_eqb t TOK_DONE || tok_eqb t TOK_REPEAT ||
  tok_eqb t TOK_TIMES || tok_eqb t TOK_AS || tok_eqb t TOK_WHILE.

Definition is_number_word (p : Parser) : bool :=
  let t := ttype (parser_current p) in
  (token_code TOK_ZERO <=? token_code t) && (token_code t <=? token_code TOK_TEN).

Definition number_word_value (t : TokenType) : double :=
  double_of_Z
    match t with
    | TOK_ZERO => 0 | TOK_ONE => 1 | TOK_TWO => 2 | TOK_THREE => 3
    | TOK_FOUR => 4 | TOK_FIVE => 5 | TOK_SIX => 6 | TOK_SEVEN => 7
    | TOK_EIGHT => 8 | TOK_NINE => 9 | TOK_TEN => 10
    | _ => 0
    end.

Definition is_positional (p : Parser) : bool :=
  let t := ttype (parser_current p) in
  tok_eqb t TOK_FIRST || tok_eqb t TOK_SECOND ||
  tok_eqb t TOK_THIRD || tok_eqb t TOK_FOURTH.

Definition positional_index (t : TokenType) : Z :=
  match t with
  | TOK_FIRST => 0 | TOK_SECOND => 1 | TOK_THIRD => 2 | TOK_FOURTH => 3
  | _ => 0
  end.

(** [atof] on the lexemes the lexer produces for [TOK_NUMBER]
    (digits, optionally a point and more digits): the decimal value, as an
    exact rational.  The C function rounds it to a [double]; the values
    used in what follows are integers that a [double] holds exactly. *)
Fixpoint digits_value (s : string) (acc : Z) : Z :=
  match s with
  | EmptyString => acc
  | String c rest =>
      digits_value rest (10 * acc + (Z.of_nat (nat_of_ascii c) - 48))
  end.

Definition atof (s : string) : double :=
  let (int_part, rest) := span_chars is_digit s in
  match rest with
  | String "." frac =>
      let (frac_part, _) := span_chars is_digit frac in
      Qred (Qmake (digits_value (int_part ++ frac_part) 0)
                  (Z.to_pos (10 ^ strlen frac_part)))
  | _ => double_of_Z (digits_value int_part 0)
  end.

(** Result of a parsing function: the node and the state reached; [PFail]
    is a [NULL] result (its diagnostic is not modelled) with the state the
    parser was left in; [PFuel] flags an exhausted recursion budget of the
    model and has no counterpart in the C code. *)
Inductive presult (A : Type) : Type :=
  | POk (a : A) (p : Parser)
  | PFail (p : Parser)
  | PFuel.

Arguments POk {A} a p.
Arguments PFail {A} p.
Arguments PFuel {A}.

Definition pbind {A B : Type} (m : presult A) (k : A -> Parser -> presult B)
  : presult B :=
  match m with
  | POk a p => k a p
  | PFail p => PFail p
  | PFuel => PFuel
  end.

Notation "'do' '(' x ',' p ')' '<-' m ';' k" :=
  (pbind m (fun x p => k))
  (at level 10, x name, p name, m at level 100, k at level 200,
   format "'[v' 'do'  '(' x ','  p ')'  '<-'  m ';' '/' k ']'").

Definition parse_primary (p : Parser) : presult Expr :=
  if parser_check p TOK_NUMBER then
    let (tok, p1) := parser_advance p in POk (NODE_NUM (atof (value tok))) p1
  else if parser_check p TOK_STRING then
    let (tok, p1) := parser_advance p in POk (NODE_STR (value tok)) p1
  else if is_number_word p then
    let (tok, p1) := parser_advance p in
    POk (NODE_NUM (number_word_value (ttype tok))) p1
  else if is_positional p then
    let (tok, p1) := parser_advance p in
    POk (NODE_POSITIONAL (positional_index (ttype tok))) p1
  else if parser_check p TOK_IDENT
          && String.eqb (value (parser_current p)) "true" then
    POk (NODE_BOOL true) (snd (parser_advance p))
  else if parser_check p TOK_IDENT
          && String.eqb (value (parser_current p)) "false" then
    POk (NODE_BOOL false) (snd (parser_advance p))
  else if parser_check p TOK_IDENT then
    let (tok, p1) := parser_advance p in POk (NODE_VAR (value tok)) p1
  else PFail p.

(** [parse_unary], [parse_call] and the argument loop of [parse_call]
    ([while (!is_end_of_expr(parser)) ...]), which collects into [acc]. *)
Fixpoint parse_unary (fuel : nat) (p : Parser) {struct fuel} : presult Expr :=
  match fuel with
  | O => PFuel
  | S fuel' =>
      if parser_check p TOK_NOT then
        do (operand, p1) <- parse_unary fuel' (snd (parser_advance p));
        POk (NODE_UNARYOP "not" operand) p1
      else if parser_check p TOK_NEG then
        do (operand, p1) <- parse_unary fuel' (snd (parser_advance p));
        POk (NODE_UNARYOP "neg" operand) p1
      else parse_call fuel' p
  end
with parse_call (fuel : nat) (p : Parser) {struct fuel} : presult Expr :=
  match fuel with
  | O => PFuel
  | S fuel' =>
      if parser_check p TOK_CALL then
        match parser_expect (snd (parser_advance p)) TOK_IDENT with
        | None => PFail (snd (parser_advance p))
        | Some (func_tok, p1) =>
            do (args, p2) <- parse_call_args fuel' [] p1;
            POk (NODE_CALL None (value func_tok) args) p2
        end
      else if is_module_token p then
        let (mod_tok, p0) := parser_advance p in
        match parser_expect p0 TOK_IDENT with
        | None => PFail p0
        | Some (func_tok, p1) =>
            do (args, p2) <- parse_call_args fuel' [] p1;
            POk (NODE_CALL (Some (value mod_tok)) (value func_tok) args) p2
        end
      else parse_primary p
  end
with parse_call_args (fuel : nat) (acc : list Expr) (p : Parser) {struct fuel}
  : presult (list Expr) :=
  match fuel with
  | O => PFuel
  | S fuel' =>
      if is_end_of_expr p then POk acc p
      else
        do (arg, p1) <- parse_unary fuel' p;
        parse_call_args fuel' (acc ++ [arg]) p1
  end.

(** The loop of a binary level: [while (the current token is one of ops)].
    [parse_multiplicative], [parse_additive] and [parse_comparison] label
    the node with the operator's lexeme. *)
Definition check_any (p : Parser) (ops : list TokenType) : bool :=
  existsb (parser_check p) ops.

Definition multiplicative_ops : list TokenType := [TOK_TIMES; TOK_OVER; TOK_MOD].
Definition additive_ops : list TokenType := [TOK_PLUS; TOK_MINUS].
Definition comparison_ops : list TokenType :=
  [TOK_EQ; TOK_NEQ; TOK_LT; TOK_GT; TOK_LTE; TOK_GTE].

Fixpoint parse_multiplicative_loop (fuel : nat) (left : Expr) (p : Parser)
  : presult Expr :=
  match fuel with
  | O => PFuel
  | S fuel' =>
      if check_any p multiplicative_ops then
        let (op_tok, p1) := parser_advance p in
        do (right, p2) <- parse_unary fuel' p1;
        parse_multiplicative_loop fuel' (NODE_BINOP (value op_tok) left right) p2
      else POk left p
  end.

Definition parse_multiplicative (fuel : nat) (p : Parser) : presult Expr :=
  do (left, p1) <- parse_unary fuel p;
  parse_multiplicative_loop fuel left p1.

Fixpoint parse_additive_loop (fuel : nat) (left : Expr) (p : Parser)
  : presult Expr :=
  match fuel with
  | O => PFuel
  | S fuel' =>
      if check_any p additive_ops then
        let (op_tok, p1) := parser_advance p in
        do (right, p2) <- parse_multiplicative fuel' p1;
        parse_additive_loop fuel' (NODE_BINOP (value op_tok) left right) p2
      else POk left p
  end.

Definition parse_additive (fuel : nat) (p : Parser) : presult Expr :=
  do (left, p1) <- parse_multiplicative fuel p;
  parse_additive_loop fuel left p1.

Fixpoint parse_comparison_loop (fuel : nat) (left : Expr) (p : Parser)
  : presult Expr :=
  match fuel with
  | O => PFuel
  | S fuel' =>
      if check_any p comparison_ops then
        let (op_tok, p1) := parser_advance p in
        do (right, p2) <- parse_additive fuel' p1;
        parse_comparison_loop fuel' (NODE_BINOP (value op_tok) left right) p2
      else POk left p
  end.

Definition parse_comparison (fuel : nat) (p : Parser) : presult Expr :=
  do (left, p1) <- parse_additive fuel p;
  parse_comparison_loop fuel left p1.

Fixpoint parse_and_loop (fuel : nat) (left : Expr) (p : Parser)
  : presult Expr :=
  match fuel with
  | O => PFuel
  | S fuel' =>
      let (matched, p1) := parser_match p TOK_AND in
      if matched then
        do (right, p2) <- parse_comparison fuel' p1;
        parse_and_loop fuel' (NODE_BINOP "and" left right) p2
      else POk left p
  end.

Definition parse_and (fuel : nat) (p : Parser) : presult Expr :=
  do (left, p1) <- parse_comparison fuel p;
  parse_and_loop fuel left p1.

Fixpoint parse_or_loop (fuel : nat) (left : Expr) (p : Parser)
  : presult Expr :=
  match fuel with
  | O => PFuel
  | S fuel' =>
      if parser_check p TOK_OR && negb (parser_at_end_of_line p) then
        let p1 := snd (parser_advance p) in
        do (right, p2) <- parse_and fuel' p1;
        parse_or_loop fuel' (NODE_BINOP "or" left right) p2
      else POk left p
  end.

Definition parse_or (fuel : nat) (p : Parser) : presult Expr :=
  do (left, p1) <- parse_and fuel p;
  parse_or_loop fuel left p1.

Definition parse_expr (fuel : nat) (p : Parser) : presult Expr :=
  parse_or fuel p.

(** The variant tag after [ret]: 1 for [ok], 2 for [err], else 0. *)
Definition parse_ret_variant (p : Parser) : Z * Parser :=
  let (is_ok, p1) := parser_match p TOK_OK in
  if is_ok then (1, p1)
  else
    let (is_err, p2) := parser_match p1 TOK_ERR in
    if is_err then (2, p2) else (0, p2).

(** [parse_inline_stmt]: the statement after [if COND] on the same line. *)
Definition parse_inline_stmt (fuel : nat) (p : Parser) : presult Stmt :=
  if parser_check p TOK_RET then
    let (variant, p1) := parse_ret_variant (snd (parser_advance p)) in
    do (val, p2) <- parse_expr fuel p1;
    POk (NODE_RETURN variant val) p2
  else if parser_check p TOK_OUT then
    do (val, p1) <- parse_expr fuel (snd (parser_advance p));
    POk (NODE_OUT val) p1
  else if parser_check p TOK_LET then
    match parser_expect (snd (parser_advance p)) TOK_IDENT with
    | None => PFail (snd (parser_advance p))
    | Some (name_tok, p1) =>
        do (val, p2) <- parse_expr fuel p1;
        POk (NODE_LET (value name_tok) val) p2
    end
  else
    do (expr, p1) <- parse_expr fuel p;
    POk (NODE_EXPR_STMT expr) p1.

(** A child whose parse result is stored without a [NULL] check: a failed
    parse leaves [NULL] in the node and parsing goes on from the state the
    failure left. *)
Definition unchecked {A : Type} (m : presult A) : presult (option A) :=
  match m with
  | POk a p => POk (Some a) p
  | PFail p => POk None p
  | PFuel => PFuel
  end.

(** The statement kept from a block parsed into a list: the first one
    ([nodes[0]]), or [NULL] for an empty block.  (For a block of several
    statements the C code frees the list, the kept statement with it, and
    goes on using the pointer; the model keeps the statement, and
    [front_end_intact] tells for which sources no block is of this kind.) *)
Definition block_carrier (stmts : list Stmt) : option Stmt := hd_error stmts.

(** [parse_stmt] and the block loops it runs.
    [parse_block fuel stop acc p] is
    [while (!parser_at_end(parser) && !stop) {
       if (parser_match(parser, TOK_NEWLINE)) continue;
       stmt = parse_stmt(parser); if (!stmt) return NULL;
       push; parser_skip_newlines(parser); }]. *)
Fixpoint parse_stmt (fuel : nat) (p : Parser) {struct fuel} : presult Stmt :=
  match fuel with
  | O => PFuel
  | S fuel' =>
      if parser_check p TOK_RET then
        let (variant, p1) := parse_ret_variant (snd (parser_advance p)) in
        do (val, p2) <- parse_expr fuel' p1;
        POk (NODE_RETURN variant val) (snd (parser_match p2 TOK_NEWLINE))
      else if parser_check p TOK_OUT then
        do (val, p1) <- parse_expr fuel' (snd (parser_advance p));
        POk (NODE_OUT val) (snd (parser_match p1 TOK_NEWLINE))
      else if parser_check p TOK_INC then
        match parser_expect (snd (parser_advance p)) TOK_IDENT with
        | None => PFail (snd (parser_advance p))
        | Some (var_tok, p1) =>
            if parser_at_end_of_line p1 then
              POk (NODE_INC (value var_tok) None)
                  (snd (parser_match p1 TOK_NEWLINE))
            else
              do (amount, p2) <- unchecked (parse_expr fuel' p1);
              POk (NODE_INC (value var_tok) amount)
                  (snd (parser_match p2 TOK_NEWLINE))
        end
      else if parser_check p TOK_DEC then
        match parser_expect (snd (parser_advance p)) TOK_IDENT with
        | None => PFail (snd (parser_advance p))
        | Some (var_tok, p1) =>
            if parser_at_end_of_line p1 then
              POk (NODE_DEC (value var_tok) None)
                  (snd (parser_match p1 TOK_NEWLINE))
            else
              do (amount, p2) <- unchecked (parse_expr fuel' p1);
              POk (NODE_DEC (value var_tok) amount)
                  (snd (parser_match p2 TOK_NEWLINE))
        end
      else if parser_check p TOK_IF then
        do (condition, p1) <- parse_comparison fuel' (snd (parser_advance p));
        if parser_check p1 TOK_NEWLINE then
          (* block form: if COND NEWLINE STMT* [else NEWLINE STMT*] done *)
          let p2 := parser_skip_newlines (snd (parser_match p1 TOK_NEWLINE)) in
          do (then_block, p3) <-
            parse_block fuel'
              (fun q => parser_check q TOK_ELSE || parser_check q TOK_DONE)
              [] p2;
          let then_stmt := block_carrier then_block in
          do (else_stmt, p4) <-
            (let (has_else, q1) := parser_match p3 TOK_ELSE in
             if has_else then
               let q2 :=
                 parser_skip_newlines (snd (parser_match q1 TOK_NEWLINE)) in
               if parser_check q2 TOK_IF then unchecked (parse_stmt fuel' q2)
               else
                 do (else_block, q3) <-
                   parse_block fuel' (fun q => parser_check q TOK_DONE) [] q2;
                 POk (block_carrier else_block) q3
             else POk None q1);
          let p5 :=
            if parser_check p4 TOK_IF then p4
            else
              (* the result of parser_expect is not looked at *)
              snd (parser_match (snd (parser_match p4 TOK_DONE)) TOK_NEWLINE) in
          POk (NODE_IF condition then_stmt else_stmt) p5
        else
          (* inline form: if COND STMT [else STMT] *)
          do (then_stmt, p2) <- parse_inline_stmt fuel' p1;
          let (has_else, p3) := parser_match p2 TOK_ELSE in
          if has_else then
            if parser_check p3 TOK_IF then
              do (else_stmt, p4) <- unchecked (parse_stmt fuel' p3);
              POk (NODE_IF condition (Some then_stmt) else_stmt) p4
            else
              do (else_stmt, p4) <- unchecked (parse_inline_stmt fuel' p3);
              POk (NODE_IF condition (Some then_stmt) else_stmt)
                  (snd (parser_match p4 TOK_NEWLINE))
          else
            POk (NODE_IF condition (Some then_stmt) None)
                (snd (parser_match p3 TOK_NEWLINE))
      else if parser_check p TOK_LET then
        match parser_expect (snd (parser_advance p)) TOK_IDENT with
        | None => PFail (snd (parser_advance p))
        | Some (name_tok, p1) =>
            do (val, p2) <- parse_expr fuel' p1;
            POk (NODE_LET (value name_tok) val)
                (snd (parser_match p2 TOK_NEWLINE))
        end
      else if parser_check p TOK_REPEAT then
        do (count, p1) <- parse_primary (snd (parser_advance p));
        match parser_expect p1 TOK_TIMES with
        | None => PFail p1
        | Some (_, p2) =>
            let (has_as, p3) := parser_match p2 TOK_AS in
            match
              (if has_as then
                 match parser_expect p3 TOK_IDENT with
                 | None => None
                 | Some (var_tok, p4) => Some (Some (value var_tok), p4)
                 end
               else Some (None, p3))
            with
            | None => PFail p3
            | Some (var_name, p4) =>
                let p5 :=
                  parser_skip_newlines (snd (parser_match p4 TOK_NEWLINE)) in
                do (body, p6) <-
                  parse_block fuel' (fun q => parser_check q TOK_DONE) [] p5;
                match parser_expect p6 TOK_DONE with
                | None => PFail p6
                | Some (_, p7) =>
                    POk (NODE_REPEAT count var_name body)
                        (snd (parser_match p7 TOK_NEWLINE))
                end
            end
        end
      else if parser_check p TOK_WHILE then
        do (condition, p1) <- parse_comparison fuel' (snd (parser_advance p));
        let p2 := parser_skip_newlines (snd (parser_match p1 TOK_NEWLINE)) in
        do (body, p3) <-
          parse_block fuel' (fun q => parser_check q TOK_DONE) [] p2;
        match parser_expect p3 TOK_DONE with
        | None => PFail p3
        | Some (_, p4) =>
            POk (NODE_WHILE condition body) (snd (parser_match p4 TOK_NEWLINE))
        end
      else
        do (expr, p1) <- parse_expr fuel' p;
        POk (NODE_EXPR_STMT expr) (snd (parser_match p1 TOK_NEWLINE))
  end
with parse_block (fuel : nat) (stop : Parser -> bool) (acc : list Stmt)
                 (p : Parser) {struct fuel} : presult (list Stmt) :=
  match fuel with
  | O => PFuel
  | S fuel' =>
      if negb (parser_at_end p) && negb (stop p) then
        let (nl, p1) := parser_match p TOK_NEWLINE in
        if nl then parse_block fuel' stop acc p1
        else
          do (stmt, p2) <- parse_stmt fuel' p;
          parse_block fuel' stop (acc ++ [stmt]) (parser_skip_newlines p2)
      else POk acc p
  end.

(** The parameter loop of [parse_func_def]:
    [while (!parser_at_end_of_line(parser) && parser_check(parser, TOK_IDENT))]. *)
Fixpoint parse_params (p : Parser) : list string * Parser :=
  match p with
  | [] => ([], [])
  | t :: rest =>
      if negb (parser_at_end_of_line p) && parser_check p TOK_IDENT then
        let (names, p1) := parse_params rest in (value t :: names, p1)
      else ([], p)
  end.

Definition parse_func_def (fuel : nat) (p : Parser) : presult FuncDef :=
  let p0 := snd (parser_match p TOK_FN) in
  match parser_expect p0 TOK_IDENT with
  | None => PFail p0
  | Some (name_tok, p1) =>
      let (param_names, p2) := parse_params p1 in
      let p3 := parser_skip_newlines (snd (parser_match p2 TOK_NEWLINE)) in
      do (body, p4) <-
        parse_block fuel
          (fun q => parser_check q TOK_FN || parser_check q TOK_TYPE) [] p3;
      POk {| func_name := value name_tok; params := param_names;
             func_body := body |} p4
  end.

(** The field loop of a struct [type] definition: the fields are stepped
    over up to the end of the line or the first other token. *)
Fixpoint skip_type_fields (p : Parser) : Parser :=
  match p with
  | [] => []
  | _ :: rest =>
      if negb (parser_at_end_of_line p)
         && (is_type_token p || parser_check p TOK_IDENT)
      then skip_type_fields rest
      else p
  end.

Definition parse_type_def (p : Parser) : presult TypeDef :=
  let p0 := snd (parser_match p TOK_TYPE) in
  match parser_expect p0 TOK_IDENT with
  | None => PFail p0
  | Some (name_tok, p1) =>
      let (union, p2) := parser_match p1 TOK_OK in
      if union then
        let p3 := if is_type_token p2 then snd (parser_advance p2) else p2 in
        let p4 := snd (parser_match p3 TOK_OR) in
        let p5 := snd (parser_match p4 TOK_ERR) in
        let p6 := if is_type_token p5 then snd (parser_advance p5) else p5 in
        POk {| type_name := value name_tok; is_union := true |}
            (snd (parser_match p6 TOK_NEWLINE))
      else
        POk {| type_name := value name_tok; is_union := false |}
            (snd (parser_match (skip_type_fields p2) TOK_NEWLINE))
  end.

Fixpoint parser_parse_loop (fuel : nat) (prog : Program) (p : Parser)
  : presult Program :=
  match fuel with
  | O => PFuel
  | S fuel' =>
      if parser_at_end p then POk prog p
      else if parser_check p TOK_TYPE then
        do (type_def, p1) <- parse_type_def p;
        parser_parse_loop fuel'
          {| types := types prog ++ [type_def]; functions := functions prog |}
          (parser_skip_newlines p1)
      else if parser_check p TOK_FN then
        do (func_def, p1) <- parse_func_def fuel' p;
        parser_parse_loop fuel'
          {| types := types prog; functions := functions prog ++ [func_def] |}
          (parser_skip_newlines p1)
      else if parser_check p TOK_NEWLINE then
        parser_parse_loop fuel' prog (snd (parser_advance p))
      else PFail p
  end.

Definition parser_parse (fuel : nat) (p : Parser) : presult Program :=
  parser_parse_loop fuel {| types := []; functions := [] |}
    (parser_skip_newlines p).

(** The recursion budget the model gives the parser for a token array:
    every recursive call and every loop iteration follows the consumption
    of at least one token, or is one of a bounded number of nested calls
    made before the first token is consumed. *)
Definition parse_fuel (tokens : list Token) : nat :=
  (2 * List.length tokens + 8)%nat.

(** Source text to tree: [lexer_tokenize] then [parser_parse]; [None] when
    either reports an error. *)
Definition front_end (src : string) : option Program :=
  match lexer_tokenize src with
  | LexOk lx =>
      match parser_parse (parse_fuel (ltokens lx)) (ltokens lx) with
      | POk prog _ => Some prog
      | _ => None
      end
  | _ => None
  end.

(** ** Sources on which the tree stays intact *)

(** For an [if] block of several statements the C code stores [nodes[0]] in
    the node and frees the block, the stored statement with it: from then
    on the tree holds a pointer to freed memory, and what the emitter and
    [ast_free] do with it is not defined.  [block_carrier] keeps the
    statement.  The functions below run the same parser and return, beside
    the tree, whether it is intact: whether every block unwrapped on the
    way held at most one statement.  The properties that depend on what
    the C code does with the tree after parsing are stated for the sources
    for which it is. *)
Definition single_statement (stmts : list Stmt) : bool :=
  (List.length stmts <=? 1)%nat.

(** An arm stored without a [NULL] check.  When its parse fails, what had
    been built for it is freed on the way back, which the model does not
    follow: the tree is not counted as intact. *)
Definition unchecked_intact {A : Type} (m : presult (A * bool))
  : presult (option A * bool) :=
  match m with
  | POk (a, intact) p => POk (Some a, intact) p
  | PFail p => POk (None, false) p
  | PFuel => PFuel
  end.

(** [parse_stmt] with the flag.  Only [if], [repeat] and [while] hold
    statements; every other statement is parsed by [parse_stmt] itself. *)
Fixpoint parse_stmt_intact (fuel : nat) (p : Parser) {struct fuel}
  : presult (Stmt * bool) :=
  match fuel with
  | O => PFuel
  | S fuel' =>
      if parser_check p TOK_IF then
        do (condition, p1) <- parse_comparison fuel' (snd (parser_advance p));
        if parser_check p1 TOK_NEWLINE then
          let p2 := parser_skip_newlines (snd (parser_match p1 TOK_NEWLINE)) in
          do (then_block, p3) <-
            parse_block_intact fuel'
              (fun q => parser_check q TOK_ELSE || parser_check q TOK_DONE)
              [] true p2;
          let then_stmt := block_carrier (fst then_block) in
          let then_intact :=
            snd then_block && single_statement (fst then_block) in
          do (else_arm, p4) <-
            (let (has_else, q1) := parser_match p3 TOK_ELSE in
             if has_else then
               let q2 :=
                 parser_skip_newlines (snd (parser_match q1 TOK_NEWLINE)) in
               if parser_check q2 TOK_IF then
                 unchecked_intact (parse_stmt_intact fuel' q2)
               else
                 do (else_block, q3) <-
                   parse_block_intact fuel'
                     (fun q => parser_check q TOK_DONE) [] true q2;
                 POk (block_carrier (fst else_block),
                      snd else_block && single_statement (fst else_block)) q3
             else POk (None, true) q1);
          let p5 :=
            if parser_check p4 TOK_IF then p4
            else
              snd (parser_match (snd (parser_match p4 TOK_DONE)) TOK_NEWLINE) in
          POk (NODE_IF condition then_stmt (fst else_arm),
               then_intact && snd else_arm) p5
        else
          do (then_stmt, p2) <- parse_inline_stmt fuel' p1;
          let (has_else, p3) := parser_match p2 TOK_ELSE in
          if has_else then
            if parser_check p3 TOK_IF then
              do (else_arm, p4) <-
                unchecked_intact (parse_stmt_intact fuel' p3);
              POk (NODE_IF condition (Some then_stmt) (fst else_arm),
                   snd else_arm) p4
            else
              do (else_stmt, p4) <- unchecked (parse_inline_stmt fuel' p3);
              POk (NODE_IF condition (Some then_stmt) else_stmt, true)
                  (snd (parser_match p4 TOK_NEWLINE))
          else
            POk (NODE_IF condition (Some then_stmt) None, true)
                (snd (parser_match p3 TOK_NEWLINE))
      else if parser_check p TOK_REPEAT then
        do (count, p1) <- parse_primary (snd (parser_advance p));
        match parser_expect p1 TOK_TIMES with
        | None => PFail p1
        | Some (_, p2) =>
            let (has_as, p3) := parser_match p2 TOK_AS in
            match
              (if has_as then
                 match parser_expect p3 TOK_IDENT with
                 | None => None
                 | Some (var_tok, p4) => Some (Some (value var_tok), p4)
                 end
               else Some (None, p3))
            with
            | None => PFail p3
            | Some (var_name, p4) =>
                let p5 :=
                  parser_skip_newlines (snd (parser_match p4 TOK_NEWLINE)) in
                do (body, p6) <-
                  parse_block_intact fuel'
                    (fun q => parser_check q TOK_DONE) [] true p5;
                match parser_expect p6 TOK_DONE with
                | None => PFail p6
                | Some (_, p7) =>
                    POk (NODE_REPEAT count var_name (fst body), snd body)
                        (snd (parser_match p7 TOK_NEWLINE))
                end
            end
        end
      else if parser_check p TOK_WHILE then
        do (condition, p1) <- parse_comparison fuel' (snd (parser_advance p));
        let p2 := parser_skip_newlines (snd (parser_match p1 TOK_NEWLINE)) in
        do (body, p3) <-
          parse_block_intact fuel'
            (fun q => parser_check q TOK_DONE) [] true p2;
        match parser_expect p3 TOK_DONE with
        | None => PFail p3
        | Some (_, p4) =>
            POk (NODE_WHILE condition (fst body), snd body)
                (snd (parser_match p4 TOK_NEWLINE))
        end
      else
        do (stmt, p1) <- parse_stmt fuel p;
        POk (stmt, true) p1
  end
with parse_block_intact (fuel : nat) (stop : Parser -> bool) (acc : list Stmt)
                        (intact : bool) (p : Parser) {struct fuel}
  : presult (list Stmt * bool) :=
  match fuel with
  | O => PFuel
  | S fuel' =>
      if negb (parser_at_end p) && negb (stop p) then
        let (nl, p1) := parser_match p TOK_NEWLINE in
        if nl then parse_block_intact fuel' stop acc intact p1
        else
          do (stmt, p2) <- parse_stmt_intact fuel' p;
          parse_block_intact fuel' stop (acc ++ [fst stmt])
                             (intact && snd stmt) (parser_skip_newlines p2)
      else POk (acc, intact) p
  end.

Definition parse_func_def_intact (fuel : nat) (p : Parser)
  : presult (FuncDef * bool) :=
  let p0 := snd (parser_match p TOK_FN) in
  match parser_expect p0 TOK_IDENT with
  | None => PFail p0
  | Some (name_tok, p1) =>
      let (param_names, p2) := parse_params p1 in
      let p3 := parser_skip_newlines (snd (parser_match p2 TOK_NEWLINE)) in
      do (body, p4) <-
        parse_block_intact fuel
          (fun q => parser_check q TOK_FN || parser_check q TOK_TYPE) [] true p3;
      POk ({| func_name := value name_tok; params := param_names;
              func_body := fst body |}, snd body) p4
  end.

Fixpoint parser_parse_loop_intact (fuel : nat) (prog : Program)
    (intact : bool) (p : Parser) : presult (Program * bool) :=
  match fuel with
  | O => PFuel
  | S fuel' =>
      if parser_at_end p then POk (prog, intact) p
      else if parser_check p TOK_TYPE then
        do (type_def, p1) <- parse_type_def p;
        parser_parse_loop_intact fuel'
          {| types := types prog ++ [type_def]; functions := functions prog |}
          intact (parser_skip_newlines p1)
      else if parser_check p TOK_FN then
        do (func_def, p1) <- parse_func_def_intact fuel' p;
        parser_parse_loop_intact fuel'
          {| types := types prog;
             functions := functions prog ++ [fst func_def] |}
          (intact && snd func_def) (parser_skip_newlines p1)
      else if parser_check p TOK_NEWLINE then
        parser_parse_loop_intact fuel' prog intact (snd (parser_advance p))
      else PFail p
  end.

Definition parser_parse_intact (fuel : nat) (p : Parser)
  : presult (Program * bool) :=
  parser_parse_loop_intact fuel {| types := []; functions := [] |} true
    (parser_skip_newlines p).

(** [front_end] with the flag. *)
Definition front_end_intact (src : string) : option (Program * bool) :=
  match lexer_tokenize src with
  | LexOk lx =>
      match parser_parse_intact (parse_fuel (ltokens lx)) (ltokens lx) with
      | POk r _ => Some r
      | _ => None
      end
  | _ => None
  end.

(** Every [repeat] names its counter.  For a [repeat] without [as] the
    emitter counts a local whose name and slot it never writes
    ([cg->local_count++]); [find_local], [clear_locals] and [codegen_free]
    then read or free that name, which is not defined.  The model lets the
    entry match no name ([bump_local_count]); the properties about how the
    emitter ends are stated for trees without such a loop. *)
Fixpoint counters_named (s : Stmt) : bool :=
  match s with
  | NODE_IF _ t e =>
      match t with
      | Some s' => counters_named s'
      | None => true
      end
      && match e with
         | Some s' => counters_named s'
         | None => true
         end
  | NODE_REPEAT _ var_name body =>
      match var_name with
      | Some _ => true
      | None => false
      end && forallb counters_named body
  | NODE_WHILE _ body => forallb counters_named body
  | _ => true
  end.

Definition program_counters_named (prog : Program) : bool :=
  forallb (fun f => forallb counters_named (func_body f)) (functions prog).

(** The flag dropped. *)
Definition without_flag {A : Type} (m : presult (A * bool)) : presult A :=
  match m with
  | POk r p => POk (fst r) p
  | PFail p => PFail p
  | PFuel => PFuel
  end.

Definition nl : string := String LF EmptyString.

(** The scenario sources of the specification. *)
Definition src_S1 : string := "fn add a b" ++ nl ++ "ret a plus b" ++ nl.
Definition src_S3 : string :=
  "fn f n" ++ nl ++ "let s zero" ++ nl ++ "repeat n times as i" ++ nl ++
  "inc s i" ++ nl ++ "done" ++ nl ++ "ret s" ++ nl.
Definition src_S4 : string :=
  "fn g x" ++ nl ++ "if x gt zero ret ok x else ret err zero" ++ nl.
Definition src_S5 : string :=
  "fn h" ++ nl ++ "let i ten" ++ nl ++ "while i gt zero" ++ nl ++
  "dec i" ++ nl ++ "done" ++ nl ++ "ret i" ++ nl.

(* ================================================================== *)
(** * Emitted IR ([codegen.c]) *)
(* ================================================================== *)

(** Block labels, with the number drawn from [label_counter]. *)
Inductive label : Type :=
  | L_entry
  | L_then (k : Z) | L_else (k : Z) | L_end (k : Z)
  | L_loop_start (k : Z) | L_loop_body (k : Z) | L_loop_end (k : Z)
  | L_while_start (k : Z) | L_while_body (k : Z) | L_while_end (k : Z).

(** Operands: a temporary [%tN], a parameter [%argN], a literal. *)
Inductive operand : Type :=
  | Reg (r : Z)
  | Arg (i : Z)
  | Const (v : double).

Inductive binop : Type := Fadd | Fsub | Fmul | Fdiv | Frem.
Inductive fpred : Type := Oeq | One | Olt | Ogt | Ole | Oge.
Inductive logop : Type := And | Or.

(** One constructor per shape of line the emitter writes. *)
Inductive ir_line : Type :=
  | IText (text : string)                      (* a fixed line of the preamble *)
  | IStrConst (idx len : Z) (s : string)       (* @.strI = private constant [L x i8] c"..\00" *)
  | IDefine (name : string) (nparams : Z)      (* define double @name(double %arg0, ...) { *)
  | IFuncEnd                                   (* } and an empty line *)
  | ILabel (l : label)                         (* l: *)
  | ICommentString (s : string)                (*   ; string: "s" *)
  | ICommentCall (module : option string) (func : string)  (*   ; call f  /  ; call m.f *)
  | IBin (r : Z) (op : binop) (a b : operand)  (*   %tR = fop double a, b *)
  | IFcmp (r : Z) (pred : fpred) (a b : operand) (* %tR = fcmp pred double a, b *)
  | IUitofp (r a : Z)                          (*   %tR = uitofp i1 %tA to double *)
  | ILogic (r : Z) (op : logop) (a b : Z)      (*   %tR = and i1 %tA, %tB *)
  | ILoad (r slot : Z)                         (*   %tR = load double, double* %localS *)
  | IStore (v : operand) (slot : Z)            (*   store double v, double* %localS *)
  | IAlloca (slot : Z)                         (*   %localS = alloca double *)
  | ICall (r : Z) (func : string) (args : list Z)      (* %tR = call double @f(double %tA, ...) *)
  | IIntrinsic (r : Z) (callee : string) (args : list Z) (* %tR = call double @llvm.x.f64(...) *)
  | IGetStr (r len idx : Z)                    (*   %tR = getelementptr [L x i8], [L x i8]* @.strI, i32 0, i32 0 *)
  | IPrintfStr (r : Z)                         (*   call i32 (i8*, ...) @printf(.. @.fmt_str .., i8* %tR) *)
  | IPrintfNum (r : Z)                         (*   call i32 (i8*, ...) @printf(.. @.fmt_num .., double %tR) *)
  | IRet (v : operand)                         (*   ret double v *)
  | IBr (l : label)                            (*   br label %l *)
  | ICondBr (r : Z) (l1 l2 : label).           (*   br i1 %tR, label %l1, label %l2 *)

(** Code generator state.  [locals] holds [local_names] / [local_regs] up
    to [local_count]; an entry is [None] where the C code bumps
    [local_count] without writing the arrays (the counter of a [repeat]
    without [as]): reading it is undefined in C, and the model lets it match
    no name. *)
Record CodeGen : Type := mkCodeGen {
  out             : list ir_line;
  err             : list string;
  temp_counter    : Z;
  label_counter   : Z;
  string_counter  : Z;
  param_names     : list string;
  locals          : list (option (string * Z));
  string_literals : list string
}.

Definition codegen_create : CodeGen :=
  {| out := []; err := []; temp_counter := 0; label_counter := 0;
     string_counter := 0; param_names := []; locals := [];
     string_literals := [] |}.

Definition emit (cg : CodeGen) (l : ir_line) : CodeGen :=
  {| out := out cg ++ [l]; err := err cg; temp_counter := temp_counter cg;
     label_counter := label_counter cg; string_counter := string_counter cg;
     param_names := param_names cg; locals := locals cg;
     string_literals := string_literals cg |}.

Definition emit_all (cg : CodeGen) (ls : list ir_line) : CodeGen :=
  fold_left emit ls cg.

Definition report (cg : CodeGen) (msg : string) : CodeGen :=
  {| out := out cg; err := err cg ++ [msg]; temp_counter := temp_counter cg;
     label_counter := label_counter cg; string_counter := string_counter cg;
     param_names := param_names cg; locals := locals cg;
     string_literals := string_literals cg |}.

Definition next_temp (cg : CodeGen) : Z * CodeGen :=
  (temp_counter cg,
   {| out := out cg; err := err cg; temp_counter := temp_counter cg + 1;
      label_counter := label_counter cg; string_counter := string_counter cg;
      param_names := param_names cg; locals := locals cg;
      string_literals := string_literals cg |}).

Definition next_label (cg : CodeGen) : Z * CodeGen :=
  (label_counter cg,
   {| out := out cg; err := err cg; temp_counter := temp_counter cg;
      label_counter := label_counter cg + 1;
      string_counter := string_counter cg;
      param_names := param_names cg; locals := locals cg;
      string_literals := string_literals cg |}).

Definition next_string (cg : CodeGen) : Z * CodeGen :=
  (string_counter cg,
   {| out := out cg; err := err cg; temp_counter := temp_counter cg;
      label_counter := label_counter cg;
      string_counter := string_counter cg + 1;
      param_names := param_names cg; locals := locals cg;
      string_literals := string_literals cg |}).

Definition set_locals (cg : CodeGen) (ls : list (option (string * Z)))
  : CodeGen :=
  {| out := out cg; err := err cg; temp_counter := temp_counter cg;
     label_counter := label_counter cg; string_counter := string_counter cg;
     param_names := param_names cg; locals := ls;
     string_literals := string_literals cg |}.

Definition local_count (cg : CodeGen) : Z := Z.of_nat (List.length (locals cg)).

Definition add_local (cg : CodeGen) (name : string) (reg : Z) : CodeGen :=
  set_locals cg (locals cg ++ [Some (name, reg)]).

(** [cg->local_count++] with nothing written at the new index.  The C
    code leaves the name and the slot of that entry as [malloc] gave them;
    the model lets the entry match no name (see [counters_named]). *)
Definition bump_local_count (cg : CodeGen) : CodeGen :=
  set_locals cg (locals cg ++ [None]).

Fixpoint find_local_in (ls : list (option (string * Z))) (name : string) : Z :=
  match ls with
  | [] => -1
  | Some (n, reg) :: rest =>
      if String.eqb n name then reg else find_local_in rest name
  | None :: rest => find_local_in rest name
  end.

Definition find_local (cg : CodeGen) (name : string) : Z :=
  find_local_in (locals cg) name.

Fixpoint find_param_in (ps : list string) (name : string) (i : Z) : Z :=
  match ps with
  | [] => -1
  | n :: rest => if String.eqb n name then i else find_param_in rest name (i + 1)
  end.

Definition find_param (cg : CodeGen) (name : string) : Z :=
  find_param_in (param_names cg) name 0.

Definition clear_locals (cg : CodeGen) : CodeGen :=
  {| out := out cg; err := err cg; temp_counter := 0;
     label_counter := label_counter cg; string_counter := string_counter cg;
     param_names := param_names cg; locals := [];
     string_literals := string_literals cg |}.

Definition set_params (cg : CodeGen) (ps : list string) : CodeGen :=
  {| out := out cg; err := err cg; temp_counter := temp_counter cg;
     label_counter := label_counter cg; string_counter := string_counter cg;
     param_names := ps; locals := locals cg;
     string_literals := string_literals cg |}.

Definition add_string (cg : CodeGen) (s : string) : CodeGen :=
  {| out := out cg; err := err cg; temp_counter := temp_counter cg;
     label_counter := label_counter cg; string_counter := string_counter cg;
     param_names := param_names cg; locals := locals cg;
     string_literals := string_literals cg ++ [s] |}.

(** ** String-literal collection *)

Fixpoint collect_strings_expr (cg : CodeGen) (node : Expr) : CodeGen :=
  match node with
  | NODE_STR s => add_string cg s
  | NODE_BINOP _ l r => collect_strings_expr (collect_strings_expr cg l) r
  | NODE_UNARYOP _ operand => collect_strings_expr cg operand
  | NODE_CALL _ _ args => fold_left collect_strings_expr args cg
  | _ => cg
  end.

Fixpoint collect_strings_stmt (cg : CodeGen) (node : Stmt) : CodeGen :=
  match node with
  | NODE_OUT v => collect_strings_expr cg v
  | NODE_RETURN _ v => collect_strings_expr cg v
  | NODE_IF c t e =>
      let cg := collect_strings_expr cg c in
      let cg := match t with Some s => collect_strings_stmt cg s | None => cg end in
      match e with Some s => collect_strings_stmt cg s | None => cg end
  | NODE_LET _ v => collect_strings_expr cg v
  | NODE_EXPR_STMT e => collect_strings_expr cg e
  | NODE_REPEAT c _ body =>
      fold_left collect_strings_stmt body (collect_strings_expr cg c)
  | NODE_WHILE c body =>
      fold_left collect_strings_stmt body (collect_strings_expr cg c)
  | _ => cg
  end.

Definition collect_strings_func (cg : CodeGen) (func : FuncDef) : CodeGen :=
  fold_left collect_strings_stmt (func_body func) cg.

Definition collect_strings (cg : CodeGen) (program : Program) : CodeGen :=
  fold_left collect_strings_func (functions program) cg.

(** ** Expressions *)

Inductive op_class : Type :=
  | OpArith (b : binop)
  | OpCmp (p : fpred)
  | OpLogic (l : logop)
  | OpUnknown.

(** The [strcmp] chain over the operator word of a binary node. *)
Definition classify_binop (op : string) : op_class :=
  if String.eqb op "plus" then OpArith Fadd
  else if String.eqb op "minus" then OpArith Fsub
  else if String.eqb op "times" then OpArith Fmul
  else if String.eqb op "over" then OpArith Fdiv
  else if String.eqb op "mod" then OpArith Frem
  else if String.eqb op "eq" then OpCmp Oeq
  else if String.eqb op "neq" then OpCmp One
  else if String.eqb op "lt" then OpCmp Olt
  else if String.eqb op "gt" then OpCmp Ogt
  else if String.eqb op "lte" then OpCmp Ole
  else if String.eqb op "gte" then OpCmp Oge
  else if String.eqb op "and" then OpLogic And
  else if String.eqb op "or" then OpLogic Or
  else OpUnknown.

(** One-argument and two-argument [math] functions and their intrinsics. *)
Definition math_unary (func : string) : option string :=
  if String.eqb func "abs" then Some "llvm.fabs.f64"%string
  else if String.eqb func "sqrt" then Some "llvm.sqrt.f64"%string
  else if String.eqb func "floor" then Some "llvm.floor.f64"%string
  else if String.eqb func "ceil" then Some "llvm.ceil.f64"%string
  else if String.eqb func "sin" then Some "llvm.sin.f64"%string
  else if String.eqb func "cos" then Some "llvm.cos.f64"%string
  else None.

Definition math_binary (func : string) : option string :=
  if String.eqb func "min" then Some "llvm.minnum.f64"%string
  else if String.eqb func "max" then Some "llvm.maxnum.f64"%string
  else if String.eqb func "pow" then Some "llvm.pow.f64"%string
  else None.

Definition msg_unknown_variable (name : string) : string :=
  "Error: Unknown variable '" ++ name ++ "'" ++ nl.

Definition msg_unknown_operator (op : string) : string :=
  "Error: Unknown operator '" ++ op ++ "'" ++ nl.

Definition msg_unknown_variable_in (name what : string) : string :=
  "Error: Unknown variable '" ++ name ++ "' in " ++ what ++ nl.

(** [codegen_expr] returns the register holding the value, or [-1]. *)
Fixpoint codegen_expr (node : Expr) (cg : CodeGen) {struct node} : Z * CodeGen :=
  match node with
  | NODE_NUM val =>
      let (reg, cg) := next_temp cg in
      (reg, emit cg (IBin reg Fadd (Const d0) (Const val)))
  | NODE_STR s =>
      let (reg, cg) := next_temp cg in
      let cg := emit cg (ICommentString s) in
      (reg, emit cg (IBin reg Fadd (Const d0) (Const d0)))
  | NODE_BOOL b =>
      let (reg, cg) := next_temp cg in
      (reg, emit cg (IBin reg Fadd (Const d0)
                          (Const (double_of_Z (if b then 1 else 0)))))
  | NODE_VAR name =>
      let local_reg := find_local cg name in
      if 0 <=? local_reg then
        let (reg, cg) := next_temp cg in
        (reg, emit cg (ILoad reg local_reg))
      else
        let param_idx := find_param cg name in
        if 0 <=? param_idx then
          let (reg, cg) := next_temp cg in
          (reg, emit cg (IBin reg Fadd (Const d0) (Arg param_idx)))
        else
          (-1, report cg (msg_unknown_variable name))
  | NODE_POSITIONAL index =>
      let (reg, cg) := next_temp cg in
      (reg, emit cg (IBin reg Fadd (Const d0) (Arg index)))
  | NODE_BINOP op l r =>
      let (left_reg, cg) := codegen_expr l cg in
      let (right_reg, cg) := codegen_expr r cg in
      if (left_reg <? 0) || (right_reg <? 0) then (-1, cg)
      else
        let (result_reg, cg) := next_temp cg in
        match classify_binop op with
        | OpArith b =>
            (result_reg, emit cg (IBin result_reg b (Reg left_reg) (Reg right_reg)))
        | OpCmp pred =>
            let (cmp_reg, cg) := next_temp cg in
            let cg := emit cg (IFcmp cmp_reg pred (Reg left_reg) (Reg right_reg)) in
            (result_reg, emit cg (IUitofp result_reg cmp_reg))
        | OpLogic lop =>
            let (left_bool, cg) := next_temp cg in
            let (right_bool, cg) := next_temp cg in
            let (bool_reg, cg) := next_temp cg in
            let cg := emit cg (IFcmp left_bool One (Reg left_reg) (Const d0)) in
            let cg := emit cg (IFcmp right_bool One (Reg right_reg) (Const d0)) in
            let cg := emit cg (ILogic bool_reg lop left_bool right_bool) in
            (result_reg, emit cg (IUitofp result_reg bool_reg))
        | OpUnknown => (-1, report cg (msg_unknown_operator op))
        end
  | NODE_UNARYOP op operand =>
      let (operand_reg, cg) := codegen_expr operand cg in
      if operand_reg <? 0 then (-1, cg)
      else
        let (result_reg, cg) := next_temp cg in
        if String.eqb op "not" then
          let (bool_reg, cg) := next_temp cg in
          let cg := emit cg (IFcmp bool_reg Oeq (Reg operand_reg) (Const d0)) in
          (result_reg, emit cg (IUitofp result_reg bool_reg))
        else if String.eqb op "neg" then
          (result_reg, emit cg (IBin result_reg Fsub (Const d0) (Reg operand_reg)))
        else (result_reg, cg)
  | NODE_CALL module func args =>
      let (result_reg, cg) := next_temp cg in
      match module with
      | None =>
          let cg := emit cg (ICommentCall None func) in
          let (arg_regs, cg) :=
            (fix eval_args (l : list Expr) (cg : CodeGen) {struct l}
               : list Z * CodeGen :=
               match l with
               | [] => ([], cg)
               | a :: rest =>
                   let (r, cg) := codegen_expr a cg in
                   let (rs, cg) := eval_args rest cg in
                   (r :: rs, cg)
               end) args cg in
          (result_reg, emit cg (ICall result_reg func arg_regs))
      | Some m =>
          let cg := emit cg (ICommentCall (Some m) func) in
          let unimplemented (cg : CodeGen) :=
            (result_reg, emit cg (IBin result_reg Fadd (Const d0) (Const d0))) in
          if String.eqb m "math" then
            match args with
            | [] => unimplemented cg
            | a0 :: more =>
                let (arg_reg, cg) := codegen_expr a0 cg in
                match math_unary func with
                | Some callee =>
                    (result_reg, emit cg (IIntrinsic result_reg callee [arg_reg]))
                | None =>
                    match more with
                    | [] => unimplemented cg
                    | a1 :: _ =>
                        let (arg2_reg, cg) := codegen_expr a1 cg in
                        match math_binary func with
                        | Some callee =>
                            (result_reg,
                             emit cg (IIntrinsic result_reg callee
                                                 [arg_reg; arg2_reg]))
                        | None => unimplemented cg
                        end
                    end
                end
            end
          else unimplemented cg
      end
  end.

(** The argument loop of a user call, as a function of its own. *)
Fixpoint codegen_exprs (l : list Expr) (cg : CodeGen) : list Z * CodeGen :=
  match l with
  | [] => ([], cg)
  | a :: rest =>
      let (r, cg) := codegen_expr a cg in
      let (rs, cg) := codegen_exprs rest cg in
      (r :: rs, cg)
  end.

(** ** Statements *)

Definition is_return (s : Stmt) : bool :=
  match s with NODE_RETURN _ _ => true | _ => false end.

(** [inc] and [dec] differ in the instruction and in the message only. *)
Definition codegen_incdec (op : binop) (what : string) (var_name : string)
    (amount : option Expr) (cg : CodeGen) : CodeGen :=
  let existing := find_local cg var_name in
  if existing <? 0 then report cg (msg_unknown_variable_in var_name what)
  else
    let (load_reg, cg) := next_temp cg in
    let cg := emit cg (ILoad load_reg existing) in
    let (amount_reg, cg) :=
      match amount with
      | Some e => codegen_expr e cg
      | None =>
          let (r, cg) := next_temp cg in
          (r, emit cg (IBin r Fadd (Const d0) (Const d1)))
      end in
    let (result_reg, cg) := next_temp cg in
    let cg := emit cg (IBin result_reg op (Reg load_reg) (Reg amount_reg)) in
    emit cg (IStore (Reg result_reg) existing).

(** [codegen_stmt]; [None] is the crash of the C code on
    [node->data.if_stmt.then_stmt->type] when the then arm is [NULL]. *)
Fixpoint codegen_stmt (node : Stmt) (cg : CodeGen) {struct node}
  : option CodeGen :=
  match node with
  | NODE_RETURN _ val =>
      let (val_reg, cg) := codegen_expr val cg in
      if 0 <=? val_reg then Some (emit cg (IRet (Reg val_reg))) else Some cg
  | NODE_IF condition then_stmt else_stmt =>
      let (cond_reg, cg) := codegen_expr condition cg in
      if cond_reg <? 0 then Some cg
      else
        let (bool_reg, cg) := next_temp cg in
        let (then_label, cg) := next_label cg in
        let (else_label, cg) := next_label cg in
        let (end_label, cg) := next_label cg in
        let cg := emit cg (IFcmp bool_reg One (Reg cond_reg) (Const d0)) in
        match else_stmt with
        | Some else_s =>
            let cg := emit cg (ICondBr bool_reg (L_then then_label)
                                       (L_else else_label)) in
            let cg := emit cg (ILabel (L_then then_label)) in
            match then_stmt with
            | None => None
            | Some then_s =>
                match codegen_stmt then_s cg with
                | None => None
                | Some cg =>
                    let cg := if is_return then_s then cg
                              else emit cg (IBr (L_end end_label)) in
                    let cg := emit cg (ILabel (L_else else_label)) in
                    match codegen_stmt else_s cg with
                    | None => None
                    | Some cg =>
                        let cg := if is_return else_s then cg
                                  else emit cg (IBr (L_end end_label)) in
                        Some (emit cg (ILabel (L_end end_label)))
                    end
                end
            end
        | None =>
            let cg := emit cg (ICondBr bool_reg (L_then then_label)
                                       (L_end end_label)) in
            let cg := emit cg (ILabel (L_then then_label)) in
            match then_stmt with
            | None => None
            | Some then_s =>
                match codegen_stmt then_s cg with
                | None => None
                | Some cg =>
                    let cg := if is_return then_s then cg
                              else emit cg (IBr (L_end end_label)) in
                    Some (emit cg (ILabel (L_end end_label)))
                end
            end
        end
  | NODE_LET name val =>
      let (val_reg, cg) := codegen_expr val cg in
      if val_reg <? 0 then Some cg
      else
        let existing := find_local cg name in
        if 0 <=? existing then
          Some (emit cg (IStore (Reg val_reg) existing))
        else
          let local_id := local_count cg in
          let cg := emit cg (IAlloca local_id) in
          let cg := emit cg (IStore (Reg val_reg) local_id) in
          Some (add_local cg name local_id)
  | NODE_EXPR_STMT expr => Some (snd (codegen_expr expr cg))
  | NODE_REPEAT count var_name body =>
      let (count_reg, cg) := codegen_expr count cg in
      if count_reg <? 0 then Some cg
      else
        let (loop_start, cg) := next_label cg in
        let (loop_body, cg) := next_label cg in
        let (loop_end, cg) := next_label cg in
        let counter_id := local_count cg in
        let cg := emit cg (IAlloca counter_id) in
        let cg := emit cg (IStore (Const d1) counter_id) in
        let cg := match var_name with
                  | Some name => add_local cg name counter_id
                  | None => bump_local_count cg
                  end in
        let cg := emit cg (IBr (L_loop_start loop_start)) in
        let cg := emit cg (ILabel (L_loop_start loop_start)) in
        let (counter_val, cg) := next_temp cg in
        let cg := emit cg (ILoad counter_val counter_id) in
        let (cmp_reg, cg) := next_temp cg in
        let cg := emit cg (IFcmp cmp_reg Ole (Reg counter_val) (Reg count_reg)) in
        let cg := emit cg (ICondBr cmp_reg (L_loop_body loop_body)
                                   (L_loop_end loop_end)) in
        let cg := emit cg (ILabel (L_loop_body loop_body)) in
        match
          (fix body_loop (l : list Stmt) (cg : CodeGen) {struct l}
             : option CodeGen :=
             match l with
             | [] => Some cg
             | s :: rest =>
                 match codegen_stmt s cg with
                 | None => None
                 | Some cg => body_loop rest cg
                 end
             end) body cg
        with
        | None => None
        | Some cg =>
            let (inc_load, cg) := next_temp cg in
            let (inc_add, cg) := next_temp cg in
            let cg := emit cg (ILoad inc_load counter_id) in
            let cg := emit cg (IBin inc_add Fadd (Reg inc_load) (Const d1)) in
            let cg := emit cg (IStore (Reg inc_add) counter_id) in
            let cg := emit cg (IBr (L_loop_start loop_start)) in
            Some (emit cg (ILabel (L_loop_end loop_end)))
        end
  | NODE_WHILE condition body =>
      let (loop_start, cg) := next_label cg in
      let (loop_body, cg) := next_label cg in
      let (loop_end, cg) := next_label cg in
      let cg := emit cg (IBr (L_while_start loop_start)) in
      let cg := emit cg (ILabel (L_while_start loop_start)) in
      let (cond_reg, cg) := codegen_expr condition cg in
      if cond_reg <? 0 then Some cg
      else
        let (bool_reg, cg) := next_temp cg in
        let cg := emit cg (IFcmp bool_reg One (Reg cond_reg) (Const d0)) in
        let cg := emit cg (ICondBr bool_reg (L_while_body loop_body)
                                   (L_while_end loop_end)) in
        let cg := emit cg (ILabel (L_while_body loop_body)) in
        match
          (fix body_loop (l : list Stmt) (cg : CodeGen) {struct l}
             : option CodeGen :=
             match l with
             | [] => Some cg
             | s :: rest =>
                 match codegen_stmt s cg with
                 | None => None
                 | Some cg => body_loop rest cg
                 end
             end) body cg
        with
        | None => None
        | Some cg =>
            let cg := emit cg (IBr (L_while_start loop_start)) in
            Some (emit cg (ILabel (L_while_end loop_end)))
        end
  | NODE_INC var_name amount =>
      Some (codegen_incdec Fadd "inc" var_name amount cg)
  | NODE_DEC var_name amount =>
      Some (codegen_incdec Fsub "dec" var_name amount cg)
  | NODE_OUT val =>
      match val with
      | NODE_STR s =>
          let (str_id, cg) := next_string cg in
          let (ptr_reg, cg) := next_temp cg in
          let cg := emit cg (IGetStr ptr_reg (strlen s + 1) str_id) in
          Some (emit cg (IPrintfStr ptr_reg))
      | _ =>
          let (val_reg, cg) := codegen_expr val cg in
          if 0 <=? val_reg then Some (emit cg (IPrintfNum val_reg)) else Some cg
      end
  end.

(** The statement loop of a block or of a function body. *)
Fixpoint codegen_stmts (body : list Stmt) (cg : CodeGen) : option CodeGen :=
  match body with
  | [] => Some cg
  | s :: rest =>
      match codegen_stmt s cg with
      | None => None
      | Some cg => codegen_stmts rest cg
      end
  end.

(** ** Functions and the whole program *)

Definition codegen_func (func : FuncDef) (cg : CodeGen) : option CodeGen :=
  let cg := clear_locals cg in
  let cg := set_params cg (params func) in
  let cg := emit cg (IDefine (func_name func)
                             (Z.of_nat (List.length (params func)))) in
  let cg := emit cg (ILabel L_entry) in
  match codegen_stmts (func_body func) cg with
  | None => None
  | Some cg =>
      let has_return := existsb is_return (func_body func) in
      let cg := if has_return then cg else emit cg (IRet (Const d0)) in
      let cg := emit cg IFuncEnd in
      Some (set_params cg [])
  end.

Fixpoint codegen_funcs (funcs : list FuncDef) (cg : CodeGen) : option CodeGen :=
  match funcs with
  | [] => Some cg
  | f :: rest =>
      match codegen_func f cg with
      | None => None
      | Some cg => codegen_funcs rest cg
      end
  end.

Definition dq : string := String DQUOTE EmptyString.

Definition preamble : list ir_line :=
  [ IText "; NERD Compiled Program";
    IText "; Generated by NERD Bootstrap Compiler";
    IText "";
    IText "declare double @llvm.fabs.f64(double)";
    IText "declare double @llvm.sqrt.f64(double)";
    IText "declare double @llvm.floor.f64(double)";
    IText "declare double @llvm.ceil.f64(double)";
    IText "declare double @llvm.sin.f64(double)";
    IText "declare double @llvm.cos.f64(double)";
    IText "declare double @llvm.pow.f64(double, double)";
    IText "declare double @llvm.minnum.f64(double, double)";
    IText "declare double @llvm.maxnum.f64(double, double)";
    IText "";
    IText "declare i32 @printf(i8*, ...)";
    IText "";
    IText ("@.fmt_num = private constant [4 x i8] c" ++ dq ++ "%g\0A\00" ++ dq);
    IText ("@.fmt_str = private constant [4 x i8] c" ++ dq ++ "%s\0A\00" ++ dq);
    IText ("@.fmt_int = private constant [6 x i8] c" ++ dq ++ "%.0f\0A\00" ++ dq);
    IText "" ].

(** The string table: one constant per collected literal, then an empty
    line when there is at least one. *)
Fixpoint emit_string_table (i : Z) (strs : list string) (cg : CodeGen)
  : CodeGen :=
  match strs with
  | [] => cg
  | s :: rest =>
      emit_string_table (i + 1) rest (emit cg (IStrConst i (strlen s + 1) s))
  end.

(** [codegen_llvm] once the output file is open: the lines written and the
    diagnostics, or [None] when the emitter crashes.  The C function returns
    [true] in every case in which it returns after opening the file. *)
Definition codegen_program (program : Program) : option CodeGen :=
  let cg := emit_all codegen_create preamble in
  let cg := collect_strings cg program in
  let cg := emit_string_table 0 (string_literals cg) cg in
  let cg := match string_literals cg with
            | [] => cg
            | _ :: _ => emit cg (IText "")
            end in
  codegen_funcs (functions program) cg.

(* ================================================================== *)
(** * Driver ([main.c]) *)
(* ================================================================== *)

(** What the commands see of the outside world: the content of a file
    that can be read, whether a path can be opened for writing, and what
    [system] does with a command line: the value it returns (0 when the
    command succeeded; for a command that ran, a wait status and not its
    exit code) and the files that exist afterwards. *)
Record World : Type := mkWorld {
  read_file  : string -> option string;
  can_write  : string -> bool;
  run_system : string -> list string -> Z * list string
}.

(** How a command ends: it returns [status], which [main] returns in its
    turn (for 0 and 1 this is the exit status of the process), or it is
    killed by the crash of the emitter. *)
Inductive ending : Type :=
  | Exited (status : Z)
  | Crashed.

(** The result of a command: how it ended, the files present afterwards
    (paths only), what went to [stdout] and [stderr], and the IR written to
    the output file when the emitter ran. *)
Record Outcome : Type := mkOutcome {
  ended    : ending;
  files    : list string;
  printed  : list string;
  errors   : list string;
  ir       : list ir_line
}.

Definition file_exists (path : string) (fs : list string) : bool :=
  existsb (String.eqb path) fs.

Definition create_file (path : string) (fs : list string) : list string :=
  if file_exists path fs then fs else fs ++ [path].

Definition remove_file (path : string) (fs : list string) : list string :=
  filter (fun f => negb (String.eqb path f)) fs.

Definition first_char_is_dash (s : string) : bool :=
  match s with
  | String c _ => Ascii.eqb c "-"
  | EmptyString => false
  end.

(** The argument loop of [cmd_compile]: [-o OUT] pairs and input names;
    the last of each wins. *)
Fixpoint compile_args (argv : list string) (input output : option string)
  : option string * option string :=
  match argv with
  | [] => (input, output)
  | a :: rest =>
      if String.eqb a "-o" then
        match rest with
        | o :: rest' => compile_args rest' input (Some o)
        | [] => (input, output)
        end
      else if negb (first_char_is_dash a) then compile_args rest (Some a) output
      else compile_args rest input output
  end.

(** The argument loop of the other commands: the first argument that does
    not start with a dash. *)
Definition first_input (argv : list string) : option string :=
  find (fun a => negb (first_char_is_dash a)) argv.

(** [strrchr(s, '.')] then [*dot = 0]: [s] cut before its last dot. *)
Fixpoint cut_at_last_dot (s : string) : option string :=
  match s with
  | EmptyString => None
  | String c rest =>
      match cut_at_last_dot rest with
      | Some r => Some (String c r)
      | None => if Ascii.eqb c "." then Some EmptyString else None
      end
  end.

(** The default output path: the first 255 characters of the input path,
    cut at the last dot, with [.ll] appended.  The C code builds it in a
    buffer of 256 bytes: this is what it holds when the part kept is at
    most 252 characters long; for a longer one [strcat] writes past the
    buffer, which the model does not follow. *)
Definition default_output (input_file : string) : string :=
  let buf := String.substring 0 255 input_file in
  match cut_at_last_dot buf with
  | Some stem => stem ++ ".ll"
  | None => buf ++ ".ll"
  end.

Definition msg_no_input : string := "Error: No input file specified" ++ nl.
Definition msg_open_output : string := "Error: Failed to open output file" ++ nl.

Definition stop (status : Z) (fs : list string) (errs : list string) : Outcome :=
  {| ended := Exited status; files := fs; printed := []; errors := errs;
     ir := [] |}.

(** [cmd_compile].  The diagnostics of [read_file], of the lexer and of the
    parser are not modelled; those of the emitter are. *)
Definition cmd_compile (w : World) (argv : list string) (fs : list string)
  : Outcome :=
  match compile_args argv None None with
  | (None, _) => stop 1 fs [msg_no_input]
  | (Some input_file, output) =>
      let output_file :=
        match output with
        | Some o => o
        | None => default_output input_file
        end in
      match read_file w input_file with
      | None => stop 1 fs []
      | Some src =>
          match front_end src with
          | None => stop 1 fs []
          | Some ast =>
              if can_write w output_file then
                match codegen_program ast with
                | None =>
                    {| ended := Crashed; files := create_file output_file fs;
                       printed := []; errors := []; ir := [] |}
                | Some cg =>
                    {| ended := Exited 0;
                       files := create_file output_file fs;
                       printed := [("Compiled " ++ input_file ++ " -> "
                                      ++ output_file ++ nl)%string];
                       errors := err cg; ir := out cg |}
                end
              else stop 1 fs [msg_open_output]
          end
      end
  end.

Definition tmp_ll : string := "/tmp/nerd_out.ll".
Definition tmp_main : string := "/tmp/nerd_main.ll".
Definition tmp_combined : string := "/tmp/nerd_combined.ll".
Definition tmp_bin : string := "/tmp/nerd_run".

Definition temp_files : list string := [tmp_ll; tmp_main; tmp_combined; tmp_bin].

Definition cat_command : string :=
  "cat " ++ tmp_ll ++ " " ++ tmp_main ++ " > " ++ tmp_combined.

Definition clang_command : string :=
  "clang -w " ++ tmp_combined ++ " -o " ++ tmp_bin.

Definition msg_temp_file : string := "Error: Cannot create temp file" ++ nl.
Definition msg_combine : string := "Error: Failed to combine files" ++ nl.
Definition msg_clang : string :=
  "Error: clang compilation failed. Check " ++ tmp_combined ++ nl.

(** [cmd_run].  The text of the synthesised entry routine is not modelled,
    only the file it is written to.  The command returns what [system]
    returned for the executable. *)
Definition cmd_run (w : World) (argv : list string) (fs : list string)
  : Outcome :=
  match first_input argv with
  | None => stop 1 fs [msg_no_input]
  | Some input_file =>
      match read_file w input_file with
      | None => stop 1 fs []
      | Some src =>
          match front_end src with
          | None => stop 1 fs []
          | Some ast =>
              if can_write w tmp_ll then
                match codegen_program ast with
                | None =>
                    {| ended := Crashed; files := create_file tmp_ll fs;
                       printed := []; errors := []; ir := [] |}
                | Some cg =>
                    let fs := create_file tmp_ll fs in
                    if can_write w tmp_main then
                      let fs := create_file tmp_main fs in
                      let (cat_status, fs) := run_system w cat_command fs in
                      if negb (cat_status =? 0) then
                        {| ended := Exited 1; files := fs; printed := [];
                           errors := err cg ++ [msg_combine]; ir := out cg |}
                      else
                        let (clang_status, fs) :=
                          run_system w clang_command fs in
                        if negb (clang_status =? 0) then
                          {| ended := Exited 1; files := fs; printed := [];
                             errors := err cg ++ [msg_clang]; ir := out cg |}
                        else
                          let (result, fs) := run_system w tmp_bin fs in
                          let fs := remove_file tmp_ll fs in
                          let fs := remove_file tmp_main fs in
                          let fs := remove_file tmp_combined fs in
                          let fs := remove_file tmp_bin fs in
                          {| ended := Exited result; files := fs;
                             printed := []; errors := err cg; ir := out cg |}
                    else
                      {| ended := Exited 1; files := fs; printed := [];
                         errors := err cg ++ [msg_temp_file]; ir := out cg |}
                end
              else stop 1 fs [msg_open_output]
          end
      end
  end.

(** ** The [tokens] command *)

(** [token_name]; the [default] branch of the C switch is not reached for
    a value of the enumeration. *)
Definition token_name (t : TokenType) : string :=
  match t with
  | TOK_FN => "FN" | TOK_RET => "RET" | TOK_TYPE => "TYPE" | TOK_IF => "IF"
  | TOK_ELSE => "ELSE" | TOK_OR => "OR" | TOK_OK => "OK" | TOK_ERR => "ERR"
  | TOK_LET => "LET" | TOK_CALL => "CALL" | TOK_OUT => "OUT"
  | TOK_DONE => "DONE" | TOK_REPEAT => "REPEAT" | TOK_AS => "AS"
  | TOK_WHILE => "WHILE" | TOK_NEG => "NEG" | TOK_INC => "INC"
  | TOK_DEC => "DEC"
  | TOK_NUM => "NUM" | TOK_INT => "INT" | TOK_STR => "STR"
  | TOK_BOOL => "BOOL" | TOK_VOID => "VOID"
  | TOK_PLUS => "PLUS" | TOK_MINUS => "MINUS" | TOK_TIMES => "TIMES"
  | TOK_OVER => "OVER" | TOK_MOD => "MOD" | TOK_EQ => "EQ" | TOK_NEQ => "NEQ"
  | TOK_LT => "LT" | TOK_GT => "GT" | TOK_LTE => "LTE" | TOK_GTE => "GTE"
  | TOK_AND => "AND" | TOK_NOT => "NOT"
  | TOK_FIRST => "FIRST" | TOK_SECOND => "SECOND" | TOK_THIRD => "THIRD"
  | TOK_FOURTH => "FOURTH"
  | TOK_ZERO => "ZERO" | TOK_ONE => "ONE" | TOK_TWO => "TWO"
  | TOK_THREE => "THREE" | TOK_FOUR => "FOUR" | TOK_FIVE => "FIVE"
  | TOK_SIX => "SIX" | TOK_SEVEN => "SEVEN" | TOK_EIGHT => "EIGHT"
  | TOK_NINE => "NINE" | TOK_TEN => "TEN"
  | TOK_MATH => "MATH" | TOK_LIST => "LIST" | TOK_TIME => "TIME"
  | TOK_HTTP => "HTTP" | TOK_JSON => "JSON"
  | TOK_NUMBER => "NUMBER" | TOK_STRING => "STRING" | TOK_IDENT => "IDENT"
  | TOK_NEWLINE => "NEWLINE" | TOK_EOF => "EOF"
  end%string.

(** What [cmd_tokens] prints for one token: [NAME(value) ]. *)
Definition token_entry (t : Token) : string :=
  (token_name (ttype t) ++ "(" ++ value t ++ ") ")%string.

Definition msg_tokens : string := "=== Tokens ===" ++ nl.

(** [cmd_tokens].  The diagnostics of [read_file] and of the lexer are not
    modelled. *)
Definition cmd_tokens (w : World) (argv : list string) (fs : list string)
  : Outcome :=
  match first_input argv with
  | None => stop 1 fs [msg_no_input]
  | Some input_file =>
      match read_file w input_file with
      | None => stop 1 fs []
      | Some src =>
          match lexer_tokenize src with
          | LexOk lx =>
              {| ended := Exited 0; files := fs;
                 printed :=
                   [msg_tokens]
                   ++ map token_entry
                        (filter (fun t => negb (tok_eqb (ttype t) TOK_NEWLINE))
                                (ltokens lx))
                   ++ [nl];
                 errors := []; ir := [] |}
          | _ => stop 1 fs []
          end
      end
  end.

(* ================================================================== *)
(** * The text of the emitted lines *)
(* ================================================================== *)

Definition string_of_Z (z : Z) : string :=
  DecimalString.NilZero.string_of_int (Z.to_int z).

Definition hex_digit (n : nat) : ascii :=
  if (n <? 10)%nat then ascii_of_nat (48 + n) else ascii_of_nat (55 + n).

(** [%02X] of a byte. *)
Definition hex2 (c : ascii) : string :=
  let n := nat_of_ascii c in
  String (hex_digit (n / 16)) (String (hex_digit (n mod 16)) EmptyString).

(** The bytes of a string constant as [codegen_llvm] writes them. *)
Fixpoint escape_bytes (s : string) : string :=
  match s with
  | EmptyString => EmptyString
  | String c rest =>
      (if Ascii.eqb c BACKSLASH || Ascii.eqb c DQUOTE then "\" ++ hex2 c
       else if (32 <=? nat_of_ascii c)%nat && (nat_of_ascii c <? 127)%nat
            then String c EmptyString
       else "\" ++ hex2 c) ++ escape_bytes rest
  end.

Definition label_name (l : label) : string :=
  match l with
  | L_entry => "entry"
  | L_then k => "then" ++ string_of_Z k
  | L_else k => "else" ++ string_of_Z k
  | L_end k => "end" ++ string_of_Z k
  | L_loop_start k => "loop_start" ++ string_of_Z k
  | L_loop_body k => "loop_body" ++ string_of_Z k
  | L_loop_end k => "loop_end" ++ string_of_Z k
  | L_while_start k => "while_start" ++ string_of_Z k
  | L_while_body k => "while_body" ++ string_of_Z k
  | L_while_end k => "while_end" ++ string_of_Z k
  end.

Definition binop_name (op : binop) : string :=
  match op with
  | Fadd => "fadd" | Fsub => "fsub" | Fmul => "fmul" | Fdiv => "fdiv"
  | Frem => "frem"
  end.

Definition fpred_name (p : fpred) : string :=
  match p with
  | Oeq => "oeq" | One => "one" | Olt => "olt" | Ogt => "ogt"
  | Ole => "ole" | Oge => "oge"
  end.

Definition logop_name (l : logop) : string :=
  match l with And => "and" | Or => "or" end.

Definition temp_name (r : Z) : string := "%t" ++ string_of_Z r.

Fixpoint join_args (args : list Z) : string :=
  match args with
  | [] => EmptyString
  | [a] => "double " ++ temp_name a
  | a :: rest => "double " ++ temp_name a ++ ", " ++ join_args rest
  end.

Fixpoint join_params (i : Z) (n : nat) : string :=
  match n with
  | O => EmptyString
  | S O => "double %arg" ++ string_of_Z i
  | S n' => "double %arg" ++ string_of_Z i ++ ", " ++ join_params (i + 1) n'
  end.

Section Render.

(** The [%e] conversion of the C library, used for a literal that is not an
    integer of magnitude at most 1e15.  It is a parameter of the rendering:
    no such literal occurs in what follows. *)
Variable printf_e : double -> string.

(** A literal operand: [%.1f] of an integral value, else [%e].  The test
    is made on the exact value, where the C code tests the [double]. *)
Definition show_double (v : double) : string :=
  let q := Qred v in
  if (Zpos (Qden q) =? 1) && (- 10 ^ 15 <=? Qnum q) && (Qnum q <=? 10 ^ 15)
  then string_of_Z (Qnum q) ++ ".0"
  else printf_e v.

Definition show_operand (o : operand) : string :=
  match o with
  | Reg r => temp_name r
  | Arg i => "%arg" ++ string_of_Z i
  | Const v => show_double v
  end.

Definition printf_call (fmt arg : string) : string :=
  "  call i32 (i8*, ...) @printf(i8* getelementptr ([4 x i8], [4 x i8]* @."
  ++ fmt ++ ", i32 0, i32 0), " ++ arg ++ ")".

(** The characters one emitted line puts in the output file. *)
Definition render_line (l : ir_line) : string :=
  match l with
  | IText text => text ++ nl
  | IStrConst idx len s =>
      "@.str" ++ string_of_Z idx ++ " = private constant [" ++ string_of_Z len
      ++ " x i8] c" ++ dq ++ escape_bytes s ++ "\00" ++ dq ++ nl
  | IDefine name nparams =>
      "define double @" ++ name ++ "(" ++ join_params 0 (Z.to_nat nparams)
      ++ ") {" ++ nl
  | IFuncEnd => "}" ++ nl ++ nl
  | ILabel lbl => label_name lbl ++ ":" ++ nl
  | ICommentString s => "  ; string: " ++ dq ++ s ++ dq ++ nl
  | ICommentCall None func => "  ; call " ++ func ++ nl
  | ICommentCall (Some m) func => "  ; call " ++ m ++ "." ++ func ++ nl
  | IBin r op a b =>
      "  " ++ temp_name r ++ " = " ++ binop_name op ++ " double "
      ++ show_operand a ++ ", " ++ show_operand b ++ nl
  | IFcmp r pred a b =>
      "  " ++ temp_name r ++ " = fcmp " ++ fpred_name pred ++ " double "
      ++ show_operand a ++ ", " ++ show_operand b ++ nl
  | IUitofp r a =>
      "  " ++ temp_name r ++ " = uitofp i1 " ++ temp_name a ++ " to double" ++ nl
  | ILogic r op a b =>
      "  " ++ temp_name r ++ " = " ++ logop_name op ++ " i1 " ++ temp_name a
      ++ ", " ++ temp_name b ++ nl
  | ILoad r slot =>
      "  " ++ temp_name r ++ " = load double, double* %local"
      ++ string_of_Z slot ++ nl
  | IStore v slot =>
      "  store double " ++ show_operand v ++ ", double* %local"
      ++ string_of_Z slot ++ nl
  | IAlloca slot => "  %local" ++ string_of_Z slot ++ " = alloca double" ++ nl
  | ICall r func args =>
      "  " ++ temp_name r ++ " = call double @" ++ func ++ "("
      ++ join_args args ++ ")" ++ nl
  | IIntrinsic r callee args =>
      "  " ++ temp_name r ++ " = call double @" ++ callee ++ "("
      ++ join_args args ++ ")" ++ nl
  | IGetStr r len idx =>
      "  " ++ temp_name r ++ " = getelementptr [" ++ string_of_Z len
      ++ " x i8], [" ++ string_of_Z len ++ " x i8]* @.str" ++ string_of_Z idx
      ++ ", i32 0, i32 0" ++ nl
  | IPrintfStr r => printf_call "fmt_str" ("i8* " ++ temp_name r) ++ nl
  | IPrintfNum r => printf_call "fmt_num" ("double " ++ temp_name r) ++ nl
  | IRet v => "  ret double " ++ show_operand v ++ nl
  | IBr lbl => "  br label %" ++ label_name lbl ++ nl
  | ICondBr r l1 l2 =>
      "  br i1 " ++ temp_name r ++ ", label %" ++ label_name l1
      ++ ", label %" ++ label_name l2 ++ nl
  end%string.

Definition render (ls : list ir_line) : string :=
  String.concat EmptyString (map render_line ls).

End Render.

(* ================================================================== *)
(** * Basic blocks of the emitted lines *)
(* ================================================================== *)

Definition is_terminator (l : ir_line) : bool :=
  match l with
  | IRet _ | IBr _ | ICondBr _ _ _ => true
  | _ => false
  end.

Definition is_instruction (l : ir_line) : bool :=
  match l with
  | IText _ | IStrConst _ _ _ | IDefine _ _ | IFuncEnd | ILabel _
  | ICommentString _ | ICommentCall _ _ => false
  | _ => true
  end.

(** The instructions of each basic block, in order: a label line opens a
    block, and the closing brace of the function closes the last one.
    [cur] is the block being read, if one is open. *)
Fixpoint split_blocks (cur : option (list ir_line)) (ls : list ir_line)
  : list (list ir_line) :=
  match ls with
  | [] => match cur with Some b => [b] | None => [] end
  | l :: rest =>
      match l with
      | ILabel _ =>
          match cur with
          | Some b => b :: split_blocks (Some []) rest
          | None => split_blocks (Some []) rest
          end
      | IFuncEnd =>
          match cur with
          | Some b => b :: split_blocks None rest
          | None => split_blocks None rest
          end
      | _ =>
          if is_instruction l then
            match cur with
            | Some b => split_blocks (Some (b ++ [l])) rest
            | None => split_blocks (Some [l]) rest
            end
          else split_blocks cur rest
      end
  end.

Definition basic_blocks (ls : list ir_line) : list (list ir_line) :=
  split_blocks None ls.

(** A block ends with exactly one terminator: its last instruction is a
    branch or a return and no earlier one is. *)
Definition well_terminated (block : list ir_line) : bool :=
  match rev block with
  | [] => false
  | last :: before =>
      is_terminator last && forallb (fun l => negb (is_terminator l)) before
  end.

Definition blocks_well_terminated (ls : list ir_line) : bool :=
  forallb well_terminated (basic_blocks ls).

(** The register a line assigns, if any. *)
Definition def_reg (l : ir_line) : option Z :=
  match l with
  | IBin r _ _ _ | IFcmp r _ _ _ | IUitofp r _ | ILogic r _ _ _ | ILoad r _
  | ICall r _ _ | IIntrinsic r _ _ | IGetStr r _ _ => Some r
  | _ => None
  end.

(* ================================================================== *)
(** * A reference semantics for the emitted instructions *)
(* ================================================================== *)

(** Enough of the meaning of the IR to run the scenario functions: exact
    arithmetic on [double]s, one-bit values, stack slots, branches.  Calls,
    [frem] and a division by zero are outside it. *)
Inductive ir_value : Type :=
  | VDouble (q : double)
  | VBit (b : bool).

Record machine : Type := mkMachine {
  regs  : list (Z * ir_value);
  slots : list (Z * double)
}.

Fixpoint assoc {A : Type} (k : Z) (l : list (Z * A)) : option A :=
  match l with
  | [] => None
  | (k', v) :: rest => if k =? k' then Some v else assoc k rest
  end.

Definition set_reg (m : machine) (r : Z) (v : ir_value) : machine :=
  {| regs := (r, v) :: regs m; slots := slots m |}.

Definition set_slot (m : machine) (s : Z) (q : double) : machine :=
  {| regs := regs m; slots := (s, q) :: slots m |}.

Definition eval_operand (args : list double) (m : machine) (o : operand)
  : option double :=
  match o with
  | Reg r => match assoc r (regs m) with Some (VDouble q) => Some q | _ => None end
  | Arg i => if i <? 0 then None else nth_error args (Z.to_nat i)
  | Const v => Some v
  end.

Definition eval_bit (m : machine) (r : Z) : option bool :=
  match assoc r (regs m) with Some (VBit b) => Some b | _ => None end.

Definition eval_binop (op : binop) (a b : double) : option double :=
  match op with
  | Fadd => Some (Qred (a + b))
  | Fsub => Some (Qred (a - b))
  | Fmul => Some (Qred (a * b))
  | Fdiv => if Qeq_bool b 0 then None else Some (Qred (a / b))
  | Frem => None
  end.

Definition eval_fpred (p : fpred) (a b : double) : bool :=
  match p with
  | Oeq => Qeq_bool a b
  | One => negb (Qeq_bool a b)
  | Olt => Qle_bool a b && negb (Qeq_bool a b)
  | Ogt => Qle_bool b a && negb (Qeq_bool a b)
  | Ole => Qle_bool a b
  | Oge => Qle_bool b a
  end.

(** One line that is not a branch or a return. *)
Definition exec_line (args : list double) (l : ir_line) (m : machine)
  : option machine :=
  match l with
  | ICommentString _ | ICommentCall _ _ | IAlloca _ => Some m
  | IBin r op a b =>
      match eval_operand args m a, eval_operand args m b with
      | Some x, Some y =>
          match eval_binop op x y with
          | Some z => Some (set_reg m r (VDouble z))
          | None => None
          end
      | _, _ => None
      end
  | IFcmp r pred a b =>
      match eval_operand args m a, eval_operand args m b with
      | Some x, Some y => Some (set_reg m r (VBit (eval_fpred pred x y)))
      | _, _ => None
      end
  | IUitofp r a =>
      match eval_bit m a with
      | Some b => Some (set_reg m r (VDouble (if b then d1 else d0)))
      | None => None
      end
  | ILogic r op a b =>
      match eval_bit m a, eval_bit m b with
      | Some x, Some y =>
          Some (set_reg m r (VBit (match op with And => x && y | Or => x || y end)))
      | _, _ => None
      end
  | ILoad r s =>
      match assoc s (slots m) with
      | Some q => Some (set_reg m r (VDouble q))
      | None => None
      end
  | IStore v s =>
      match eval_operand args m v with
      | Some q => Some (set_slot m s q)
      | None => None
      end
  | _ => None
  end.

Fixpoint label_index (lbl_eq : label -> bool) (ls : list ir_line) (i : nat)
  : option nat :=
  match ls with
  | [] => None
  | ILabel l :: rest =>
      if lbl_eq l then Some i else label_index lbl_eq rest (S i)
  | _ :: rest => label_index lbl_eq rest (S i)
  end.

Definition label_eqb (a b : label) : bool :=
  match a, b with
  | L_entry, L_entry => true
  | L_then x, L_then y | L_else x, L_else y | L_end x, L_end y
  | L_loop_start x, L_loop_start y | L_loop_body x, L_loop_body y
  | L_loop_end x, L_loop_end y | L_while_start x, L_while_start y
  | L_while_body x, L_while_body y | L_while_end x, L_while_end y => x =? y
  | _, _ => false
  end.

Inductive run_result : Type :=
  | Returned (q : double)
  | Stuck
  | OutOfFuel.

(** Execution of the lines of one function from line [pc] on.  Control
    reaches a label only through a branch. *)
Fixpoint run (fuel : nat) (code : list ir_line) (args : list double)
    (pc : nat) (m : machine) : run_result :=
  match fuel with
  | O => OutOfFuel
  | S fuel' =>
      match nth_error code pc with
      | None => Stuck
      | Some (IRet v) =>
          match eval_operand args m v with
          | Some q => Returned q
          | None => Stuck
          end
      | Some (IBr l) =>
          match label_index (label_eqb l) code 0 with
          | Some i => run fuel' code args (S i) m
          | None => Stuck
          end
      | Some (ICondBr r l1 l2) =>
          match eval_bit m r with
          | Some b =>
              match label_index (label_eqb (if b then l1 else l2)) code 0 with
              | Some i => run fuel' code args (S i) m
              | None => Stuck
              end
          | None => Stuck
          end
      | Some l =>
          match exec_line args l m with
          | Some m' => run fuel' code args (S pc) m'
          | None => Stuck
          end
      end
  end.

(** The lines of the function [name] in an output: from its [define] line
    up to, not including, the closing brace. *)
Fixpoint function_lines (name : string) (ls : list ir_line) : list ir_line :=
  match ls with
  | [] => []
  | IDefine n _ :: rest =>
      if String.eqb n name then
        (fix upto_end (l : list ir_line) : list ir_line :=
           match l with
           | [] => []
           | IFuncEnd :: _ => []
           | x :: l' => x :: upto_end l'
           end) rest
      else function_lines name rest
  | _ :: rest => function_lines name rest
  end.

(** Calling an emitted function: execution starts after its [entry:] line. *)
Definition call_function (fuel : nat) (ls : list ir_line) (name : string)
    (args : list double) : run_result :=
  run fuel (function_lines name ls) args 1 {| regs := []; slots := [] |}.

(** Compile a source text and call one of its functions. *)
Definition compile_and_call (fuel : nat) (src name : string)
    (args : list double) : run_result :=
  match front_end src with
  | None => Stuck
  | Some prog =>
      match codegen_program prog with
      | None => Stuck
      | Some cg => call_function fuel (out cg) name args
      end
  end.

(* ================================================================== *)
(** * Scenarios and vocabulary of the properties *)
(* ================================================================== *)

(** A token with the given kind and lexeme (the position plays no role in
    the tree). *)
Definition tok (t : TokenType) (v : string) : Token :=
  {| ttype := t; value := v; line := 1; column := 1 |}.

(** A world in which one source file can be read, every path can be
    written, and [system] runs [sys]. *)
Definition world_with (path src : string)
    (sys : string -> list string -> Z * list string) : World :=
  {| read_file := fun p => if String.eqb p path then Some src else None;
     can_write := fun _ => true;
     run_system := sys |}.

(** External commands that all succeed: [cat] leaves the combined file,
    [clang] the executable, and [system] returns [status] for the
    executable. *)
Definition toolchain_ok (status : Z) (cmd : string) (fs : list string)
  : Z * list string :=
  if String.eqb cmd cat_command then (0, create_file tmp_combined fs)
  else if String.eqb cmd clang_command then (0, create_file tmp_bin fs)
  else (status, fs).

(** The same, with a [clang] that rejects the combined file. *)
Definition toolchain_clang_fails (cmd : string) (fs : list string)
  : Z * list string :=
  if String.eqb cmd cat_command then (0, create_file tmp_combined fs)
  else if String.eqb cmd clang_command then (1, fs)
  else (0, fs).

(** A function that returns a name bound nowhere. *)
Definition src_unknown_name : string := "fn f" ++ nl ++ "ret x" ++ nl.

(** A function that returns from inside a loop. *)
Definition src_return_in_loop : string :=
  "fn f x" ++ nl ++ "while x gt zero" ++ nl ++ "ret x" ++ nl ++ "done" ++ nl
  ++ "ret zero" ++ nl.

(** A function with a statement after its return. *)
Definition src_after_return : string :=
  "fn f x" ++ nl ++ "ret x" ++ nl ++ "out x" ++ nl.

(** Two loops in a row over the same loop variable. *)
Definition src_two_loops : string :=
  "fn f n" ++ nl ++ "let s zero" ++ nl ++
  "repeat n times as i" ++ nl ++ "inc s i" ++ nl ++ "done" ++ nl ++
  "repeat n times as i" ++ nl ++ "inc s i" ++ nl ++ "done" ++ nl ++
  "ret s" ++ nl.

(** A loop whose body changes the variable its count was read from. *)
Definition src_count_changed : string :=
  "fn f n" ++ nl ++ "let k n" ++ nl ++ "let s zero" ++ nl ++
  "repeat k times as i" ++ nl ++ "inc k" ++ nl ++ "inc s" ++ nl ++ "done"
  ++ nl ++ "ret s" ++ nl.

(** A loop whose count is read from the parameter [i] and whose counter
    is named [i] too, with a body that increments [i], and the same loop
    without that increment. *)
Definition src_loop_variable_changed : string :=
  "fn f i" ++ nl ++ "let s zero" ++ nl ++
  "repeat i times as i" ++ nl ++ "inc i" ++ nl ++ "inc s" ++ nl ++ "done"
  ++ nl ++ "ret s" ++ nl.

Definition src_loop_variable_kept : string :=
  "fn f i" ++ nl ++ "let s zero" ++ nl ++
  "repeat i times as i" ++ nl ++ "inc s" ++ nl ++ "done"
  ++ nl ++ "ret s" ++ nl.

(** An [if] block of two statements. *)
Definition src_two_statement_block : string :=
  "fn f x" ++ nl ++ "if x gt zero" ++ nl ++ "out one" ++ nl ++ "out two"
  ++ nl ++ "done" ++ nl ++ "ret x" ++ nl.

(** The function lines the emitter writes for a source text. *)
Definition emitted (src : string) : option (list ir_line * list string) :=
  match front_end src with
  | None => None
  | Some prog =>
      match codegen_program prog with
      | None => None
      | Some cg => Some (skipn (List.length preamble) (out cg), err cg)
      end
  end.

(** The lines expected for the function of scenario S4. *)
Definition S4_lines : list ir_line :=
  [ IDefine "g" 1; ILabel L_entry;
    IBin 0 Fadd (Const d0) (Arg 0);
    IBin 1 Fadd (Const d0) (Const d0);
    IFcmp 3 Ogt (Reg 0) (Reg 1);
    IUitofp 2 3;
    IFcmp 4 One (Reg 2) (Const d0);
    ICondBr 4 (L_then 0) (L_else 1);
    ILabel (L_then 0);
    IBin 5 Fadd (Const d0) (Arg 0);
    IRet (Reg 5);
    ILabel (L_else 1);
    IBin 6 Fadd (Const d0) (Const d0);
    IRet (Reg 6);
    ILabel (L_end 2);
    IRet (Const d0);
    IFuncEnd ].

(** The tokens that open a module-qualified call in [parse_call]. *)
Definition module_tokens : list TokenType :=
  [TOK_MATH; TOK_STR; TOK_LIST; TOK_TIME; TOK_HTTP; TOK_JSON; TOK_ERR].

(** The five module names of the token enumeration. *)
Definition module_names : list TokenType :=
  [TOK_MATH; TOK_LIST; TOK_TIME; TOK_HTTP; TOK_JSON].

Definition is_module_call (e : Expr) : bool :=
  match e with
  | NODE_CALL (Some _) _ _ => true
  | _ => false
  end.

(** The binary operator tokens. *)
Definition binary_operators : list TokenType :=
  [TOK_PLUS; TOK_MINUS; TOK_TIMES; TOK_OVER; TOK_MOD; TOK_EQ; TOK_NEQ;
   TOK_LT; TOK_GT; TOK_LTE; TOK_GTE; TOK_AND; TOK_OR].

(** The keywords at which [is_end_of_expr] ends an argument list. *)
Definition boundary_keywords : list TokenType :=
  [TOK_RET; TOK_LET; TOK_IF; TOK_ELSE; TOK_CALL; TOK_OUT; TOK_DONE;
   TOK_REPEAT; TOK_AS; TOK_WHILE].

(** The keywords that open a statement form of the language. *)
Definition statement_keywords : list TokenType :=
  [TOK_RET; TOK_OUT; TOK_LET; TOK_INC; TOK_DEC; TOK_IF; TOK_REPEAT; TOK_WHILE].

(** A line assigns no register below [base]. *)
Definition defs_above (base : Z) (l : ir_line) : Prop :=
  forall d, def_reg l = Some d -> base <= d.

(** The state [cg] was reached from one whose output was [pre] by writing
    lines that assign only registers from [base] on, and its counter of
    temporaries is at least [base]. *)
Definition Inv (base : Z) (pre : list ir_line) (cg : CodeGen) : Prop :=
  base <= temp_counter cg
  /\ exists new, out cg = pre ++ new /\ Forall (defs_above base) new.

Definition Inv_opt (base : Z) (pre : list ir_line) (o : option CodeGen)
  : Prop :=
  match o with
  | Some cg => Inv base pre cg
  | None => True
  end.

(** The lines a [repeat] writes before and after the lines of its body:
    [k] is the first of its three labels, [slot] the counter slot,
    [t] the first temporary of the loop head, [t'] the first temporary of
    the increment, [count_reg] the register holding the count. *)
Definition repeat_head (k slot t count_reg : Z) : list ir_line :=
  [ IAlloca slot;
    IStore (Const d1) slot;
    IBr (L_loop_start k);
    ILabel (L_loop_start k);
    ILoad t slot;
    IFcmp (t + 1) Ole (Reg t) (Reg count_reg);
    ICondBr (t + 1) (L_loop_body (k + 1)) (L_loop_end (k + 2));
    ILabel (L_loop_body (k + 1)) ].

Definition repeat_tail (k slot t' : Z) : list ir_line :=
  [ ILoad t' slot;
    IBin (t' + 1) Fadd (Reg t') (Const d1);
    IStore (Reg (t' + 1)) slot;
    IBr (L_loop_start k);
    ILabel (L_loop_end (k + 2)) ].

(** The tokens at which [is_end_of_expr] ends an argument list. *)
Definition boundary_tokens : list TokenType :=
  [TOK_NEWLINE; TOK_EOF] ++ binary_operators ++ boundary_keywords.

(** A call followed on its line by an [inc] statement, by a [dec]
    statement, and by a [let]. *)
Definition src_call_then_inc : string :=
  "fn f" ++ nl ++ "let s zero" ++ nl ++ "call g s inc s" ++ nl.

Definition src_call_then_dec : string :=
  "fn f" ++ nl ++ "let s zero" ++ nl ++ "call g s dec s" ++ nl.

Definition src_call_then_let : string :=
  "fn f" ++ nl ++ "let s zero" ++ nl ++ "call g s let t one" ++ nl.

(** The end-of-input token the lexer appends. *)
Definition eof : Token := tok TOK_EOF "".

(** [toks], read on its own, is one unary-level expression with tree [e]:
    [parse_unary] consumes it up to the end of the input. *)
Definition unary_phrase (fuel : nat) (toks : list Token) (e : Expr) : Prop :=
  parse_unary fuel (toks ++ [eof]) = POk e [eof].

(** Binding strength of the binary operator tokens, loosest first, and the
    operator word the parser stores in the node. *)
Definition precedence (t : TokenType) : nat :=
  match t with
  | TOK_OR => 1
  | TOK_AND => 2
  | TOK_EQ | TOK_NEQ | TOK_LT | TOK_GT | TOK_LTE | TOK_GTE => 3
  | TOK_PLUS | TOK_MINUS => 4
  | TOK_TIMES | TOK_OVER | TOK_MOD => 5
  | _ => 0
  end.

Definition operator_word (t : Token) : string :=
  match ttype t with
  | TOK_OR => "or"
  | TOK_AND => "and"
  | _ => value t
  end.

(** What a parsing function does with its budget [fuel] and the state [p]
    it is given, [n] being the length of [p]: [consumes n r] says the run
    [r] was not cut short, left a state no longer than [p], and consumed a
    token if it succeeded; [no_longer n r] allows a success that consumes
    nothing. *)
Definition consumes {A : Type} (n : nat) (r : presult A) : Prop :=
  match r with
  | POk _ p' => (List.length p' < n)%nat
  | PFail p' => (List.length p' <= n)%nat
  | PFuel => False
  end.

Definition no_longer {A : Type} (n : nat) (r : presult A) : Prop :=
  match r with
  | POk _ p' | PFail p' => (List.length p' <= n)%nat
  | PFuel => False
  end.

(** [stable m m']: if the run [m] was not cut short by its budget, the run
    [m'] gives the same result. *)
Definition stable {A : Type} (m m' : presult A) : Prop :=
  m <> PFuel -> m' = m.

(* ================================================================== *)
(** * Vocabulary of the further properties *)
(* ================================================================== *)

(** The number of line feeds in a text. *)
Fixpoint count_LF (s : string) : nat :=
  match s with
  | EmptyString => O
  | String c rest => ((if Ascii.eqb c LF then 1 else 0) + count_LF rest)%nat
  end.

(** The number of tokens of kind [T] in a token list. *)
Definition count_tokens (T : TokenType) (toks : list Token) : nat :=
  List.length (filter (fun t => tok_eqb (ttype t) T) toks).

(** The state of the loop of [lexer_tokenize] after one more iteration. *)
Definition after_newline (lx : Lexer) : Lexer :=
  let lx1 := lexer_advance (lexer_add_token lx TOK_NEWLINE "\n") in
  {| source := source lx1; lline := lline lx1 + 1; lcolumn := 1;
     ltokens := ltokens lx1 |}.

(** Every character of [s] satisfies [p]. *)
Fixpoint all_chars (p : ascii -> bool) (s : string) : bool :=
  match s with
  | EmptyString => true
  | String c rest => p c && all_chars p rest
  end.

(** The token the lexer adds at the state [lx] for a lexeme that began in
    column [col]. *)
Definition new_token (lx : Lexer) (t : TokenType) (v : string) (col : Z) : Token :=
  {| ttype := t; value := v; line := lline lx; column := col |}.

(** The lexeme of a number: digits, and a fraction when a point and a
    digit follow. *)
Definition number_lexeme (s : string) : string * string :=
  let (int_part, rest) := span_chars is_digit s in
  match rest with
  | String c (String d rest') =>
      if Ascii.eqb c "." && is_digit d then
        let (frac, rem) := span_chars is_digit (String d rest') in
        ((int_part ++ String "." frac)%string, rem)
      else (int_part, rest)
  | _ => (int_part, rest)
  end.

(** The column reached after reading [s] from column [col]. *)
Fixpoint column_after (s : string) (col : Z) : Z :=
  match s with
  | EmptyString => col
  | String c rest => column_after rest (if Ascii.eqb c LF then 1 else col + 1)
  end.

(** The token [t] of the source [src] records the place of its lexeme: the
    line and the column (both from 1) of the first character of its value,
    which is found there; for a string literal, of the character after the
    opening quote.  A line-feed token has the line of its line feed and a
    column two less than the column of the line feed. *)
Definition placed (src : string) (t : Token) : Prop :=
  exists before after,
    src = (before ++ (if tok_eqb (ttype t) TOK_NEWLINE
                      then String LF EmptyString else value t) ++ after)%string
    /\ line t = 1 + Z.of_nat (count_LF before)
    /\ column t = column_after before 1
                  - (if tok_eqb (ttype t) TOK_NEWLINE then 2 else 0).

Definition is_point_or_digit (c : ascii) : bool := Ascii.eqb c "." || is_digit c.

(** A decimal numeral: digits, or digits, a point and digits. *)
Definition is_decimal (s : string) : bool :=
  let (int_part, rest) := span_chars is_digit s in
  negb (String.eqb int_part EmptyString)
  && match rest with
     | EmptyString => true
     | String c frac =>
         Ascii.eqb c "." && negb (String.eqb frac EmptyString)
         && all_chars is_digit frac
     end.

(** A word: a letter or an underscore, then letters, digits, underscores. *)
Definition is_word (s : string) : bool :=
  match s with
  | EmptyString => false
  | String c rest => is_alpha c && all_chars is_alnum rest
  end.

(** What the value of a token is, by its kind. *)
Definition lexeme_ok (t : Token) : Prop :=
  match ttype t with
  | TOK_EOF => value t = EmptyString
  | TOK_NEWLINE => value t = "\n"%string
  | TOK_STRING =>
      all_chars (fun c => negb (Ascii.eqb c LF) && negb (Ascii.eqb c NUL))
                (value t) = true
  | TOK_NUMBER => is_decimal (value t) = true
  | k => is_word (value t) = true /\ lookup_keyword (value t) = k
  end.

(** What the loop of [lexer_tokenize] keeps true of its state, for the
    source [src]: the text read so far and the unread text make up [src];
    the line and column counters are those of the next character; the
    tokens produced so far record their places and have values of the
    right shape; none of them is the end-of-input token; there are as many
    line-feed tokens as line feeds read. *)
Definition lexer_ok (src : string) (lx : Lexer) : Prop :=
  exists consumed,
    src = (consumed ++ source lx)%string
    /\ lline lx = 1 + Z.of_nat (count_LF consumed)
    /\ lcolumn lx = column_after consumed 1
    /\ Forall (placed src) (ltokens lx)
    /\ Forall lexeme_ok (ltokens lx)
    /\ Forall (fun t => ttype t <> TOK_EOF) (ltokens lx)
    /\ count_tokens TOK_NEWLINE (ltokens lx) = count_LF consumed.

(** The kind and the value of a token, without its place. *)
Definition lexeme (t : Token) : TokenType * string := (ttype t, value t).

Definition lexemes (r : lex_result) : option (list (TokenType * string)) :=
  match r with
  | LexOk lx => Some (map lexeme (ltokens lx))
  | _ => None
  end.

(** The text does not go on after a comment: it ends, or a line feed or a
    NUL follows. *)
Definition ends_line (rest : string) : bool :=
  match rest with
  | EmptyString => true
  | String c _ => negb (not_eol c)
  end.


(** The text [rest] does not go on a word, and does not go on a number. *)
Definition ends_word (rest : string) : bool :=
  match rest with
  | EmptyString => true
  | String c _ => negb (is_alnum c)
  end.

Definition ends_digits (rest : string) : bool :=
  match rest with
  | EmptyString => true
  | String c _ => negb (is_digit c)
  end.

Definition begins_fraction (rest : string) : bool :=
  match rest with
  | String c (String d _) => Ascii.eqb c "." && is_digit d
  | _ => false
  end.

(** The body of a string literal that the lexer reads up to its closing
    quote: no line feed, no NUL, no quote, and no backslash at the end. *)
Fixpoint plain_body (s : string) : bool :=
  match s with
  | EmptyString => true
  | String c rest =>
      negb (Ascii.eqb c DQUOTE) && negb (Ascii.eqb c NUL)
      && negb (Ascii.eqb c LF)
      && match rest with
         | EmptyString => negb (Ascii.eqb c BACKSLASH)
         | String _ _ => plain_body rest
         end
  end.

(** The tokens of a text that begins with the lexeme [new]. *)
Definition then_lexemes (new : TokenType * string)
    (r : option (list (TokenType * string)))
  : option (list (TokenType * string)) :=
  option_map (cons new) r.

(** The two logical operator tokens. *)
Definition logical_operators : list TokenType := [TOK_AND; TOK_OR].

(** A space, a tab, a carriage return or a line feed. *)
Definition is_space (c : ascii) : bool :=
  Ascii.eqb c " " || Ascii.eqb c TAB || Ascii.eqb c CR || Ascii.eqb c LF.

Definition empty_program : Program := {| types := []; functions := [] |}.

(** The number of a block label; the entry label has none. *)
Definition label_number (l : label) : option Z :=
  match l with
  | L_entry => None
  | L_then k | L_else k | L_end k
  | L_loop_start k | L_loop_body k | L_loop_end k
  | L_while_start k | L_while_body k | L_while_end k => Some k
  end.

(** The number of the block a line opens, of the stack slot it declares,
    of the string constant it refers to. *)
Definition line_label (l : ir_line) : option Z :=
  match l with ILabel lab => label_number lab | _ => None end.

Definition line_slot (l : ir_line) : option Z :=
  match l with IAlloca s => Some s | _ => None end.

Definition line_string (l : ir_line) : option Z :=
  match l with IGetStr _ _ i => Some i | _ => None end.

(** The numbers [f] reads off the lines [ls], in order. *)
Definition numbers (f : ir_line -> option Z) (ls : list ir_line) : list Z :=
  flat_map (fun l => match f l with Some d => [d] | None => [] end) ls.

Definition defined_registers : list ir_line -> list Z := numbers def_reg.
Definition declared_slots : list ir_line -> list Z := numbers line_slot.
Definition block_numbers : list ir_line -> list Z := numbers line_label.

(** The labels that open a block, in order. *)
Definition block_labels (ls : list ir_line) : list label :=
  flat_map (fun l => match l with ILabel lab => [lab] | _ => [] end) ls.

(** How many lines of [ls] carry the number [d]. *)
Fixpoint count_in (f : ir_line -> option Z) (d : Z) (ls : list ir_line)
  : nat :=
  match ls with
  | [] => 0
  | l :: rest =>
      (match f l with
       | Some r => if Z.eqb r d then 1 else 0
       | None => 0
       end + count_in f d rest)%nat
  end.

(** No number occurs twice in [ls], and each one lies in [lo, hi). *)
Definition fresh_in (f : ir_line -> option Z) (lo hi : Z)
    (ls : list ir_line) : Prop :=
  forall d, (count_in f d ls <= 1)%nat
            /\ ((1 <= count_in f d ls)%nat -> lo <= d < hi).

(** A line of a function body: not a line of the file header, not the
    first or the last line of a function, not the entry label. *)
Definition body_line (l : ir_line) : bool :=
  match l with
  | IText _ | IStrConst _ _ _ | IDefine _ _ | IFuncEnd | ILabel L_entry => false
  | _ => true
  end.

(** What a run of the emitter from [cg] to [cg'] did: it wrote the lines
    [new] and declared the locals [added]; the counters did not go back;
    the temporaries, labels, slots and string numbers on the lines are
    pairwise distinct and were drawn from the counters during the run. *)
Record writes (cg cg' : CodeGen) (new : list ir_line)
    (added : list (option (string * Z))) : Prop := mkWrites {
  w_out      : out cg' = out cg ++ new;
  w_locals   : locals cg' = locals cg ++ added;
  w_temp     : temp_counter cg <= temp_counter cg';
  w_label    : label_counter cg <= label_counter cg';
  w_string   : string_counter cg <= string_counter cg';
  w_params   : param_names cg' = param_names cg;
  w_literals : string_literals cg' = string_literals cg;
  w_err      : exists msgs, err cg' = err cg ++ msgs;
  w_defs     : fresh_in def_reg (temp_counter cg) (temp_counter cg') new;
  w_blocks   : fresh_in line_label (label_counter cg) (label_counter cg') new;
  w_slots    : fresh_in line_slot (local_count cg) (local_count cg') new;
  w_strings  : fresh_in line_string (string_counter cg) (string_counter cg') new;
  w_body     : forallb body_line new = true
}.

Definition writes_opt (cg : CodeGen) (o : option CodeGen) : Prop :=
  match o with
  | Some cg' => exists new added, writes cg cg' new added
  | None => True
  end.

(** The first line of the function [f] in the output. *)
Definition define_line (f : FuncDef) : ir_line :=
  IDefine (func_name f) (Z.of_nat (List.length (params f))).

(** Every [if] of the statement has a then arm. *)
Fixpoint then_arms_present (s : Stmt) : bool :=
  match s with
  | NODE_IF _ t e =>
      match t with
      | Some s' => then_arms_present s'
      | None => false
      end
      && match e with
         | Some s' => then_arms_present s'
         | None => true
         end
  | NODE_REPEAT _ _ body => forallb then_arms_present body
  | NODE_WHILE _ body => forallb then_arms_present body
  | _ => true
  end.

(** The string literals of a tree, in the order in which
    [collect_strings_expr] and [collect_strings_stmt] meet them. *)
Fixpoint literals_expr (e : Expr) : list string :=
  match e with
  | NODE_STR s => [s]
  | NODE_BINOP _ l r => literals_expr l ++ literals_expr r
  | NODE_UNARYOP _ operand => literals_expr operand
  | NODE_CALL _ _ args => flat_map literals_expr args
  | _ => []
  end.

Fixpoint literals_stmt (s : Stmt) : list string :=
  match s with
  | NODE_OUT v => literals_expr v
  | NODE_RETURN _ v => literals_expr v
  | NODE_IF c t e =>
      literals_expr c
      ++ match t with Some s' => literals_stmt s' | None => [] end
      ++ match e with Some s' => literals_stmt s' | None => [] end
  | NODE_LET _ v => literals_expr v
  | NODE_EXPR_STMT e => literals_expr e
  | NODE_REPEAT c _ body => literals_expr c ++ flat_map literals_stmt body
  | NODE_WHILE c body => literals_expr c ++ flat_map literals_stmt body
  | _ => []
  end.

Definition literals_program (p : Program) : list string :=
  flat_map (fun f => flat_map literals_stmt (func_body f)) (functions p).

Definition add_strings (cg : CodeGen) (strs : list string) : CodeGen :=
  fold_left add_string strs cg.

(** The lines of the string table for the literals [strs], numbered
    from [i]. *)
Fixpoint string_table (i : Z) (strs : list string) : list ir_line :=
  match strs with
  | [] => []
  | s :: rest => IStrConst i (strlen s + 1) s :: string_table (i + 1) rest
  end.

(** A function that counts up in a loop and prints, to run the emitter on. *)
Definition func_count : FuncDef :=
  {| func_name := "count";
     params := ["n"%string];
     func_body :=
       [ NODE_LET "s" (NODE_NUM d0);
         NODE_REPEAT (NODE_VAR "n") (Some "i"%string)
           [ NODE_INC "s" (Some (NODE_VAR "i"));
             NODE_IF (NODE_BINOP "gt" (NODE_VAR "s") (NODE_NUM d1))
                     (Some (NODE_OUT (NODE_STR "big")))
                     (Some (NODE_OUT (NODE_VAR "s"))) ];
         NODE_RETURN 0 (NODE_VAR "s") ] |}.

Definition prog_count : Program := {| types := []; functions := [func_count] |}.

(** The empty line after the string table, when there is a table. *)
Definition table_end (strs : list string) : list ir_line :=
  match strs with
  | [] => []
  | _ :: _ => [IText ""]
  end.

(** The lines of the function [f]: its first line, the entry label, lines
    of a body, the closing brace. *)
Definition function_chunk (f : FuncDef) (chunk : list ir_line) : Prop :=
  exists body,
    chunk = define_line f :: ILabel L_entry :: body ++ [IFuncEnd]
    /\ forallb body_line body = true.

(** The run from [cg] to [cg'] left the names in scope, the label counter
    and the string tables as they were. *)
Definition same_scope (cg cg' : CodeGen) : Prop :=
  locals cg' = locals cg
  /\ param_names cg' = param_names cg
  /\ label_counter cg' = label_counter cg
  /\ string_counter cg' = string_counter cg
  /\ string_literals cg' = string_literals cg.

(** The run from [cg] to [cg'] added the diagnostics [msgs] and did not
    move the counter of temporaries back. *)
Definition reports (cg cg' : CodeGen) (msgs : list string) : Prop :=
  err cg' = err cg ++ msgs /\ temp_counter cg <= temp_counter cg'.

(** Every slot of the table of locals is a slot number. *)
Definition slots_valid (cg : CodeGen) : Prop :=
  Forall (fun entry => match entry with
                       | Some (_, slot) => 0 <= slot
                       | None => True
                       end) (locals cg).

(** What a run of [codegen_expr] from [cg] that returned [r] and left
    [cg'] did about errors: [r] is a temporary drawn during the run, or it
    is [-1] and the run wrote a diagnostic. *)
Definition result_or_report (cg : CodeGen) (r : Z) (cg' : CodeGen) : Prop :=
  exists msgs,
    reports cg cg' msgs
    /\ ((r = -1 /\ msgs <> []) \/ temp_counter cg <= r < temp_counter cg').

(** The upper-case form of a letter and of a word. *)
Definition to_upper (c : ascii) : ascii :=
  if char_between "a" "z" c then ascii_of_nat (nat_of_ascii c - 32) else c.

Fixpoint upper_case (s : string) : string :=
  match s with
  | EmptyString => EmptyString
  | String c rest => String (to_upper c) (upper_case rest)
  end.

Definition has_no_dot (s : string) : bool :=
  all_chars (fun c => negb (Ascii.eqb c ".")) s.

(** The kinds of token that are not keywords. *)
Definition open_kinds : list TokenType :=
  [TOK_IDENT; TOK_NUMBER; TOK_STRING; TOK_NEWLINE; TOK_EOF].

(** The string references of the lines (the [getelementptr] lines that
    [out] writes for a literal) and the string constants of the table:
    number and length, in order. *)
Definition string_refs (ls : list ir_line) : list (Z * Z) :=
  flat_map (fun l => match l with
                     | IGetStr _ len idx => [(idx, len)]
                     | _ => []
                     end) ls.

Definition string_consts (ls : list ir_line) : list (Z * Z) :=
  flat_map (fun l => match l with
                     | IStrConst idx len _ => [(idx, len)]
                     | _ => []
                     end) ls.

(** Number and length of the literals [strs], numbered from [i]. *)
Fixpoint numbered (i : Z) (strs : list string) : list (Z * Z) :=
  match strs with
  | [] => []
  | s :: rest => (i, strlen s + 1) :: numbered (i + 1) rest
  end.

Definition no_literal (e : Expr) : bool :=
  match literals_expr e with
  | [] => true
  | _ :: _ => false
  end.

(** Every string literal of the statement that [collect_strings_stmt]
    collects is the operand of an [out]. *)
Fixpoint literals_under_out (s : Stmt) : bool :=
  match s with
  | NODE_OUT (NODE_STR _) => true
  | NODE_OUT v => no_literal v
  | NODE_RETURN _ v => no_literal v
  | NODE_LET _ v => no_literal v
  | NODE_EXPR_STMT v => no_literal v
  | NODE_IF c t e =>
      no_literal c
      && match t with Some s' => literals_under_out s' | None => true end
      && match e with Some s' => literals_under_out s' | None => true end
  | NODE_REPEAT c _ body => no_literal c && forallb literals_under_out body
  | NODE_WHILE c body => no_literal c && forallb literals_under_out body
  | NODE_INC _ _ => true
  | NODE_DEC _ _ => true
  end.

(** A run of the emitter over a tree with the literals [lits] that wrote
    no diagnostic wrote one reference per literal, numbered from the
    string counter. *)
Definition aligned (cg : CodeGen) (lits : list string) (o : option CodeGen)
  : Prop :=
  match o with
  | None => True
  | Some cg' =>
      err cg' = err cg ->
      exists new,
        out cg' = out cg ++ new
        /\ string_refs new = numbered (string_counter cg) lits
        /\ string_counter cg' = string_counter cg + Z.of_nat (List.length lits)
  end.

(** A function with a string literal that is not the operand of an [out]. *)
Definition prog_let_literal : Program :=
  {| types := [];
     functions :=
       [ {| func_name := "f"; params := [];
            func_body := [ NODE_LET "x" (NODE_STR "a");
                           NODE_OUT (NODE_STR "bc") ] |} ] |}.

(** The value of a hexadecimal digit. *)
Definition hex_value (c : ascii) : nat :=
  let n := nat_of_ascii c in
  if (n <? 58)%nat then (n - 48)%nat else (n - 55)%nat.

(** The bytes a string constant of the output denotes for LLVM: a
    backslash and two hexadecimal digits are one byte. *)
Fixpoint unescape_bytes (s : string) : string :=
  match s with
  | EmptyString => EmptyString
  | String c rest =>
      if Ascii.eqb c BACKSLASH then
        match rest with
        | String h (String l rest') =>
            String (ascii_of_nat (16 * hex_value h + hex_value l))
                   (unescape_bytes rest')
        | _ => String c (unescape_bytes rest)
        end
      else String c (unescape_bytes rest)
  end.

(** A printable ASCII character other than the double quote. *)
Definition is_plain (c : ascii) : bool :=
  (32 <=? nat_of_ascii c)%nat && (nat_of_ascii c <? 127)%nat
  && negb (Ascii.eqb c DQUOTE).

Fixpoint all_plain (s : string) : bool :=
  match s with
  | EmptyString => true
  | String c rest => is_plain c && all_plain rest
  end.

(** What [codegen_llvm] writes for one byte of a literal. *)
Definition escape_byte (c : ascii) : string :=
  if Ascii.eqb c BACKSLASH || Ascii.eqb c DQUOTE then ("\" ++ hex2 c)%string
  else if (32 <=? nat_of_ascii c)%nat && (nat_of_ascii c <? 127)%nat
       then String c EmptyString
  else ("\" ++ hex2 c)%string.

(** Every operator of the expression is one the emitter lowers: a binary
    operator that [classify_binop] knows, the unary [not] or [neg]. *)
Fixpoint ops_known (e : Expr) : bool :=
  match e with
  | NODE_BINOP op l r =>
      match classify_binop op with
      | OpUnknown => false
      | _ => true
      end && ops_known l && ops_known r
  | NODE_UNARYOP op operand =>
      (String.eqb op "not" || String.eqb op "neg") && ops_known operand
  | NODE_CALL _ _ args => forallb ops_known args
  | _ => true
  end.

Definition opt_good {A : Type} (good : A -> bool) (o : option A) : bool :=
  match o with
  | Some x => good x
  | None => true
  end.

Fixpoint ops_known_stmt (s : Stmt) : bool :=
  match s with
  | NODE_RETURN _ val => ops_known val
  | NODE_IF condition t e =>
      ops_known condition
      && match t with
         | Some s' => ops_known_stmt s'
         | None => true
         end
      && match e with
         | Some s' => ops_known_stmt s'
         | None => true
         end
  | NODE_LET _ val => ops_known val
  | NODE_EXPR_STMT expr => ops_known expr
  | NODE_OUT val => ops_known val
  | NODE_REPEAT count _ body => ops_known count && forallb ops_known_stmt body
  | NODE_WHILE condition body =>
      ops_known condition && forallb ops_known_stmt body
  | NODE_INC _ amount => opt_good ops_known amount
  | NODE_DEC _ amount => opt_good ops_known amount
  end.

Definition ops_known_func (f : FuncDef) : bool :=
  forallb ops_known_stmt (func_body f).

Definition ops_known_program (prog : Program) : bool :=
  forallb ops_known_func (functions prog).

(** The operator tokens whose lexeme the parser stores in the node. *)
Definition lexeme_operators : list TokenType :=
  multiplicative_ops ++ additive_ops ++ comparison_ops.

(** An operator token carries an operator word the emitter knows. *)
Definition operator_ok (t : Token) : Prop :=
  In (ttype t) lexeme_operators ->
  classify_binop (value t) <> OpUnknown.

(** What a parsing function returns from operator tokens that are in
    order: a tree with known operators, and a state of such tokens. *)
Definition parsed_ok {A : Type} (good : A -> bool) (r : presult A) : Prop :=
  match r with
  | POk x p' => good x = true /\ Forall operator_ok p'
  | PFail p' => Forall operator_ok p'
  | PFuel => True
  end.

(** The diagnostics of the emitter about a name that is neither a local
    nor a parameter. *)
Definition unknown_variable_message (msg : string) : Prop :=
  exists name,
    msg = msg_unknown_variable name
    \/ msg = msg_unknown_variable_in name "inc"
    \/ msg = msg_unknown_variable_in name "dec".

(* ================================================================== *)
(** * Properties *)
(* ================================================================== *)

(** ** Tokens *)

Lemma token_code_inj (a b : TokenType) : token_code a = token_code b -> a = b.
Proof.
  destruct a; simpl; intro H; destruct b; simpl in H;
    first [reflexivity | discriminate H].
Qed.

Lemma tok_eqb_eq (a b : TokenType) : tok_eqb a b = true <-> a = b.
Proof.
  unfold tok_eqb. rewrite Z.eqb_eq. split.
  - apply token_code_inj.
  - intros ->. reflexivity.
Qed.

Lemma tok_eqb_refl (a : TokenType) : tok_eqb a a = true.
Proof. apply tok_eqb_eq. reflexivity. Qed.

Lemma tok_eqb_neq (a b : TokenType) : tok_eqb a b = false <-> a <> b.
Proof.
  split.
  - intros H E. apply tok_eqb_eq in E. congruence.
  - intro H. destruct (tok_eqb a b) eqn:E; [|reflexivity].
    apply tok_eqb_eq in E. contradiction.
Qed.

Lemma parser_check_eq (p : Parser) (t : TokenType) :
  parser_check p t = true <-> ttype (parser_current p) = t.
Proof. unfold parser_check. apply tok_eqb_eq. Qed.

(** ** Unknown identifiers and the exit status of [compile] *)

(** Once the source has been read and parsed and the output file opened,
    [cmd_compile] does not end with status 1: nothing the emitter meets
    makes [codegen_llvm] return [false]. *)
Lemma cmd_compile_emission_never_fails (w : World) (argv fs : list string)
    (input src : string) (output : option string) (ast : Program) :
  compile_args argv None None = (Some input, output) ->
  read_file w input = Some src ->
  front_end src = Some ast ->
  can_write w (match output with Some o => o | None => default_output input end)
    = true ->
  ended (cmd_compile w argv fs) <> Exited 1.
Proof.
  intros Hargs Hread Hfront Hwrite. unfold cmd_compile.
  rewrite Hargs, Hread, Hfront, Hwrite.
  destruct (codegen_program ast); simpl; discriminate.
Qed.

(** C1 (defect of the code).  Compiling [fn f / ret x], where [x] is neither
    a parameter nor a local: the emitter writes the diagnostic
    [Error: Unknown variable 'x'], emits a function without any instruction,
    and the command still prints [Compiled ...] and exits with status 0. *)
Theorem C1_unknown_name_compiles_with_status_0 :
  let o := cmd_compile (world_with "prog.nerd" src_unknown_name (toolchain_ok 0))
                       ["prog.nerd"%string] [] in
  errors o = [msg_unknown_variable "x"]
  /\ ended o = Exited 0
  /\ printed o = [("Compiled prog.nerd -> prog.ll" ++ nl)%string]
  /\ skipn (List.length preamble) (ir o)
     = [IDefine "f" 0; ILabel L_entry; IFuncEnd].
Proof. vm_compute. repeat split; reflexivity. Qed.

(** ** Block termination *)

(** C2 (defect of the code).  Both programs compile without a diagnostic.
    For a [ret] inside a [while] body the block [while_body1] holds the
    return followed by the branch back to the loop head; for a statement
    after a top-level [ret] the entry block goes on after the return and is
    left without a final terminator. *)
Theorem C2_blocks_not_well_terminated :
  (exists lines,
      emitted src_return_in_loop = Some (lines, [])
      /\ In [IBin 5 Fadd (Const d0) (Arg 0); IRet (Reg 5); IBr (L_while_start 0)]
            (basic_blocks lines)
      /\ blocks_well_terminated lines = false)
  /\ (exists lines,
      emitted src_after_return = Some (lines, [])
      /\ basic_blocks lines
         = [[IBin 0 Fadd (Const d0) (Arg 0); IRet (Reg 0);
             IBin 1 Fadd (Const d0) (Arg 0); IPrintfNum 1]]
      /\ blocks_well_terminated lines = false).
Proof.
  split; eexists; (split; [vm_compute; reflexivity|]); split.
  - vm_compute. tauto.
  - vm_compute. reflexivity.
  - vm_compute. reflexivity.
  - vm_compute. reflexivity.
Qed.

(** ** Scenario S4 *)

(** The lowering of an [if] with an [else] arm ends with the end label,
    whatever the arms are. *)
Lemma if_else_ends_with_end_label (c : Expr) (t e : Stmt) (cg cg' : CodeGen) :
  0 <= fst (codegen_expr c cg) ->
  codegen_stmt (NODE_IF c (Some t) (Some e)) cg = Some cg' ->
  exists before,
    out cg' = before ++ [ILabel (L_end (label_counter (snd (codegen_expr c cg)) + 2))].
Proof.
  intros Hc H. cbn [codegen_stmt] in H.
  destruct (codegen_expr c cg) as [cond_reg cg1]. cbn [fst snd] in *.
  apply Z.ltb_ge in Hc. rewrite Hc in H. cbn in H.
  match type of H with
  | match codegen_stmt t ?s with _ => _ end = _ =>
      destruct (codegen_stmt t s) as [cg2|]; [|discriminate]
  end.
  match type of H with
  | match codegen_stmt e ?s with _ => _ end = _ =>
      destruct (codegen_stmt e s) as [cg3|]; [|discriminate]
  end.
  inversion H. subst cg'. cbn [emit out].
  eexists. f_equal. f_equal. f_equal. f_equal. lia.
Qed.

(** C3, as stated, fails: the lines emitted for S4 contain an end label. *)
Lemma C3_end_label_generated :
  ~ (forall lines errs,
        emitted src_S4 = Some (lines, errs) ->
        forall k, ~ In (ILabel (L_end k)) lines).
Proof.
  intro H. apply (H S4_lines [] eq_refl 2). vm_compute. tauto.
Qed.

(** C3 (amended).  For S4 the emitter writes a conditional branch to
    [then0] / [else1]; each arm is a block that ends in its return and has
    no branch to the end label; the label [end2] is written all the same
    after the else arm, and its block receives the synthetic [ret 0.0]. *)
Theorem C3_S4_branch_arms_return_end_label_kept :
  emitted src_S4 = Some (S4_lines, [])
  /\ basic_blocks S4_lines
     = [ [ IBin 0 Fadd (Const d0) (Arg 0); IBin 1 Fadd (Const d0) (Const d0);
           IFcmp 3 Ogt (Reg 0) (Reg 1); IUitofp 2 3;
           IFcmp 4 One (Reg 2) (Const d0);
           ICondBr 4 (L_then 0) (L_else 1) ];
         [ IBin 5 Fadd (Const d0) (Arg 0); IRet (Reg 5) ];
         [ IBin 6 Fadd (Const d0) (Const d0); IRet (Reg 6) ];
         [ IRet (Const d0) ] ]
  /\ ~ In (IBr (L_end 2)) S4_lines
  /\ In (ILabel (L_end 2)) S4_lines.
Proof.
  split; [vm_compute; reflexivity|].
  split; [vm_compute; reflexivity|].
  split.
  - intro H. vm_compute in H. repeat (destruct H as [H|H]; [discriminate H|]).
    exact H.
  - vm_compute. tauto.
Qed.

(** ** The parser with the flag *)

Lemma without_flag_bind {A B : Type} (m : presult A)
    (k : A -> Parser -> presult (B * bool)) (k' : A -> Parser -> presult B) :
  (forall a p, without_flag (k a p) = k' a p) ->
  without_flag (pbind m k) = pbind m k'.
Proof.
  intro H. destruct m as [a p|p|]; cbn [pbind without_flag];
    [apply H|reflexivity|reflexivity].
Qed.

Lemma without_flag_bind2 {A B : Type} (m : presult (A * bool))
    (k : A * bool -> Parser -> presult (B * bool))
    (k' : A -> Parser -> presult B) :
  (forall a p, without_flag (k a p) = k' (fst a) p) ->
  without_flag (pbind m k) = pbind (without_flag m) k'.
Proof.
  intro H. destruct m as [a p|p|]; cbn [pbind without_flag];
    [apply H|reflexivity|reflexivity].
Qed.

Lemma check_other (p : Parser) (t t' : TokenType) :
  parser_check p t = true -> t <> t' -> parser_check p t' = false.
Proof.
  intros H Hne. apply parser_check_eq in H. unfold parser_check.
  rewrite H. apply tok_eqb_neq. exact Hne.
Qed.

Lemma without_flag_unchecked {A : Type} (m : presult (A * bool)) :
  without_flag (unchecked_intact m) = unchecked (without_flag m).
Proof. destruct m as [[a b] p|p|]; reflexivity. Qed.

(** The parser with the flag builds the tree of the parser. *)
Lemma statement_level_intact (fuel : nat) :
  (forall p, without_flag (parse_stmt_intact fuel p) = parse_stmt fuel p)
  /\ (forall stop acc intact p,
        without_flag (parse_block_intact fuel stop acc intact p)
        = parse_block fuel stop acc p).
Proof.
  induction fuel as [|fuel [IHs IHb]]; [split; reflexivity|].
  split.
  - intro p. cbn [parse_stmt_intact].
    destruct (parser_check p TOK_IF) eqn:Eif.
    { cbn [parse_stmt].
      rewrite (check_other p TOK_IF TOK_RET Eif) by discriminate.
      rewrite (check_other p TOK_IF TOK_OUT Eif) by discriminate.
      rewrite (check_other p TOK_IF TOK_INC Eif) by discriminate.
      rewrite (check_other p TOK_IF TOK_DEC Eif) by discriminate.
      rewrite Eif.
      apply without_flag_bind. intros condition p1.
      destruct (parser_check p1 TOK_NEWLINE).
      - cbv zeta. rewrite <- (IHb _ _ true).
        apply without_flag_bind2. intros then_block p3.
        match goal with
        | |- _ = pbind ?m ?k' =>
            transitivity (pbind (without_flag
              (let (has_else, q1) := parser_match p3 TOK_ELSE in
               if has_else then
                 let q2 :=
                   parser_skip_newlines (snd (parser_match q1 TOK_NEWLINE)) in
                 if parser_check q2 TOK_IF then
                   unchecked_intact (parse_stmt_intact fuel q2)
                 else
                   do (else_block, q3) <-
                     parse_block_intact fuel
                       (fun q => parser_check q TOK_DONE) [] true q2;
                   POk (block_carrier (fst else_block),
                        snd else_block && single_statement (fst else_block)) q3
               else POk (None, true) q1)) k');
              [apply without_flag_bind2; reflexivity|]
        end.
        f_equal.
        destruct (parser_match p3 TOK_ELSE) as [has_else q1].
        destruct has_else; [|reflexivity]. cbv zeta.
        match goal with
        | |- context [parser_check ?q2 TOK_IF] =>
            destruct (parser_check q2 TOK_IF)
        end.
        + rewrite without_flag_unchecked, IHs. reflexivity.
        + rewrite <- (IHb _ _ true). apply without_flag_bind2.
          reflexivity.
      - apply without_flag_bind. intros then_stmt p2.
        destruct (parser_match p2 TOK_ELSE) as [has_else p3].
        destruct has_else; [|reflexivity].
        destruct (parser_check p3 TOK_IF).
        + rewrite <- IHs, <- without_flag_unchecked.
          apply without_flag_bind2. reflexivity.
        + apply without_flag_bind. reflexivity. }
    destruct (parser_check p TOK_REPEAT) eqn:Erep.
    { cbn [parse_stmt].
      rewrite (check_other p TOK_REPEAT TOK_RET Erep) by discriminate.
      rewrite (check_other p TOK_REPEAT TOK_OUT Erep) by discriminate.
      rewrite (check_other p TOK_REPEAT TOK_INC Erep) by discriminate.
      rewrite (check_other p TOK_REPEAT TOK_DEC Erep) by discriminate.
      rewrite Eif.
      rewrite (check_other p TOK_REPEAT TOK_LET Erep) by discriminate.
      rewrite Erep.
      apply without_flag_bind. intros count p1.
      destruct (parser_expect p1 TOK_TIMES) as [[t p2]|]; [|reflexivity].
      destruct (parser_match p2 TOK_AS) as [has_as p3].
      destruct (if has_as
                then match parser_expect p3 TOK_IDENT with
                     | Some (var_tok, p4) => Some (Some (value var_tok), p4)
                     | None => None
                     end
                else Some (None, p3)) as [[var_name p4]|]; [|reflexivity].
      cbv zeta. rewrite <- (IHb _ _ true).
      apply without_flag_bind2. intros body p6.
      destruct (parser_expect p6 TOK_DONE) as [[d p7]|]; reflexivity. }
    destruct (parser_check p TOK_WHILE) eqn:Ewh.
    { cbn [parse_stmt].
      rewrite (check_other p TOK_WHILE TOK_RET Ewh) by discriminate.
      rewrite (check_other p TOK_WHILE TOK_OUT Ewh) by discriminate.
      rewrite (check_other p TOK_WHILE TOK_INC Ewh) by discriminate.
      rewrite (check_other p TOK_WHILE TOK_DEC Ewh) by discriminate.
      rewrite Eif.
      rewrite (check_other p TOK_WHILE TOK_LET Ewh) by discriminate.
      rewrite Erep, Ewh.
      apply without_flag_bind. intros condition p1.
      cbv zeta. rewrite <- (IHb _ _ true).
      apply without_flag_bind2. intros body p3.
      destruct (parser_expect p3 TOK_DONE) as [[d p4]|]; reflexivity. }
    destruct (parse_stmt (S fuel) p) as [s p1|p1|]; reflexivity.
  - intros stop acc intact p. cbn [parse_block_intact parse_block].
    destruct (negb (parser_at_end p) && negb (stop p)); [|reflexivity].
    destruct (parser_match p TOK_NEWLINE) as [nl p1].
    destruct nl; [apply IHb|].
    rewrite <- IHs. apply without_flag_bind2.
    intros stmt p2. apply IHb.
Qed.

Lemma parse_func_def_intact_tree (fuel : nat) (p : Parser) :
  without_flag (parse_func_def_intact fuel p) = parse_func_def fuel p.
Proof.
  unfold parse_func_def_intact, parse_func_def. cbv zeta.
  destruct (parser_expect _ TOK_IDENT) as [[name_tok p1]|]; [|reflexivity].
  destruct (parse_params p1) as [names p2].
  rewrite <- (proj2 (statement_level_intact fuel) _ [] true).
  apply without_flag_bind2. reflexivity.
Qed.

Lemma parser_parse_loop_intact_tree (fuel : nat) :
  forall prog intact p,
    without_flag (parser_parse_loop_intact fuel prog intact p)
    = parser_parse_loop fuel prog p.
Proof.
  induction fuel as [|fuel IH]; intros prog intact p; [reflexivity|].
  cbn [parser_parse_loop_intact parser_parse_loop].
  destruct (parser_at_end p); [reflexivity|].
  destruct (parser_check p TOK_TYPE).
  { apply without_flag_bind. intros type_def p1. apply IH. }
  destruct (parser_check p TOK_FN).
  { rewrite <- parse_func_def_intact_tree.
    apply without_flag_bind2. intros func_def p1. apply IH. }
  destruct (parser_check p TOK_NEWLINE); [apply IH|reflexivity].
Qed.

(** A source whose tree is intact is a source the front end accepts, with
    that tree. *)
Lemma front_end_intact_tree (src : string) :
  option_map fst (front_end_intact src) = front_end src.
Proof.
  unfold front_end_intact, front_end, parser_parse_intact, parser_parse.
  destruct (lexer_tokenize src) as [lx| |]; try reflexivity.
  rewrite <- (parser_parse_loop_intact_tree _ _ true).
  destruct (parser_parse_loop_intact _ _ _ _) as [r p|p|]; reflexivity.
Qed.

Lemma front_end_of_intact (src : string) (prog : Program) (intact : bool) :
  front_end_intact src = Some (prog, intact) -> front_end src = Some prog.
Proof.
  intro H. rewrite <- front_end_intact_tree, H. reflexivity.
Qed.

(** The tree of an [if] block of two statements is not intact; the trees
    of the scenario sources are. *)
Example two_statement_block_is_not_intact :
  option_map snd (front_end_intact src_two_statement_block) = Some false
  /\ option_map snd (front_end_intact src_S1) = Some true
  /\ option_map snd (front_end_intact src_S3) = Some true
  /\ option_map snd (front_end_intact src_S4) = Some true
  /\ option_map snd (front_end_intact src_S5) = Some true.
Proof.
  split; [vm_compute; reflexivity|]. split; [vm_compute; reflexivity|].
  split; [vm_compute; reflexivity|]. split; vm_compute; reflexivity.
Qed.

(** ** Temporary files of run mode *)

(** C4, as stated, fails: when [clang] rejects the combined file the command
    exits with status 1 and the IR file, the entry file and the combined
    file are all still there. *)
Lemma C4_files_left_when_clang_fails :
  let o := cmd_run (world_with "prog.nerd" src_S1 toolchain_clang_fails)
                   ["prog.nerd"%string] [] in
  ended o = Exited 1
  /\ files o = [tmp_ll; tmp_main; tmp_combined]
  /\ ~ (forall t, In t temp_files -> file_exists t (files o) = false).
Proof.
  split; [vm_compute; reflexivity|]. split; [vm_compute; reflexivity|].
  intro H. specialize (H tmp_ll (or_introl eq_refl)). vm_compute in H.
  discriminate H.
Qed.

Lemma remove_file_absent (path t : string) (fs : list string) :
  file_exists t fs = false -> file_exists t (remove_file path fs) = false.
Proof.
  unfold file_exists, remove_file. induction fs as [|f fs IH]; simpl; [easy|].
  intro H. apply orb_false_iff in H as [Hf Hfs].
  destruct (String.eqb path f); simpl; [auto|].
  rewrite Hf. simpl. auto.
Qed.

Lemma remove_file_gone (path : string) (fs : list string) :
  file_exists path (remove_file path fs) = false.
Proof.
  unfold file_exists, remove_file. induction fs as [|f fs IH]; simpl; [easy|].
  destruct (String.eqb path f) eqn:E; simpl; [exact IH|].
  rewrite E. exact IH.
Qed.

(** C4 (amended).  For a source whose tree is intact and whose [repeat]
    loops all name their counter, when the source compiles, both temporary
    IR files can be written and [cat] succeeds: if [clang] succeeds too,
    [cmd_run] runs the executable, removes the four temporary files and
    returns what [system] returned for the executable, whatever that value
    is; if [clang] fails, it returns 1, names the combined file in its
    message and removes nothing. *)
Theorem C4_temp_files_removed_after_toolchain_success
    (w : World) (argv fs : list string) (input src : string)
    (ast : Program) (cg : CodeGen) :
  first_input argv = Some input ->
  read_file w input = Some src ->
  front_end_intact src = Some (ast, true) ->
  program_counters_named ast = true ->
  codegen_program ast = Some cg ->
  can_write w tmp_ll = true ->
  can_write w tmp_main = true ->
  let fs1 := create_file tmp_main (create_file tmp_ll fs) in
  let cat := run_system w cat_command fs1 in
  let clang := run_system w clang_command (snd cat) in
  fst cat = 0 ->
  let o := cmd_run w argv fs in
  (fst clang = 0 ->
   ended o = Exited (fst (run_system w tmp_bin (snd clang)))
   /\ forall t, In t temp_files -> file_exists t (files o) = false)
  /\ (fst clang <> 0 ->
      ended o = Exited 1
      /\ files o = snd clang
      /\ errors o = err cg ++ [msg_clang]).
Proof.
  intros Hin Hread Hintact _ Hcg Hll Hmain fs1 cat clang Hcat o.
  pose proof (front_end_of_intact src ast true Hintact) as Hfront.
  unfold o, cmd_run. rewrite Hin, Hread, Hfront, Hll, Hcg, Hmain.
  fold fs1. fold cat. destruct cat as [cs cfs] eqn:Ecat. simpl in Hcat. subst cs.
  simpl in clang. cbn [negb Z.eqb]. fold clang.
  destruct clang as [ls lfs] eqn:Eclang. cbn [fst snd].
  split.
  - intros ->. cbn [negb Z.eqb].
    destruct (run_system w tmp_bin lfs) as [result rfs]. simpl.
    split; [reflexivity|].
    intros t [<-|[<-|[<-|[<-|[]]]]].
    + do 3 apply remove_file_absent. apply remove_file_gone.
    + do 2 apply remove_file_absent. apply remove_file_gone.
    + apply remove_file_absent. apply remove_file_gone.
    + apply remove_file_gone.
  - intro Hne. apply Z.eqb_neq in Hne. rewrite Hne. simpl. repeat split.
Qed.

(** Witness for C4: a world whose toolchain succeeds and in which [system]
    returns 768 for the executable (the wait status of an executable that
    exits with code 3). *)
Lemma C4_temp_files_removed_witness :
  let o := cmd_run (world_with "prog.nerd" src_S1 (toolchain_ok 768))
                   ["prog.nerd"%string] [] in
  ended o = Exited 768
  /\ forall t, In t temp_files -> file_exists t (files o) = false.
Proof.
  destruct (front_end_intact src_S1) as [[ast [|]]|] eqn:Hfront;
    [|vm_compute in Hfront; discriminate Hfront
     |vm_compute in Hfront; discriminate Hfront].
  assert (Hnamed : program_counters_named ast = true).
  { vm_compute in Hfront. injection Hfront as <-. reflexivity. }
  destruct (codegen_program ast) as [cg|] eqn:Hcg.
  2:{ vm_compute in Hfront. injection Hfront as <-. vm_compute in Hcg.
      discriminate. }
  exact (proj1 (C4_temp_files_removed_after_toolchain_success
                  (world_with "prog.nerd" src_S1 (toolchain_ok 768))
                  ["prog.nerd"%string] [] "prog.nerd" src_S1 ast cg
                  eq_refl eq_refl Hfront Hnamed Hcg eq_refl eq_refl eq_refl)
               eq_refl).
Defined.

(** ** Module-qualified calls *)

Lemma parse_primary_not_call (p p' : Parser) (e : Expr) :
  parse_primary p = POk e p' -> is_module_call e = false.
Proof.
  unfold parse_primary.
  repeat match goal with
         | |- context [if ?c then _ else _] => destruct c
         | |- context [let (_, _) := ?x in _] => destruct x
         end; intro H; inversion H; reflexivity.
Qed.

Lemma is_module_token_In (p : Parser) :
  is_module_token p = true <-> In (ttype (parser_current p)) module_tokens.
Proof.
  unfold is_module_token, module_tokens. simpl.
  repeat rewrite orb_true_iff. repeat rewrite tok_eqb_eq.
  intuition congruence.
Qed.

(** C5, as stated, fails: [str len x] is parsed as a call into the module
    [str], and [str] is none of the five module names. *)
Lemma C5_str_opens_module_call :
  let p := [tok TOK_STR "str"; tok TOK_IDENT "len"; tok TOK_IDENT "x";
            tok TOK_EOF ""] in
  parse_call 4 p
    = POk (NODE_CALL (Some "str"%string) "len" [NODE_VAR "x"]) [tok TOK_EOF ""]
  /\ ~ In (ttype (parser_current p)) module_names.
Proof.
  split; [vm_compute; reflexivity|].
  intro H. vm_compute in H. repeat (destruct H as [H|H]; [discriminate H|]).
  exact H.
Qed.

(** C5 (amended).  Whenever [parse_call] returns a node, that node is a
    module-qualified call exactly when the leading token is one of the seven
    tokens [math], [str], [list], [time], [http], [json], [err], and the
    module of the call is then the lexeme of that token.  Conversely, such a
    token followed by an identifier and by an argument list that parses is
    read as a call into that module. *)
Theorem C5_module_call_iff_module_token :
  (forall fuel p p' e,
      parse_call fuel p = POk e p' ->
      (is_module_call e = true <-> In (ttype (parser_current p)) module_tokens)
      /\ (is_module_call e = true ->
          exists func args,
            e = NODE_CALL (Some (value (parser_current p))) func args))
  /\ (forall fuel t ft p1 args p2,
      In (ttype t) module_tokens ->
      ttype ft = TOK_IDENT ->
      parse_call_args fuel [] p1 = POk args p2 ->
      parse_call (S fuel) (t :: ft :: p1)
      = POk (NODE_CALL (Some (value t)) (value ft) args) p2).
Proof.
  split.
  - intros fuel p p' e.
    destruct fuel as [|fuel]; [discriminate|]. cbn [parse_call].
    rewrite <- is_module_token_In.
    destruct (parser_check p TOK_CALL) eqn:Hcall.
    + (* a user call: the leading token is [call] *)
      assert (Hmod : is_module_token p = false).
      { apply parser_check_eq in Hcall. unfold is_module_token. rewrite Hcall.
        reflexivity. }
      rewrite Hmod.
      destruct (parser_expect _ TOK_IDENT) as [[func_tok p1]|]; [|discriminate].
      destruct (parse_call_args fuel [] p1) as [args p2| |]; try discriminate.
      intro H. inversion H. subst. simpl. split; [split|]; discriminate.
    + destruct (is_module_token p) eqn:Hmod.
      * unfold parser_advance.
        assert (Hend : parser_at_end p = false).
        { unfold parser_at_end, parser_check. apply tok_eqb_neq. intro E.
          unfold is_module_token in Hmod. rewrite E in Hmod. discriminate. }
        rewrite Hend.
        destruct (parser_expect (tl p) TOK_IDENT) as [[func_tok p1]|];
          [|discriminate].
        destruct (parse_call_args fuel [] p1) as [args p2| |]; try discriminate.
        intro H. inversion H. subst. simpl. split; [tauto|]. intros _. eauto.
      * intro H. apply parse_primary_not_call in H. rewrite H.
        split; [split|]; discriminate.
  - intros fuel t ft p1 args p2 Hmod Hid Hargs.
    assert (Hm : is_module_token (t :: ft :: p1) = true)
      by (apply is_module_token_In; exact Hmod).
    assert (Hcall : parser_check (t :: ft :: p1) TOK_CALL = false).
    { unfold parser_check. apply tok_eqb_neq. intro E.
      unfold is_module_token in Hm. rewrite E in Hm. discriminate Hm. }
    cbn [parse_call]. rewrite Hcall, Hm.
    unfold parser_advance.
    assert (Hend : parser_at_end (t :: ft :: p1) = false).
    { unfold parser_at_end, parser_check. apply tok_eqb_neq. intro E.
      unfold is_module_token in Hm. rewrite E in Hm. discriminate Hm. }
    rewrite Hend. cbn [tl parser_current hd].
    unfold parser_expect, parser_check, parser_advance, parser_at_end,
      parser_check, parser_current. cbn [hd tl]. rewrite Hid.
    cbn [tok_eqb token_code Z.eqb Pos.eqb]. rewrite Hargs. reflexivity.
Qed.

(** Witness for C5: [math sqrt x]. *)
Lemma C5_module_call_witness :
  let p := [tok TOK_MATH "math"; tok TOK_IDENT "sqrt"; tok TOK_IDENT "x";
            tok TOK_EOF ""] in
  let e := NODE_CALL (Some "math"%string) "sqrt" [NODE_VAR "x"] in
  parse_call 4 p = POk e [tok TOK_EOF ""]
  /\ (is_module_call e = true <-> In (ttype (parser_current p)) module_tokens)
  /\ (is_module_call e = true ->
      exists func args,
        e = NODE_CALL (Some (value (parser_current p))) func args).
Proof.
  split.
  - exact (proj2 C5_module_call_iff_module_token 3%nat
             (tok TOK_MATH "math") (tok TOK_IDENT "sqrt")
             [tok TOK_IDENT "x"; tok TOK_EOF ""]
             [NODE_VAR "x"] [tok TOK_EOF ""]
             (or_introl eq_refl) eq_refl eq_refl).
  - exact (proj1 C5_module_call_iff_module_token 4%nat
             [tok TOK_MATH "math"; tok TOK_IDENT "sqrt"; tok TOK_IDENT "x";
              tok TOK_EOF ""]
             [tok TOK_EOF ""]
             (NODE_CALL (Some "math"%string) "sqrt" [NODE_VAR "x"]) eq_refl).
Defined.

(** ** [inc] and [dec] *)

Lemma find_param_in_found (ps : list string) (name : string) (i : Z) :
  In name ps -> i <= find_param_in ps name i.
Proof.
  revert i. induction ps as [|n rest IH]; intros i Hin; [destruct Hin|].
  cbn [find_param_in]. destruct (String.eqb n name) eqn:E; [lia|].
  destruct Hin as [->|Hin]; [rewrite String.eqb_refl in E; discriminate|].
  specialize (IH (i + 1) Hin). lia.
Qed.

(** C10.  When the target name of [inc] or [dec] is a parameter of the
    function that is not in the table of locals, the statement writes no
    line at all (so no load and no store) and adds the unknown-variable
    diagnostic.  The same name read in an expression is found among the
    parameters: one line, no diagnostic. *)
Theorem C10_inc_dec_on_parameter_unknown
    (cg : CodeGen) (name : string) (amount : option Expr) :
  In name (param_names cg) ->
  find_local cg name < 0 ->
  (exists cg',
      codegen_stmt (NODE_INC name amount) cg = Some cg'
      /\ out cg' = out cg
      /\ err cg' = err cg ++ [msg_unknown_variable_in name "inc"])
  /\ (exists cg',
      codegen_stmt (NODE_DEC name amount) cg = Some cg'
      /\ out cg' = out cg
      /\ err cg' = err cg ++ [msg_unknown_variable_in name "dec"])
  /\ (let (reg, cg') := codegen_expr (NODE_VAR name) cg in
      reg = temp_counter cg
      /\ 0 <= find_param cg name
      /\ out cg' = out cg ++ [IBin reg Fadd (Const d0) (Arg (find_param cg name))]
      /\ err cg' = err cg).
Proof.
  intros Hparam Hlocal.
  assert (Hfound : 0 <= find_param cg name)
    by (apply find_param_in_found; exact Hparam).
  split; [|split].
  - apply Z.ltb_lt in Hlocal.
    eexists; cbn [codegen_stmt]; unfold codegen_incdec;
      rewrite Hlocal; (split; [reflexivity|]); split; reflexivity.
  - apply Z.ltb_lt in Hlocal.
    eexists; cbn [codegen_stmt]; unfold codegen_incdec;
      rewrite Hlocal; (split; [reflexivity|]); split; reflexivity.
  - cbn [codegen_expr].
    assert (E1 : (0 <=? find_local cg name) = false) by (apply Z.leb_gt; lia).
    assert (E2 : (0 <=? find_param cg name) = true) by (apply Z.leb_le; lia).
    rewrite E1, E2. cbn. repeat split. exact Hfound.
Qed.

(** Witness for C10: [inc n] and [dec n] in a function whose only name is
    the parameter [n]. *)
Lemma C10_inc_dec_witness :
  let cg := set_params codegen_create ["n"%string] in
  (exists cg',
      codegen_stmt (NODE_INC "n" None) cg = Some cg'
      /\ out cg' = out cg
      /\ err cg' = err cg ++ [msg_unknown_variable_in "n" "inc"])
  /\ (exists cg',
      codegen_stmt (NODE_DEC "n" None) cg = Some cg'
      /\ out cg' = out cg
      /\ err cg' = err cg ++ [msg_unknown_variable_in "n" "dec"])
  /\ (let (reg, cg') := codegen_expr (NODE_VAR "n") cg in
      reg = temp_counter cg
      /\ 0 <= find_param cg "n"
      /\ out cg' = out cg ++ [IBin reg Fadd (Const d0) (Arg (find_param cg "n"))]
      /\ err cg' = err cg).
Proof.
  apply (C10_inc_dec_on_parameter_unknown
           (set_params codegen_create ["n"%string]) "n" None).
  - simpl. left. reflexivity.
  - reflexivity.
Defined.

(** ** Registers are fresh *)

Section ExprInduction.

Variable P : Expr -> Prop.
Hypothesis Hnum : forall v, P (NODE_NUM v).
Hypothesis Hstr : forall s, P (NODE_STR s).
Hypothesis Hbool : forall b, P (NODE_BOOL b).
Hypothesis Hvar : forall n, P (NODE_VAR n).
Hypothesis Hpos : forall i, P (NODE_POSITIONAL i).
Hypothesis Hbin : forall op l r, P l -> P r -> P (NODE_BINOP op l r).
Hypothesis Hun : forall op e, P e -> P (NODE_UNARYOP op e).
Hypothesis Hcall : forall m f args, Forall P args -> P (NODE_CALL m f args).

(** Induction over expressions, with the hypothesis for every argument of
    a call. *)
Fixpoint Expr_nested_ind (e : Expr) : P e :=
  match e with
  | NODE_NUM v => Hnum v
  | NODE_STR s => Hstr s
  | NODE_BOOL b => Hbool b
  | NODE_VAR n => Hvar n
  | NODE_POSITIONAL i => Hpos i
  | NODE_BINOP op l r => Hbin op l r (Expr_nested_ind l) (Expr_nested_ind r)
  | NODE_UNARYOP op e' => Hun op e' (Expr_nested_ind e')
  | NODE_CALL m f args =>
      Hcall m f args
        ((fix all (l : list Expr) : Forall P l :=
            match l with
            | [] => Forall_nil P
            | x :: rest => Forall_cons x (Expr_nested_ind x) (all rest)
            end) args)
  end.

End ExprInduction.

Section StmtInduction.

Variable P : Stmt -> Prop.
Hypothesis Hret : forall v e, P (NODE_RETURN v e).
Hypothesis Hif : forall c t e,
  (forall s, t = Some s -> P s) -> (forall s, e = Some s -> P s) ->
  P (NODE_IF c t e).
Hypothesis Hlet : forall n e, P (NODE_LET n e).
Hypothesis Hexpr : forall e, P (NODE_EXPR_STMT e).
Hypothesis Hout : forall e, P (NODE_OUT e).
Hypothesis Hrepeat : forall c v body, Forall P body -> P (NODE_REPEAT c v body).
Hypothesis Hwhile : forall c body, Forall P body -> P (NODE_WHILE c body).
Hypothesis Hinc : forall n a, P (NODE_INC n a).
Hypothesis Hdec : forall n a, P (NODE_DEC n a).

(** Induction over statements, with the hypothesis for the arms of an
    [if] and for every statement of a loop body. *)
Fixpoint Stmt_nested_ind (s : Stmt) : P s :=
  match s with
  | NODE_RETURN v e => Hret v e
  | NODE_IF c t e =>
      Hif c t e
        (fun s' (H : t = Some s') =>
           match t as t0 return t0 = Some s' -> P s' with
           | Some s0 => fun H0 =>
               eq_ind s0 P (Stmt_nested_ind s0) s'
                      (f_equal (fun o => match o with Some x => x | None => s0 end) H0)
           | None => fun H0 => False_ind _ (eq_ind None (fun o => match o with Some _ => False | None => True end) I _ H0)
           end H)
        (fun s' (H : e = Some s') =>
           match e as e0 return e0 = Some s' -> P s' with
           | Some s0 => fun H0 =>
               eq_ind s0 P (Stmt_nested_ind s0) s'
                      (f_equal (fun o => match o with Some x => x | None => s0 end) H0)
           | None => fun H0 => False_ind _ (eq_ind None (fun o => match o with Some _ => False | None => True end) I _ H0)
           end H)
  | NODE_LET n e => Hlet n e
  | NODE_EXPR_STMT e => Hexpr e
  | NODE_OUT e => Hout e
  | NODE_REPEAT c v body =>
      Hrepeat c v body
        ((fix all (l : list Stmt) : Forall P l :=
            match l with
            | [] => Forall_nil P
            | x :: rest => Forall_cons x (Stmt_nested_ind x) (all rest)
            end) body)
  | NODE_WHILE c body =>
      Hwhile c body
        ((fix all (l : list Stmt) : Forall P l :=
            match l with
            | [] => Forall_nil P
            | x :: rest => Forall_cons x (Stmt_nested_ind x) (all rest)
            end) body)
  | NODE_INC n a => Hinc n a
  | NODE_DEC n a => Hdec n a
  end.

End StmtInduction.

(** The equations of the two recursive emitters on the nodes with lists,
    with the inner loops named. *)
Lemma codegen_expr_call_eq (module : option string) (func : string)
    (args : list Expr) (cg : CodeGen) :
  codegen_expr (NODE_CALL module func args) cg =
  let (result_reg, cg) := next_temp cg in
  match module with
  | None =>
      let cg := emit cg (ICommentCall None func) in
      let (arg_regs, cg) := codegen_exprs args cg in
      (result_reg, emit cg (ICall result_reg func arg_regs))
  | Some m =>
      let cg := emit cg (ICommentCall (Some m) func) in
      let unimplemented (cg : CodeGen) :=
        (result_reg, emit cg (IBin result_reg Fadd (Const d0) (Const d0))) in
      if String.eqb m "math" then
        match args with
        | [] => unimplemented cg
        | a0 :: more =>
            let (arg_reg, cg) := codegen_expr a0 cg in
            match math_unary func with
            | Some callee =>
                (result_reg, emit cg (IIntrinsic result_reg callee [arg_reg]))
            | None =>
                match more with
                | [] => unimplemented cg
                | a1 :: _ =>
                    let (arg2_reg, cg) := codegen_expr a1 cg in
                    match math_binary func with
                    | Some callee =>
                        (result_reg,
                         emit cg (IIntrinsic result_reg callee
                                             [arg_reg; arg2_reg]))
                    | None => unimplemented cg
                    end
                end
            end
        end
      else unimplemented cg
  end.
Proof. reflexivity. Qed.

Lemma codegen_stmt_repeat_eq (count : Expr) (var_name : option string)
    (body : list Stmt) (cg : CodeGen) :
  codegen_stmt (NODE_REPEAT count var_name body) cg =
  let (count_reg, cg) := codegen_expr count cg in
  if count_reg <? 0 then Some cg
  else
    let (loop_start, cg) := next_label cg in
    let (loop_body, cg) := next_label cg in
    let (loop_end, cg) := next_label cg in
    let counter_id := local_count cg in
    let cg := emit cg (IAlloca counter_id) in
    let cg := emit cg (IStore (Const d1) counter_id) in
    let cg := match var_name with
              | Some name => add_local cg name counter_id
              | None => bump_local_count cg
              end in
    let cg := emit cg (IBr (L_loop_start loop_start)) in
    let cg := emit cg (ILabel (L_loop_start loop_start)) in
    let (counter_val, cg) := next_temp cg in
    let cg := emit cg (ILoad counter_val counter_id) in
    let (cmp_reg, cg) := next_temp cg in
    let cg := emit cg (IFcmp cmp_reg Ole (Reg counter_val) (Reg count_reg)) in
    let cg := emit cg (ICondBr cmp_reg (L_loop_body loop_body)
                               (L_loop_end loop_end)) in
    let cg := emit cg (ILabel (L_loop_body loop_body)) in
    match codegen_stmts body cg with
    | None => None
    | Some cg =>
        let (inc_load, cg) := next_temp cg in
        let (inc_add, cg) := next_temp cg in
        let cg := emit cg (ILoad inc_load counter_id) in
        let cg := emit cg (IBin inc_add Fadd (Reg inc_load) (Const d1)) in
        let cg := emit cg (IStore (Reg inc_add) counter_id) in
        let cg := emit cg (IBr (L_loop_start loop_start)) in
        Some (emit cg (ILabel (L_loop_end loop_end)))
    end.
Proof. reflexivity. Qed.

Lemma codegen_stmt_while_eq (condition : Expr) (body : list Stmt)
    (cg : CodeGen) :
  codegen_stmt (NODE_WHILE condition body) cg =
  let (loop_start, cg) := next_label cg in
  let (loop_body, cg) := next_label cg in
  let (loop_end, cg) := next_label cg in
  let cg := emit cg (IBr (L_while_start loop_start)) in
  let cg := emit cg (ILabel (L_while_start loop_start)) in
  let (cond_reg, cg) := codegen_expr condition cg in
  if cond_reg <? 0 then Some cg
  else
    let (bool_reg, cg) := next_temp cg in
    let cg := emit cg (IFcmp bool_reg One (Reg cond_reg) (Const d0)) in
    let cg := emit cg (ICondBr bool_reg (L_while_body loop_body)
                               (L_while_end loop_end)) in
    let cg := emit cg (ILabel (L_while_body loop_body)) in
    match codegen_stmts body cg with
    | None => None
    | Some cg =>
        let cg := emit cg (IBr (L_while_start loop_start)) in
        Some (emit cg (ILabel (L_while_end loop_end)))
    end.
Proof. reflexivity. Qed.

(** Steps of the emitter that keep the invariant. *)
Lemma Inv_start (cg : CodeGen) : Inv (temp_counter cg) (out cg) cg.
Proof.
  split; [lia|]. exists []. split; [now rewrite app_nil_r | constructor].
Qed.

Lemma Inv_emit (base : Z) (pre : list ir_line) (cg : CodeGen) (l : ir_line) :
  Inv base pre cg -> defs_above base l -> Inv base pre (emit cg l).
Proof.
  intros [Hb (new & Hout & Hall)] Hl. split; [exact Hb|].
  exists (new ++ [l]). simpl. rewrite Hout, app_assoc. split; [reflexivity|].
  apply Forall_app. split; [exact Hall | constructor; [exact Hl | constructor]].
Qed.

Lemma Inv_report (base : Z) (pre : list ir_line) (cg : CodeGen) (msg : string) :
  Inv base pre cg -> Inv base pre (report cg msg).
Proof. intro H. exact H. Qed.

Lemma Inv_set_locals (base : Z) (pre : list ir_line) (cg : CodeGen) ls :
  Inv base pre cg -> Inv base pre (set_locals cg ls).
Proof. intro H. exact H. Qed.

Lemma Inv_next_temp (base : Z) (pre : list ir_line) (cg cg' : CodeGen) (r : Z) :
  Inv base pre cg -> next_temp cg = (r, cg') ->
  base <= r /\ r = temp_counter cg /\ temp_counter cg' = r + 1 /\ Inv base pre cg'.
Proof.
  intros [Hb Hnew] E. inversion E. subst. simpl.
  split; [lia|]. split; [reflexivity|]. split; [reflexivity|].
  split; [simpl; lia | exact Hnew].
Qed.

Lemma Inv_next_label (base : Z) (pre : list ir_line) (cg cg' : CodeGen) (k : Z) :
  Inv base pre cg -> next_label cg = (k, cg') -> Inv base pre cg'.
Proof. intros H E. inversion E. subst. exact H. Qed.

Lemma Inv_next_string (base : Z) (pre : list ir_line) (cg cg' : CodeGen) (k : Z) :
  Inv base pre cg -> next_string cg = (k, cg') -> Inv base pre cg'.
Proof. intros H E. inversion E. subst. exact H. Qed.

Lemma defs_above_none (base : Z) (l : ir_line) :
  def_reg l = None -> defs_above base l.
Proof. intros H d Hd. congruence. Qed.

Lemma defs_above_some (base r : Z) (l : ir_line) :
  def_reg l = Some r -> base <= r -> defs_above base l.
Proof. intros H Hr d Hd. congruence. Qed.

(** Discharges the side condition of [Inv_emit] for a concrete line. *)
Ltac solve_defs :=
  first [ apply defs_above_none; reflexivity
        | eapply defs_above_some; [reflexivity | lia] ].

(** Consumes the leading allocations of temporaries, labels and strings,
    the case distinctions, and the lines written at the end of a path. *)
Ltac cg_step :=
  match goal with
  | H : Inv ?b ?p ?cg |- context [next_temp ?cg] =>
      let r := fresh "r" in
      let cg' := fresh "cg" in
      let E := fresh "E" in
      destruct (next_temp cg) as [r cg'] eqn:E;
      destruct (Inv_next_temp b p cg cg' r H E) as (? & ? & ? & ?);
      clear E
  | H : Inv ?b ?p ?cg |- context [next_label ?cg] =>
      let k := fresh "k" in
      let cg' := fresh "cg" in
      let E := fresh "E" in
      destruct (next_label cg) as [k cg'] eqn:E;
      pose proof (Inv_next_label b p cg cg' k H E);
      clear E
  | H : Inv ?b ?p ?cg |- context [next_string ?cg] =>
      let k := fresh "k" in
      let cg' := fresh "cg" in
      let E := fresh "E" in
      destruct (next_string cg) as [k cg'] eqn:E;
      pose proof (Inv_next_string b p cg cg' k H E);
      clear E
  | |- Inv _ _ (snd (_, _)) => cbn [snd]
  | |- Inv _ _ (emit _ _) => apply Inv_emit; [|solve_defs]
  | |- Inv _ _ (report _ _) => apply Inv_report
  | |- Inv _ _ (add_local _ _ _) => apply Inv_set_locals
  | |- Inv _ _ (bump_local_count _) => apply Inv_set_locals
  | |- Inv_opt _ _ (Some _) => cbn [Inv_opt]
  | |- Inv_opt _ _ None => exact I
  | |- Inv _ _ ?cg => assumption
  | |- context [if ?c then _ else _] => destruct c
  | |- context [match classify_binop ?op with _ => _ end] =>
      destruct (classify_binop op)
  end.

Lemma codegen_exprs_Inv (base : Z) (pre : list ir_line) (args : list Expr) :
  Forall (fun e => forall cg, Inv base pre cg ->
                             Inv base pre (snd (codegen_expr e cg))) args ->
  forall cg, Inv base pre cg -> Inv base pre (snd (codegen_exprs args cg)).
Proof.
  induction 1 as [|e rest He _ IH]; intros cg H; cbn [codegen_exprs].
  - exact H.
  - specialize (He cg H). destruct (codegen_expr e cg) as [r cg1].
    specialize (IH cg1 He). destruct (codegen_exprs rest cg1) as [rs cg2].
    exact IH.
Qed.

(** Every line [codegen_expr] writes assigns a register drawn from the
    counter of temporaries after the call started. *)
Lemma codegen_expr_Inv (base : Z) (pre : list ir_line) (e : Expr) :
  forall cg, Inv base pre cg -> Inv base pre (snd (codegen_expr e cg)).
Proof.
  induction e as [v|s|b|n|i|op l r IHl IHr|op e IHe|m f args IHargs]
    using Expr_nested_ind; intros cg H.
  - cbn [codegen_expr]. repeat cg_step.
  - cbn [codegen_expr]. repeat cg_step.
  - cbn [codegen_expr]. repeat cg_step.
  - cbn [codegen_expr]. repeat cg_step.
  - cbn [codegen_expr]. repeat cg_step.
  - cbn [codegen_expr].
    specialize (IHl cg H). destruct (codegen_expr l cg) as [lr cg1].
    specialize (IHr cg1 IHl). destruct (codegen_expr r cg1) as [rr cg2].
    cbn [snd] in *. repeat cg_step.
  - cbn [codegen_expr].
    specialize (IHe cg H). destruct (codegen_expr e cg) as [er cg1].
    cbn [snd] in *. repeat cg_step.
  - rewrite codegen_expr_call_eq. cg_step.
    destruct m as [m|].
    + cbv zeta. destruct (String.eqb m "math").
      * destruct args as [|a0 more]; [repeat cg_step|].
        inversion IHargs as [|? ? Ha0 Hmore]; subst.
        assert (H4 : Inv base pre (emit cg0 (ICommentCall (Some m) f)))
          by repeat cg_step.
        specialize (Ha0 _ H4).
        destruct (codegen_expr a0 _) as [ar cg1]. cbn [snd] in Ha0.
        destruct (math_unary f); [repeat cg_step|].
        destruct more as [|a1 more']; [repeat cg_step|].
        inversion Hmore as [|? ? Ha1 _]; subst.
        specialize (Ha1 _ Ha0).
        destruct (codegen_expr a1 _) as [ar2 cg2]. cbn [snd] in Ha1.
        destruct (math_binary f); repeat cg_step.
      * repeat cg_step.
    + cbv zeta.
      assert (H4 : Inv base pre (emit cg0 (ICommentCall None f)))
        by repeat cg_step.
      pose proof (codegen_exprs_Inv base pre args IHargs _ H4) as Hargs.
      destruct (codegen_exprs args _) as [rs cg1]. cbn [snd] in Hargs.
      repeat cg_step.
Qed.

(** The same steps, for a state that is not yet known to satisfy the
    invariant, and for the sub-expressions. *)
Ltac cg_more :=
  first
    [ cg_step
    | match goal with
      | |- Inv_opt ?b ?p _ =>
          match goal with
          | |- context [codegen_expr ?e ?c] =>
              let H := fresh "H" in
              assert (H : Inv b p c) by (repeat cg_step);
              apply (codegen_expr_Inv b p e) in H;
              destruct (codegen_expr e c) as [? ?]; cbn [snd] in H
          | |- context [next_temp ?c] =>
              assert (Inv b p c) by (repeat cg_step)
          | |- context [next_label ?c] =>
              assert (Inv b p c) by (repeat cg_step)
          end
      | |- Inv ?b ?p _ =>
          match goal with
          | |- context [codegen_expr ?e ?c] =>
              let H := fresh "H" in
              assert (H : Inv b p c) by (repeat cg_step);
              apply (codegen_expr_Inv b p e) in H;
              destruct (codegen_expr e c) as [? ?]; cbn [snd] in H
          | |- context [next_temp ?c] =>
              assert (Inv b p c) by (repeat cg_step)
          | |- context [next_label ?c] =>
              assert (Inv b p c) by (repeat cg_step)
          end
      end ].

Lemma codegen_stmts_Inv (base : Z) (pre : list ir_line) (body : list Stmt) :
  Forall (fun s => forall cg, Inv base pre cg ->
                             Inv_opt base pre (codegen_stmt s cg)) body ->
  forall cg, Inv base pre cg -> Inv_opt base pre (codegen_stmts body cg).
Proof.
  induction 1 as [|s rest Hs _ IH]; intros cg H; cbn [codegen_stmts].
  - exact H.
  - specialize (Hs cg H). destruct (codegen_stmt s cg) as [cg1|]; [|exact I].
    exact (IH cg1 Hs).
Qed.

Lemma codegen_incdec_Inv (base : Z) (pre : list ir_line) (op : binop)
    (what name : string) (amount : option Expr) (cg : CodeGen) :
  Inv base pre cg -> Inv base pre (codegen_incdec op what name amount cg).
Proof.
  intro H. unfold codegen_incdec.
  destruct (find_local cg name <? 0); [repeat cg_step|].
  cg_step. destruct amount as [e|].
  - repeat cg_more.
  - repeat cg_more.
Qed.

(** Every line [codegen_stmt] writes assigns a register drawn from the
    counter of temporaries after the call started. *)
Lemma codegen_stmt_Inv (base : Z) (pre : list ir_line) (s : Stmt) :
  forall cg, Inv base pre cg -> Inv_opt base pre (codegen_stmt s cg).
Proof.
  induction s as [v e|c t e IHt IHe|n e|e|e|c v body IHbody|c body IHbody|n a|n a]
    using Stmt_nested_ind; intros cg H.
  - cbn [codegen_stmt]. repeat cg_more.
  - cbn [codegen_stmt]. cg_more. destruct (z <? 0); [repeat cg_more|].
    do 4 cg_more.
    destruct e as [else_s|]; destruct t as [then_s|]; try exact I.
    + specialize (IHt then_s eq_refl). specialize (IHe else_s eq_refl).
      match goal with
      | |- context [codegen_stmt then_s ?c] =>
          assert (Hc : Inv base pre c) by (repeat cg_step);
          specialize (IHt c Hc); destruct (codegen_stmt then_s c) as [cg_t|]
      end; [|exact I].
      cbn [Inv_opt] in IHt.
      match goal with
      | |- context [codegen_stmt else_s ?c] =>
          assert (Hc' : Inv base pre c)
            by (destruct (is_return then_s); repeat cg_step);
          specialize (IHe c Hc'); destruct (codegen_stmt else_s c) as [cg_e|]
      end; [|exact I].
      cbn [Inv_opt] in IHe. repeat cg_step.
    + specialize (IHt then_s eq_refl).
      match goal with
      | |- context [codegen_stmt then_s ?c] =>
          assert (Hc : Inv base pre c) by (repeat cg_step);
          specialize (IHt c Hc); destruct (codegen_stmt then_s c) as [cg_t|]
      end; [|exact I].
      cbn [Inv_opt] in IHt. repeat cg_step.
  - cbn [codegen_stmt]. repeat cg_more.
  - cbn [codegen_stmt]. repeat cg_more.
  - cbn [codegen_stmt]. destruct e; repeat cg_more.
  - rewrite codegen_stmt_repeat_eq. cbv zeta.
    destruct v as [name|]; repeat cg_more;
      (match goal with
       | |- context [codegen_stmts body ?c] =>
           assert (Hc : Inv base pre c) by (repeat cg_step);
           pose proof (codegen_stmts_Inv base pre body IHbody c Hc) as Hbody;
           destruct (codegen_stmts body c) as [cg_b|]
       end; [cbn [Inv_opt] in Hbody; repeat cg_more | exact I]).
  - rewrite codegen_stmt_while_eq. cbv zeta. repeat cg_more.
    match goal with
    | |- context [codegen_stmts body ?c] =>
        assert (Hc : Inv base pre c) by (repeat cg_step);
        pose proof (codegen_stmts_Inv base pre body IHbody c Hc) as Hbody;
        destruct (codegen_stmts body c) as [cg_b|]
    end; [|exact I].
    cbn [Inv_opt] in Hbody. repeat cg_more.
  - cbn [codegen_stmt Inv_opt]. apply codegen_incdec_Inv. exact H.
  - cbn [codegen_stmt Inv_opt]. apply codegen_incdec_Inv. exact H.
Qed.

Lemma codegen_stmts_fresh (body : list Stmt) (cg cg' : CodeGen) :
  codegen_stmts body cg = Some cg' ->
  temp_counter cg <= temp_counter cg'
  /\ exists new, out cg' = out cg ++ new
                 /\ Forall (defs_above (temp_counter cg)) new.
Proof.
  intro H.
  assert (Hall : Forall (fun s => forall c, Inv (temp_counter cg) (out cg) c ->
                   Inv_opt (temp_counter cg) (out cg) (codegen_stmt s c)) body).
  { apply Forall_forall. intros s _. apply codegen_stmt_Inv. }
  pose proof (codegen_stmts_Inv _ _ body Hall cg (Inv_start cg)) as Hinv.
  rewrite H in Hinv. exact Hinv.
Qed.

Lemma codegen_expr_fresh (e : Expr) (cg cg' : CodeGen) (r : Z) :
  codegen_expr e cg = (r, cg') ->
  temp_counter cg <= temp_counter cg'
  /\ exists new, out cg' = out cg ++ new
                 /\ Forall (defs_above (temp_counter cg)) new.
Proof.
  intro H.
  pose proof (codegen_expr_Inv (temp_counter cg) (out cg) e cg (Inv_start cg))
    as Hinv.
  rewrite H in Hinv. exact Hinv.
Qed.

Lemma codegen_exprs_mono (args : list Expr) (cg : CodeGen) :
  temp_counter cg <= temp_counter (snd (codegen_exprs args cg)).
Proof.
  pose proof (codegen_exprs_Inv (temp_counter cg) (out cg) args) as Hinv.
  apply Hinv; [|apply Inv_start].
  apply Forall_forall. intros e _. apply codegen_expr_Inv.
Qed.

(** The register [codegen_expr] returns is [-1] or one it has drawn. *)
Lemma codegen_expr_reg_bound (e : Expr) (cg cg' : CodeGen) (r : Z) :
  codegen_expr e cg = (r, cg') -> r = -1 \/ r < temp_counter cg'.
Proof.
  destruct e as [v|s|b|n|i|op l rr|op e|m f args].
  - cbn. intro H. inversion H. simpl. right. lia.
  - cbn. intro H. inversion H. simpl. right. lia.
  - cbn. intro H. inversion H. simpl. right. lia.
  - cbn. destruct (0 <=? find_local cg n).
    + intro H. inversion H. simpl. right. lia.
    + destruct (0 <=? find_param cg n); intro H; inversion H; simpl.
      * right. lia.
      * left. reflexivity.
  - cbn. intro H. inversion H. simpl. right. lia.
  - cbn [codegen_expr].
    destruct (codegen_expr l cg) as [lr cg1].
    destruct (codegen_expr rr cg1) as [r2 cg2].
    destruct ((lr <? 0) || (r2 <? 0)).
    + intro H. inversion H. left. reflexivity.
    + unfold next_temp. destruct (classify_binop op); cbn; intro H;
        inversion H; simpl; first [right; lia | left; reflexivity].
  - cbn [codegen_expr].
    destruct (codegen_expr e cg) as [er cg1].
    destruct (er <? 0).
    + intro H. inversion H. left. reflexivity.
    + unfold next_temp.
      destruct (String.eqb op "not"); [|destruct (String.eqb op "neg")]; cbn;
        intro H; inversion H; simpl; right; lia.
  - rewrite codegen_expr_call_eq. unfold next_temp. cbv zeta. cbn [fst snd].
    set (cg0 := {| out := out cg; err := err cg;
                   temp_counter := temp_counter cg + 1;
                   label_counter := label_counter cg;
                   string_counter := string_counter cg;
                   param_names := param_names cg; locals := locals cg;
                   string_literals := string_literals cg |}).
    assert (Hmono : forall e0 c, temp_counter c <=
                                 temp_counter (snd (codegen_expr e0 c))).
    { intros e0 c. destruct (codegen_expr e0 c) as [r0 c'] eqn:E.
      apply codegen_expr_fresh in E. simpl. tauto. }
    destruct m as [m|].
    + destruct (String.eqb m "math").
      * destruct args as [|a0 more].
        { intro H. inversion H. simpl. right. lia. }
        pose proof (Hmono a0 (emit cg0 (ICommentCall (Some m) f))) as H0.
        destruct (codegen_expr a0 _) as [ar cg1]. simpl in H0.
        destruct (math_unary f).
        { intro H. inversion H. simpl. right. lia. }
        destruct more as [|a1 more'].
        { intro H. inversion H. simpl. right. lia. }
        pose proof (Hmono a1 cg1) as H1.
        destruct (codegen_expr a1 cg1) as [ar2 cg2]. simpl in H1.
        destruct (math_binary f); intro H; inversion H; simpl; right; lia.
      * intro H. inversion H. simpl. right. lia.
    + pose proof (codegen_exprs_mono args (emit cg0 (ICommentCall None f)))
        as H0.
      destruct (codegen_exprs args _) as [rs cg1]. simpl in H0.
      intro H. inversion H. simpl. right. lia.
Qed.

(** A line that does not assign register [r] leaves it as it is. *)
Lemma exec_line_keeps_register (args : list double) (l : ir_line)
    (m m' : machine) (r : Z) :
  def_reg l <> Some r ->
  exec_line args l m = Some m' ->
  assoc r (regs m') = assoc r (regs m).
Proof.
  intros Hdef Hexec.
  assert (Hset : forall r0 v, r0 <> r ->
                 assoc r (regs (set_reg m r0 v)) = assoc r (regs m)).
  { intros r0 v Hne. simpl. destruct (r =? r0) eqn:E; [|reflexivity].
    apply Z.eqb_eq in E. congruence. }
  destruct l; simpl in Hexec, Hdef; try discriminate;
    repeat match type of Hexec with
           | match ?x with _ => _ end = _ => destruct x; try discriminate
           end;
    inversion Hexec; subst; try reflexivity; apply Hset; congruence.
Qed.

(** ** The count of a [repeat] *)

(** C9, as stated, fails: the number of iterations is not out of reach of
    the body.  The count of the loops below is read from the parameter [i]
    before the loop, and [as i] names the counter: with [inc i] in the body
    the counter advances by two in each round and the loop makes three
    rounds on 5, where the loop without it makes five. *)
Lemma C9_loop_variable_changes_the_rounds :
  compile_and_call 200 src_loop_variable_kept "f" [double_of_Z 5]
  = Returned (double_of_Z 5)
  /\ compile_and_call 200 src_loop_variable_changed "f" [double_of_Z 5]
     = Returned (double_of_Z 3)
  /\ front_end src_loop_variable_changed
     = Some {| types := [];
               functions :=
                 [ {| func_name := "f"; params := ["i"%string];
                      func_body :=
                        [ NODE_LET "s" (NODE_NUM d0);
                          NODE_REPEAT (NODE_VAR "i") (Some "i"%string)
                            [ NODE_INC "i" None; NODE_INC "s" None ];
                          NODE_RETURN 0 (NODE_VAR "s") ] |} ] |}.
Proof.
  split; [vm_compute; reflexivity|]. split; vm_compute; reflexivity.
Qed.

(** C9 (amended).  When the count of a [repeat] has been lowered into
    [count_reg], the statement writes exactly: the lines of the count
    (before the loop header, once), the loop head, whose comparison reads
    [count_reg], the lines of the body, and the increment with the back
    edge.  No line from
    the loop head on assigns [count_reg], so executing any of them leaves
    the value compared at the loop head as it was computed before the loop:
    a store performed by the body to a variable read by the count
    expression cannot change the value the counter is compared with. *)
Theorem C9_repeat_count_evaluated_once
    (count : Expr) (var_name : option string) (body : list Stmt)
    (cg cg1 cg' : CodeGen) (count_reg : Z) :
  codegen_expr count cg = (count_reg, cg1) ->
  0 <= count_reg ->
  codegen_stmt (NODE_REPEAT count var_name body) cg = Some cg' ->
  exists count_lines body_lines cg_body cg_done,
    let head := repeat_head (label_counter cg1) (local_count cg1)
                            (temp_counter cg1) count_reg in
    let tail := repeat_tail (label_counter cg1) (local_count cg1)
                            (temp_counter cg_done) in
    out cg1 = out cg ++ count_lines
    /\ out cg_body = out cg1 ++ head
    /\ codegen_stmts body cg_body = Some cg_done
    /\ out cg_done = out cg_body ++ body_lines
    /\ out cg' = out cg ++ count_lines ++ head ++ body_lines ++ tail
    /\ Forall (fun l => def_reg l <> Some count_reg)
              (head ++ body_lines ++ tail)
    /\ Forall (fun l => forall args m m',
                   exec_line args l m = Some m' ->
                   assoc count_reg (regs m') = assoc count_reg (regs m))
              (head ++ body_lines ++ tail).
Proof.
  intros Hcount Hpos Hstmt.
  pose proof (codegen_expr_reg_bound _ _ _ _ Hcount) as Hbound.
  assert (Hlt : count_reg < temp_counter cg1) by lia. clear Hbound.
  destruct (codegen_expr_fresh _ _ _ _ Hcount) as (_ & count_lines & Hout1 & _).
  rewrite codegen_stmt_repeat_eq, Hcount in Hstmt.
  replace (count_reg <? 0) with false in Hstmt by (symmetry; apply Z.ltb_ge; lia).
  unfold next_label, next_temp in Hstmt.
  cbn -[codegen_stmts Z.add] in Hstmt.
  match type of Hstmt with
  | match codegen_stmts body ?c with _ => _ end = _ =>
      set (cg_body := c) in *;
      destruct (codegen_stmts body cg_body) as [cg_done|] eqn:Hbody;
      [|discriminate Hstmt]
  end.
  injection Hstmt as Hcg'.
  destruct (codegen_stmts_fresh _ _ _ Hbody) as (Hmono & body_lines & Hout2 & Hfresh).
  assert (Htc : temp_counter cg_body = temp_counter cg1 + 1 + 1).
  { subst cg_body. destruct var_name; reflexivity. }
  assert (Hhead : out cg_body
                  = out cg1 ++ repeat_head (label_counter cg1) (local_count cg1)
                                           (temp_counter cg1) count_reg).
  { subst cg_body. unfold repeat_head, local_count.
    destruct var_name; cbn -[Z.add Z.of_nat];
      repeat rewrite <- app_assoc; cbn [app];
      repeat (f_equal; try lia). }
  assert (Htail : out cg'
                  = out cg_done ++ repeat_tail (label_counter cg1)
                                               (local_count cg1)
                                               (temp_counter cg_done)).
  { subst cg'. unfold repeat_tail, local_count. cbn -[Z.add Z.of_nat].
    repeat rewrite <- app_assoc. cbn [app].
    repeat (f_equal; try lia). }
  clear Hcg'.
  assert (Hnodef : Forall (fun l => def_reg l <> Some count_reg)
            (repeat_head (label_counter cg1) (local_count cg1)
                         (temp_counter cg1) count_reg
             ++ body_lines
             ++ repeat_tail (label_counter cg1) (local_count cg1)
                            (temp_counter cg_done))).
  { apply Forall_app. split; [|apply Forall_app; split].
    - unfold repeat_head. repeat constructor; simpl; try discriminate;
        intro E; inversion E; lia.
    - eapply Forall_impl; [|exact Hfresh]. intros l Hl E.
      specialize (Hl _ E). lia.
    - unfold repeat_tail. repeat constructor; simpl; try discriminate;
        intro E; inversion E; lia. }
  exists count_lines, body_lines, cg_body, cg_done. cbv zeta.
  repeat split.
  - exact Hout1.
  - exact Hhead.
  - exact Hbody.
  - exact Hout2.
  - rewrite Htail, Hout2, Hhead, Hout1.
    repeat rewrite <- app_assoc. reflexivity.
  - exact Hnodef.
  - eapply Forall_impl; [|exact Hnodef]. intros l Hl args m m' Hexec.
    exact (exec_line_keeps_register args l m m' count_reg Hl Hexec).
Qed.

(** Witness for C9: the loop of scenario S3, in the state in which
    [codegen_func] reaches it. *)
Lemma C9_repeat_count_witness :
  exists cg cg1 cg' count_lines body_lines cg_body cg_done,
    let count_reg := 1 in
    let head := repeat_head (label_counter cg1) (local_count cg1)
                            (temp_counter cg1) count_reg in
    let tail := repeat_tail (label_counter cg1) (local_count cg1)
                            (temp_counter cg_done) in
    codegen_stmts [NODE_LET "s" (NODE_NUM d0)]
      (set_params codegen_create ["n"%string]) = Some cg
    /\ codegen_stmt
         (NODE_REPEAT (NODE_VAR "n") (Some "i"%string)
            [NODE_INC "s" (Some (NODE_VAR "i"))]) cg = Some cg'
    /\ out cg1 = out cg ++ count_lines
    /\ out cg_body = out cg1 ++ head
    /\ codegen_stmts [NODE_INC "s" (Some (NODE_VAR "i"))] cg_body = Some cg_done
    /\ out cg_done = out cg_body ++ body_lines
    /\ out cg' = out cg ++ count_lines ++ head ++ body_lines ++ tail
    /\ Forall (fun l => def_reg l <> Some count_reg)
              (head ++ body_lines ++ tail)
    /\ Forall (fun l => forall args m m',
                   exec_line args l m = Some m' ->
                   assoc count_reg (regs m') = assoc count_reg (regs m))
              (head ++ body_lines ++ tail).
Proof.
  destruct (codegen_stmts [NODE_LET "s" (NODE_NUM d0)]
              (set_params codegen_create ["n"%string])) as [cg|] eqn:Hcg;
    [|discriminate Hcg].
  destruct (codegen_expr (NODE_VAR "n") cg) as [count_reg cg1] eqn:Hcount.
  destruct (codegen_stmt
              (NODE_REPEAT (NODE_VAR "n") (Some "i"%string)
                 [NODE_INC "s" (Some (NODE_VAR "i"))]) cg) as [cg'|] eqn:Hstmt.
  2:{ injection Hcg as <-. vm_compute in Hstmt. discriminate Hstmt. }
  assert (Hreg : count_reg = 1).
  { injection Hcg as <-. vm_compute in Hcount. injection Hcount as <- _.
    reflexivity. }
  subst count_reg.
  destruct (C9_repeat_count_evaluated_once
              (NODE_VAR "n") (Some "i"%string)
              [NODE_INC "s" (Some (NODE_VAR "i"))] cg cg1 cg' 1
              Hcount ltac:(lia) Hstmt)
    as (count_lines & body_lines & cg_body & cg_done & H).
  exists cg, cg1, cg', count_lines, body_lines, cg_body, cg_done.
  cbv zeta in *. tauto.
Defined.

(** Scenario S3: the emitted function, run on 5, returns 1+2+3+4+5, and the
    loop of [src_count_changed], whose body increments the variable the
    count was read from, still makes exactly five rounds. *)
Example S3_computes_triangular_sum :
  compile_and_call 200 src_S3 "f" [double_of_Z 5] = Returned (double_of_Z 15)
  /\ compile_and_call 200 src_count_changed "f" [double_of_Z 5]
     = Returned (double_of_Z 5).
Proof. split; vm_compute; reflexivity. Qed.

(** Scenario S1: the text written for [add], whatever the [%e] conversion
    does, and the value of [add] on 5 and 3. *)
Example S1_add_text_and_value (printf_e : double -> string) :
  option_map (fun r => render printf_e (fst r)) (emitted src_S1)
  = Some ("define double @add(double %arg0, double %arg1) {" ++ nl ++
          "entry:" ++ nl ++
          "  %t0 = fadd double 0.0, %arg0" ++ nl ++
          "  %t1 = fadd double 0.0, %arg1" ++ nl ++
          "  %t2 = fadd double %t0, %t1" ++ nl ++
          "  ret double %t2" ++ nl ++
          "}" ++ nl ++ nl)%string
  /\ compile_and_call 50 src_S1 "add" [double_of_Z 5; double_of_Z 3]
     = Returned (double_of_Z 8).
Proof. split; vm_compute; reflexivity. Qed.

(** Scenario S5: the [while] loop counts [i] down from ten; [h] returns 0. *)
Example S5_counts_down_to_zero :
  compile_and_call 400 src_S5 "h" [] = Returned (double_of_Z 0).
Proof. vm_compute. reflexivity. Qed.

(** ** The loop variable of a [repeat] *)

(** [add_local] appends and [find_local] returns the first entry for a
    name: a name that is already in the table keeps its old slot. *)
Lemma find_local_in_app (ls extra : list (option (string * Z))) (name : string) :
  0 <= find_local_in ls name ->
  find_local_in (ls ++ extra) name = find_local_in ls name.
Proof.
  induction ls as [|[[n reg]|] rest IH]; simpl.
  - lia.
  - destruct (String.eqb n name); [reflexivity | exact IH].
  - exact IH.
Qed.

Lemma add_local_keeps_older_binding (cg : CodeGen) (name : string) (slot : Z) :
  0 <= find_local cg name ->
  find_local (add_local cg name slot) name = find_local cg name.
Proof. intro H. unfold find_local, add_local. simpl. now apply find_local_in_app. Qed.

(** C7 (defect of the code).  In [src_two_loops] both loops are written
    [repeat n times as i].  The second loop gets the counter slot 2, but
    [as i] does not bind [i] to it: the body of the second loop
    ([loop_body4]) reads [i] from slot 1, the counter of the first loop,
    which is 6 by then.  Run on 5 the function returns 15 + 5 * 6 = 45 and
    not twice the triangular sum, 30. *)
Theorem C7_second_loop_variable_not_bound_to_its_counter :
  exists lines,
    emitted src_two_loops = Some (lines, [])
    /\ In [ IBin 9 Fadd (Const d0) (Arg 0); IAlloca 2; IStore (Const d1) 2;
            IBr (L_loop_start 3) ] (basic_blocks lines)
    /\ In [ ILoad 10 2; IFcmp 11 Ole (Reg 10) (Reg 9);
            ICondBr 11 (L_loop_body 4) (L_loop_end 5) ] (basic_blocks lines)
    /\ In [ ILoad 12 0; ILoad 13 1; IBin 14 Fadd (Reg 12) (Reg 13);
            IStore (Reg 14) 0;
            ILoad 15 2; IBin 16 Fadd (Reg 15) (Const d1); IStore (Reg 16) 2;
            IBr (L_loop_start 3) ] (basic_blocks lines)
    /\ call_function 200 lines "f" [double_of_Z 5] = Returned (double_of_Z 45).
Proof.
  eexists. split; [vm_compute; reflexivity|].
  repeat split; vm_compute; tauto.
Qed.

(** ** The parser reads one token ahead *)

Lemma check_cons (t : Token) (p : Parser) (T : TokenType) :
  parser_check (t :: p) T = tok_eqb (ttype t) T.
Proof. reflexivity. Qed.

Lemma advance_cons (t : Token) (p : Parser) :
  ttype t <> TOK_EOF -> parser_advance (t :: p) = (t, p).
Proof.
  intro H. unfold parser_advance, parser_at_end. rewrite check_cons.
  apply tok_eqb_neq in H. rewrite H. reflexivity.
Qed.

Lemma expect_cons (t : Token) (p : Parser) (T : TokenType) :
  T <> TOK_EOF ->
  parser_expect (t :: p) T = if tok_eqb (ttype t) T then Some (t, p) else None.
Proof.
  intro H. unfold parser_expect. rewrite check_cons.
  destruct (tok_eqb (ttype t) T) eqn:E; [|reflexivity].
  apply tok_eqb_eq in E. rewrite advance_cons by congruence. reflexivity.
Qed.

Lemma expect_nil (T : TokenType) : T <> TOK_EOF -> parser_expect [] T = None.
Proof.
  intro H. unfold parser_expect, parser_check. simpl.
  destruct (tok_eqb TOK_EOF T) eqn:E; [|reflexivity].
  apply tok_eqb_eq in E. congruence.
Qed.

(** What [parse_primary] makes of a token. *)
Lemma parse_primary_cons (t : Token) (p : Parser) :
  parse_primary (t :: p)
  = match parse_primary [t] with
    | POk e _ => POk e p
    | _ => PFail (t :: p)
    end.
Proof.
  unfold parse_primary, is_number_word, is_positional, parser_current.
  rewrite !check_cons. cbn [hd].
  repeat match goal with
         | |- context [if ?c then _ else _] =>
             lazymatch c with
             | context [if _ then _ else _] => fail
             | _ => destruct c eqn:?
             end
         end;
    try reflexivity;
    rewrite ?orb_true_iff, ?andb_true_iff, ?tok_eqb_eq in *;
    rewrite !advance_cons; try reflexivity;
    intro E; rewrite E in *; simpl in *; intuition discriminate.
Qed.

Lemma parse_unary_cons (fuel : nat) (t : Token) (p : Parser) :
  parse_unary (S fuel) (t :: p)
  = if tok_eqb (ttype t) TOK_NOT then
      do (operand, p1) <- parse_unary fuel p;
      POk (NODE_UNARYOP "not" operand) p1
    else if tok_eqb (ttype t) TOK_NEG then
      do (operand, p1) <- parse_unary fuel p;
      POk (NODE_UNARYOP "neg" operand) p1
    else parse_call fuel (t :: p).
Proof.
  cbn [parse_unary]. rewrite !check_cons.
  destruct (tok_eqb (ttype t) TOK_NOT) eqn:E1.
  { apply tok_eqb_eq in E1. rewrite advance_cons by (rewrite E1; discriminate).
    reflexivity. }
  destruct (tok_eqb (ttype t) TOK_NEG) eqn:E2; [|reflexivity].
  apply tok_eqb_eq in E2. rewrite advance_cons by (rewrite E2; discriminate).
  reflexivity.
Qed.

Lemma is_module_token_not_eof (t : Token) (p : Parser) :
  is_module_token (t :: p) = true -> ttype t <> TOK_EOF.
Proof.
  intros H E. unfold is_module_token in H. simpl in H. rewrite E in H.
  discriminate H.
Qed.

Lemma parse_call_cons (fuel : nat) (t : Token) (p : Parser) :
  parse_call (S fuel) (t :: p)
  = if tok_eqb (ttype t) TOK_CALL then
      match parser_expect p TOK_IDENT with
      | None => PFail p
      | Some (func_tok, p1) =>
          do (args, p2) <- parse_call_args fuel [] p1;
          POk (NODE_CALL None (value func_tok) args) p2
      end
    else if is_module_token [t] then
      match parser_expect p TOK_IDENT with
      | None => PFail p
      | Some (func_tok, p1) =>
          do (args, p2) <- parse_call_args fuel [] p1;
          POk (NODE_CALL (Some (value t)) (value func_tok) args) p2
      end
    else parse_primary (t :: p).
Proof.
  cbn [parse_call]. rewrite !check_cons.
  destruct (tok_eqb (ttype t) TOK_CALL) eqn:E1.
  { apply tok_eqb_eq in E1. rewrite advance_cons by (rewrite E1; discriminate).
    reflexivity. }
  change (is_module_token (t :: p)) with (is_module_token [t]).
  destruct (is_module_token [t]) eqn:E2; [|reflexivity].
  rewrite advance_cons by (eapply is_module_token_not_eof; exact E2).
  reflexivity.
Qed.

Lemma parse_call_args_cons (fuel : nat) (acc : list Expr) (t : Token)
    (p : Parser) :
  parse_call_args (S fuel) acc (t :: p)
  = if is_end_of_expr [t] then POk acc (t :: p)
    else
      do (arg, p1) <- parse_unary fuel (t :: p);
      parse_call_args fuel (acc ++ [arg]) p1.
Proof. reflexivity. Qed.

Lemma is_end_of_expr_cons (t : Token) (p : Parser) :
  is_end_of_expr (t :: p) = is_end_of_expr [t].
Proof. reflexivity. Qed.

Lemma is_end_of_expr_app (pre r r' : Parser) :
  is_end_of_expr r' = is_end_of_expr r ->
  is_end_of_expr (pre ++ r') = is_end_of_expr (pre ++ r).
Proof. destruct pre; [easy | reflexivity]. Qed.

(** An empty token array holds no expression. *)
Lemma parse_nothing (fuel : nat) :
  (forall e r, parse_unary fuel [] <> POk e r)
  /\ (forall e r, parse_call fuel [] <> POk e r).
Proof.
  assert (Hcall : forall f e r, parse_call f [] <> POk e r).
  { intros [|f] e r; [discriminate|]. cbn [parse_call].
    change (parser_check [] TOK_CALL) with false.
    change (is_module_token []) with false. cbn. discriminate. }
  split; [|apply Hcall].
  destruct fuel as [|f]; intros e r; [discriminate|]. cbn [parse_unary].
  change (parser_check [] TOK_NOT) with false.
  change (parser_check [] TOK_NEG) with false. cbn iota. apply Hcall.
Qed.

(** Locality of the unary level.  A successful parse consumed a non-empty
    prefix of the tokens, and what follows that prefix matters only through
    the test [is_end_of_expr] on its first token. *)
Lemma unary_level_local (fuel : nat) :
  (forall p e r,
      parse_unary fuel p = POk e r ->
      exists t pre,
        p = t :: pre ++ r
        /\ forall r', is_end_of_expr r' = is_end_of_expr r ->
                      parse_unary fuel (t :: pre ++ r') = POk e r')
  /\ (forall p e r,
      parse_call fuel p = POk e r ->
      exists t pre,
        p = t :: pre ++ r
        /\ forall r', is_end_of_expr r' = is_end_of_expr r ->
                      parse_call fuel (t :: pre ++ r') = POk e r')
  /\ (forall acc p args r,
      parse_call_args fuel acc p = POk args r ->
      is_end_of_expr r = true
      /\ exists pre,
        p = pre ++ r
        /\ forall r', is_end_of_expr r' = true ->
                      parse_call_args fuel acc (pre ++ r') = POk args r').
Proof.
  induction fuel as [|fuel (IHu & IHc & IHa)].
  { repeat split; intros; discriminate. }
  split; [|split].
  - (* parse_unary *)
    intros [|t p] e r H.
    { exfalso. exact (proj1 (parse_nothing (S fuel)) e r H). }
    rewrite parse_unary_cons in H.
    destruct (tok_eqb (ttype t) TOK_NOT) eqn:E1;
      [|destruct (tok_eqb (ttype t) TOK_NEG) eqn:E2].
    + destruct (parse_unary fuel p) as [o p'| |] eqn:E; try discriminate.
      cbn [pbind] in H. inversion H; subst.
      destruct (IHu _ _ _ E) as (t1 & pre & -> & Hloc).
      exists t, (t1 :: pre). split; [reflexivity|]. intros r' Hr'.
      rewrite parse_unary_cons, E1. cbn [app]. rewrite (Hloc r' Hr').
      reflexivity.
    + destruct (parse_unary fuel p) as [o p'| |] eqn:E; try discriminate.
      cbn [pbind] in H. inversion H; subst.
      destruct (IHu _ _ _ E) as (t1 & pre & -> & Hloc).
      exists t, (t1 :: pre). split; [reflexivity|]. intros r' Hr'.
      rewrite parse_unary_cons, E1, E2. cbn [app]. rewrite (Hloc r' Hr').
      reflexivity.
    + destruct (IHc _ _ _ H) as (t1 & pre & Hp & Hloc).
      injection Hp as <- ->.
      exists t, pre. split; [reflexivity|]. intros r' Hr'.
      rewrite parse_unary_cons, E1, E2. apply Hloc. exact Hr'.
  - (* parse_call *)
    intros [|t p] e r H.
    { exfalso. exact (proj2 (parse_nothing (S fuel)) e r H). }
    rewrite parse_call_cons in H.
    assert (Hargs : forall m p0,
      match parser_expect p TOK_IDENT with
      | None => PFail p0
      | Some (func_tok, p1) =>
          do (args, p2) <- parse_call_args fuel [] p1;
          POk (NODE_CALL m (value func_tok) args) p2
      end = POk e r ->
      exists pre,
        p = pre ++ r
        /\ forall r', is_end_of_expr r' = is_end_of_expr r ->
           match parser_expect (pre ++ r') TOK_IDENT with
           | None => PFail p0
           | Some (func_tok, p1) =>
               do (args, p2) <- parse_call_args fuel [] p1;
               POk (NODE_CALL m (value func_tok) args) p2
           end = POk e r').
    { intros m p0 Hm. destruct p as [|ft p1].
      { rewrite expect_nil in Hm by discriminate. discriminate. }
      rewrite expect_cons in Hm by discriminate.
      destruct (tok_eqb (ttype ft) TOK_IDENT) eqn:Eid; [|discriminate].
      destruct (parse_call_args fuel [] p1) as [args p2| |] eqn:E;
        try discriminate.
      cbn [pbind] in Hm. inversion Hm; subst.
      destruct (IHa _ _ _ _ E) as (Hend & pre & -> & Hloc).
      exists (ft :: pre). split; [reflexivity|]. intros r' Hr'.
      cbn [app]. rewrite expect_cons by discriminate. rewrite Eid.
      rewrite (Hloc r') by congruence. reflexivity. }
    destruct (tok_eqb (ttype t) TOK_CALL) eqn:E1;
      [|destruct (is_module_token [t]) eqn:E2].
    + destruct (Hargs _ _ H) as (pre & -> & Hloc).
      exists t, pre. split; [reflexivity|]. intros r' Hr'.
      rewrite parse_call_cons, E1.
      specialize (Hloc r' Hr').
      destruct (parser_expect (pre ++ r') TOK_IDENT) as [[ft p1]|];
        [exact Hloc | discriminate Hloc].
    + destruct (Hargs _ _ H) as (pre & -> & Hloc).
      exists t, pre. split; [reflexivity|]. intros r' Hr'.
      rewrite parse_call_cons, E1, E2.
      specialize (Hloc r' Hr').
      destruct (parser_expect (pre ++ r') TOK_IDENT) as [[ft p1]|];
        [exact Hloc | discriminate Hloc].
    + rewrite parse_primary_cons in H.
      destruct (parse_primary [t]) as [e0 p0| |] eqn:E; try discriminate.
      inversion H; subst.
      exists t, []. split; [reflexivity|]. intros r' _.
      rewrite parse_call_cons, E1, E2. cbn [app].
      rewrite parse_primary_cons, E. reflexivity.
  - (* the argument loop *)
    intros acc p args r H. cbn [parse_call_args] in H.
    destruct (is_end_of_expr p) eqn:Eend.
    + inversion H; subst. split; [exact Eend|].
      exists []. split; [reflexivity|]. intros r' Hr'. cbn [app parse_call_args].
      rewrite Hr'. reflexivity.
    + destruct (parse_unary fuel p) as [arg p1| |] eqn:E; try discriminate.
      cbn [pbind] in H.
      destruct (IHu _ _ _ E) as (t & pre1 & -> & Hloc1).
      destruct (IHa _ _ _ _ H) as (Hend & pre2 & -> & Hloc2).
      split; [exact Hend|].
      exists (t :: pre1 ++ pre2). split.
      { cbn [app]. rewrite app_assoc. reflexivity. }
      intros r' Hr'. cbn [app]. rewrite <- app_assoc.
      rewrite parse_call_args_cons.
      change (is_end_of_expr [t]) with (is_end_of_expr (t :: pre1 ++ pre2 ++ r)).
      rewrite Eend.
      rewrite (Hloc1 (pre2 ++ r')).
      * cbn [pbind]. apply Hloc2. exact Hr'.
      * apply is_end_of_expr_app. congruence.
Qed.

(** One step of each function of the unary level. *)
Lemma parse_unary_step (fuel : nat) (p : Parser) :
  parse_unary (S fuel) p
  = if parser_check p TOK_NOT then
      do (operand, p1) <- parse_unary fuel (snd (parser_advance p));
      POk (NODE_UNARYOP "not" operand) p1
    else if parser_check p TOK_NEG then
      do (operand, p1) <- parse_unary fuel (snd (parser_advance p));
      POk (NODE_UNARYOP "neg" operand) p1
    else parse_call fuel p.
Proof. reflexivity. Qed.

Lemma parse_call_step (fuel : nat) (p : Parser) :
  parse_call (S fuel) p
  = if parser_check p TOK_CALL then
      match parser_expect (snd (parser_advance p)) TOK_IDENT with
      | None => PFail (snd (parser_advance p))
      | Some (func_tok, p1) =>
          do (args, p2) <- parse_call_args fuel [] p1;
          POk (NODE_CALL None (value func_tok) args) p2
      end
    else if is_module_token p then
      let (mod_tok, p0) := parser_advance p in
      match parser_expect p0 TOK_IDENT with
      | None => PFail p0
      | Some (func_tok, p1) =>
          do (args, p2) <- parse_call_args fuel [] p1;
          POk (NODE_CALL (Some (value mod_tok)) (value func_tok) args) p2
      end
    else parse_primary p.
Proof. reflexivity. Qed.

Lemma parse_call_args_step (fuel : nat) (acc : list Expr) (p : Parser) :
  parse_call_args (S fuel) acc p
  = if is_end_of_expr p then POk acc p
    else
      do (arg, p1) <- parse_unary fuel p;
      parse_call_args fuel (acc ++ [arg]) p1.
Proof. reflexivity. Qed.

(** ** The budgets of the front end *)

(** The loops and the recursion of the front end are modelled with a
    budget.  Every iteration of the lexer's loop consumes a character, and
    every iteration and recursive call of the parser follows the
    consumption of a token or is one of a bounded number of nested calls, so
    the budgets [lexer_tokenize] and [front_end] give are never exhausted;
    and the result of a run that was not cut short is the result of every
    run with a larger budget. *)

Lemma span_chars_length (pred : ascii -> bool) (s : string) :
  (String.length (snd (span_chars pred s)) <= String.length s)%nat.
Proof.
  induction s as [|c rest IH]; simpl; [lia|].
  destruct (pred c); [|simpl; lia].
  destruct (span_chars pred rest) as [taken rem]. simpl in *. lia.
Qed.

Lemma span_chars_progress (pred : ascii -> bool) (c : ascii) (rest : string) :
  pred c = true ->
  (String.length (snd (span_chars pred (String c rest))) <= String.length rest)%nat.
Proof.
  intro H. simpl. rewrite H.
  pose proof (span_chars_length pred rest) as L.
  destruct (span_chars pred rest) as [taken rem]. exact L.
Qed.

Lemma scan_string_body_length (n : nat) (s body rem : string) :
  (String.length s <= n)%nat ->
  scan_string_body s = Some (body, rem) ->
  (1 <= String.length rem <= String.length s)%nat.
Proof.
  revert s body rem.
  induction n as [|n IH]; intros s body rem Hn H.
  - destruct s; [discriminate|simpl in Hn; lia].
  - destruct s as [|c rest]; [discriminate|]. simpl in Hn.
    cbn [scan_string_body] in H.
    destruct (Ascii.eqb c DQUOTE).
    { inversion H. subst. simpl. lia. }
    destruct (Ascii.eqb c NUL); [discriminate|].
    destruct (Ascii.eqb c LF); [discriminate|].
    destruct rest as [|d rest']; [discriminate|].
    destruct (Ascii.eqb c BACKSLASH && Ascii.eqb d DQUOTE).
    + destruct (scan_string_body rest') as [[b r]|] eqn:E; [|discriminate].
      inversion H. subst. apply IH in E; simpl in *; lia.
    + destruct (scan_string_body (String d rest')) as [[b r]|] eqn:E;
        [|discriminate].
      inversion H. subst. apply IH in E; simpl in *; lia.
Qed.

Lemma lexer_skip_while_source (pred : ascii -> bool) (lx : Lexer) :
  source (snd (lexer_skip_while pred lx)) = snd (span_chars pred (source lx)).
Proof.
  unfold lexer_skip_while. destruct (span_chars pred (source lx)). reflexivity.
Qed.

Lemma lexer_add_token_source lx t v : source (lexer_add_token lx t v) = source lx.
Proof. reflexivity. Qed.

Lemma lexer_advance_length (lx : Lexer) :
  (String.length (source (lexer_advance lx)) <= String.length (source lx))%nat.
Proof.
  unfold lexer_advance. destruct (source lx) eqn:E; simpl; [rewrite E; simpl; lia|lia].
Qed.

Lemma lexer_scan_word_length (lx : Lexer) c rest :
  source lx = String c rest -> is_alpha c = true ->
  (String.length (source (lexer_scan_word lx)) <= String.length rest)%nat.
Proof.
  intros Hs Hc. unfold lexer_scan_word.
  pose proof (lexer_skip_while_source is_alnum lx) as E.
  destruct (lexer_skip_while is_alnum lx) as [w lx1]. simpl in E.
  rewrite lexer_add_token_source, E, Hs.
  apply span_chars_progress. unfold is_alnum. rewrite Hc. reflexivity.
Qed.

Lemma lexer_scan_number_length (lx : Lexer) c rest :
  source lx = String c rest -> is_digit c = true ->
  (String.length (source (lexer_scan_number lx)) <= String.length rest)%nat.
Proof.
  intros Hs Hc. unfold lexer_scan_number.
  pose proof (lexer_skip_while_source is_digit lx) as E.
  destruct (lexer_skip_while is_digit lx) as [w lx1]. simpl in E.
  assert (L1 : (String.length (source lx1) <= String.length rest)%nat).
  { rewrite E, Hs. apply span_chars_progress. exact Hc. }
  destruct (Ascii.eqb (lexer_current lx1) "." && is_digit (lexer_peek lx1)).
  - pose proof (lexer_skip_while_source is_digit (lexer_advance lx1)) as E2.
    destruct (lexer_skip_while is_digit (lexer_advance lx1)) as [f lx3].
    simpl in E2. rewrite lexer_add_token_source, E2.
    pose proof (span_chars_length is_digit (source (lexer_advance lx1))).
    pose proof (lexer_advance_length lx1). lia.
  - rewrite lexer_add_token_source. exact L1.
Qed.

Lemma lexer_scan_string_length (lx lx1 : Lexer) c rest :
  source lx = String c rest ->
  lexer_scan_string lx = Some lx1 ->
  (String.length (source lx1) <= String.length rest)%nat.
Proof.
  intros Hs H. unfold lexer_scan_string in H.
  assert (Ha : source (lexer_advance lx) = rest).
  { unfold lexer_advance. rewrite Hs. reflexivity. }
  rewrite Ha in H.
  destruct (scan_string_body rest) as [[body rem]|] eqn:E; [|discriminate].
  inversion H. subst lx1.
  apply (scan_string_body_length _ _ _ _ (Nat.le_refl _)) in E.
  match goal with |- (String.length (source (lexer_advance ?l)) <= _)%nat =>
    pose proof (lexer_advance_length l) as L; simpl in L end.
  lia.
Qed.

(** The budget of [lexer_tokenize] is never exhausted. *)
Lemma lexer_loop_fuel (fuel : nat) (lx : Lexer) :
  (String.length (source lx) < fuel)%nat -> lexer_loop fuel lx <> LexFuel.
Proof.
  revert lx. induction fuel as [|fuel IH]; intros lx Hlen; [lia|].
  cbn [lexer_loop]. destruct (source lx) as [|c rest] eqn:Hs; [discriminate|].
  simpl in Hlen.
  destruct (Ascii.eqb c " " || Ascii.eqb c TAB || Ascii.eqb c CR).
  { apply IH. unfold lexer_advance. rewrite Hs. simpl. lia. }
  destruct (Ascii.eqb c LF).
  { apply IH. unfold lexer_advance. simpl. rewrite Hs. simpl. lia. }
  destruct ((Ascii.eqb c "-" && Ascii.eqb (lexer_peek lx) "-") || Ascii.eqb c "#")
    eqn:Hcomment.
  { apply IH. rewrite lexer_skip_while_source, Hs.
    assert (Hc : not_eol c = true).
    { apply orb_true_iff in Hcomment. destruct Hcomment as [H|H].
      - apply andb_true_iff in H. destruct H as [H _].
        apply Ascii.eqb_eq in H. subst c. reflexivity.
      - apply Ascii.eqb_eq in H. subst c. reflexivity. }
    pose proof (span_chars_progress not_eol c rest Hc). lia. }
  destruct (Ascii.eqb c DQUOTE).
  { destruct (lexer_scan_string lx) as [lx1|] eqn:E; [|discriminate].
    apply IH. pose proof (lexer_scan_string_length lx lx1 c rest Hs E). lia. }
  destruct (is_digit c) eqn:Hd.
  { apply IH. pose proof (lexer_scan_number_length lx c rest Hs Hd). lia. }
  destruct (is_alpha c) eqn:Ha; [|discriminate].
  apply IH. pose proof (lexer_scan_word_length lx c rest Hs Ha). lia.
Qed.

Lemma lexer_tokenize_fuel (src : string) : lexer_tokenize src <> LexFuel.
Proof. apply lexer_loop_fuel. simpl. lia. Qed.

Lemma advance_length (p : Parser) :
  (List.length (snd (parser_advance p)) <= List.length p)%nat.
Proof.
  unfold parser_advance. destruct (parser_at_end p); simpl; [lia|].
  destruct p; simpl; lia.
Qed.

Lemma check_advance (p : Parser) (T : TokenType) :
  T <> TOK_EOF -> parser_check p T = true ->
  S (List.length (snd (parser_advance p))) = List.length p.
Proof.
  intros HT H. apply parser_check_eq in H.
  unfold parser_advance, parser_at_end, parser_check.
  destruct (tok_eqb (ttype (parser_current p)) TOK_EOF) eqn:E.
  { apply tok_eqb_eq in E. congruence. }
  destruct p as [|t rest]; [|reflexivity].
  exfalso. apply HT. rewrite <- H. reflexivity.
Qed.

Ltac stepped E :=
  match type of E with
  | parser_check ?p ?T = true =>
      let L := fresh "L" in
      assert (L : S (List.length (snd (parser_advance p))) = List.length p)
        by (apply (check_advance p T); [discriminate|exact E])
  end.

Lemma not_eof_advance (p : Parser) :
  ttype (parser_current p) <> TOK_EOF ->
  S (List.length (snd (parser_advance p))) = List.length p.
Proof.
  intro H. apply (check_advance p (ttype (parser_current p)) H).
  unfold parser_check. apply tok_eqb_refl.
Qed.

Lemma match_length (p : Parser) (T : TokenType) :
  (List.length (snd (parser_match p T)) <= List.length p)%nat.
Proof.
  unfold parser_match. destruct (parser_check p T); simpl; [|lia].
  apply advance_length.
Qed.

Lemma match_true (p q : Parser) (T : TokenType) :
  T <> TOK_EOF -> parser_match p T = (true, q) ->
  (List.length q < List.length p)%nat.
Proof.
  intros HT H. unfold parser_match in H.
  destruct (parser_check p T) eqn:E; [|discriminate].
  inversion H. pose proof (check_advance p T HT E). lia.
Qed.

Lemma match_any (p q : Parser) (T : TokenType) (b : bool) :
  parser_match p T = (b, q) -> (List.length q <= List.length p)%nat.
Proof.
  intro H. pose proof (match_length p T) as L. rewrite H in L. exact L.
Qed.

Lemma expect_length (p q : Parser) (T : TokenType) (tok : Token) :
  T <> TOK_EOF -> parser_expect p T = Some (tok, q) ->
  (List.length q < List.length p)%nat.
Proof.
  intros HT H. unfold parser_expect in H.
  destruct (parser_check p T) eqn:E; [|discriminate].
  pose proof (check_advance p T HT E) as L.
  destruct (parser_advance p) as [t q']. inversion H. subst. simpl in L. lia.
Qed.

Lemma skip_newlines_length (p : Parser) :
  (List.length (parser_skip_newlines p) <= List.length p)%nat.
Proof.
  induction p as [|t rest IH]; simpl; [lia|].
  destruct (tok_eqb (ttype t) TOK_NEWLINE); simpl; lia.
Qed.

Lemma ret_variant_length (p : Parser) :
  (List.length (snd (parse_ret_variant p)) <= List.length p)%nat.
Proof.
  unfold parse_ret_variant.
  destruct (parser_match p TOK_OK) as [b p1] eqn:E1.
  apply match_any in E1. destruct b; simpl; [exact E1|].
  destruct (parser_match p1 TOK_ERR) as [b2 p2] eqn:E2.
  apply match_any in E2. destruct b2; simpl; lia.
Qed.

Lemma parse_primary_consumes (p : Parser) :
  consumes (List.length p) (parse_primary p).
Proof.
  unfold parse_primary.
  destruct (parser_check p TOK_NUMBER) eqn:E1.
  { stepped E1.
    destruct (parser_advance p); simpl in *; lia. }
  destruct (parser_check p TOK_STRING) eqn:E2.
  { stepped E2.
    destruct (parser_advance p); simpl in *; lia. }
  destruct (is_number_word p) eqn:E3.
  { assert (Hne : ttype (parser_current p) <> TOK_EOF).
    { intro E. unfold is_number_word in E3. rewrite E in E3. discriminate. }
    pose proof (not_eof_advance p Hne).
    destruct (parser_advance p); simpl in *; lia. }
  destruct (is_positional p) eqn:E4.
  { assert (Hne : ttype (parser_current p) <> TOK_EOF).
    { intro E. unfold is_positional in E4. rewrite E in E4. discriminate. }
    pose proof (not_eof_advance p Hne).
    destruct (parser_advance p); simpl in *; lia. }
  destruct (parser_check p TOK_IDENT) eqn:E5.
  { stepped E5. cbn [andb].
    destruct (String.eqb _ "true"); [simpl; lia|].
    destruct (String.eqb _ "false"); [simpl; lia|].
    destruct (parser_advance p); simpl in *; lia. }
  simpl. lia.
Qed.

Lemma module_token_advance (p : Parser) :
  is_module_token p = true ->
  S (List.length (snd (parser_advance p))) = List.length p.
Proof.
  intro H. apply not_eof_advance. intro E. unfold is_module_token in H.
  rewrite E in H. discriminate.
Qed.

(** Budget of the unary level. *)
Lemma unary_level_fuel (fuel : nat) :
  (forall p, (2 * List.length p + 2 <= fuel)%nat ->
             consumes (List.length p) (parse_unary fuel p))
  /\ (forall p, (2 * List.length p + 1 <= fuel)%nat ->
                consumes (List.length p) (parse_call fuel p))
  /\ (forall acc p, (2 * List.length p + 3 <= fuel)%nat ->
                    no_longer (List.length p) (parse_call_args fuel acc p)).
Proof.
  induction fuel as [|fuel (IHu & IHc & IHa)].
  { repeat split; intros; lia. }
  split; [|split].
  - intros p Hf. rewrite parse_unary_step.
    destruct (parser_check p TOK_NOT) eqn:E1.
    { stepped E1.
      specialize (IHu (snd (parser_advance p)) ltac:(lia)).
      destruct (parse_unary fuel _); simpl in *; lia. }
    destruct (parser_check p TOK_NEG) eqn:E2.
    { stepped E2.
      specialize (IHu (snd (parser_advance p)) ltac:(lia)).
      destruct (parse_unary fuel _); simpl in *; lia. }
    apply IHc. lia.
  - intros p Hf. rewrite parse_call_step.
    destruct (parser_check p TOK_CALL) eqn:E1.
    { stepped E1.
      destruct (parser_expect _ TOK_IDENT) as [[func_tok p1]|] eqn:E2;
        [|simpl; lia].
      apply expect_length in E2; [|discriminate].
      specialize (IHa [] p1 ltac:(lia)).
      destruct (parse_call_args fuel [] p1); simpl in *; lia. }
    destruct (is_module_token p) eqn:E3.
    { pose proof (module_token_advance p E3) as L.
      destruct (parser_advance p) as [mod_tok p0]. simpl in L.
      destruct (parser_expect _ TOK_IDENT) as [[func_tok p1]|] eqn:E2;
        [|simpl; lia].
      apply expect_length in E2; [|discriminate].
      specialize (IHa [] p1 ltac:(lia)).
      destruct (parse_call_args fuel [] p1); simpl in *; lia. }
    apply parse_primary_consumes.
  - intros acc p Hf. rewrite parse_call_args_step.
    destruct (is_end_of_expr p); [simpl; lia|].
    specialize (IHu p ltac:(lia)).
    destruct (parse_unary fuel p) as [arg p1| |]; simpl in *; try lia.
    specialize (IHa (acc ++ [arg]) p1 ltac:(lia)).
    destruct (parse_call_args fuel _ p1); simpl in *; lia.
Qed.

Lemma parse_unary_fuel (fuel : nat) (p : Parser) :
  (2 * List.length p + 2 <= fuel)%nat ->
  consumes (List.length p) (parse_unary fuel p).
Proof. apply unary_level_fuel. Qed.

Lemma check_any_advance (p : Parser) (ops : list TokenType) :
  ~ In TOK_EOF ops -> check_any p ops = true ->
  S (List.length (snd (parser_advance p))) = List.length p.
Proof.
  intros Hops H. unfold check_any in H. apply existsb_exists in H.
  destruct H as (T & HT & Hc). apply (check_advance p T); [|exact Hc].
  intro E. subst T. exact (Hops HT).
Qed.

Ltac not_eof_op := simpl; intuition discriminate.

(** One binary level: its loop, given the budget lemma of the level below,
    then the level itself. *)
Ltac binary_loop_fuel sub_fuel :=
  let fuel := fresh "fuel" in
  let IH := fresh "IH" in
  let left := fresh "left" in
  let p := fresh "p" in
  let Hf := fresh "Hf" in
  let E := fresh "E" in
  let L := fresh "L" in
  intro fuel; induction fuel as [|fuel IH]; intros left p Hf; [lia|];
  match goal with |- no_longer _ (?loop _ _ _) => cbn [loop] end;
  match goal with
  | |- context [check_any p ?ops] =>
      destruct (check_any p ops) eqn:E; [|simpl; lia];
      pose proof (check_any_advance p ops ltac:(not_eof_op) E) as L
  end;
  let p1 := fresh "p1" in
  destruct (parser_advance p) as [op_tok p1]; simpl in L;
  let Hs := fresh "Hs" in
  pose proof (sub_fuel fuel p1 ltac:(lia)) as Hs;
  match type of Hs with
  | consumes _ ?m => destruct m as [right p2| |]; simpl in *; try lia
  end;
  match goal with
  | |- no_longer _ (?loop ?f ?l ?q) =>
      let Hl := fresh "Hl" in
      pose proof (IH l q ltac:(lia)) as Hl;
      destruct (loop f l q); simpl in *; lia
  end.

Ltac binary_level_fuel sub_fuel loop_fuel :=
  let Hf := fresh "Hf" in
  let Hs := fresh "Hs" in
  intro Hf;
  match goal with
  | |- consumes _ (?level ?fuel ?p) =>
      unfold level;
      pose proof (sub_fuel fuel p ltac:(lia)) as Hs;
      match type of Hs with
      | consumes _ ?m => destruct m as [left p1| |]; simpl in *; try lia
      end;
      match goal with
      | |- consumes _ (?loop ?f ?l ?q) =>
          let Hl := fresh "Hl" in
          pose proof (loop_fuel f l q ltac:(lia)) as Hl;
          destruct (loop f l q); simpl in *; lia
      end
  end.

Lemma parse_multiplicative_loop_fuel :
  forall (fuel : nat) (left : Expr) (p : Parser),
    (2 * List.length p + 2 <= fuel)%nat ->
    no_longer (List.length p) (parse_multiplicative_loop fuel left p).
Proof. binary_loop_fuel parse_unary_fuel. Qed.

Lemma parse_multiplicative_fuel (fuel : nat) (p : Parser) :
  (2 * List.length p + 2 <= fuel)%nat ->
  consumes (List.length p) (parse_multiplicative fuel p).
Proof. binary_level_fuel parse_unary_fuel parse_multiplicative_loop_fuel. Qed.

Lemma parse_additive_loop_fuel :
  forall (fuel : nat) (left : Expr) (p : Parser),
    (2 * List.length p + 2 <= fuel)%nat ->
    no_longer (List.length p) (parse_additive_loop fuel left p).
Proof. binary_loop_fuel parse_multiplicative_fuel. Qed.

Lemma parse_additive_fuel (fuel : nat) (p : Parser) :
  (2 * List.length p + 2 <= fuel)%nat ->
  consumes (List.length p) (parse_additive fuel p).
Proof. binary_level_fuel parse_multiplicative_fuel parse_additive_loop_fuel. Qed.

Lemma parse_comparison_loop_fuel :
  forall (fuel : nat) (left : Expr) (p : Parser),
    (2 * List.length p + 2 <= fuel)%nat ->
    no_longer (List.length p) (parse_comparison_loop fuel left p).
Proof. binary_loop_fuel parse_additive_fuel. Qed.

Lemma parse_comparison_fuel (fuel : nat) (p : Parser) :
  (2 * List.length p + 2 <= fuel)%nat ->
  consumes (List.length p) (parse_comparison fuel p).
Proof. binary_level_fuel parse_additive_fuel parse_comparison_loop_fuel. Qed.

Lemma parse_and_loop_fuel (fuel : nat) :
  forall (left : Expr) (p : Parser),
    (2 * List.length p + 2 <= fuel)%nat ->
    no_longer (List.length p) (parse_and_loop fuel left p).
Proof.
  induction fuel as [|fuel IH]; intros left p Hf; [lia|].
  cbn [parse_and_loop].
  destruct (parser_match p TOK_AND) as [matched p1] eqn:E.
  destruct matched; [|simpl; lia].
  apply match_true in E; [|discriminate].
  pose proof (parse_comparison_fuel fuel p1 ltac:(lia)) as Hs.
  destruct (parse_comparison fuel p1) as [right p2| |]; simpl in *; try lia.
  pose proof (IH (NODE_BINOP "and" left right) p2 ltac:(lia)) as Hl.
  destruct (parse_and_loop fuel _ p2); simpl in *; lia.
Qed.

Lemma parse_and_fuel (fuel : nat) (p : Parser) :
  (2 * List.length p + 2 <= fuel)%nat ->
  consumes (List.length p) (parse_and fuel p).
Proof. binary_level_fuel parse_comparison_fuel parse_and_loop_fuel. Qed.

Lemma parse_or_loop_fuel (fuel : nat) :
  forall (left : Expr) (p : Parser),
    (2 * List.length p + 2 <= fuel)%nat ->
    no_longer (List.length p) (parse_or_loop fuel left p).
Proof.
  induction fuel as [|fuel IH]; intros left p Hf; [lia|].
  cbn [parse_or_loop].
  destruct (parser_check p TOK_OR) eqn:E; [|simpl; lia].
  destruct (negb (parser_at_end_of_line p)); [|simpl; lia]. cbn [andb].
  stepped E.
  pose proof (parse_and_fuel fuel (snd (parser_advance p)) ltac:(lia)) as Hs.
  destruct (parse_and fuel _) as [right p2| |]; simpl in *; try lia.
  pose proof (IH (NODE_BINOP "or" left right) p2 ltac:(lia)) as Hl.
  destruct (parse_or_loop fuel _ p2); simpl in *; lia.
Qed.

Lemma parse_or_fuel (fuel : nat) (p : Parser) :
  (2 * List.length p + 2 <= fuel)%nat ->
  consumes (List.length p) (parse_or fuel p).
Proof. binary_level_fuel parse_and_fuel parse_or_loop_fuel. Qed.

Lemma parse_expr_fuel (fuel : nat) (p : Parser) :
  (2 * List.length p + 2 <= fuel)%nat ->
  consumes (List.length p) (parse_expr fuel p).
Proof. apply parse_or_fuel. Qed.

Lemma parse_inline_stmt_fuel (fuel : nat) (p : Parser) :
  (2 * List.length p + 2 <= fuel)%nat ->
  consumes (List.length p) (parse_inline_stmt fuel p).
Proof.
  intro Hf. unfold parse_inline_stmt.
  destruct (parser_check p TOK_RET) eqn:E1.
  { stepped E1.
    pose proof (ret_variant_length (snd (parser_advance p))) as Lv.
    destruct (parse_ret_variant _) as [variant p1]. simpl in Lv.
    pose proof (parse_expr_fuel fuel p1 ltac:(lia)) as Hs.
    destruct (parse_expr fuel p1); simpl in *; lia. }
  destruct (parser_check p TOK_OUT) eqn:E2.
  { stepped E2.
    pose proof (parse_expr_fuel fuel (snd (parser_advance p)) ltac:(lia)) as Hs.
    destruct (parse_expr fuel _); simpl in *; lia. }
  destruct (parser_check p TOK_LET) eqn:E3.
  { stepped E3.
    destruct (parser_expect _ TOK_IDENT) as [[name_tok p1]|] eqn:E4;
      [|simpl; lia].
    apply expect_length in E4; [|discriminate].
    pose proof (parse_expr_fuel fuel p1 ltac:(lia)) as Hs.
    destruct (parse_expr fuel p1); simpl in *; lia. }
  pose proof (parse_expr_fuel fuel p ltac:(lia)) as Hs.
  destruct (parse_expr fuel p); simpl in *; lia.
Qed.

(** The lengths of the states named in the goal. *)
Ltac len_facts :=
  repeat match goal with
  | |- context [snd (parser_match ?q ?T)] =>
      lazymatch goal with
      | _ : (List.length (snd (parser_match q T)) <= List.length q)%nat |- _ => fail
      | _ => pose proof (match_length q T)
      end
  | |- context [parser_skip_newlines ?q] =>
      lazymatch goal with
      | _ : (List.length (parser_skip_newlines q) <= List.length q)%nat |- _ => fail
      | _ => pose proof (skip_newlines_length q)
      end
  end.

(** Run a sub-parser whose budget lemma is [lem]: the budget is enough, and
    the state it returns is no longer than the one it was given. *)
Ltac run_sub lem :=
  match goal with
  | |- context [pbind (unchecked (?f ?fuel ?q)) _] =>
      let Hs := fresh "Hs" in
      pose proof (lem fuel q ltac:(lia)) as Hs;
      destruct (f fuel q) as [? ?|?|]; simpl in Hs;
      cbn [pbind unchecked]; try (simpl; lia)
  | |- context [unchecked (?f ?fuel ?q)] =>
      let Hs := fresh "Hs" in
      pose proof (lem fuel q ltac:(lia)) as Hs;
      destruct (f fuel q) as [? ?|?|]; simpl in Hs;
      cbn [pbind unchecked]; try (simpl; lia)
  | |- context [pbind (?f ?fuel ?q) _] =>
      let Hs := fresh "Hs" in
      pose proof (lem fuel q ltac:(lia)) as Hs;
      destruct (f fuel q) as [? ?|?|]; simpl in Hs;
      cbn [pbind]; try (simpl; lia)
  end.

Ltac run_block IHb :=
  match goal with
  | |- context [pbind (parse_block ?fuel ?stop ?acc ?q) _] =>
      let Hs := fresh "Hs" in
      pose proof (IHb stop acc q ltac:(lia)) as Hs;
      destruct (parse_block fuel stop acc q) as [? ?|?|]; simpl in Hs;
      cbn [pbind]; try (simpl; lia)
  end.

Ltac expect_step :=
  match goal with
  | |- context [parser_expect ?q ?T] =>
      let E := fresh "E" in
      destruct (parser_expect q T) as [[? ?]|] eqn:E; [|simpl; lia];
      apply expect_length in E; [|discriminate]
  end.

Ltac match_step :=
  match goal with
  | |- context [let (_, _) := parser_match ?q ?T in _] =>
      let E := fresh "E" in
      let b := fresh "b" in
      destruct (parser_match q T) as [b ?] eqn:E;
      destruct b;
      [apply match_true in E; [|discriminate] | apply match_any in E]
  end.

Ltac case_check T :=
  match goal with
  | |- context [if parser_check ?q T then _ else _] =>
      destruct (parser_check q T)
  end.

Lemma statement_level_fuel (fuel : nat) :
  (forall p, (2 * List.length p + 3 <= fuel)%nat ->
             consumes (List.length p) (parse_stmt fuel p))
  /\ (forall stop acc p, (2 * List.length p + 4 <= fuel)%nat ->
                         no_longer (List.length p) (parse_block fuel stop acc p)).
Proof.
  induction fuel as [|fuel (IHs & IHb)].
  { split; intros; lia. }
  split.
  - intros p Hf. cbn [parse_stmt].
    destruct (parser_check p TOK_RET) eqn:E1.
    { stepped E1.
      pose proof (ret_variant_length (snd (parser_advance p))) as Lv.
      destruct (parse_ret_variant _) as [variant p1]. simpl in Lv.
      run_sub parse_expr_fuel. len_facts. simpl. lia. }
    destruct (parser_check p TOK_OUT) eqn:E2.
    { stepped E2. run_sub parse_expr_fuel. len_facts. simpl. lia. }
    destruct (parser_check p TOK_INC) eqn:E3.
    { stepped E3. expect_step.
      destruct (parser_at_end_of_line _).
      { len_facts. simpl. lia. }
      run_sub parse_expr_fuel; len_facts; simpl; lia. }
    destruct (parser_check p TOK_DEC) eqn:E4.
    { stepped E4. expect_step.
      destruct (parser_at_end_of_line _).
      { len_facts. simpl. lia. }
      run_sub parse_expr_fuel; len_facts; simpl; lia. }
    destruct (parser_check p TOK_IF) eqn:E5.
    { stepped E5. run_sub parse_comparison_fuel.
      destruct (parser_check _ TOK_NEWLINE) eqn:E6.
      - (* block form *)
        assert (Lnl : (List.length (snd (parser_match p0 TOK_NEWLINE))
                       < List.length p0)%nat).
        { unfold parser_match. rewrite E6. simpl.
          pose proof (check_advance p0 TOK_NEWLINE ltac:(discriminate) E6). lia. }
        len_facts. run_block IHb.
        match_step.
        + len_facts.
          case_check TOK_IF.
          * run_sub (fun _ : nat => IHs);
              (case_check TOK_IF; [simpl; lia|]);
              len_facts; simpl; lia.
          * run_block IHb.
            case_check TOK_IF; [simpl; lia|].
            len_facts. simpl. lia.
        + cbn [pbind].
          case_check TOK_IF; [simpl; lia|].
          len_facts. simpl. lia.
      - (* inline form *)
        run_sub parse_inline_stmt_fuel.
        match_step.
        + case_check TOK_IF.
          * run_sub (fun _ : nat => IHs); simpl; lia.
          * run_sub parse_inline_stmt_fuel; len_facts; simpl; lia.
        + len_facts. simpl. lia. }
    destruct (parser_check p TOK_LET) eqn:E7.
    { stepped E7. expect_step. run_sub parse_expr_fuel. len_facts. simpl. lia. }
    destruct (parser_check p TOK_REPEAT) eqn:E8.
    { stepped E8.
      pose proof (parse_primary_consumes (snd (parser_advance p))) as Hp.
      destruct (parse_primary _) as [count p1|p1|]; simpl in Hp; cbn [pbind];
        try (simpl; lia).
      expect_step. match_step.
      - expect_step. len_facts. run_block IHb. expect_step.
        len_facts. simpl. lia.
      - len_facts. run_block IHb. expect_step. len_facts. simpl. lia. }
    destruct (parser_check p TOK_WHILE) eqn:E9.
    { stepped E9. run_sub parse_comparison_fuel. len_facts. run_block IHb.
      expect_step. len_facts. simpl. lia. }
    run_sub parse_expr_fuel. len_facts. simpl. lia.
  - intros stop acc p Hf. cbn [parse_block].
    destruct (negb (parser_at_end p) && negb (stop p)); [|simpl; lia].
    destruct (parser_match p TOK_NEWLINE) as [b p1] eqn:E.
    destruct b.
    + apply match_true in E; [|discriminate].
      pose proof (IHb stop acc p1 ltac:(lia)) as H.
      destruct (parse_block fuel stop acc p1); simpl in *; lia.
    + pose proof (IHs p ltac:(lia)) as Hs.
      destruct (parse_stmt fuel p) as [stmt p2|p2|]; simpl in Hs; cbn [pbind];
        try (simpl; lia).
      pose proof (skip_newlines_length p2) as Ln.
      pose proof (IHb stop (acc ++ [stmt]) (parser_skip_newlines p2) ltac:(lia))
        as H.
      destruct (parse_block fuel stop _ (parser_skip_newlines p2)); simpl in *; lia.
Qed.

Lemma parse_block_fuel (fuel : nat) (stop : Parser -> bool) (acc : list Stmt)
    (p : Parser) :
  (2 * List.length p + 4 <= fuel)%nat ->
  no_longer (List.length p) (parse_block fuel stop acc p).
Proof. apply statement_level_fuel. Qed.

Lemma parse_params_length (p : Parser) :
  (List.length (snd (parse_params p)) <= List.length p)%nat.
Proof.
  induction p as [|t rest IH]; [simpl; lia|]. cbn [parse_params].
  destruct (negb (parser_at_end_of_line (t :: rest))
            && parser_check (t :: rest) TOK_IDENT); [|simpl; lia].
  destruct (parse_params rest). simpl in *. lia.
Qed.

Lemma skip_type_fields_length (p : Parser) :
  (List.length (skip_type_fields p) <= List.length p)%nat.
Proof.
  induction p as [|t rest IH]; [simpl; lia|]. cbn [skip_type_fields].
  destruct (negb (parser_at_end_of_line (t :: rest))
            && (is_type_token (t :: rest) || parser_check (t :: rest) TOK_IDENT));
    simpl; lia.
Qed.

Lemma parse_func_def_fuel (fuel : nat) (p : Parser) :
  (2 * List.length p + 2 <= fuel)%nat ->
  consumes (List.length p) (parse_func_def fuel p).
Proof.
  intro Hf. unfold parse_func_def. len_facts. expect_step.
  match goal with
  | |- context [parse_params ?q] =>
      pose proof (parse_params_length q) as Lp;
      destruct (parse_params q) as [param_names p2]; simpl in Lp
  end.
  len_facts. run_block (parse_block_fuel fuel).
Qed.

Lemma parse_type_def_consumes (p : Parser) :
  consumes (List.length p) (parse_type_def p).
Proof.
  unfold parse_type_def. len_facts. expect_step.
  match goal with
  | |- context [parser_match ?q TOK_OK] =>
      let E := fresh "E" in
      destruct (parser_match q TOK_OK) as [union p2] eqn:E;
      apply match_any in E
  end.
  destruct union.
  - set (p3 := if is_type_token p2 then snd (parser_advance p2) else p2).
    assert (L3 : (List.length p3 <= List.length p2)%nat).
    { unfold p3. destruct (is_type_token p2); [apply advance_length|lia]. }
    pose proof (match_length p3 TOK_OR) as L4.
    set (p4 := snd (parser_match p3 TOK_OR)) in *.
    pose proof (match_length p4 TOK_ERR) as L5.
    set (p5 := snd (parser_match p4 TOK_ERR)) in *.
    set (p6 := if is_type_token p5 then snd (parser_advance p5) else p5).
    assert (L6 : (List.length p6 <= List.length p5)%nat).
    { unfold p6. destruct (is_type_token p5); [apply advance_length|lia]. }
    pose proof (match_length p6 TOK_NEWLINE). cbn [consumes]. lia.
  - pose proof (skip_type_fields_length p2).
    pose proof (match_length (skip_type_fields p2) TOK_NEWLINE). cbn [consumes]. lia.
Qed.

Lemma parser_parse_loop_fuel (fuel : nat) :
  forall (prog : Program) (p : Parser),
    (2 * List.length p + 3 <= fuel)%nat ->
    parser_parse_loop fuel prog p <> PFuel.
Proof.
  induction fuel as [|fuel IH]; intros prog p Hf; [lia|].
  cbn [parser_parse_loop].
  destruct (parser_at_end p); [discriminate|].
  destruct (parser_check p TOK_TYPE).
  { pose proof (parse_type_def_consumes p) as Hs.
    destruct (parse_type_def p) as [type_def p1|p1|]; simpl in Hs; cbn [pbind];
      [|discriminate|contradiction].
    apply IH. pose proof (skip_newlines_length p1). lia. }
  destruct (parser_check p TOK_FN).
  { pose proof (parse_func_def_fuel fuel p ltac:(lia)) as Hs.
    destruct (parse_func_def fuel p) as [func_def p1|p1|]; simpl in Hs;
      cbn [pbind]; [|discriminate|contradiction].
    apply IH. pose proof (skip_newlines_length p1). lia. }
  destruct (parser_check p TOK_NEWLINE) eqn:E; [|discriminate].
  stepped E. apply IH. lia.
Qed.

(** The budget [parse_fuel] is enough for any token array: [parser_parse]
    returns a tree or fails, as the C function does. *)
Lemma parser_parse_fuel (p : Parser) (fuel : nat) :
  (parse_fuel p <= fuel)%nat -> parser_parse fuel p <> PFuel.
Proof.
  intro Hf. unfold parser_parse. apply parser_parse_loop_fuel.
  pose proof (skip_newlines_length p). unfold parse_fuel in Hf. lia.
Qed.

Lemma stable_refl {A : Type} (m : presult A) : stable m m.
Proof. intros _. reflexivity. Qed.

Lemma stable_fuel {A : Type} (m' : presult A) : stable PFuel m'.
Proof. intro H. exfalso. apply H. reflexivity. Qed.

Lemma stable_bind {A B : Type} (m m' : presult A)
    (k k' : A -> Parser -> presult B) :
  stable m m' -> (forall a p, stable (k a p) (k' a p)) ->
  stable (pbind m k) (pbind m' k').
Proof.
  intros Hm Hk H. destruct m as [a p|p|].
  - rewrite Hm by discriminate. apply Hk. exact H.
  - rewrite Hm by discriminate. reflexivity.
  - exfalso. apply H. reflexivity.
Qed.

Lemma stable_unchecked {A : Type} (m m' : presult A) :
  stable m m' -> stable (unchecked m) (unchecked m').
Proof.
  intros Hm H. destruct m as [a p|p|].
  - rewrite Hm by discriminate. reflexivity.
  - rewrite Hm by discriminate. reflexivity.
  - exfalso. apply H. reflexivity.
Qed.

(** Both runs have the same shape; they differ in the budget of the calls. *)
Ltac stable_step :=
  first
    [ apply stable_refl
    | assumption
    | match goal with H : forall _, stable _ _ |- _ => apply H end
    | match goal with H : forall _ _, stable _ _ |- _ => apply H end
    | match goal with H : forall _ _ _, stable _ _ |- _ => apply H end
    | apply stable_unchecked
    | apply stable_bind; [|intros ? ?]
    | match goal with
      | |- stable (if ?c then _ else _) _ => destruct c
      | |- stable (match ?x with _ => _ end) _ => destruct x
      end ].

Lemma unary_level_stable (fuel : nat) :
  forall fuel', (fuel <= fuel')%nat ->
    (forall p, stable (parse_unary fuel p) (parse_unary fuel' p))
    /\ (forall p, stable (parse_call fuel p) (parse_call fuel' p))
    /\ (forall acc p, stable (parse_call_args fuel acc p)
                             (parse_call_args fuel' acc p)).
Proof.
  induction fuel as [|fuel IH]; intros fuel' Hle.
  { repeat split; intros; apply stable_fuel. }
  destruct fuel' as [|fuel']; [lia|].
  destruct (IH fuel' ltac:(lia)) as (IHu & IHc & IHa).
  split; [|split]; intros; cbn [parse_unary parse_call parse_call_args];
    repeat stable_step.
Qed.

Lemma parse_unary_stable (fuel fuel' : nat) (p : Parser) :
  (fuel <= fuel')%nat -> stable (parse_unary fuel p) (parse_unary fuel' p).
Proof. intro H. apply (unary_level_stable fuel fuel' H). Qed.

Ltac binary_loop_stable sub_stable :=
  let fuel := fresh "fuel" in
  let fuel' := fresh "fuel'" in
  let IH := fresh "IH" in
  let Hle := fresh "Hle" in
  let Hle' := fresh "Hle'" in
  intro fuel; induction fuel as [|fuel IH]; intros fuel' ? ? Hle;
  [apply stable_fuel|];
  destruct fuel' as [|fuel']; [lia|];
  assert (Hle' : (fuel <= fuel')%nat) by lia;
  pose proof (fun q => sub_stable fuel fuel' q Hle');
  pose proof (fun l q => IH fuel' l q Hle');
  match goal with |- stable (?loop _ _ _) _ => cbn [loop] end;
  repeat stable_step.

Ltac binary_level_stable sub_stable loop_stable :=
  let Hle := fresh "Hle" in
  intro Hle;
  match goal with |- stable (?level _ _) _ => unfold level end;
  apply stable_bind; [apply sub_stable; exact Hle|];
  intros; apply loop_stable; exact Hle.

Lemma parse_multiplicative_loop_stable :
  forall (fuel fuel' : nat) (left : Expr) (p : Parser),
    (fuel <= fuel')%nat ->
    stable (parse_multiplicative_loop fuel left p)
           (parse_multiplicative_loop fuel' left p).
Proof. binary_loop_stable parse_unary_stable. Qed.

Lemma parse_multiplicative_stable (fuel fuel' : nat) (p : Parser) :
  (fuel <= fuel')%nat ->
  stable (parse_multiplicative fuel p) (parse_multiplicative fuel' p).
Proof.
  binary_level_stable parse_unary_stable parse_multiplicative_loop_stable.
Qed.

Lemma parse_additive_loop_stable :
  forall (fuel fuel' : nat) (left : Expr) (p : Parser),
    (fuel <= fuel')%nat ->
    stable (parse_additive_loop fuel left p) (parse_additive_loop fuel' left p).
Proof. binary_loop_stable parse_multiplicative_stable. Qed.

Lemma parse_additive_stable (fuel fuel' : nat) (p : Parser) :
  (fuel <= fuel')%nat ->
  stable (parse_additive fuel p) (parse_additive fuel' p).
Proof.
  binary_level_stable parse_multiplicative_stable parse_additive_loop_stable.
Qed.

Lemma parse_comparison_loop_stable :
  forall (fuel fuel' : nat) (left : Expr) (p : Parser),
    (fuel <= fuel')%nat ->
    stable (parse_comparison_loop fuel left p)
           (parse_comparison_loop fuel' left p).
Proof. binary_loop_stable parse_additive_stable. Qed.

Lemma parse_comparison_stable (fuel fuel' : nat) (p : Parser) :
  (fuel <= fuel')%nat ->
  stable (parse_comparison fuel p) (parse_comparison fuel' p).
Proof.
  binary_level_stable parse_additive_stable parse_comparison_loop_stable.
Qed.

Lemma parse_and_loop_stable :
  forall (fuel fuel' : nat) (left : Expr) (p : Parser),
    (fuel <= fuel')%nat ->
    stable (parse_and_loop fuel left p) (parse_and_loop fuel' left p).
Proof. binary_loop_stable parse_comparison_stable. Qed.

Lemma parse_and_stable (fuel fuel' : nat) (p : Parser) :
  (fuel <= fuel')%nat -> stable (parse_and fuel p) (parse_and fuel' p).
Proof. binary_level_stable parse_comparison_stable parse_and_loop_stable. Qed.

Lemma parse_or_loop_stable :
  forall (fuel fuel' : nat) (left : Expr) (p : Parser),
    (fuel <= fuel')%nat ->
    stable (parse_or_loop fuel left p) (parse_or_loop fuel' left p).
Proof. binary_loop_stable parse_and_stable. Qed.

Lemma parse_or_stable (fuel fuel' : nat) (p : Parser) :
  (fuel <= fuel')%nat -> stable (parse_or fuel p) (parse_or fuel' p).
Proof. binary_level_stable parse_and_stable parse_or_loop_stable. Qed.

Lemma parse_expr_stable (fuel fuel' : nat) (p : Parser) :
  (fuel <= fuel')%nat -> stable (parse_expr fuel p) (parse_expr fuel' p).
Proof. apply parse_or_stable. Qed.

Lemma parse_inline_stmt_stable (fuel fuel' : nat) (p : Parser) :
  (fuel <= fuel')%nat ->
  stable (parse_inline_stmt fuel p) (parse_inline_stmt fuel' p).
Proof.
  intro Hle. pose proof (fun q => parse_expr_stable fuel fuel' q Hle).
  unfold parse_inline_stmt. repeat stable_step.
Qed.

Lemma statement_level_stable (fuel : nat) :
  forall fuel', (fuel <= fuel')%nat ->
    (forall p, stable (parse_stmt fuel p) (parse_stmt fuel' p))
    /\ (forall stop acc p, stable (parse_block fuel stop acc p)
                                  (parse_block fuel' stop acc p)).
Proof.
  induction fuel as [|fuel IH]; intros fuel' Hle.
  { split; intros; apply stable_fuel. }
  destruct fuel' as [|fuel']; [lia|].
  assert (Hle' : (fuel <= fuel')%nat) by lia.
  destruct (IH fuel' Hle') as (IHs & IHb).
  pose proof (fun q => parse_expr_stable fuel fuel' q Hle').
  pose proof (fun q => parse_comparison_stable fuel fuel' q Hle').
  pose proof (fun q => parse_inline_stmt_stable fuel fuel' q Hle').
  split; intros; cbn [parse_stmt parse_block]; repeat stable_step.
Qed.

Lemma parse_func_def_stable (fuel fuel' : nat) (p : Parser) :
  (fuel <= fuel')%nat ->
  stable (parse_func_def fuel p) (parse_func_def fuel' p).
Proof.
  intro Hle.
  pose proof (proj2 (statement_level_stable fuel fuel' Hle)).
  unfold parse_func_def. repeat stable_step.
Qed.

Lemma parser_parse_loop_stable :
  forall (fuel fuel' : nat) (prog : Program) (p : Parser),
    (fuel <= fuel')%nat ->
    stable (parser_parse_loop fuel prog p) (parser_parse_loop fuel' prog p).
Proof.
  intro fuel. induction fuel as [|fuel IH]; intros fuel' prog p Hle.
  { apply stable_fuel. }
  destruct fuel' as [|fuel']; [lia|].
  assert (Hle' : (fuel <= fuel')%nat) by lia.
  pose proof (fun q => parse_func_def_stable fuel fuel' q Hle').
  pose proof (fun g q => IH fuel' g q Hle').
  cbn [parser_parse_loop]. repeat stable_step.
Qed.

(** The result of [parser_parse] does not depend on the budget, from
    [parse_fuel] on. *)
Lemma parser_parse_any_fuel (p : Parser) (fuel : nat) :
  (parse_fuel p <= fuel)%nat ->
  parser_parse fuel p = parser_parse (parse_fuel p) p.
Proof.
  intro Hle. unfold parser_parse.
  apply parser_parse_loop_stable; [exact Hle|].
  apply (parser_parse_fuel p (parse_fuel p)). lia.
Qed.

Lemma parse_unary_more_fuel (fuel F : nat) (p : Parser) (e : Expr) (r : Parser) :
  (fuel <= F)%nat -> parse_unary fuel p = POk e r -> parse_unary F p = POk e r.
Proof.
  intros Hle H. rewrite <- H. apply parse_unary_stable; [exact Hle|].
  rewrite H. discriminate.
Qed.

(** [front_end] gives no tree only when the lexer or the parser reports an
    error. *)
Lemma front_end_fails_only_on_errors (src : string) :
  front_end src = None ->
  lexer_tokenize src = LexError
  \/ exists lx p,
       lexer_tokenize src = LexOk lx
       /\ parser_parse (parse_fuel (ltokens lx)) (ltokens lx) = PFail p.
Proof.
  unfold front_end. intro H.
  destruct (lexer_tokenize src) as [lx| |] eqn:El.
  - right. exists lx.
    pose proof (parser_parse_fuel (ltokens lx) (parse_fuel (ltokens lx))
                  (Nat.le_refl _)) as Hp.
    destruct (parser_parse _ (ltokens lx)) as [prog p|p|];
      [discriminate H| |contradiction Hp; reflexivity].
    exists p. split; reflexivity.
  - left. reflexivity.
  - exfalso. exact (lexer_tokenize_fuel src El).
Qed.

(** A unary-level phrase is parsed to the same tree in front of any token
    that ends an argument list, with any larger recursion budget. *)
Lemma unary_phrase_in_context (fuel F : nat) (toks : list Token) (e : Expr)
    (r : Parser) :
  unary_phrase fuel toks e ->
  (fuel <= F)%nat ->
  is_end_of_expr r = true ->
  parse_unary F (toks ++ r) = POk e r.
Proof.
  unfold unary_phrase. intros H HF Hr.
  destruct (proj1 (unary_level_local fuel) _ _ _ H) as (t & pre & Hp & Hloc).
  change (t :: pre ++ [eof]) with ((t :: pre) ++ [eof]) in Hp.
  apply app_inj_tail in Hp as [-> _].
  apply (parse_unary_more_fuel fuel F); [exact HF|].
  apply Hloc. rewrite Hr. reflexivity.
Qed.

Lemma unary_phrase_fuel_positive (fuel : nat) (toks : list Token) (e : Expr) :
  unary_phrase fuel toks e -> (1 <= fuel)%nat.
Proof. destruct fuel; [discriminate | lia]. Qed.

(** ** The binary levels *)

Lemma check_any_cons (t : Token) (p : Parser) (ops : list TokenType) :
  check_any (t :: p) ops = existsb (tok_eqb (ttype t)) ops.
Proof. reflexivity. Qed.

Lemma existsb_not_eof (t : Token) (ops : list TokenType) :
  existsb (tok_eqb (ttype t)) ops = true ->
  existsb (tok_eqb TOK_EOF) ops = false ->
  ttype t <> TOK_EOF.
Proof. intros H1 H2 E. rewrite E in H1. congruence. Qed.

Lemma parse_multiplicative_loop_cons (fuel : nat) (left : Expr) (t : Token)
    (p : Parser) :
  parse_multiplicative_loop (S fuel) left (t :: p)
  = if existsb (tok_eqb (ttype t)) multiplicative_ops then
      do (right, p2) <- parse_unary fuel p;
      parse_multiplicative_loop fuel (NODE_BINOP (value t) left right) p2
    else POk left (t :: p).
Proof.
  cbn [parse_multiplicative_loop]. rewrite check_any_cons.
  destruct (existsb _ _) eqn:E; [|reflexivity].
  rewrite advance_cons by (eapply existsb_not_eof; [exact E | reflexivity]).
  reflexivity.
Qed.

Lemma parse_additive_loop_cons (fuel : nat) (left : Expr) (t : Token)
    (p : Parser) :
  parse_additive_loop (S fuel) left (t :: p)
  = if existsb (tok_eqb (ttype t)) additive_ops then
      do (right, p2) <- parse_multiplicative fuel p;
      parse_additive_loop fuel (NODE_BINOP (value t) left right) p2
    else POk left (t :: p).
Proof.
  cbn [parse_additive_loop]. rewrite check_any_cons.
  destruct (existsb _ _) eqn:E; [|reflexivity].
  rewrite advance_cons by (eapply existsb_not_eof; [exact E | reflexivity]).
  reflexivity.
Qed.

Lemma parse_comparison_loop_cons (fuel : nat) (left : Expr) (t : Token)
    (p : Parser) :
  parse_comparison_loop (S fuel) left (t :: p)
  = if existsb (tok_eqb (ttype t)) comparison_ops then
      do (right, p2) <- parse_additive fuel p;
      parse_comparison_loop fuel (NODE_BINOP (value t) left right) p2
    else POk left (t :: p).
Proof.
  cbn [parse_comparison_loop]. rewrite check_any_cons.
  destruct (existsb _ _) eqn:E; [|reflexivity].
  rewrite advance_cons by (eapply existsb_not_eof; [exact E | reflexivity]).
  reflexivity.
Qed.

Lemma parse_and_loop_cons (fuel : nat) (left : Expr) (t : Token) (p : Parser) :
  parse_and_loop (S fuel) left (t :: p)
  = if tok_eqb (ttype t) TOK_AND then
      do (right, p2) <- parse_comparison fuel p;
      parse_and_loop fuel (NODE_BINOP "and" left right) p2
    else POk left (t :: p).
Proof.
  cbn [parse_and_loop]. unfold parser_match. rewrite check_cons.
  destruct (tok_eqb (ttype t) TOK_AND) eqn:E; [|reflexivity].
  apply tok_eqb_eq in E. rewrite advance_cons by (rewrite E; discriminate).
  reflexivity.
Qed.

Lemma parse_or_loop_cons (fuel : nat) (left : Expr) (t : Token) (p : Parser) :
  parse_or_loop (S fuel) left (t :: p)
  = if tok_eqb (ttype t) TOK_OR then
      do (right, p2) <- parse_and fuel p;
      parse_or_loop fuel (NODE_BINOP "or" left right) p2
    else POk left (t :: p).
Proof.
  cbn [parse_or_loop]. unfold parser_at_end_of_line. rewrite !check_cons.
  destruct (tok_eqb (ttype t) TOK_OR) eqn:E; [|reflexivity].
  apply tok_eqb_eq in E. rewrite advance_cons by (rewrite E; discriminate).
  rewrite E. reflexivity.
Qed.

(** At the end of a line every binary level stops. *)
Lemma end_of_line_head (rest : Parser) :
  parser_at_end_of_line rest = true ->
  ttype (parser_current rest) = TOK_NEWLINE
  \/ ttype (parser_current rest) = TOK_EOF.
Proof.
  unfold parser_at_end_of_line. rewrite orb_true_iff, !parser_check_eq. tauto.
Qed.

Lemma end_of_line_is_end_of_expr (rest : Parser) :
  parser_at_end_of_line rest = true -> is_end_of_expr rest = true.
Proof. intro H. unfold is_end_of_expr. rewrite H. reflexivity. Qed.

Lemma check_at_end_of_line (rest : Parser) (T : TokenType) :
  parser_at_end_of_line rest = true ->
  T <> TOK_NEWLINE -> T <> TOK_EOF ->
  parser_check rest T = false.
Proof.
  intros H H1 H2. unfold parser_check. apply tok_eqb_neq.
  destruct (end_of_line_head rest H) as [E|E]; rewrite E; congruence.
Qed.

Lemma binary_loops_stop_at_end_of_line (fuel : nat) (left : Expr)
    (rest : Parser) :
  parser_at_end_of_line rest = true ->
  parse_multiplicative_loop (S fuel) left rest = POk left rest
  /\ parse_additive_loop (S fuel) left rest = POk left rest
  /\ parse_comparison_loop (S fuel) left rest = POk left rest
  /\ parse_and_loop (S fuel) left rest = POk left rest
  /\ parse_or_loop (S fuel) left rest = POk left rest.
Proof.
  intro H.
  cbn [parse_multiplicative_loop parse_additive_loop parse_comparison_loop
       parse_and_loop parse_or_loop].
  unfold check_any, parser_match. cbn [existsb multiplicative_ops additive_ops
                                       comparison_ops].
  rewrite !(check_at_end_of_line rest _ H) by discriminate.
  repeat split.
Qed.

(** ** Precedence and associativity *)

(** Unfolds the binary levels around one operand or operator at a time. *)
Ltac binary_level_step E1 E2 :=
  first
    [ rewrite parse_multiplicative_loop_cons
    | rewrite parse_additive_loop_cons
    | rewrite parse_comparison_loop_cons
    | rewrite parse_and_loop_cons
    | rewrite parse_or_loop_cons
    | progress unfold parse_expr, parse_or, parse_and, parse_comparison,
        parse_additive, parse_multiplicative
    | progress rewrite ?E1, ?E2
    | progress cbn [pbind existsb tok_eqb token_code Z.eqb Pos.eqb orb
                    multiplicative_ops additive_ops comparison_ops] ].

(** C6.  Let [A], [B], [C] be unary-level phrases (the operands of the
    binary levels: atoms, [not] / [neg] applications, calls) with trees
    [a], [b], [c], and [t1], [t2] two binary operator tokens.  At the end of
    a line, [A t1 B t2 C] is parsed as [(a t1 b) t2 c] when [t1] binds at
    least as tightly as [t2] (in particular for two operators of the same
    level: every level is left-associative), and as [a t1 (b t2 c)] when
    [t2] binds tighter.  So [A plus B times C] is [a plus (b times c)] and
    [A times B plus C] is [(a times b) plus c]. *)
Theorem C6_precedence_and_left_associativity
    (fuel F : nat) (A B C : list Token) (a b c : Expr) (t1 t2 : Token)
    (rest : Parser) :
  unary_phrase fuel A a ->
  unary_phrase fuel B b ->
  unary_phrase fuel C c ->
  In (ttype t1) binary_operators ->
  In (ttype t2) binary_operators ->
  parser_at_end_of_line rest = true ->
  (fuel + 2 <= F)%nat ->
  parse_expr F (A ++ t1 :: B ++ t2 :: C ++ rest)
  = POk (if (precedence (ttype t2) <=? precedence (ttype t1))%nat
         then NODE_BINOP (operator_word t2)
                         (NODE_BINOP (operator_word t1) a b) c
         else NODE_BINOP (operator_word t1) a
                         (NODE_BINOP (operator_word t2) b c))
        rest.
Proof.
  intros HA HB HC H1 H2 Hrest HF.
  pose proof (unary_phrase_fuel_positive _ _ _ HA) as Hpos.
  destruct F as [|[|[|F]]]; try lia.
  assert (Hend : is_end_of_expr rest = true)
    by (apply end_of_line_is_end_of_expr; exact Hrest).
  assert (Hops : forall t p, In (ttype t) binary_operators ->
                             is_end_of_expr (t :: p) = true).
  { intros t p Ht. rewrite is_end_of_expr_cons.
    unfold is_end_of_expr, parser_at_end_of_line, parser_check, parser_current.
    cbn [hd]. simpl in Ht.
    repeat (destruct Ht as [Ht|Ht]; [rewrite <- Ht; reflexivity|]).
    destruct Ht. }
  assert (RA : forall F' p, (fuel <= F')%nat ->
                 parse_unary F' (A ++ t1 :: p) = POk a (t1 :: p)).
  { intros F' p HF'. apply (unary_phrase_in_context fuel); auto. }
  assert (RB : forall F' p, (fuel <= F')%nat ->
                 parse_unary F' (B ++ t2 :: p) = POk b (t2 :: p)).
  { intros F' p HF'. apply (unary_phrase_in_context fuel); auto. }
  assert (RC : forall F', (fuel <= F')%nat ->
                 parse_unary F' (C ++ rest) = POk c rest).
  { intros F' HF'. apply (unary_phrase_in_context fuel); auto. }
  destruct (binary_loops_stop_at_end_of_line F (NODE_BINOP (operator_word t2)
              (NODE_BINOP (operator_word t1) a b) c) rest Hrest)
    as (S1 & S2 & S3 & S4 & S5).
  destruct (binary_loops_stop_at_end_of_line F
              (NODE_BINOP (operator_word t2) b c) rest Hrest)
    as (T1 & T2 & T3 & T4 & T5).
  assert (Stop : forall f l,
            parse_multiplicative_loop (S f) l rest = POk l rest
            /\ parse_additive_loop (S f) l rest = POk l rest
            /\ parse_comparison_loop (S f) l rest = POk l rest
            /\ parse_and_loop (S f) l rest = POk l rest
            /\ parse_or_loop (S f) l rest = POk l rest).
  { intros f l. apply binary_loops_stop_at_end_of_line. exact Hrest. }
  clear S1 S2 S3 S4 S5 T1 T2 T3 T4 T5.
  simpl in H1, H2.
  repeat (destruct H1 as [H1|H1]; [symmetry in H1|]); try (exfalso; exact H1);
    repeat (destruct H2 as [H2|H2]; [symmetry in H2|]); try (exfalso; exact H2);
    unfold operator_word; rewrite H1, H2;
    repeat first
      [ rewrite RA by lia
      | rewrite RB by lia
      | rewrite RC by lia
      | rewrite (proj1 (Stop _ _))
      | rewrite (proj1 (proj2 (Stop _ _)))
      | rewrite (proj1 (proj2 (proj2 (Stop _ _))))
      | rewrite (proj1 (proj2 (proj2 (proj2 (Stop _ _)))))
      | rewrite (proj2 (proj2 (proj2 (proj2 (Stop _ _)))))
      | binary_level_step H1 H2 ];
    reflexivity.
Qed.

(** Witness for C6: [x plus y times z], [x times y plus z], and
    [not x minus math sqrt y minus 2.5]. *)
Lemma C6_precedence_witness :
  parse_expr 4 ([tok TOK_IDENT "x"] ++ tok TOK_PLUS "plus" :: [tok TOK_IDENT "y"] ++ tok TOK_TIMES "times" :: [tok TOK_IDENT "z"] ++ [eof])
  = POk (NODE_BINOP "plus" (NODE_VAR "x") (NODE_BINOP "times" (NODE_VAR "y") (NODE_VAR "z"))) [eof]
  /\ parse_expr 4 ([tok TOK_IDENT "x"] ++ tok TOK_TIMES "times" :: [tok TOK_IDENT "y"] ++ tok TOK_PLUS "plus" :: [tok TOK_IDENT "z"] ++ [eof])
     = POk (NODE_BINOP "plus" (NODE_BINOP "times" (NODE_VAR "x") (NODE_VAR "y")) (NODE_VAR "z")) [eof]
  /\ parse_expr 7 ([tok TOK_NOT "not"; tok TOK_IDENT "x"] ++ tok TOK_MINUS "minus"
                     :: [tok TOK_MATH "math"; tok TOK_IDENT "sqrt"; tok TOK_IDENT "y"]
                     ++ tok TOK_MINUS "minus" :: [tok TOK_NUMBER "2.5"] ++ [eof])
     = POk (NODE_BINOP "minus"
              (NODE_BINOP "minus" (NODE_UNARYOP "not" (NODE_VAR "x"))
                 (NODE_CALL (Some "math"%string) "sqrt" [NODE_VAR "y"]))
              (NODE_NUM (5 # 2)%Q)) [eof].
Proof.
  split; [|split].
  - exact (C6_precedence_and_left_associativity 2 4
             [tok TOK_IDENT "x"] [tok TOK_IDENT "y"] [tok TOK_IDENT "z"]
             (NODE_VAR "x") (NODE_VAR "y") (NODE_VAR "z")
             (tok TOK_PLUS "plus") (tok TOK_TIMES "times") [eof]
             eq_refl eq_refl eq_refl
             (or_introl eq_refl)
             (or_intror (or_intror (or_introl eq_refl)))
             eq_refl (le_n 4)).
  - exact (C6_precedence_and_left_associativity 2 4
             [tok TOK_IDENT "x"] [tok TOK_IDENT "y"] [tok TOK_IDENT "z"]
             (NODE_VAR "x") (NODE_VAR "y") (NODE_VAR "z")
             (tok TOK_TIMES "times") (tok TOK_PLUS "plus") [eof]
             eq_refl eq_refl eq_refl
             (or_intror (or_intror (or_introl eq_refl)))
             (or_introl eq_refl)
             eq_refl (le_n 4)).
  - exact (C6_precedence_and_left_associativity 5 7
             [tok TOK_NOT "not"; tok TOK_IDENT "x"]
             [tok TOK_MATH "math"; tok TOK_IDENT "sqrt"; tok TOK_IDENT "y"]
             [tok TOK_NUMBER "2.5"]
             (NODE_UNARYOP "not" (NODE_VAR "x"))
             (NODE_CALL (Some "math"%string) "sqrt" [NODE_VAR "y"])
             (NODE_NUM (5 # 2)%Q)
             (tok TOK_MINUS "minus") (tok TOK_MINUS "minus") [eof]
             eq_refl eq_refl eq_refl
             (or_intror (or_introl eq_refl))
             (or_intror (or_introl eq_refl))
             eq_refl (le_n 7)).
Defined.

(** ** Call arguments *)

Lemma is_end_of_expr_In (p : Parser) :
  is_end_of_expr p = true <-> In (ttype (parser_current p)) boundary_tokens.
Proof.
  unfold is_end_of_expr, parser_at_end_of_line, boundary_tokens,
    binary_operators, boundary_keywords.
  cbn [app In]. rewrite !orb_true_iff, !parser_check_eq, !tok_eqb_eq.
  intuition congruence.
Qed.

(** [call f A] in front of a token that ends an argument list. *)
Lemma call_with_one_argument (fuel F : nat) (tcall fname : Token)
    (A : list Token) (a : Expr) (r : Parser) :
  ttype tcall = TOK_CALL ->
  ttype fname = TOK_IDENT ->
  unary_phrase fuel A a ->
  is_end_of_expr A = false ->
  is_end_of_expr r = true ->
  (fuel + 3 <= F)%nat ->
  parse_unary F (tcall :: fname :: A ++ r)
  = POk (NODE_CALL None (value fname) [a]) r.
Proof.
  intros Hcall Hname HA Hstart Hr HF.
  pose proof (unary_phrase_fuel_positive _ _ _ HA) as Hpos.
  destruct F as [|[|[|[|F]]]]; try lia.
  rewrite parse_unary_cons, Hcall. cbn [tok_eqb token_code Z.eqb Pos.eqb].
  rewrite parse_call_cons, Hcall. cbn [tok_eqb token_code Z.eqb Pos.eqb].
  rewrite expect_cons by discriminate. rewrite Hname.
  cbn [tok_eqb token_code Z.eqb Pos.eqb].
  rewrite parse_call_args_step.
  replace (is_end_of_expr (A ++ r)) with false.
  2:{ destruct A; [discriminate Hstart | symmetry; exact Hstart]. }
  rewrite (unary_phrase_in_context fuel (S F) A a r HA) by (lia || exact Hr).
  cbn [pbind app]. rewrite parse_call_args_step, Hr. reflexivity.
Qed.

(** The part of C8 that holds.  The argument loop of a call stops exactly
    at the tokens
    of [is_end_of_expr]: newline, end of input, the thirteen binary
    operators, and the keywords [ret], [let], [if], [else], [call], [out],
    [done], [repeat], [as], [while]; anywhere else it parses one more
    unary-level expression.  Hence, for a function name [f], an argument
    phrase [A] (a unary-level phrase that does not begin with one of those
    tokens), a binary operator [op] and a unary-level phrase [B],
    [call f A op B] is parsed as [(call f a) op b] and not as
    [call f (a op b)]. *)
Theorem C8_call_arguments_end_at_boundary :
  (forall p,
      is_end_of_expr p = true <-> In (ttype (parser_current p)) boundary_tokens)
  /\ (forall fuel acc p,
      is_end_of_expr p = true -> parse_call_args (S fuel) acc p = POk acc p)
  /\ (forall fuel acc p,
      is_end_of_expr p = false ->
      parse_call_args (S fuel) acc p
      = do (arg, p1) <- parse_unary fuel p;
        parse_call_args fuel (acc ++ [arg]) p1)
  /\ (forall fuel acc p args r,
      parse_call_args fuel acc p = POk args r -> is_end_of_expr r = true)
  /\ (forall fuel F tcall fname top A B a b rest,
      ttype tcall = TOK_CALL ->
      ttype fname = TOK_IDENT ->
      In (ttype top) binary_operators ->
      unary_phrase fuel A a ->
      is_end_of_expr A = false ->
      unary_phrase fuel B b ->
      parser_at_end_of_line rest = true ->
      (fuel + 3 <= F)%nat ->
      parse_expr F (tcall :: fname :: A ++ top :: B ++ rest)
      = POk (NODE_BINOP (operator_word top)
                        (NODE_CALL None (value fname) [a]) b) rest
      /\ parse_expr F (tcall :: fname :: A ++ top :: B ++ rest)
         <> POk (NODE_CALL None (value fname)
                           [NODE_BINOP (operator_word top) a b]) rest).
Proof.
  split; [exact is_end_of_expr_In|].
  split; [intros fuel acc p H; rewrite parse_call_args_step, H; reflexivity|].
  split; [intros fuel acc p H; rewrite parse_call_args_step, H; reflexivity|].
  split.
  { intros fuel acc p args r H.
    exact (proj1 (proj2 (proj2 (unary_level_local fuel)) acc p args r H)). }
  intros fuel F tcall fname top A B a b rest Hcall Hname Hop HA Hstart HB
         Hrest HF.
  assert (Hparse :
    parse_expr F (tcall :: fname :: A ++ top :: B ++ rest)
    = POk (NODE_BINOP (operator_word top)
                      (NODE_CALL None (value fname) [a]) b) rest).
  2:{ split; [exact Hparse|]. rewrite Hparse. discriminate. }
  pose proof (unary_phrase_fuel_positive _ _ _ HA) as Hpos.
  assert (Hend : is_end_of_expr rest = true)
    by (apply end_of_line_is_end_of_expr; exact Hrest).
  assert (Hops : forall p, is_end_of_expr (top :: p) = true).
  { intros p. rewrite is_end_of_expr_cons.
    unfold is_end_of_expr, parser_at_end_of_line, parser_check, parser_current.
    cbn [hd]. simpl in Hop.
    repeat (destruct Hop as [Hop|Hop]; [rewrite <- Hop; reflexivity|]).
    destruct Hop. }
  assert (RA : forall p,
            parse_unary F (tcall :: fname :: A ++ top :: p)
            = POk (NODE_CALL None (value fname) [a]) (top :: p)).
  { intros p. apply (call_with_one_argument fuel); auto. }
  destruct F as [|[|[|F]]]; try lia.
  assert (RB : forall F', (fuel <= F')%nat ->
                 parse_unary F' (B ++ rest) = POk b rest).
  { intros F' HF'. apply (unary_phrase_in_context fuel); auto. }
  assert (Stop : forall f l,
            parse_multiplicative_loop (S f) l rest = POk l rest
            /\ parse_additive_loop (S f) l rest = POk l rest
            /\ parse_comparison_loop (S f) l rest = POk l rest
            /\ parse_and_loop (S f) l rest = POk l rest
            /\ parse_or_loop (S f) l rest = POk l rest).
  { intros f l. apply binary_loops_stop_at_end_of_line. exact Hrest. }
  simpl in Hop.
  repeat (destruct Hop as [Hop|Hop]; [symmetry in Hop|]);
    try (exfalso; exact Hop);
    unfold operator_word; rewrite Hop;
    repeat first
      [ rewrite RA
      | rewrite RB by lia
      | rewrite (proj1 (Stop _ _))
      | rewrite (proj1 (proj2 (Stop _ _)))
      | rewrite (proj1 (proj2 (proj2 (Stop _ _))))
      | rewrite (proj1 (proj2 (proj2 (proj2 (Stop _ _)))))
      | rewrite (proj2 (proj2 (proj2 (proj2 (Stop _ _)))))
      | binary_level_step Hop Hop ];
    reflexivity.
Qed.

(** Witness for C8: [call f a plus b]. *)
Lemma C8_call_arguments_witness :
  parse_expr 5 (tok TOK_CALL "call" :: tok TOK_IDENT "f"
                  :: [tok TOK_IDENT "a"] ++ tok TOK_PLUS "plus"
                  :: [tok TOK_IDENT "b"] ++ [eof])
  = POk (NODE_BINOP "plus" (NODE_CALL None "f" [NODE_VAR "a"]) (NODE_VAR "b"))
        [eof].
Proof.
  exact (proj1 (proj2 (proj2 (proj2 (proj2 C8_call_arguments_end_at_boundary)))
           2%nat 5%nat (tok TOK_CALL "call") (tok TOK_IDENT "f") (tok TOK_PLUS "plus")
           [tok TOK_IDENT "a"] [tok TOK_IDENT "b"]
           (NODE_VAR "a") (NODE_VAR "b") [eof]
           eq_refl eq_refl (or_introl eq_refl) eq_refl eq_refl eq_refl eq_refl
           (le_n 5))).
Defined.

(** C8 fails at [inc] and [dec]: both open a statement, yet neither ends an
    argument list, whereas every other keyword that opens a statement does
    ([ret], [let], [if], [out], [repeat], [while]).  The argument loop goes
    on at [inc] or [dec] and fails there, whatever follows:
    [call g s inc s] and [call g s dec s] are parse errors, where
    [call g s let t one] is a call followed by a binding. *)
Theorem C8_inc_and_dec_do_not_end_arguments :
  In TOK_INC statement_keywords
  /\ In TOK_DEC statement_keywords
  /\ Forall (fun t => In t statement_keywords /\ In t boundary_tokens)
            [TOK_RET; TOK_LET; TOK_IF; TOK_OUT; TOK_REPEAT; TOK_WHILE]
  /\ ~ In TOK_INC boundary_tokens
  /\ ~ In TOK_DEC boundary_tokens
  /\ (forall fuel acc v rest,
        parse_call_args (S (S (S fuel))) acc (tok TOK_INC v :: rest)
        = PFail (tok TOK_INC v :: rest))
  /\ (forall fuel acc v rest,
        parse_call_args (S (S (S fuel))) acc (tok TOK_DEC v :: rest)
        = PFail (tok TOK_DEC v :: rest))
  /\ parse_call 6 [tok TOK_CALL "call"; tok TOK_IDENT "g"; tok TOK_IDENT "s";
                   tok TOK_INC "inc"; tok TOK_IDENT "s"; eof]
     = PFail [tok TOK_INC "inc"; tok TOK_IDENT "s"; eof]
  /\ parse_call 6 [tok TOK_CALL "call"; tok TOK_IDENT "g"; tok TOK_IDENT "s";
                   tok TOK_DEC "dec"; tok TOK_IDENT "s"; eof]
     = PFail [tok TOK_DEC "dec"; tok TOK_IDENT "s"; eof]
  /\ front_end src_call_then_inc = None
  /\ front_end src_call_then_dec = None
  /\ front_end src_call_then_let
     = Some {| types := [];
               functions :=
                 [ {| func_name := "f"; params := [];
                      func_body :=
                        [ NODE_LET "s" (NODE_NUM d0);
                          NODE_EXPR_STMT (NODE_CALL None "g" [NODE_VAR "s"]);
                          NODE_LET "t" (NODE_NUM d1) ] |} ] |}.
Proof.
  split; [simpl; tauto|]. split; [simpl; tauto|].
  split.
  { repeat (apply Forall_cons; [split; simpl; tauto|]). apply Forall_nil. }
  split.
  { intro H. cbn in H. repeat (destruct H as [H|H]; [discriminate H|]).
    exact H. }
  split.
  { intro H. cbn in H. repeat (destruct H as [H|H]; [discriminate H|]).
    exact H. }
  split; [intros fuel acc v rest; cbn; reflexivity|].
  split; [intros fuel acc v rest; cbn; reflexivity|].
  split; [vm_compute; reflexivity|]. split; [vm_compute; reflexivity|].
  split; [vm_compute; reflexivity|]. split; vm_compute; reflexivity.
Qed.

(* ================================================================== *)
(** * Further properties *)
(* ================================================================== *)

(** ** The tokens of an accepted source *)

Section LexerInvariant.

Variable I : Lexer -> Prop.

Hypothesis I_blank : forall lx c rest,
  source lx = String c rest ->
  (Ascii.eqb c " " || Ascii.eqb c TAB || Ascii.eqb c CR) = true ->
  I lx -> I (lexer_advance lx).

Hypothesis I_newline : forall lx rest,
  source lx = String LF rest -> I lx -> I (after_newline lx).

Hypothesis I_comment : forall lx c rest,
  source lx = String c rest ->
  ((Ascii.eqb c "-" && Ascii.eqb (lexer_peek lx) "-") || Ascii.eqb c "#") = true ->
  I lx -> I (snd (lexer_skip_while not_eol lx)).

Hypothesis I_string : forall lx rest lx1,
  source lx = String DQUOTE rest ->
  lexer_scan_string lx = Some lx1 -> I lx -> I lx1.

Hypothesis I_number : forall lx c rest,
  source lx = String c rest -> is_digit c = true ->
  I lx -> I (lexer_scan_number lx).

Hypothesis I_word : forall lx c rest,
  source lx = String c rest -> is_alpha c = true ->
  I lx -> I (lexer_scan_word lx).

(** A property kept by every iteration of the loop of [lexer_tokenize]
    holds of the state in which the loop ends, to which the end-of-input
    token is then added. *)
Lemma lexer_loop_invariant (fuel : nat) :
  forall lx lx',
    I lx -> lexer_loop fuel lx = LexOk lx' ->
    exists lx0,
      I lx0 /\ source lx0 = EmptyString
      /\ lx' = lexer_add_token lx0 TOK_EOF EmptyString.
Proof.
  induction fuel as [|fuel IH]; intros lx lx' HI H; [discriminate|].
  cbn [lexer_loop] in H.
  destruct (source lx) as [|c rest] eqn:Hs.
  { inversion H. exists lx. auto. }
  destruct (Ascii.eqb c " " || Ascii.eqb c TAB || Ascii.eqb c CR) eqn:Hb.
  { apply IH in H; [exact H|]. eapply I_blank; eauto. }
  destruct (Ascii.eqb c LF) eqn:Hlf.
  { apply Ascii.eqb_eq in Hlf. subst c.
    apply IH in H; [exact H|]. eapply I_newline; eauto. }
  destruct ((Ascii.eqb c "-" && Ascii.eqb (lexer_peek lx) "-") || Ascii.eqb c "#")
    eqn:Hc.
  { apply IH in H; [exact H|]. eapply I_comment; eauto. }
  destruct (Ascii.eqb c DQUOTE) eqn:Hq.
  { apply Ascii.eqb_eq in Hq. subst c.
    destruct (lexer_scan_string lx) as [lx1|] eqn:E; [|discriminate].
    apply IH in H; [exact H|]. eapply I_string; eauto. }
  destruct (is_digit c) eqn:Hd.
  { apply IH in H; [exact H|]. eapply I_number; eauto. }
  destruct (is_alpha c) eqn:Ha; [|discriminate].
  apply IH in H; [exact H|]. eapply I_word; eauto.
Qed.

End LexerInvariant.

Lemma span_chars_app (p : ascii -> bool) (s : string) :
  (fst (span_chars p s) ++ snd (span_chars p s))%string = s.
Proof.
  induction s as [|c rest IH]; [reflexivity|]. cbn [span_chars].
  destruct (p c); [|reflexivity].
  destruct (span_chars p rest) as [taken rem]. cbn [fst snd] in *.
  cbn. rewrite IH. reflexivity.
Qed.

Lemma span_chars_all (p : ascii -> bool) (s : string) :
  all_chars p (fst (span_chars p s)) = true.
Proof.
  induction s as [|c rest IH]; [reflexivity|]. cbn [span_chars].
  destruct (p c) eqn:E; [|reflexivity].
  destruct (span_chars p rest) as [taken rem]. cbn [fst snd] in *.
  cbn. rewrite E. exact IH.
Qed.

(** The scan stops at the end of the text or at a character that does not
    satisfy [p]. *)
Lemma span_chars_stop (p : ascii -> bool) (s : string) :
  match snd (span_chars p s) with
  | EmptyString => True
  | String c _ => p c = false
  end.
Proof.
  induction s as [|c rest IH]; [exact I|]. cbn [span_chars].
  destruct (p c) eqn:E; [|exact E].
  destruct (span_chars p rest) as [taken rem]. exact IH.
Qed.

Lemma span_chars_first (p : ascii -> bool) (c : ascii) (rest : string) :
  p c = true ->
  span_chars p (String c rest)
  = (String c (fst (span_chars p rest)), snd (span_chars p rest)).
Proof.
  intro H. cbn [span_chars]. rewrite H.
  destruct (span_chars p rest). reflexivity.
Qed.

Lemma count_LF_app (a b : string) :
  count_LF (a ++ b) = (count_LF a + count_LF b)%nat.
Proof.
  induction a as [|c a IH]; [reflexivity|].
  cbn [append count_LF]. rewrite IH. lia.
Qed.

Lemma count_LF_none (p : ascii -> bool) (s : string) :
  p LF = false -> all_chars p s = true -> count_LF s = O.
Proof.
  intros Hp. induction s as [|c s IH]; [reflexivity|].
  cbn [count_LF all_chars].
  intro H. apply andb_true_iff in H. destruct H as [Hc Hs].
  destruct (Ascii.eqb c LF) eqn:E.
  { apply Ascii.eqb_eq in E. subst c. congruence. }
  rewrite (IH Hs). reflexivity.
Qed.

Lemma span_chars_count_LF (p : ascii -> bool) (s : string) :
  p LF = false -> count_LF (snd (span_chars p s)) = count_LF s.
Proof.
  intro Hp. rewrite <- (span_chars_app p s) at 2. rewrite count_LF_app.
  rewrite (count_LF_none p _ Hp (span_chars_all p s)). reflexivity.
Qed.

(** The body of a string literal is the source text up to the closing
    quote, as it stands: it holds no line feed and no NUL, and the rest
    begins with the closing quote. *)
Lemma scan_string_body_spec (n : nat) (s body rem : string) :
  (String.length s <= n)%nat ->
  scan_string_body s = Some (body, rem) ->
  s = (body ++ rem)%string
  /\ all_chars (fun c => negb (Ascii.eqb c LF) && negb (Ascii.eqb c NUL)) body = true
  /\ exists rem', rem = String DQUOTE rem'.
Proof.
  revert s body rem.
  induction n as [|n IH]; intros s body rem Hn H.
  - destruct s; [discriminate|simpl in Hn; lia].
  - destruct s as [|c rest]; [discriminate|]. simpl in Hn.
    cbn [scan_string_body] in H.
    destruct (Ascii.eqb c DQUOTE) eqn:Eq.
    { inversion H. subst. apply Ascii.eqb_eq in Eq. subst c.
      repeat split. eexists. reflexivity. }
    destruct (Ascii.eqb c NUL) eqn:En; [discriminate|].
    destruct (Ascii.eqb c LF) eqn:El; [discriminate|].
    destruct rest as [|d rest']; [discriminate|].
    destruct (Ascii.eqb c BACKSLASH && Ascii.eqb d DQUOTE) eqn:Ee.
    + destruct (scan_string_body rest') as [[b r]|] eqn:E; [|discriminate].
      inversion H. subst body rem.
      apply IH in E; [|simpl in Hn; lia]. destruct E as (-> & Hall & Hrem).
      apply andb_true_iff in Ee. destruct Ee as [_ Ed].
      apply Ascii.eqb_eq in Ed. subst d.
      repeat split; [|exact Hrem].
      cbn [append all_chars]. rewrite El, En, Hall. reflexivity.
    + destruct (scan_string_body (String d rest')) as [[b r]|] eqn:E;
        [|discriminate].
      inversion H. subst body rem.
      apply IH in E; [|simpl in *; lia]. destruct E as (E & Hall & Hrem).
      repeat split; [cbn [append]; rewrite <- E; reflexivity| |exact Hrem].
      cbn [append all_chars]. rewrite El, En. exact Hall.
Qed.

Lemma length_append (a b : string) :
  String.length (a ++ b) = (String.length a + String.length b)%nat.
Proof. induction a as [|c a IH]; cbn; [reflexivity|]. rewrite IH. reflexivity. Qed.

Lemma string_app_assoc (a b c : string) :
  ((a ++ b) ++ c)%string = (a ++ (b ++ c))%string.
Proof. induction a as [|x a IH]; cbn; [reflexivity|]. rewrite IH. reflexivity. Qed.

Lemma string_app_nil_r (a : string) : (a ++ EmptyString)%string = a.
Proof. induction a as [|x a IH]; cbn; [reflexivity|]. rewrite IH. reflexivity. Qed.

Lemma strlen_append (a b : string) : strlen (a ++ b) = strlen a + strlen b.
Proof. unfold strlen. rewrite length_append. lia. Qed.

Lemma lexer_advance_step (lx : Lexer) (c : ascii) (rest : string) :
  source lx = String c rest ->
  lexer_advance lx
  = {| source := rest; lline := lline lx; lcolumn := lcolumn lx + 1;
       ltokens := ltokens lx |}.
Proof. intro H. unfold lexer_advance. rewrite H. reflexivity. Qed.

Lemma after_newline_step (lx : Lexer) (rest : string) :
  source lx = String LF rest ->
  after_newline lx
  = {| source := rest; lline := lline lx + 1; lcolumn := 1;
       ltokens := ltokens lx ++ [new_token lx TOK_NEWLINE "\n" (lcolumn lx - 2)] |}.
Proof.
  intro H. unfold after_newline, lexer_advance, lexer_add_token. cbn.
  rewrite H. reflexivity.
Qed.

Lemma comment_step (lx : Lexer) :
  snd (lexer_skip_while not_eol lx)
  = {| source := snd (span_chars not_eol (source lx)); lline := lline lx;
       lcolumn := lcolumn lx + strlen (fst (span_chars not_eol (source lx)));
       ltokens := ltokens lx |}.
Proof.
  unfold lexer_skip_while. destruct (span_chars not_eol (source lx)).
  reflexivity.
Qed.

Lemma lexer_scan_word_step (lx : Lexer) :
  let w := fst (span_chars is_alnum (source lx)) in
  lexer_scan_word lx
  = {| source := snd (span_chars is_alnum (source lx)); lline := lline lx;
       lcolumn := lcolumn lx + strlen w;
       ltokens := ltokens lx ++ [new_token lx (lookup_keyword w) w (lcolumn lx)] |}.
Proof.
  unfold lexer_scan_word, lexer_skip_while, lexer_add_token, new_token.
  destruct (span_chars is_alnum (source lx)) as [w rem]. cbn.
  repeat f_equal. lia.
Qed.

Lemma lexer_scan_number_step (lx : Lexer) :
  let v := fst (number_lexeme (source lx)) in
  lexer_scan_number lx
  = {| source := snd (number_lexeme (source lx)); lline := lline lx;
       lcolumn := lcolumn lx + strlen v;
       ltokens := ltokens lx ++ [new_token lx TOK_NUMBER v (lcolumn lx)] |}.
Proof.
  unfold lexer_scan_number, number_lexeme, lexer_skip_while.
  destruct (span_chars is_digit (source lx)) as [ip rest] eqn:E1.
  unfold lexer_current, lexer_peek. cbn [source].
  destruct rest as [|c [|d rest']].
  - cbn. unfold lexer_add_token, new_token. cbn. repeat f_equal. lia.
  - replace (Ascii.eqb c "." && is_digit NUL) with false
      by (rewrite andb_false_r; reflexivity).
    cbn. unfold lexer_add_token, new_token. cbn. repeat f_equal. lia.
  - destruct (Ascii.eqb c "." && is_digit d) eqn:E2.
    + unfold lexer_advance. cbn [source lline lcolumn ltokens].
      destruct (span_chars is_digit (String d rest')) as [frac rem] eqn:E3.
      unfold lexer_add_token, new_token. cbn [source lline lcolumn ltokens fst snd].
      f_equal.
      * rewrite strlen_append. unfold strlen. cbn [String.length]. lia.
      * f_equal. f_equal. f_equal.
        rewrite strlen_append. unfold strlen. cbn [String.length]. lia.
    + cbn. unfold lexer_add_token, new_token. cbn. repeat f_equal. lia.
Qed.

Lemma lexer_scan_string_step (lx lx1 : Lexer) (rest : string) :
  source lx = String DQUOTE rest ->
  lexer_scan_string lx = Some lx1 ->
  exists body rem,
    rest = (body ++ String DQUOTE rem)%string
    /\ all_chars (fun c => negb (Ascii.eqb c LF) && negb (Ascii.eqb c NUL)) body = true
    /\ lx1 = {| source := rem; lline := lline lx;
                lcolumn := lcolumn lx + 1 + strlen body + 1;
                ltokens := ltokens lx
                           ++ [new_token lx TOK_STRING body (lcolumn lx + 1)] |}.
Proof.
  intros Hs H. unfold lexer_scan_string in H.
  rewrite (lexer_advance_step lx _ _ Hs) in H. cbn [source] in H.
  destruct (scan_string_body rest) as [[body rem]|] eqn:E; [|discriminate].
  destruct (scan_string_body_spec _ _ _ _ (Nat.le_refl _) E)
    as (-> & Hall & rem' & ->).
  inversion H. exists body, rem'. split; [reflexivity|]. split; [exact Hall|].
  unfold lexer_advance, lexer_add_token, new_token. cbn.
  replace (lcolumn lx + 1 + strlen body - strlen body) with (lcolumn lx + 1)
    by lia.
  reflexivity.
Qed.

Lemma column_after_app (a b : string) (col : Z) :
  column_after (a ++ b) col = column_after b (column_after a col).
Proof.
  revert col. induction a as [|c a IH]; intro col; [reflexivity|].
  cbn [append column_after]. apply IH.
Qed.

Lemma column_after_line (p : ascii -> bool) (s : string) (col : Z) :
  p LF = false -> all_chars p s = true ->
  column_after s col = col + strlen s.
Proof.
  intros Hp. revert col. induction s as [|c s IH]; intros col H.
  { unfold strlen. cbn. lia. }
  cbn [all_chars] in H. apply andb_true_iff in H. destruct H as [Hc Hs].
  cbn [column_after].
  destruct (Ascii.eqb c LF) eqn:E.
  { apply Ascii.eqb_eq in E. subst c. congruence. }
  rewrite (IH _ Hs). unfold strlen. cbn [String.length]. lia.
Qed.

Lemma all_chars_app (p : ascii -> bool) (a b : string) :
  all_chars p (a ++ b) = all_chars p a && all_chars p b.
Proof.
  induction a as [|c a IH]; [reflexivity|].
  cbn [append all_chars]. rewrite IH. apply andb_assoc.
Qed.

Lemma all_chars_impl (p q : ascii -> bool) (s : string) :
  (forall c, p c = true -> q c = true) ->
  all_chars p s = true -> all_chars q s = true.
Proof.
  intro H. induction s as [|c s IH]; [reflexivity|]. cbn [all_chars].
  intro Hs. apply andb_true_iff in Hs. destruct Hs as [Hc Hs].
  rewrite (H _ Hc), (IH Hs). reflexivity.
Qed.

(** The lexeme of a number and the text after it make up the text scanned;
    the lexeme is a decimal numeral when the text begins with a digit. *)
Lemma number_lexeme_spec (c : ascii) (rest : string) :
  is_digit c = true ->
  let s := String c rest in
  (fst (number_lexeme s) ++ snd (number_lexeme s))%string = s
  /\ all_chars is_point_or_digit (fst (number_lexeme s)) = true
  /\ is_decimal (fst (number_lexeme s)) = true.
Proof.
  intros Hc s. unfold number_lexeme.
  pose proof (span_chars_app is_digit s) as Happ.
  pose proof (span_chars_all is_digit s) as Hall.
  pose proof (span_chars_stop is_digit s) as Hstop.
  assert (Hne : fst (span_chars is_digit s) <> EmptyString).
  { unfold s. rewrite span_chars_first by exact Hc. discriminate. }
  destruct (span_chars is_digit s) as [ip r]. cbn [fst snd] in *.
  assert (Hip : is_decimal ip = true).
  { unfold is_decimal.
    assert (E : span_chars is_digit ip = (ip, EmptyString)).
    { clear - Hall. induction ip as [|d ip IH]; [reflexivity|].
      cbn [all_chars] in Hall. apply andb_true_iff in Hall.
      destruct Hall as [Hd Hip]. cbn [span_chars]. rewrite Hd, (IH Hip).
      reflexivity. }
    rewrite E. destruct ip; [congruence|reflexivity]. }
  assert (Hpd : all_chars is_point_or_digit ip = true).
  { apply (all_chars_impl is_digit); [|exact Hall].
    intros d Hd. unfold is_point_or_digit. rewrite Hd. apply orb_true_r. }
  destruct r as [|c1 [|d r']]; cbn [fst snd]; try (split; [exact Happ|]; split; assumption).
  destruct (Ascii.eqb c1 "." && is_digit d) eqn:E;
    [|cbn [fst snd]; split; [exact Happ|]; split; assumption].
  apply andb_true_iff in E. destruct E as [E1 E2].
  apply Ascii.eqb_eq in E1. subst c1.
  pose proof (span_chars_app is_digit (String d r')) as Happ2.
  pose proof (span_chars_all is_digit (String d r')) as Hall2.
  assert (Hne2 : fst (span_chars is_digit (String d r')) <> EmptyString).
  { rewrite span_chars_first by exact E2. discriminate. }
  destruct (span_chars is_digit (String d r')) as [frac rem].
  cbn [fst snd] in *. split; [|split].
  - rewrite <- Happ, <- Happ2.
    rewrite string_app_assoc. reflexivity.
  - rewrite all_chars_app, Hpd. cbn [all_chars andb].
    replace (is_point_or_digit ".") with true by reflexivity.
    apply (all_chars_impl is_digit); [|exact Hall2].
    intros d' Hd. unfold is_point_or_digit. rewrite Hd. apply orb_true_r.
  - unfold is_decimal.
    assert (E : span_chars is_digit (ip ++ String "." frac)
                = (ip, String "." frac)).
    { clear - Hall. induction ip as [|d0 ip IH]; [reflexivity|].
      cbn [all_chars] in Hall. apply andb_true_iff in Hall.
      destruct Hall as [Hd Hip]. cbn [append span_chars]. rewrite Hd, (IH Hip).
      reflexivity. }
    rewrite E. destruct ip; [congruence|].
    destruct frac; [congruence|]. cbn [String.eqb negb andb].
    rewrite Hall2. reflexivity.
Qed.

Lemma word_lexeme_spec (c : ascii) (rest : string) :
  is_alpha c = true ->
  is_word (fst (span_chars is_alnum (String c rest))) = true.
Proof.
  intro Hc.
  assert (Ha : is_alnum c = true) by (unfold is_alnum; rewrite Hc; reflexivity).
  rewrite span_chars_first by exact Ha. cbn [fst is_word]. rewrite Hc.
  apply span_chars_all.
Qed.

Lemma lookup_keyword_in_cases (tbl : list (string * TokenType)) (w : string) :
  lookup_keyword_in tbl w = TOK_IDENT
  \/ In (lookup_keyword_in tbl w) (map snd tbl).
Proof.
  induction tbl as [|[k t] tbl IH]; [left; reflexivity|].
  cbn [lookup_keyword_in map snd In].
  destruct (String.eqb k w); [right; left; reflexivity|].
  destruct IH as [IH|IH]; [left; exact IH|right; right; exact IH].
Qed.

(** A word is never given the kind of a number, a string, a line feed or
    the end of the input. *)
Lemma lookup_keyword_kind (w : string) :
  lookup_keyword w <> TOK_NUMBER /\ lookup_keyword w <> TOK_STRING
  /\ lookup_keyword w <> TOK_NEWLINE /\ lookup_keyword w <> TOK_EOF.
Proof.
  unfold lookup_keyword.
  destruct (lookup_keyword_in_cases keywords w) as [H|H].
  - rewrite H. repeat split; discriminate.
  - remember (lookup_keyword_in keywords w) as k eqn:Ek. clear Ek.
    cbn in H.
    repeat (destruct H as [H|H]; [subst k; repeat split; discriminate|]).
    destruct H.
Qed.

Lemma count_tokens_app (T : TokenType) (a b : list Token) :
  count_tokens T (a ++ b) = (count_tokens T a + count_tokens T b)%nat.
Proof. unfold count_tokens. rewrite filter_app, length_app. reflexivity. Qed.

Lemma count_tokens_one (T : TokenType) (t : Token) :
  count_tokens T [t] = if tok_eqb (ttype t) T then 1%nat else 0%nat.
Proof. unfold count_tokens. cbn. destruct (tok_eqb (ttype t) T); reflexivity. Qed.

Lemma placed_at (src before after : string) (t : Token) :
  ttype t <> TOK_NEWLINE ->
  src = (before ++ value t ++ after)%string ->
  line t = 1 + Z.of_nat (count_LF before) ->
  column t = column_after before 1 ->
  placed src t.
Proof.
  intros Hk Hsrc Hl Hc. exists before, after.
  apply tok_eqb_neq in Hk. rewrite Hk.
  split; [exact Hsrc|]. split; [exact Hl|lia].
Qed.

(** One more token [t] and the text [read]: the bookkeeping of a step. *)
Lemma lexer_ok_step (src : string) (lx : Lexer) (read rest : string)
    (toks : list Token) (l c : Z) :
  lexer_ok src lx ->
  source lx = (read ++ rest)%string ->
  (forall consumed,
      src = (consumed ++ read ++ rest)%string ->
      lline lx = 1 + Z.of_nat (count_LF consumed) ->
      lcolumn lx = column_after consumed 1 ->
      l = 1 + Z.of_nat (count_LF (consumed ++ read))
      /\ c = column_after (consumed ++ read) 1
      /\ Forall (placed src) toks
      /\ (count_tokens TOK_NEWLINE toks = count_LF read)) ->
  Forall lexeme_ok toks ->
  Forall (fun t => ttype t <> TOK_EOF) toks ->
  lexer_ok src {| source := rest; lline := l; lcolumn := c;
                  ltokens := ltokens lx ++ toks |}.
Proof.
  intros (consumed & Hsrc & Hl & Hc & Hp & Hx & He & Hn) Hs Hnew Hlex Heof.
  rewrite Hs in Hsrc.
  destruct (Hnew consumed Hsrc Hl Hc) as (Hl' & Hc' & Hp' & Hn').
  exists (consumed ++ read)%string. cbn [source lline lcolumn ltokens].
  split; [rewrite string_app_assoc; exact Hsrc|].
  split; [exact Hl'|]. split; [exact Hc'|].
  split; [apply Forall_app; split; assumption|].
  split; [apply Forall_app; split; assumption|].
  split; [apply Forall_app; split; assumption|].
  rewrite count_tokens_app, count_LF_app. lia.
Qed.

Lemma lexer_ok_blank (src : string) (lx : Lexer) (c : ascii) (rest : string) :
  source lx = String c rest ->
  (Ascii.eqb c " " || Ascii.eqb c TAB || Ascii.eqb c CR) = true ->
  lexer_ok src lx -> lexer_ok src (lexer_advance lx).
Proof.
  intros Hs Hc H. rewrite (lexer_advance_step lx c rest Hs).
  rewrite <- (app_nil_r (ltokens lx)).
  apply (lexer_ok_step src lx (String c EmptyString) rest []); auto.
  intros consumed Hsrc Hl Hcol.
  assert (Hn : Ascii.eqb c LF = false).
  { destruct (Ascii.eqb c LF) eqn:E; [|reflexivity].
    apply Ascii.eqb_eq in E. subst c. discriminate Hc. }
  rewrite count_LF_app, column_after_app. cbn [count_LF column_after].
  rewrite Hn. split; [lia|]. split; [lia|]. split; [constructor|reflexivity].
Qed.

Lemma lexer_ok_newline (src : string) (lx : Lexer) (rest : string) :
  source lx = String LF rest -> lexer_ok src lx -> lexer_ok src (after_newline lx).
Proof.
  intros Hs H. rewrite (after_newline_step lx rest Hs).
  apply (lexer_ok_step src lx (String LF EmptyString) rest); auto.
  - intros consumed Hsrc Hl Hcol.
    rewrite count_LF_app, column_after_app. cbn [count_LF column_after].
    rewrite Ascii.eqb_refl. split; [lia|]. split; [reflexivity|]. split.
    + constructor; [|constructor]. exists consumed, rest.
      cbn [new_token ttype line column value].
      replace (tok_eqb TOK_NEWLINE TOK_NEWLINE) with true by reflexivity.
      split; [exact Hsrc|]. split; [exact Hl|lia].
    + rewrite count_tokens_one. reflexivity.
  - constructor; [reflexivity|constructor].
  - constructor; [discriminate|constructor].
Qed.

Lemma lexer_ok_comment (src : string) (lx : Lexer) (c : ascii) (rest : string) :
  source lx = String c rest ->
  lexer_ok src lx -> lexer_ok src (snd (lexer_skip_while not_eol lx)).
Proof.
  intros Hs H. rewrite comment_step.
  rewrite <- (app_nil_r (ltokens lx)).
  assert (Hnl : not_eol LF = false) by reflexivity.
  apply (lexer_ok_step src lx (fst (span_chars not_eol (source lx)))); auto.
  - symmetry. apply span_chars_app.
  - intros consumed Hsrc Hl Hcol.
    pose proof (span_chars_all not_eol (source lx)) as Hall.
    rewrite count_LF_app, column_after_app.
    rewrite (count_LF_none _ _ Hnl Hall), (column_after_line _ _ _ Hnl Hall).
    split; [lia|]. split; [lia|]. split; [constructor|reflexivity].
Qed.

Lemma lexer_ok_string (src : string) (lx lx1 : Lexer) (rest : string) :
  source lx = String DQUOTE rest ->
  lexer_scan_string lx = Some lx1 -> lexer_ok src lx -> lexer_ok src lx1.
Proof.
  intros Hs Hscan H.
  destruct (lexer_scan_string_step lx lx1 rest Hs Hscan)
    as (body & rem & -> & Hall & ->).
  set (p := fun c => negb (Ascii.eqb c LF) && negb (Ascii.eqb c NUL)) in *.
  assert (Hnl : p LF = false) by reflexivity.
  apply (lexer_ok_step src lx
           (String DQUOTE body ++ String DQUOTE EmptyString)%string rem).
  - exact H.
  - rewrite Hs. cbn [append]. rewrite string_app_assoc. reflexivity.
  - intros consumed Hsrc Hl Hcol.
    assert (Hq : count_LF (String DQUOTE body ++ String DQUOTE EmptyString) = O).
    { cbn [append count_LF]. rewrite count_LF_app.
      rewrite (count_LF_none _ _ Hnl Hall). reflexivity. }
    rewrite count_LF_app, Hq. split; [lia|]. split.
    + rewrite !column_after_app. cbn [column_after].
      replace (Ascii.eqb DQUOTE LF) with false by reflexivity.
      rewrite (column_after_line _ _ _ Hnl Hall). lia.
    + split; [|rewrite count_tokens_one; reflexivity].
      constructor; [|constructor].
      apply (placed_at src (consumed ++ String DQUOTE EmptyString)
                       (String DQUOTE rem)).
      * discriminate.
      * cbn [new_token value]. rewrite Hsrc.
        repeat (progress (rewrite ?string_app_assoc; cbn [append])).
        reflexivity.
      * cbn [new_token line]. rewrite count_LF_app. cbn [count_LF].
        replace (Ascii.eqb DQUOTE LF) with false by reflexivity. lia.
      * cbn [new_token column]. rewrite column_after_app. cbn [column_after].
        replace (Ascii.eqb DQUOTE LF) with false by reflexivity. lia.
  - constructor; [exact Hall|constructor].
  - constructor; [discriminate|constructor].
Qed.

Lemma lexer_ok_number (src : string) (lx : Lexer) (c : ascii) (rest : string) :
  source lx = String c rest -> is_digit c = true ->
  lexer_ok src lx -> lexer_ok src (lexer_scan_number lx).
Proof.
  intros Hs Hc H. rewrite lexer_scan_number_step. cbv zeta.
  rewrite Hs. destruct (number_lexeme_spec c rest Hc) as (Happ & Hall & Hdec).
  set (v := fst (number_lexeme (String c rest))) in *.
  set (rem := snd (number_lexeme (String c rest))) in *.
  assert (Hnl : is_point_or_digit LF = false) by reflexivity.
  apply (lexer_ok_step src lx v rem).
  - exact H.
  - rewrite Hs. symmetry. exact Happ.
  - intros consumed Hsrc Hl Hcol.
    rewrite count_LF_app, column_after_app.
    rewrite (count_LF_none _ _ Hnl Hall), (column_after_line _ _ _ Hnl Hall).
    split; [lia|]. split; [lia|]. split; [|rewrite count_tokens_one; reflexivity].
    constructor; [|constructor].
    apply (placed_at src consumed rem); [discriminate|exact Hsrc|exact Hl|exact Hcol].
  - constructor; [exact Hdec|constructor].
  - constructor; [discriminate|constructor].
Qed.

Lemma lexer_ok_word (src : string) (lx : Lexer) (c : ascii) (rest : string) :
  source lx = String c rest -> is_alpha c = true ->
  lexer_ok src lx -> lexer_ok src (lexer_scan_word lx).
Proof.
  intros Hs Hc H. rewrite lexer_scan_word_step. cbv zeta.
  pose proof (span_chars_app is_alnum (source lx)) as Happ.
  pose proof (span_chars_all is_alnum (source lx)) as Hall.
  pose proof (word_lexeme_spec c rest Hc) as Hword. rewrite <- Hs in Hword.
  set (w := fst (span_chars is_alnum (source lx))) in *.
  set (rem := snd (span_chars is_alnum (source lx))) in *.
  destruct (lookup_keyword_kind w) as (Kn & Ks & Kl & Ke).
  assert (Hnl : is_alnum LF = false) by reflexivity.
  apply (lexer_ok_step src lx w rem).
  - exact H.
  - symmetry. exact Happ.
  - intros consumed Hsrc Hl Hcol.
    rewrite count_LF_app, column_after_app.
    rewrite (count_LF_none _ _ Hnl Hall), (column_after_line _ _ _ Hnl Hall).
    split; [lia|]. split; [lia|]. split.
    + constructor; [|constructor].
      apply (placed_at src consumed rem); [exact Kl|exact Hsrc|exact Hl|exact Hcol].
    + rewrite count_tokens_one. cbn [new_token ttype].
      apply tok_eqb_neq in Kl. rewrite Kl. reflexivity.
  - constructor; [|constructor]. unfold lexeme_ok. cbn [new_token ttype value].
    destruct (lookup_keyword w) eqn:K; try (split; [exact Hword|reflexivity]);
      congruence.
  - constructor; [exact Ke|constructor].
Qed.

(** What [lexer_tokenize] returns for a source it accepts. *)
Lemma lexer_tokenize_spec (src : string) (lx : Lexer) :
  lexer_tokenize src = LexOk lx ->
  exists toks,
    ltokens lx = toks ++ [ {| ttype := TOK_EOF; value := EmptyString;
                              line := 1 + Z.of_nat (count_LF src);
                              column := column_after src 1 |} ]
    /\ Forall (placed src) toks
    /\ Forall lexeme_ok toks
    /\ Forall (fun t => ttype t <> TOK_EOF) toks
    /\ count_tokens TOK_NEWLINE toks = count_LF src.
Proof.
  intro H. unfold lexer_tokenize in H.
  apply (lexer_loop_invariant (lexer_ok src)) in H.
  - destruct H as (lx0 & (consumed & Hsrc & Hl & Hc & Hp & Hx & He & Hn) & Hs & ->).
    rewrite Hs, string_app_nil_r in Hsrc. subst consumed.
    exists (ltokens lx0). unfold lexer_add_token. cbn [ltokens].
    split; [|auto]. unfold strlen. cbn [String.length].
    rewrite Hl, Hc. repeat f_equal. lia.
  - exact (lexer_ok_blank src).
  - exact (lexer_ok_newline src).
  - intros lx1 c rest Hs _. exact (lexer_ok_comment src lx1 c rest Hs).
  - intros lx1 rest lx2. exact (lexer_ok_string src lx1 lx2 rest).
  - exact (lexer_ok_number src).
  - exact (lexer_ok_word src).
  - exists EmptyString. cbn. repeat split; constructor.
Qed.

(* ==== extras ==== *)

(** X1.  The token array of a source the lexer accepts ends with the
    end-of-input token, which has an empty value and the line and column of
    the end of the text; no other token of the array has this kind. *)
Theorem X1_tokens_end_with_one_eof (src : string) (lx : Lexer) :
  lexer_tokenize src = LexOk lx ->
  exists toks,
    ltokens lx = toks ++ [ {| ttype := TOK_EOF; value := EmptyString;
                              line := 1 + Z.of_nat (count_LF src);
                              column := column_after src 1 |} ]
    /\ Forall (fun t => ttype t <> TOK_EOF) toks.
Proof.
  intro H. destruct (lexer_tokenize_spec src lx H) as (toks & E & _ & _ & He & _).
  exists toks. split; assumption.
Qed.

Lemma X1_tokens_end_with_one_eof_witness :
  exists lx toks,
    lexer_tokenize src_S1 = LexOk lx
    /\ ltokens lx = toks ++ [ {| ttype := TOK_EOF; value := EmptyString;
                                 line := 1 + Z.of_nat (count_LF src_S1);
                                 column := column_after src_S1 1 |} ]
    /\ Forall (fun t => ttype t <> TOK_EOF) toks.
Proof.
  destruct (lexer_tokenize src_S1) as [lx| |] eqn:E;
    [|vm_compute in E; discriminate E|vm_compute in E; discriminate E].
  destruct (X1_tokens_end_with_one_eof src_S1 lx E) as (toks & H).
  exists lx, toks. split; [reflexivity|exact H].
Defined.

(** X2.  A source the lexer accepts yields exactly one line-feed token per
    line feed of the text: none is lost in a comment or in a string. *)
Theorem X2_one_newline_token_per_line_feed (src : string) (lx : Lexer) :
  lexer_tokenize src = LexOk lx ->
  count_tokens TOK_NEWLINE (ltokens lx) = count_LF src.
Proof.
  intro H. destruct (lexer_tokenize_spec src lx H) as (toks & E & _ & _ & _ & Hn).
  rewrite E, count_tokens_app, count_tokens_one, Hn. cbn. lia.
Qed.

Lemma X2_one_newline_token_per_line_feed_witness :
  exists lx,
    lexer_tokenize src_S3 = LexOk lx
    /\ count_tokens TOK_NEWLINE (ltokens lx) = count_LF src_S3.
Proof.
  destruct (lexer_tokenize src_S3) as [lx| |] eqn:E;
    [|vm_compute in E; discriminate E|vm_compute in E; discriminate E].
  exists lx. split; [reflexivity|].
  exact (X2_one_newline_token_per_line_feed src_S3 lx E).
Defined.

(** X3.  Every token of a source the lexer accepts records the place of its
    lexeme: its value is found in the source at the line and column the
    token carries (for a string literal, just after the opening quote; for
    the end-of-input token, at the end of the text).  A line-feed token
    carries the line of its line feed and a column two less than the
    column of the line feed. *)
Theorem X3_tokens_record_their_place (src : string) (lx : Lexer) (t : Token) :
  lexer_tokenize src = LexOk lx ->
  In t (ltokens lx) ->
  placed src t.
Proof.
  intros H Hin.
  destruct (lexer_tokenize_spec src lx H) as (toks & E & Hp & _ & _ & _).
  rewrite E in Hin. apply in_app_or in Hin. destruct Hin as [Hin|[<-|[]]].
  - rewrite Forall_forall in Hp. exact (Hp t Hin).
  - exists src, EmptyString. cbn. rewrite string_app_nil_r.
    split; [reflexivity|]. split; [reflexivity|lia].
Qed.

Lemma X3_tokens_record_their_place_witness :
  exists lx t,
    lexer_tokenize src_S1 = LexOk lx
    /\ In t (ltokens lx)
    /\ value t = "plus"%string
    /\ placed src_S1 t.
Proof.
  destruct (lexer_tokenize src_S1) as [lx| |] eqn:E;
    [|vm_compute in E; discriminate E|vm_compute in E; discriminate E].
  assert (Hin : In {| ttype := TOK_PLUS; value := "plus"; line := 2; column := 7 |}
                   (ltokens lx)).
  { vm_compute in E. injection E as <-. vm_compute. tauto. }
  exists lx, {| ttype := TOK_PLUS; value := "plus"; line := 2; column := 7 |}.
  split; [reflexivity|]. split; [exact Hin|]. split; [reflexivity|].
  exact (X3_tokens_record_their_place src_S1 lx _ E Hin).
Defined.

(** X4.  The value of every token of a source the lexer accepts has the
    shape of its kind: a number token is a decimal numeral (digits, or
    digits, a point and digits); a string token holds no line feed and no
    NUL; a line-feed token holds the two characters backslash and n; every
    other token but the last is a word (a letter or underscore, then
    letters, digits and underscores) whose kind is the one the keyword
    table gives for it. *)
Theorem X4_token_values_have_the_shape_of_their_kind
    (src : string) (lx : Lexer) (t : Token) :
  lexer_tokenize src = LexOk lx ->
  In t (ltokens lx) ->
  lexeme_ok t.
Proof.
  intros H Hin.
  destruct (lexer_tokenize_spec src lx H) as (toks & E & _ & Hx & _ & _).
  rewrite E in Hin. apply in_app_or in Hin. destruct Hin as [Hin|[<-|[]]].
  - rewrite Forall_forall in Hx. exact (Hx t Hin).
  - reflexivity.
Qed.

Lemma X4_token_values_witness :
  exists lx t,
    lexer_tokenize src_S1 = LexOk lx
    /\ In t (ltokens lx)
    /\ ttype t = TOK_IDENT
    /\ lexeme_ok t.
Proof.
  destruct (lexer_tokenize src_S1) as [lx| |] eqn:E;
    [|vm_compute in E; discriminate E|vm_compute in E; discriminate E].
  assert (Hin : In {| ttype := TOK_IDENT; value := "add"; line := 1; column := 4 |}
                   (ltokens lx)).
  { vm_compute in E. injection E as <-. vm_compute. tauto. }
  exists lx, {| ttype := TOK_IDENT; value := "add"; line := 1; column := 4 |}.
  split; [reflexivity|]. split; [exact Hin|]. split; [reflexivity|].
  exact (X4_token_values_have_the_shape_of_their_kind src_S1 lx _ E Hin).
Defined.

(** ** Blanks and comments *)

Lemma option_map_app {A : Type} (a b : list A) (r : option (list A)) :
  option_map (app (a ++ b)) r = option_map (app a) (option_map (app b) r).
Proof. destruct r; cbn; [rewrite app_assoc; reflexivity|reflexivity]. Qed.

Lemma lexer_peek_step (lx : Lexer) (c : ascii) (rest : string) :
  source lx = String c rest ->
  lexer_peek lx = match rest with String d _ => d | EmptyString => NUL end.
Proof. intro H. unfold lexer_peek. rewrite H. reflexivity. Qed.

Lemma lexer_scan_string_eq (lx : Lexer) (rest : string) :
  source lx = String DQUOTE rest ->
  lexer_scan_string lx
  = match scan_string_body rest with
    | None => None
    | Some (body, rem) =>
        Some {| source := match rem with String _ r => r | EmptyString => rem end;
                lline := lline lx;
                lcolumn := lcolumn lx + 1 + strlen body + 1;
                ltokens := ltokens lx
                           ++ [new_token lx TOK_STRING body (lcolumn lx + 1)] |}
    end.
Proof.
  intro Hs. unfold lexer_scan_string.
  rewrite (lexer_advance_step lx _ _ Hs). cbn [source].
  destruct (scan_string_body rest) as [[body rem]|] eqn:E; [|reflexivity].
  destruct (scan_string_body_spec _ _ _ _ (Nat.le_refl _) E)
    as (_ & _ & rem' & ->).
  unfold lexer_advance, lexer_add_token, new_token. cbn.
  replace (lcolumn lx + 1 + strlen body - strlen body) with (lcolumn lx + 1)
    by lia.
  reflexivity.
Qed.

(** The kinds and values of the tokens the loop of [lexer_tokenize] adds
    depend on the unread text alone: not on the line and column counters,
    nor on the tokens already there. *)
Lemma lexer_loop_lexemes (n : nat) :
  forall s, (String.length s < n)%nat ->
    exists res,
      forall fuel lx,
        (String.length s < fuel)%nat -> source lx = s ->
        lexemes (lexer_loop fuel lx)
        = option_map (app (map lexeme (ltokens lx))) res.
Proof.
  induction n as [|n IH]; intros s Hn; [lia|].
  destruct s as [|c rest].
  { exists (Some [(TOK_EOF, EmptyString)]). intros fuel lx Hf Hs.
    destruct fuel as [|fuel]; [lia|]. cbn [lexer_loop]. rewrite Hs.
    cbn. rewrite map_app. reflexivity. }
  cbn [String.length] in Hn.
  (* the state after one iteration, for each branch *)
  assert (Next : forall (lx2 : Lexer -> Lexer) (new : list (TokenType * string)),
             (forall lx, source lx = String c rest ->
                         (String.length (source (lx2 lx)) <= String.length rest)%nat
                         /\ map lexeme (ltokens (lx2 lx))
                            = map lexeme (ltokens lx) ++ new) ->
             (forall lx lx', source lx = String c rest ->
                             source lx' = String c rest ->
                             source (lx2 lx) = source (lx2 lx')) ->
             exists res,
               forall fuel lx,
                 (String.length rest < fuel)%nat -> source lx = String c rest ->
                 lexemes (lexer_loop fuel (lx2 lx))
                 = option_map (app (map lexeme (ltokens lx))) res).
  { intros lx2 new Hstep Hsame.
    set (lx0 := {| source := String c rest; lline := 0; lcolumn := 0;
                   ltokens := [] |}).
    destruct (IH (source (lx2 lx0))) as (res & Hres).
    { destruct (Hstep lx0 eq_refl) as [L _]. lia. }
    exists (option_map (app new) res). intros fuel lx Hf Hs.
    destruct (Hstep lx Hs) as [L E].
    rewrite (Hres fuel (lx2 lx)).
    - rewrite E. apply option_map_app.
    - rewrite <- (Hsame lx lx0 Hs eq_refl). lia.
    - apply Hsame; [exact Hs|reflexivity]. }
  assert (Step : forall (r : option (list (TokenType * string))),
             (forall fuel lx,
                 (String.length rest < fuel)%nat -> source lx = String c rest ->
                 lexemes (lexer_loop (S fuel) lx)
                 = option_map (app (map lexeme (ltokens lx))) r) ->
             exists res,
               forall fuel lx,
                 (String.length (String c rest) < fuel)%nat ->
                 source lx = String c rest ->
                 lexemes (lexer_loop fuel lx)
                 = option_map (app (map lexeme (ltokens lx))) res).
  { intros r Hr. exists r. intros fuel lx Hf Hs.
    destruct fuel as [|fuel]; [lia|]. apply Hr; [cbn in Hf; lia|exact Hs]. }
  destruct (Ascii.eqb c " " || Ascii.eqb c TAB || Ascii.eqb c CR) eqn:Hb.
  { destruct (Next lexer_advance []) as (res & Hres).
    - intros lx Hs. rewrite (lexer_advance_step lx c rest Hs). cbn.
      rewrite app_nil_r. split; [lia|reflexivity].
    - intros lx lx' Hs Hs'.
      rewrite (lexer_advance_step lx c rest Hs), (lexer_advance_step lx' c rest Hs').
      reflexivity.
    - apply (Step res). intros fuel lx Hf Hs. cbn [lexer_loop]. rewrite Hs, Hb.
      apply Hres; assumption. }
  destruct (Ascii.eqb c LF) eqn:Hlf.
  { apply Ascii.eqb_eq in Hlf. subst c.
    destruct (Next after_newline [(TOK_NEWLINE, "\n"%string)]) as (res & Hres).
    - intros lx Hs. rewrite (after_newline_step lx rest Hs). cbn.
      rewrite map_app. split; [lia|reflexivity].
    - intros lx lx' Hs Hs'.
      rewrite (after_newline_step lx rest Hs), (after_newline_step lx' rest Hs').
      reflexivity.
    - apply (Step res). intros fuel lx Hf Hs. cbn [lexer_loop]. rewrite Hs.
      cbn [orb Ascii.eqb]. rewrite Hb.
      replace (Ascii.eqb LF LF) with true by (symmetry; apply Ascii.eqb_refl).
      apply (Hres fuel lx Hf Hs). }
  set (pk := match rest with String d _ => d | EmptyString => NUL end).
  destruct ((Ascii.eqb c "-" && Ascii.eqb pk "-") || Ascii.eqb c "#") eqn:Hc.
  { assert (Hne : not_eol c = true).
    { apply orb_true_iff in Hc. destruct Hc as [H|H].
      - apply andb_true_iff in H. destruct H as [H _].
        apply Ascii.eqb_eq in H. subst c. reflexivity.
      - apply Ascii.eqb_eq in H. subst c. reflexivity. }
    destruct (Next (fun lx => snd (lexer_skip_while not_eol lx)) [])
      as (res & Hres).
    - intros lx Hs. rewrite comment_step. cbn [source ltokens]. rewrite Hs.
      rewrite app_nil_r. split; [|reflexivity].
      apply span_chars_progress. exact Hne.
    - intros lx lx' Hs Hs'. rewrite !comment_step. cbn [source].
      rewrite Hs, Hs'. reflexivity.
    - apply (Step res). intros fuel lx Hf Hs. cbn [lexer_loop]. rewrite Hs, Hb, Hlf.
      rewrite (lexer_peek_step lx c rest Hs). fold pk. rewrite Hc.
      apply (Hres fuel lx Hf Hs). }
  destruct (Ascii.eqb c DQUOTE) eqn:Hq.
  { apply Ascii.eqb_eq in Hq. subst c.
    destruct (scan_string_body rest) as [[body rem]|] eqn:E.
    - destruct (scan_string_body_spec _ _ _ _ (Nat.le_refl _) E)
        as (Hrest & _ & rem' & ->).
      destruct (Next (fun lx =>
                        {| source := rem'; lline := lline lx;
                           lcolumn := lcolumn lx + 1 + strlen body + 1;
                           ltokens := ltokens lx
                             ++ [new_token lx TOK_STRING body (lcolumn lx + 1)] |})
                     [(TOK_STRING, body)]) as (res & Hres).
      + intros lx Hs. cbn [source ltokens]. rewrite map_app.
        split; [|reflexivity].
        rewrite Hrest, length_append. cbn [String.length]. lia.
      + reflexivity.
      + apply (Step res). intros fuel lx Hf Hs. cbn [lexer_loop].
        rewrite Hs, Hb, Hlf.
        rewrite (lexer_peek_step lx _ rest Hs). fold pk. rewrite Hc.
        replace (Ascii.eqb DQUOTE DQUOTE) with true
          by (symmetry; apply Ascii.eqb_refl).
        rewrite (lexer_scan_string_eq lx rest Hs), E.
        apply (Hres fuel lx Hf Hs).
    - apply (Step None). intros fuel lx Hf Hs. cbn [lexer_loop].
      rewrite Hs, Hb, Hlf.
      rewrite (lexer_peek_step lx _ rest Hs). fold pk. rewrite Hc.
      replace (Ascii.eqb DQUOTE DQUOTE) with true
        by (symmetry; apply Ascii.eqb_refl).
      rewrite (lexer_scan_string_eq lx rest Hs), E. reflexivity. }
  destruct (is_digit c) eqn:Hd.
  { destruct (Next lexer_scan_number
                   [(TOK_NUMBER, fst (number_lexeme (String c rest)))])
      as (res & Hres).
    - intros lx Hs. split; [exact (lexer_scan_number_length lx c rest Hs Hd)|].
      rewrite lexer_scan_number_step. cbn [ltokens]. rewrite map_app, Hs.
      reflexivity.
    - intros lx lx' Hs Hs'. rewrite !lexer_scan_number_step. cbn [source].
      rewrite Hs, Hs'. reflexivity.
    - apply (Step res). intros fuel lx Hf Hs. cbn [lexer_loop].
      rewrite Hs, Hb, Hlf.
      rewrite (lexer_peek_step lx _ rest Hs). fold pk. rewrite Hc, Hq, Hd.
      apply (Hres fuel lx Hf Hs). }
  destruct (is_alpha c) eqn:Ha.
  { set (w := fst (span_chars is_alnum (String c rest))).
    destruct (Next lexer_scan_word [(lookup_keyword w, w)]) as (res & Hres).
    - intros lx Hs. split; [exact (lexer_scan_word_length lx c rest Hs Ha)|].
      rewrite lexer_scan_word_step. cbn [ltokens]. rewrite map_app, Hs.
      reflexivity.
    - intros lx lx' Hs Hs'. rewrite !lexer_scan_word_step. cbn [source].
      rewrite Hs, Hs'. reflexivity.
    - apply (Step res). intros fuel lx Hf Hs. cbn [lexer_loop].
      rewrite Hs, Hb, Hlf.
      rewrite (lexer_peek_step lx _ rest Hs). fold pk. rewrite Hc, Hq, Hd, Ha.
      apply (Hres fuel lx Hf Hs). }
  apply (Step None). intros fuel lx Hf Hs. cbn [lexer_loop].
  rewrite Hs, Hb, Hlf.
  rewrite (lexer_peek_step lx _ rest Hs). fold pk. rewrite Hc, Hq, Hd, Ha.
  reflexivity.
Qed.

(** The lexemes of a source are those of the text that is left after one
    iteration of the loop that adds no token. *)
Lemma lexemes_of_rest (s rest : string) (lx2 : Lexer -> Lexer) :
  (String.length rest < String.length s)%nat ->
  (forall fuel lx, source lx = s ->
                   lexer_loop (S fuel) lx = lexer_loop fuel (lx2 lx)) ->
  (forall lx, source lx = s ->
              source (lx2 lx) = rest /\ ltokens (lx2 lx) = ltokens lx) ->
  lexemes (lexer_tokenize s) = lexemes (lexer_tokenize rest).
Proof.
  intros Hlen Hstep Hnext.
  destruct (lexer_loop_lexemes (S (String.length rest)) rest (Nat.lt_succ_diag_r _))
    as (res & Hres).
  unfold lexer_tokenize.
  destruct (Hnext (lexer_create s) eq_refl) as [Hs Ht].
  rewrite (Hstep _ (lexer_create s) eq_refl).
  rewrite (Hres _ (lx2 (lexer_create s))); [|lia|exact Hs].
  rewrite (Hres _ (lexer_create rest)); [|lia|reflexivity].
  rewrite Ht. reflexivity.
Qed.

(** X5.  Blank characters and comments yield no token: the kinds and values
    of the tokens of a source that begins with a space, a tab or a carriage
    return, or with a comment ([#] or [--] up to the end of the line), are
    those of the text after it. *)
Theorem X5_blanks_and_comments_yield_no_token :
  (forall c rest,
      (Ascii.eqb c " " || Ascii.eqb c TAB || Ascii.eqb c CR) = true ->
      lexemes (lexer_tokenize (String c rest)) = lexemes (lexer_tokenize rest))
  /\ (forall text rest,
         all_chars not_eol text = true -> ends_line rest = true ->
         lexemes (lexer_tokenize ("#" ++ text ++ rest))
         = lexemes (lexer_tokenize rest)
         /\ lexemes (lexer_tokenize ("--" ++ text ++ rest))
            = lexemes (lexer_tokenize rest)).
Proof.
  split.
  - intros c rest Hb. apply (lexemes_of_rest _ rest lexer_advance).
    + cbn. lia.
    + intros fuel lx Hs. cbn [lexer_loop]. rewrite Hs, Hb. reflexivity.
    + intros lx Hs. rewrite (lexer_advance_step lx c rest Hs). split; reflexivity.
  - intros text rest Htext Hrest.
    assert (Hspan : forall pre, all_chars not_eol pre = true ->
              span_chars not_eol (pre ++ rest) = (pre, rest)).
    { induction pre as [|d pre IH]; intro Hp.
      - destruct rest as [|d r]; [reflexivity|]. cbn [append span_chars].
        cbn [ends_line] in Hrest. apply negb_true_iff in Hrest.
        rewrite Hrest. reflexivity.
      - cbn [all_chars] in Hp. apply andb_true_iff in Hp. destruct Hp as [Hd Hp].
        cbn [append span_chars]. rewrite Hd, (IH Hp). reflexivity. }
    assert (Comment : forall pre c0 r0,
              pre = String c0 r0 ->
              all_chars not_eol pre = true ->
              ((Ascii.eqb c0 "-"
                && Ascii.eqb (match (r0 ++ rest)%string with
                              | String d _ => d | EmptyString => NUL end) "-")
               || Ascii.eqb c0 "#") = true ->
              (Ascii.eqb c0 " " || Ascii.eqb c0 TAB || Ascii.eqb c0 CR) = false ->
              Ascii.eqb c0 LF = false ->
              lexemes (lexer_tokenize (pre ++ rest))
              = lexemes (lexer_tokenize rest)).
    { intros pre c0 r0 -> Hp Hc Hb Hlf.
      apply (lexemes_of_rest _ rest (fun lx => snd (lexer_skip_while not_eol lx))).
      - rewrite length_append. cbn. lia.
      - intros fuel lx Hs. cbn [lexer_loop]. cbn [append] in Hs. rewrite Hs, Hb, Hlf.
        rewrite (lexer_peek_step lx _ _ Hs), Hc. reflexivity.
      - intros lx Hs. rewrite comment_step. cbn [source ltokens].
        rewrite Hs, (Hspan _ Hp). split; reflexivity. }
    split.
    + apply (Comment (String "#" text) "#"%char text eq_refl).
      * cbn [all_chars]. rewrite Htext. reflexivity.
      * rewrite orb_true_r. reflexivity.
      * reflexivity.
      * reflexivity.
    + apply (Comment (String "-" (String "-" text)) "-"%char (String "-" text) eq_refl).
      * cbn [all_chars]. rewrite Htext. reflexivity.
      * reflexivity.
      * reflexivity.
      * reflexivity.
Qed.

Lemma X5_blanks_and_comments_witness :
  lexemes (lexer_tokenize ("# sum" ++ nl ++ src_S1))
  = lexemes (lexer_tokenize (nl ++ src_S1))
  /\ lexemes (lexer_tokenize (" " ++ src_S1)) = lexemes (lexer_tokenize src_S1).
Proof.
  split.
  - exact (proj1 (proj2 X5_blanks_and_comments_yield_no_token
                    " sum"%string (nl ++ src_S1)%string eq_refl eq_refl)).
  - exact (proj1 X5_blanks_and_comments_yield_no_token " "%char src_S1 eq_refl).
Defined.

(** ** Lexemes and rejected sources *)




Lemma span_chars_exact (p : ascii -> bool) (w rest : string) :
  all_chars p w = true ->
  match rest with
  | EmptyString => True
  | String c _ => p c = false
  end ->
  span_chars p (w ++ rest) = (w, rest).
Proof.
  intros Hw Hrest. induction w as [|c w IH].
  - destruct rest as [|c r]; [reflexivity|]. cbn [append span_chars].
    rewrite Hrest. reflexivity.
  - cbn [all_chars] in Hw. apply andb_true_iff in Hw. destruct Hw as [Hc Hw].
    cbn [append span_chars]. rewrite Hc, (IH Hw). reflexivity.
Qed.

(** A letter or an underscore passes none of the earlier tests of the
    loop, and a digit none of those before its own. *)
Lemma alpha_first (c : ascii) :
  is_alpha c = true ->
  (Ascii.eqb c " " || Ascii.eqb c TAB || Ascii.eqb c CR) = false
  /\ Ascii.eqb c LF = false /\ Ascii.eqb c "-" = false
  /\ Ascii.eqb c "#" = false /\ Ascii.eqb c DQUOTE = false
  /\ is_digit c = false.
Proof.
  destruct c as [[] [] [] [] [] [] [] []]; intro H;
    first [discriminate H | repeat split].
Qed.

Lemma digit_first (c : ascii) :
  is_digit c = true ->
  (Ascii.eqb c " " || Ascii.eqb c TAB || Ascii.eqb c CR) = false
  /\ Ascii.eqb c LF = false /\ Ascii.eqb c "-" = false
  /\ Ascii.eqb c "#" = false /\ Ascii.eqb c DQUOTE = false.
Proof.
  destruct c as [[] [] [] [] [] [] [] []]; intro H;
    first [discriminate H | repeat split].
Qed.

Lemma scan_plain_body (body rest : string) :
  plain_body body = true ->
  scan_string_body (body ++ String DQUOTE rest)
  = Some (body, String DQUOTE rest).
Proof.
  induction body as [|c body IH]; intro H.
  - cbn [append scan_string_body].
    replace (Ascii.eqb DQUOTE DQUOTE) with true
      by (symmetry; apply Ascii.eqb_refl).
    reflexivity.
  - cbn [plain_body] in H.
    apply andb_true_iff in H. destruct H as [H Hrest].
    apply andb_true_iff in H. destruct H as [H Hlf].
    apply andb_true_iff in H. destruct H as [Hq Hnul].
    apply negb_true_iff in Hq, Hnul, Hlf.
    cbn [append scan_string_body]. rewrite Hq, Hnul, Hlf.
    destruct body as [|d body'].
    + apply negb_true_iff in Hrest. cbn [append]. rewrite Hrest. cbn [andb].
      cbn [scan_string_body].
      replace (Ascii.eqb DQUOTE DQUOTE) with true
        by (symmetry; apply Ascii.eqb_refl).
      reflexivity.
    + assert (Hd : Ascii.eqb d DQUOTE = false).
      { cbn [plain_body] in Hrest.
        apply andb_true_iff in Hrest. destruct Hrest as [Hr _].
        apply andb_true_iff in Hr. destruct Hr as [Hr _].
        apply andb_true_iff in Hr. destruct Hr as [Hr _].
        apply negb_true_iff in Hr. exact Hr. }
      rewrite (IH Hrest). cbn [append]. rewrite Hd, andb_false_r. reflexivity.
Qed.

(** The lexemes of a source whose first iteration of the loop adds the
    token [new] and leaves the text [rest]. *)
Lemma lexemes_after (s rest : string) (lx2 : Lexer -> Lexer)
    (new : TokenType * string) :
  (String.length rest < String.length s)%nat ->
  (forall fuel lx, source lx = s ->
                   lexer_loop (S fuel) lx = lexer_loop fuel (lx2 lx)) ->
  (forall lx, source lx = s ->
              source (lx2 lx) = rest
              /\ map lexeme (ltokens (lx2 lx))
                 = map lexeme (ltokens lx) ++ [new]) ->
  lexemes (lexer_tokenize s) = then_lexemes new (lexemes (lexer_tokenize rest)).
Proof.
  intros Hlen Hstep Hnext.
  destruct (lexer_loop_lexemes (S (String.length rest)) rest (Nat.lt_succ_diag_r _))
    as (res & Hres).
  unfold lexer_tokenize.
  destruct (Hnext (lexer_create s) eq_refl) as [Hs Ht].
  rewrite (Hstep _ (lexer_create s) eq_refl).
  rewrite (Hres _ (lx2 (lexer_create s))); [|lia|exact Hs].
  rewrite (Hres _ (lexer_create rest)); [|lia|reflexivity].
  rewrite Ht. cbn [lexer_create ltokens map app].
  unfold then_lexemes. destruct res; reflexivity.
Qed.

(** X23.  The lexer reads a text lexeme by lexeme, whatever precedes and
    whatever follows: a line feed gives a line-feed token; a word that the
    text does not continue gives the token of its keyword, or an
    identifier; a string literal without quote, line feed and NUL in its
    body, and without a backslash at its end, gives a string token with
    this body; digits give a number token, with the fraction when a point
    and a digit follow.  After each, the tokens are those of the rest of
    the text. *)
Theorem X23_lexer_reads_lexeme_by_lexeme (rest : string) :
  lexemes (lexer_tokenize (String LF rest))
  = then_lexemes (TOK_NEWLINE, "\n"%string) (lexemes (lexer_tokenize rest))
  /\ (forall w,
         is_word w = true -> ends_word rest = true ->
         lexemes (lexer_tokenize (w ++ rest))
         = then_lexemes (lookup_keyword w, w) (lexemes (lexer_tokenize rest)))
  /\ (forall body,
         plain_body body = true ->
         lexemes (lexer_tokenize (String DQUOTE body ++ String DQUOTE rest))
         = then_lexemes (TOK_STRING, body) (lexemes (lexer_tokenize rest)))
  /\ (forall digits,
         all_chars is_digit digits = true ->
         digits <> EmptyString ->
         ends_digits rest = true -> begins_fraction rest = false ->
         lexemes (lexer_tokenize (digits ++ rest))
         = then_lexemes (TOK_NUMBER, digits) (lexemes (lexer_tokenize rest)))
  /\ (forall digits fraction,
         all_chars is_digit digits = true -> digits <> EmptyString ->
         all_chars is_digit fraction = true -> fraction <> EmptyString ->
         ends_digits rest = true ->
         lexemes (lexer_tokenize (digits ++ String "." fraction ++ rest))
         = then_lexemes (TOK_NUMBER, (digits ++ String "." fraction)%string)
                        (lexemes (lexer_tokenize rest))).
Proof.
  assert (Hends : forall p r,
             match r with EmptyString => true | String c _ => negb (p c) end = true ->
             match r with EmptyString => True | String c _ => p c = false end).
  { intros p r H. destruct r as [|c r]; [exact I|].
    apply negb_true_iff in H. exact H. }
  split; [|split; [|split; [|split]]].
  - apply (lexemes_after _ rest after_newline).
    + cbn. lia.
    + intros fuel lx Hs. cbn [lexer_loop]. rewrite Hs. reflexivity.
    + intros lx Hs. rewrite (after_newline_step lx rest Hs). cbn [source ltokens].
      rewrite map_app. split; reflexivity.
  - intros w Hw Hrest. destruct w as [|c w]; [discriminate Hw|].
    cbn [is_word] in Hw. apply andb_true_iff in Hw. destruct Hw as [Ha Hw].
    destruct (alpha_first c Ha) as (Hb & Hlf & Hm & Hh & Hq & Hd).
    assert (Hall : all_chars is_alnum (String c w) = true).
    { cbn [all_chars]. unfold is_alnum at 1. rewrite Ha, Hw. reflexivity. }
    pose proof (span_chars_exact is_alnum (String c w) rest Hall
                  (Hends is_alnum rest Hrest)) as Hspan.
    apply (lexemes_after _ rest lexer_scan_word).
    + rewrite length_append. cbn. lia.
    + intros fuel lx Hs. cbn [lexer_loop]. cbn [append] in Hs.
      rewrite Hs, Hb, Hlf, Hm, Hh, Hq, Hd, Ha. reflexivity.
    + intros lx Hs. rewrite lexer_scan_word_step. cbn [source ltokens].
      rewrite Hs, Hspan, map_app. split; reflexivity.
  - intros body Hbody.
    apply (lexemes_after _ rest
             (fun lx => {| source := rest; lline := lline lx;
                           lcolumn := lcolumn lx + 1 + strlen body + 1;
                           ltokens := ltokens lx
                             ++ [new_token lx TOK_STRING body (lcolumn lx + 1)] |})).
    + cbn [append String.length]. rewrite length_append. cbn. lia.
    + intros fuel lx Hs. cbn [lexer_loop]. cbn [append] in Hs. rewrite Hs.
      rewrite (lexer_scan_string_eq lx _ Hs), (scan_plain_body body rest Hbody).
      reflexivity.
    + intros lx Hs. cbn [source ltokens]. rewrite map_app. split; reflexivity.
  - intros digits Hdig Hne Hrest Hfrac.
    destruct digits as [|c ds]; [contradiction Hne; reflexivity|].
    assert (Hc : is_digit c = true).
    { cbn [all_chars] in Hdig. apply andb_true_iff in Hdig. apply Hdig. }
    destruct (digit_first c Hc) as (Hb & Hlf & Hm & Hh & Hq).
    pose proof (span_chars_exact is_digit (String c ds) rest Hdig
                  (Hends is_digit rest Hrest)) as Hspan.
    assert (Hnum : number_lexeme (String c ds ++ rest) = (String c ds, rest)).
    { unfold number_lexeme. rewrite Hspan.
      destruct rest as [|a [|b r]]; try reflexivity.
      cbn [begins_fraction] in Hfrac. rewrite Hfrac. reflexivity. }
    apply (lexemes_after _ rest lexer_scan_number).
    + rewrite length_append. cbn. lia.
    + intros fuel lx Hs. cbn [lexer_loop]. cbn [append] in Hs.
      rewrite Hs, Hb, Hlf, Hm, Hh, Hq, Hc. reflexivity.
    + intros lx Hs. rewrite lexer_scan_number_step. cbn [source ltokens].
      rewrite Hs, Hnum, map_app. split; reflexivity.
  - intros digits fraction Hdig Hne Hfr Hfne Hrest.
    destruct digits as [|c ds]; [contradiction Hne; reflexivity|].
    destruct fraction as [|f fs]; [contradiction Hfne; reflexivity|].
    assert (Hc : is_digit c = true).
    { cbn [all_chars] in Hdig. apply andb_true_iff in Hdig. apply Hdig. }
    assert (Hf : is_digit f = true).
    { cbn [all_chars] in Hfr. apply andb_true_iff in Hfr. apply Hfr. }
    destruct (digit_first c Hc) as (Hb & Hlf & Hm & Hh & Hq).
    assert (Hspan : span_chars is_digit
                      (String c ds ++ String "." (String f fs) ++ rest)
                    = (String c ds, (String "." (String f fs) ++ rest)%string)).
    { apply span_chars_exact; [exact Hdig|reflexivity]. }
    pose proof (span_chars_exact is_digit (String f fs) rest Hfr
                  (Hends is_digit rest Hrest)) as Hspan2.
    assert (Hnum : number_lexeme
                     (String c ds ++ String "." (String f fs) ++ rest)
                   = ((String c ds ++ String "." (String f fs))%string, rest)).
    { unfold number_lexeme. rewrite Hspan. cbn [append].
      replace (Ascii.eqb "." "." && is_digit f) with true
        by (rewrite Hf; reflexivity).
      change (String f (fs ++ rest)%string) with ((String f fs ++ rest)%string).
      rewrite Hspan2. reflexivity. }
    apply (lexemes_after _ rest lexer_scan_number).
    + rewrite !length_append. cbn. rewrite ?length_append. lia.
    + intros fuel lx Hs. cbn [lexer_loop]. cbn [append] in Hs.
      rewrite Hs, Hb, Hlf, Hm, Hh, Hq, Hc. reflexivity.
    + intros lx Hs. rewrite lexer_scan_number_step. cbn [source ltokens].
      rewrite Hs, Hnum, map_app. split; reflexivity.
Qed.

Lemma X23_lexer_reads_lexeme_by_lexeme_witness :
  lexemes (lexer_tokenize ("ret" ++ " 1"))
  = then_lexemes (TOK_RET, "ret"%string) (lexemes (lexer_tokenize " 1"))
  /\ lexemes (lexer_tokenize (String DQUOTE "a b" ++ String DQUOTE " 1"))
     = then_lexemes (TOK_STRING, "a b"%string) (lexemes (lexer_tokenize " 1"))
  /\ lexemes (lexer_tokenize ("12" ++ " 1"))
     = then_lexemes (TOK_NUMBER, "12"%string) (lexemes (lexer_tokenize " 1"))
  /\ lexemes (lexer_tokenize ("3" ++ String "." "14" ++ " 1"))
     = then_lexemes (TOK_NUMBER, "3.14"%string) (lexemes (lexer_tokenize " 1")).
Proof.
  destruct (X23_lexer_reads_lexeme_by_lexeme " 1")
    as (_ & Hword & Hstring & Hdigits & Hfraction).
  split; [exact (Hword "ret"%string eq_refl eq_refl)|].
  split; [exact (Hstring "a b"%string eq_refl)|].
  split.
  - apply (Hdigits "12"%string); [reflexivity|discriminate|reflexivity
                                  |reflexivity].
  - apply (Hfraction "3"%string "14"%string);
      [reflexivity|discriminate|reflexivity|discriminate|reflexivity].
Defined.

(** ** Progress and errors of the parser *)

(** A run that was not cut short and the run with a larger budget. *)
Lemma stable_consumes {A : Type} (n : nat) (m m' : presult A) :
  stable m m' -> m <> PFuel -> consumes n m' -> consumes n m.
Proof. intros Hs Hm Hc. rewrite <- (Hs Hm). exact Hc. Qed.

Lemma parse_expr_consumes (fuel : nat) (p : Parser) :
  parse_expr fuel p <> PFuel ->
  consumes (List.length p) (parse_expr fuel p).
Proof.
  intro H.
  apply (stable_consumes _ _ (parse_expr (fuel + (2 * List.length p + 2)) p)).
  - apply parse_expr_stable. lia.
  - exact H.
  - apply parse_expr_fuel. lia.
Qed.

Lemma parse_stmt_consumes (fuel : nat) (p : Parser) :
  parse_stmt fuel p <> PFuel ->
  consumes (List.length p) (parse_stmt fuel p).
Proof.
  intro H.
  apply (stable_consumes _ _ (parse_stmt (fuel + (2 * List.length p + 3)) p)).
  - apply (statement_level_stable fuel). lia.
  - exact H.
  - apply statement_level_fuel. lia.
Qed.

Lemma parse_func_def_consumes (fuel : nat) (p : Parser) :
  parse_func_def fuel p <> PFuel ->
  consumes (List.length p) (parse_func_def fuel p).
Proof.
  intro H.
  apply (stable_consumes _ _ (parse_func_def (fuel + (2 * List.length p + 2)) p)).
  - apply parse_func_def_stable. lia.
  - exact H.
  - apply parse_func_def_fuel. lia.
Qed.

(** X6.  A parsing function that returns a node has consumed a token: the
    state it leaves is strictly shorter than the state it was given.  This
    holds of expressions, of statements and of function definitions, and
    it is why the loops of the parser, which stop only on a token kind,
    cannot run forever. *)
Theorem X6_successful_parse_consumes_a_token (fuel : nat) (p p' : Parser) :
  (forall e, parse_expr fuel p = POk e p' ->
             (List.length p' < List.length p)%nat)
  /\ (forall s, parse_stmt fuel p = POk s p' ->
                (List.length p' < List.length p)%nat)
  /\ (forall f, parse_func_def fuel p = POk f p' ->
                (List.length p' < List.length p)%nat).
Proof.
  split; [|split].
  - intros e H. pose proof (parse_expr_consumes fuel p) as C.
    rewrite H in C. apply C. discriminate.
  - intros s H. pose proof (parse_stmt_consumes fuel p) as C.
    rewrite H in C. apply C. discriminate.
  - intros f H. pose proof (parse_func_def_consumes fuel p) as C.
    rewrite H in C. apply C. discriminate.
Qed.

Lemma X6_successful_parse_witness :
  parse_stmt 9 [tok TOK_RET "ret"; tok TOK_IDENT "x"; tok TOK_NEWLINE "\n"; eof]
  = POk (NODE_RETURN 0 (NODE_VAR "x")) [eof]
  /\ (List.length [eof]
      < List.length [tok TOK_RET "ret"; tok TOK_IDENT "x"; tok TOK_NEWLINE "\n"; eof])%nat.
Proof.
  split; [reflexivity|].
  exact (proj1 (proj2 (X6_successful_parse_consumes_a_token 9
                         [tok TOK_RET "ret"; tok TOK_IDENT "x";
                          tok TOK_NEWLINE "\n"; eof] [eof]))
           (NODE_RETURN 0 (NODE_VAR "x")) eq_refl).
Defined.

(** X7.  The front end returns on every input: the loop of
    [lexer_tokenize] and the loops of the parser consume input at every
    round, so that neither runs on for ever; with the budget [parse_fuel]
    the run of [parser_parse] is never cut short, and every larger budget
    gives the same tree or the same failure. *)
Theorem X7_front_end_returns_on_every_input (src : string) (p : Parser) :
  lexer_tokenize src <> LexFuel
  /\ parser_parse (parse_fuel p) p <> PFuel
  /\ forall fuel, (parse_fuel p <= fuel)%nat ->
                  parser_parse fuel p = parser_parse (parse_fuel p) p.
Proof.
  split; [|split].
  - apply lexer_loop_fuel. cbn [lexer_create source]. lia.
  - apply parser_parse_fuel. lia.
  - intros fuel H. unfold parser_parse.
    apply parser_parse_loop_stable; [exact H|].
    apply (parser_parse_fuel p (parse_fuel p)). lia.
Qed.

(** No expression and no statement begins with [and] or [or]. *)
Lemma nothing_begins_with_logical_operator (fuel : nat) (top : Token) (rest : Parser) :
  In (ttype top) logical_operators ->
  parse_expr (S (S fuel)) (top :: rest) = PFail (top :: rest)
  /\ parse_inline_stmt (S (S fuel)) (top :: rest) = PFail (top :: rest)
  /\ parse_stmt (S (S (S fuel))) (top :: rest) = PFail (top :: rest).
Proof.
  intro H. destruct top as [k v l c]. cbn [ttype] in H.
  assert (E : parse_unary (S (S fuel)) ({| ttype := k; value := v; line := l; column := c |} :: rest)
              = PFail ({| ttype := k; value := v; line := l; column := c |} :: rest)).
  { rewrite parse_unary_cons, parse_call_cons, parse_primary_cons.
    destruct H as [<-|[<-|[]]]; reflexivity. }
  assert (Ex : parse_expr (S (S fuel)) ({| ttype := k; value := v; line := l; column := c |} :: rest)
              = PFail ({| ttype := k; value := v; line := l; column := c |} :: rest)).
  { unfold parse_expr, parse_or, parse_and, parse_comparison, parse_additive,
      parse_multiplicative. rewrite E. reflexivity. }
  split; [exact Ex|]. split.
  - unfold parse_inline_stmt. rewrite !check_cons. cbn [ttype].
    destruct H as [<-|[<-|[]]]; cbn [tok_eqb token_code Z.eqb Pos.eqb];
      rewrite Ex; reflexivity.
  - cbn [parse_stmt]. rewrite !check_cons. cbn [ttype].
    destruct H as [<-|[<-|[]]]; cbn [tok_eqb token_code Z.eqb Pos.eqb];
      rewrite Ex; reflexivity.
Qed.

(** X8.  The condition of an [if] and of a [while] is read by
    [parse_comparison], which stops at [and] and [or]: whatever the
    condition, when the token after it is [and] or [or] the statement is a
    parse error, left at that token. *)
Theorem X8_logical_operator_after_condition_is_an_error
    (F : nat) (tkw top : Token) (p rest : Parser) (c : Expr) :
  In (ttype tkw) [TOK_IF; TOK_WHILE] ->
  In (ttype top) logical_operators ->
  (4 <= F)%nat ->
  parse_comparison F p = POk c (top :: rest) ->
  parse_stmt (S F) (tkw :: p) = PFail (top :: rest).
Proof.
  intros Hkw Hop HF Hcond.
  destruct F as [|[|[|[|fuel]]]]; try lia. clear HF.
  destruct (nothing_begins_with_logical_operator fuel top rest Hop)
    as (_ & _ & Hstmt).
  destruct (nothing_begins_with_logical_operator (S (S fuel)) top rest Hop)
    as (_ & Hinline & _).
  assert (Hnl : parser_check (top :: rest) TOK_NEWLINE = false).
  { rewrite check_cons. destruct Hop as [<-|[<-|[]]]; reflexivity. }
  assert (Hdone : parser_check (top :: rest) TOK_DONE = false).
  { rewrite check_cons. destruct Hop as [<-|[<-|[]]]; reflexivity. }
  assert (Hend : parser_at_end (top :: rest) = false).
  { unfold parser_at_end. rewrite check_cons.
    destruct Hop as [<-|[<-|[]]]; reflexivity. }
  destruct Hkw as [Hk|[Hk|[]]].
  - (* if *)
    cbn [parse_stmt]. rewrite !check_cons, <- Hk.
    cbn [tok_eqb token_code Z.eqb Pos.eqb].
    rewrite advance_cons by (rewrite <- Hk; discriminate). cbn [snd].
    rewrite Hcond. cbn [pbind]. rewrite Hnl, Hinline. reflexivity.
  - (* while *)
    cbn [parse_stmt]. rewrite !check_cons, <- Hk.
    cbn [tok_eqb token_code Z.eqb Pos.eqb].
    rewrite advance_cons by (rewrite <- Hk; discriminate). cbn [snd].
    rewrite Hcond. cbn [pbind].
    unfold parser_match at 1. rewrite Hnl. cbn [snd].
    replace (parser_skip_newlines (top :: rest)) with (top :: rest).
    2:{ cbn [parser_skip_newlines]. rewrite check_cons in Hnl. rewrite Hnl.
        reflexivity. }
    cbn [parse_block]. rewrite Hend, Hdone. cbn [negb andb].
    unfold parser_match. rewrite Hnl. rewrite Hstmt. reflexivity.
Qed.

Lemma X8_logical_operator_witness :
  parse_stmt 9 [tok TOK_IF "if"; tok TOK_IDENT "a"; tok TOK_GT "gt";
                tok TOK_ZERO "zero"; tok TOK_AND "and"; tok TOK_IDENT "b";
                tok TOK_RET "ret"; tok TOK_IDENT "a"; eof]
  = PFail [tok TOK_AND "and"; tok TOK_IDENT "b"; tok TOK_RET "ret";
           tok TOK_IDENT "a"; eof].
Proof.
  exact (X8_logical_operator_after_condition_is_an_error 8
           (tok TOK_IF "if") (tok TOK_AND "and")
           [tok TOK_IDENT "a"; tok TOK_GT "gt"; tok TOK_ZERO "zero";
            tok TOK_AND "and"; tok TOK_IDENT "b"; tok TOK_RET "ret";
            tok TOK_IDENT "a"; eof]
           [tok TOK_IDENT "b"; tok TOK_RET "ret"; tok TOK_IDENT "a"; eof]
           (NODE_BINOP "gt" (NODE_VAR "a") (NODE_NUM d0))
           (or_introl eq_refl) (or_introl eq_refl) ltac:(lia) eq_refl).
Defined.

(** X9.  An [if] block without a statement ([if C], a line feed, [done])
    is parsed to an [if] node without a then arm, and the emitter crashes
    on such a node once the condition has been lowered: it reads the kind
    of the missing arm. *)
Theorem X9_if_block_without_statement_crashes_the_emitter :
  (forall F tif tnl tdone p rest c,
      ttype tif = TOK_IF -> ttype tnl = TOK_NEWLINE -> ttype tdone = TOK_DONE ->
      parse_comparison F p = POk c (tnl :: tdone :: rest) ->
      parse_stmt (S F) (tif :: p)
      = POk (NODE_IF c None None) (snd (parser_match rest TOK_NEWLINE)))
  /\ (forall c else_stmt cg,
         0 <= fst (codegen_expr c cg) ->
         codegen_stmt (NODE_IF c None else_stmt) cg = None).
Proof.
  split.
  - intros F tif tnl tdone p rest c Hif Hnl Hdone Hcond.
    destruct F as [|F]; [discriminate Hcond|].
    cbn [parse_stmt]. rewrite !check_cons, Hif.
    cbn [tok_eqb token_code Z.eqb Pos.eqb].
    rewrite advance_cons by (rewrite Hif; discriminate). cbn [snd].
    rewrite Hcond. cbn [pbind]. rewrite check_cons, Hnl.
    cbn [tok_eqb token_code Z.eqb Pos.eqb].
    unfold parser_match at 1. rewrite check_cons, Hnl.
    cbn [tok_eqb token_code Z.eqb Pos.eqb].
    rewrite advance_cons by (rewrite Hnl; discriminate). cbn [snd].
    replace (parser_skip_newlines (tdone :: rest)) with (tdone :: rest).
    2:{ cbn [parser_skip_newlines]. rewrite Hdone. reflexivity. }
    cbn [parse_block]. unfold parser_at_end. rewrite !check_cons, Hdone.
    cbn [tok_eqb token_code Z.eqb Pos.eqb negb andb orb pbind block_carrier hd_error].
    unfold parser_match at 1. rewrite check_cons, Hdone.
    cbn [tok_eqb token_code Z.eqb Pos.eqb pbind].
    rewrite check_cons, Hdone. cbn [tok_eqb token_code Z.eqb Pos.eqb].
    unfold parser_match at 2. rewrite check_cons, Hdone.
    cbn [tok_eqb token_code Z.eqb Pos.eqb].
    rewrite advance_cons by (rewrite Hdone; discriminate). reflexivity.
  - intros c else_stmt cg Hc. cbn [codegen_stmt].
    destruct (codegen_expr c cg) as [cond_reg cg1]. cbn [fst] in Hc.
    apply Z.ltb_ge in Hc. rewrite Hc.
    destruct else_stmt; reflexivity.
Qed.

Lemma X9_if_block_without_statement_witness :
  let cg := set_params codegen_create ["x"%string] in
  parse_stmt 9 [tok TOK_IF "if"; tok TOK_IDENT "x"; tok TOK_NEWLINE "\n";
                tok TOK_DONE "done"; tok TOK_NEWLINE "\n"; eof]
  = POk (NODE_IF (NODE_VAR "x") None None) [eof]
  /\ codegen_stmt (NODE_IF (NODE_VAR "x") None None) cg = None.
Proof.
  split.
  - exact (proj1 X9_if_block_without_statement_crashes_the_emitter 8%nat
             (tok TOK_IF "if") (tok TOK_NEWLINE "\n") (tok TOK_DONE "done")
             [tok TOK_IDENT "x"; tok TOK_NEWLINE "\n"; tok TOK_DONE "done";
              tok TOK_NEWLINE "\n"; eof]
             [tok TOK_NEWLINE "\n"; eof] (NODE_VAR "x")
             eq_refl eq_refl eq_refl eq_refl).
  - exact (proj2 X9_if_block_without_statement_crashes_the_emitter
             (NODE_VAR "x") None (set_params codegen_create ["x"%string])
             ltac:(cbn; lia)).
Defined.

(** The command [compile] on such a source: the emitter crashes before the
    command can return a status. *)
Example compile_crashes_on_empty_if_block :
  ended (cmd_compile
           (world_with "p.nerd"
              ("fn f x" ++ nl ++ "if x" ++ nl ++ "done" ++ nl ++ "ret x" ++ nl)
              (toolchain_ok 0))
           ["p.nerd"%string] [])
  = Crashed.
Proof. vm_compute. reflexivity. Qed.

(** ** Blank sources *)

Lemma blank_source_tokens (s : string) :
  all_chars is_space s = true ->
  forall fuel lx,
    (String.length s < fuel)%nat -> source lx = s ->
    Forall (fun t => ttype t = TOK_NEWLINE) (ltokens lx) ->
    exists lx' nls t,
      lexer_loop fuel lx = LexOk lx'
      /\ ltokens lx' = nls ++ [t]
      /\ Forall (fun t => ttype t = TOK_NEWLINE) nls
      /\ ttype t = TOK_EOF.
Proof.
  induction s as [|c rest IH]; intros Hall fuel lx Hf Hs Hnl.
  - destruct fuel as [|fuel]; [cbn in Hf; lia|]. cbn [lexer_loop]. rewrite Hs.
    eexists. exists (ltokens lx). eexists. split; [reflexivity|].
    split; [reflexivity|]. split; [exact Hnl|reflexivity].
  - destruct fuel as [|fuel]; [cbn in Hf; lia|]. cbn [String.length] in Hf.
    cbn [all_chars] in Hall. apply andb_true_iff in Hall.
    destruct Hall as [Hc Hall]. cbn [lexer_loop]. rewrite Hs.
    destruct (Ascii.eqb c " " || Ascii.eqb c TAB || Ascii.eqb c CR) eqn:Hb.
    + apply (IH Hall); [lia| |].
      * rewrite (lexer_advance_step lx c rest Hs). reflexivity.
      * rewrite (lexer_advance_step lx c rest Hs). exact Hnl.
    + unfold is_space in Hc. rewrite Hb in Hc. cbn [orb] in Hc.
      rewrite Hc. apply Ascii.eqb_eq in Hc. subst c.
      change (lexer_loop fuel (after_newline lx))
        with (lexer_loop fuel (after_newline lx)).
      pose proof (after_newline_step lx rest Hs) as E.
      unfold after_newline in E. rewrite E.
      apply (IH Hall); [lia|reflexivity|].
      cbn [ltokens]. apply Forall_app. split; [exact Hnl|].
      constructor; [reflexivity|constructor].
Qed.

Lemma skip_newlines_all (nls rest : list Token) :
  Forall (fun t => ttype t = TOK_NEWLINE) nls ->
  parser_skip_newlines (nls ++ rest) = parser_skip_newlines rest.
Proof.
  induction 1 as [|t nls Ht _ IH]; [reflexivity|].
  cbn [app parser_skip_newlines]. rewrite Ht. exact IH.
Qed.

Lemma front_end_blank (s : string) :
  all_chars is_space s = true -> front_end s = Some empty_program.
Proof.
  intro Hall. unfold front_end, lexer_tokenize.
  destruct (blank_source_tokens s Hall (S (String.length s)) (lexer_create s))
    as (lx & nls & t & -> & Ht & Hnl & Heof);
    [lia|reflexivity|constructor|].
  rewrite Ht. unfold parser_parse, parse_fuel.
  rewrite (skip_newlines_all nls [t] Hnl).
  cbn [parser_skip_newlines]. rewrite Heof.
  cbn [tok_eqb token_code Z.eqb Pos.eqb].
  rewrite length_app. cbn [List.length].
  replace (2 * (List.length nls + 1) + 8)%nat
    with (S (2 * (List.length nls + 1) + 7)) by lia.
  cbn [parser_parse_loop]. unfold parser_at_end. rewrite check_cons, Heof.
  reflexivity.
Qed.

(** X10.  A source that holds nothing but spaces, tabs, carriage returns
    and line feeds (the empty file among them) is a program without
    functions: [compile] writes the preamble and nothing else, reports
    success and exits with status 0.  (For an input path of at most 252
    characters, for which the default output path fits its buffer.) *)
Theorem X10_blank_source_compiles_to_the_preamble
    (w : World) (input src : string) (fs : list string) :
  all_chars is_space src = true ->
  first_char_is_dash input = false ->
  String.eqb input "-o" = false ->
  (String.length input <= 252)%nat ->
  read_file w input = Some src ->
  can_write w (default_output input) = true ->
  front_end src = Some empty_program
  /\ cmd_compile w [input] fs
     = {| ended := Exited 0;
          files := create_file (default_output input) fs;
          printed := [("Compiled " ++ input ++ " -> " ++ default_output input
                         ++ nl)%string];
          errors := [];
          ir := preamble |}.
Proof.
  intros Hall Hdash Ho _ Hread Hwrite.
  pose proof (front_end_blank src Hall) as Hfront.
  split; [exact Hfront|].
  unfold cmd_compile. cbn [compile_args]. rewrite Ho, Hdash. cbn [negb].
  rewrite Hread, Hfront, Hwrite. reflexivity.
Qed.

Lemma X10_blank_source_witness :
  front_end (" " ++ nl ++ nl)%string = Some empty_program
  /\ cmd_compile (world_with "p.nerd" (" " ++ nl ++ nl)%string (toolchain_ok 0))
                 ["p.nerd"%string] []
     = {| ended := Exited 0;
          files := create_file (default_output "p.nerd") [];
          printed := [("Compiled " ++ "p.nerd" ++ " -> " ++ default_output "p.nerd"
                         ++ nl)%string];
          errors := [];
          ir := preamble |}.
Proof.
  exact (X10_blank_source_compiles_to_the_preamble
           (world_with "p.nerd" (" " ++ nl ++ nl)%string (toolchain_ok 0))
           "p.nerd" (" " ++ nl ++ nl)%string []
           eq_refl eq_refl eq_refl ltac:(cbn; lia) eq_refl eq_refl).
Defined.

(** ** What a run of the emitter writes *)

Lemma count_in_app (f : ir_line -> option Z) (d : Z) (l1 l2 : list ir_line) :
  count_in f d (l1 ++ l2) = (count_in f d l1 + count_in f d l2)%nat.
Proof.
  induction l1 as [|l rest IH]; [reflexivity|].
  cbn [app count_in]. rewrite IH. lia.
Qed.

Lemma count_in_numbers (f : ir_line -> option Z) (d : Z) (ls : list ir_line) :
  count_in f d ls = count_occ Z.eq_dec (numbers f ls) d.
Proof.
  induction ls as [|l rest IH]; [reflexivity|].
  cbn [count_in numbers flat_map]. fold (numbers f rest).
  rewrite count_occ_app, IH. destruct (f l) as [r|]; [|reflexivity].
  cbn [count_occ]. destruct (Z.eqb_spec r d), (Z.eq_dec r d);
    first [reflexivity | contradiction].
Qed.

Lemma fresh_in_NoDup (f : ir_line -> option Z) (lo hi : Z) (ls : list ir_line) :
  fresh_in f lo hi ls -> NoDup (numbers f ls).
Proof.
  intro H. apply (NoDup_count_occ Z.eq_dec). intro d.
  rewrite <- count_in_numbers. apply H.
Qed.

Lemma fresh_in_range (f : ir_line -> option Z) (lo hi : Z) (ls : list ir_line)
    (d : Z) :
  fresh_in f lo hi ls -> In d (numbers f ls) -> lo <= d < hi.
Proof.
  intros H Hin. apply H. rewrite count_in_numbers.
  apply (count_occ_In Z.eq_dec) in Hin. lia.
Qed.

Lemma fresh_in_nil (f : ir_line -> option Z) (lo hi : Z) : fresh_in f lo hi [].
Proof. intro d. cbn. split; lia. Qed.

(** The fields of the state after the primitive steps. *)
Ltac cg_fields :=
  cbn [out err temp_counter label_counter string_counter param_names locals
       string_literals emit report next_temp next_label next_string
       set_locals add_local bump_local_count fst snd] in *.

Ltac open_writes :=
  repeat match goal with
  | H : exists new added, writes _ _ new added |- _ =>
      let new := fresh "new" in
      let added := fresh "added" in
      destruct H as (new & added & H)
  | H : writes _ _ _ _ |- _ => destruct H
  | H : exists msgs, err _ = err _ ++ msgs |- _ =>
      let msgs := fresh "msgs" in
      destruct H as (msgs & H)
  end.

(** The lengths of the tables of locals, for [lia]. *)
Ltac length_facts :=
  repeat match goal with
  | H : locals ?c = _ |- _ =>
      lazymatch goal with
      | _ : List.length (locals c) = _ |- _ => fail
      | _ => let L := fresh "L" in
             pose proof (f_equal (@List.length _) H) as L;
             rewrite ?length_app in L; cbn [List.length] in L
      end
  end.

Ltac use_equations :=
  repeat match goal with
  | H : out ?c = _ |- context [out ?c] => rewrite H
  | H : locals ?c = _ |- context [locals ?c ++ _] => rewrite H
  | H : locals ?c = _ |- locals ?c = _ => rewrite H
  | H : param_names ?c = _ |- context [param_names ?c] => rewrite H
  | H : string_literals ?c = _ |- context [string_literals ?c] => rewrite H
  end.

Lemma hit_spec (a d : Z) :
  (a = d /\ (if Z.eqb a d then 1 else 0)%nat = 1%nat)
  \/ (a <> d /\ (if Z.eqb a d then 1 else 0)%nat = 0%nat).
Proof. destruct (Z.eqb_spec a d); [left|right]; split; trivial. Qed.

Ltac fresh_goal :=
  let d := fresh "d" in
  intro d;
  repeat match goal with
  | H : fresh_in ?f _ _ _ |- fresh_in ?f _ _ _ => specialize (H d)
  | H : fresh_in ?f _ _ _ |- context [count_in ?f] => specialize (H d)
  end;
  repeat (progress
    (rewrite ?count_in_app;
     cbn [count_in def_reg line_label line_slot line_string label_number]));
  repeat match goal with
  | |- context [if Z.eqb ?a ?b then _ else _] =>
      let n := fresh "n" in
      let Hn := fresh "Hn" in
      pose proof (hit_spec a b) as Hn;
      set (n := (if Z.eqb a b then 1 else 0)%nat) in *; clearbody n
  end;
  lia.

Ltac list_goal :=
  use_equations; rewrite <- ?app_assoc; cbn [app];
  first [ reflexivity
        | match goal with |- ?l = ?l ++ ?e => is_evar e;
            instantiate (1 := nil); rewrite app_nil_r; reflexivity end ].

Ltac err_goal :=
  eexists;
  repeat match goal with
  | H : err ?c = _ |- context [err ?c] => rewrite H
  end;
  rewrite <- ?app_assoc;
  first [ reflexivity
        | match goal with |- ?l = ?l ++ ?e => is_evar e;
            instantiate (1 := nil); rewrite app_nil_r; reflexivity end ].

Ltac body_goal :=
  repeat (progress (rewrite ?forallb_app; cbn [forallb body_line andb]));
  repeat match goal with
  | H : forallb body_line _ = true |- _ => rewrite H; clear H
  end;
  reflexivity.

(** Closes a goal [exists new added, writes cg cg' new added] once the
    runs of the sub-terms are among the hypotheses. *)
Ltac close_writes :=
  open_writes; cg_fields; unfold local_count in *; cg_fields; length_facts;
  rewrite ?length_app in *; cbn [List.length] in *;
  eexists; eexists; constructor; unfold local_count; cg_fields;
  rewrite ?length_app; cbn [List.length];
  [ list_goal | list_goal | lia | lia | lia
  | use_equations; reflexivity | use_equations; reflexivity | err_goal
  | fresh_goal | fresh_goal | fresh_goal | fresh_goal | body_goal ].

Lemma writes_refl (cg : CodeGen) : writes cg cg [] [].
Proof.
  constructor; try (rewrite app_nil_r; reflexivity); try lia;
    try reflexivity; try apply fresh_in_nil.
  exists []. rewrite app_nil_r. reflexivity.
Qed.

Lemma codegen_exprs_writes (args : list Expr) :
  Forall (fun e => forall cg, exists new added,
                     writes cg (snd (codegen_expr e cg)) new added) args ->
  forall cg, exists new added, writes cg (snd (codegen_exprs args cg)) new added.
Proof.
  induction 1 as [|e rest He _ IH]; intros cg; cbn [codegen_exprs].
  - exists [], []. apply writes_refl.
  - specialize (He cg). destruct (codegen_expr e cg) as [r cg1].
    specialize (IH cg1). destruct (codegen_exprs rest cg1) as [rs cg2].
    cbn [snd] in *. close_writes.
Qed.

Lemma codegen_expr_writes (e : Expr) :
  forall cg, exists new added, writes cg (snd (codegen_expr e cg)) new added.
Proof.
  induction e as [v|s|b|n|i|op l r IHl IHr|op e IHe|m f args IHargs]
    using Expr_nested_ind; intros cg.
  - cbn [codegen_expr]. close_writes.
  - cbn [codegen_expr]. close_writes.
  - cbn [codegen_expr]. close_writes.
  - cbn [codegen_expr].
    destruct (0 <=? find_local cg n); [close_writes|].
    destruct (0 <=? find_param cg n); close_writes.
  - cbn [codegen_expr]. close_writes.
  - cbn [codegen_expr].
    specialize (IHl cg). destruct (codegen_expr l cg) as [lr cg1].
    specialize (IHr cg1). destruct (codegen_expr r cg1) as [rr cg2].
    cbn [snd] in *.
    destruct ((lr <? 0) || (rr <? 0)); [close_writes|].
    destruct (classify_binop op); close_writes.
  - cbn [codegen_expr].
    specialize (IHe cg). destruct (codegen_expr e cg) as [er cg1].
    cbn [snd] in *.
    destruct (er <? 0); [close_writes|].
    destruct (String.eqb op "not"); [close_writes|].
    destruct (String.eqb op "neg"); close_writes.
  - rewrite codegen_expr_call_eq.
    destruct m as [m|].
    + cbv zeta. cbn [next_temp].
      destruct (String.eqb m "math"); [|close_writes].
      destruct args as [|a0 more]; [close_writes|].
      inversion IHargs as [|? ? Ha0 Hmore]; subst.
      match goal with
      | |- context [codegen_expr a0 ?c] =>
          specialize (Ha0 c); destruct (codegen_expr a0 c) as [ar cg1]
      end.
      cbn [snd] in *.
      destruct (math_unary f); [close_writes|].
      destruct more as [|a1 more']; [close_writes|].
      inversion Hmore as [|? ? Ha1 _]; subst.
      specialize (Ha1 cg1). destruct (codegen_expr a1 cg1) as [ar2 cg2].
      cbn [snd] in *.
      destruct (math_binary f); close_writes.
    + cbv zeta. cbn [next_temp].
      match goal with
      | |- context [codegen_exprs args ?c] =>
          pose proof (codegen_exprs_writes args IHargs c) as Hargs;
          destruct (codegen_exprs args c) as [rs cg1]
      end.
      cbn [snd] in *. close_writes.
Qed.

(** Gives the state [c] a name, keeping the value of each of its fields. *)
Ltac name_state c :=
  tryif is_var c then idtac
  else
    let c0 := fresh "cg" in
    let E := fresh "E" in
    remember c as c0 eqn:E;
    let Ho := fresh "Eo" in
    pose proof (f_equal out E) as Ho;
    let Hl := fresh "El" in
    pose proof (f_equal locals E) as Hl;
    let Ht := fresh "Et" in
    pose proof (f_equal temp_counter E) as Ht;
    let Hk := fresh "Ek" in
    pose proof (f_equal label_counter E) as Hk;
    let Hs := fresh "Es" in
    pose proof (f_equal string_counter E) as Hs;
    let Hp := fresh "Ep" in
    pose proof (f_equal param_names E) as Hp;
    let Hd := fresh "Ed" in
    pose proof (f_equal string_literals E) as Hd;
    let He := fresh "Ee" in
    pose proof (f_equal err E) as He;
    cbn [err emit report next_temp next_label next_string
         set_locals add_local bump_local_count fst snd] in He;
    clear E;
    cbn [out err temp_counter label_counter string_counter param_names locals
         string_literals emit report next_temp next_label next_string
         set_locals add_local bump_local_count fst snd]
      in Ho, Hl, Ht, Hk, Hs, Hp, Hd.

(** Runs the next sub-expression, sub-statement or block of the goal. *)
Ltac run_expr :=
  match goal with
  | |- context [codegen_expr ?e ?c] =>
      name_state c;
      match goal with
      | |- context [codegen_expr e ?c0] =>
          let H := fresh "He" in
          pose proof (codegen_expr_writes e c0) as H;
          destruct (codegen_expr e c0) as [? ?]; cbn [snd] in H
      end
  end.

Ltac close_opt :=
  first [ exact I | cbn [writes_opt]; close_writes ].

Lemma codegen_stmts_writes (body : list Stmt) :
  Forall (fun s => forall cg, writes_opt cg (codegen_stmt s cg)) body ->
  forall cg, writes_opt cg (codegen_stmts body cg).
Proof.
  induction 1 as [|s rest Hs _ IH]; intros cg; cbn [codegen_stmts].
  - exists [], []. apply writes_refl.
  - specialize (Hs cg). destruct (codegen_stmt s cg) as [cg1|]; [|exact I].
    specialize (IH cg1). destruct (codegen_stmts rest cg1) as [cg2|]; [|exact I].
    cbn [writes_opt] in *. close_writes.
Qed.

Lemma codegen_incdec_writes (op : binop) (what name : string)
    (amount : option Expr) (cg : CodeGen) :
  exists new added, writes cg (codegen_incdec op what name amount cg) new added.
Proof.
  unfold codegen_incdec.
  destruct (find_local cg name <? 0); [close_writes|].
  cbn [next_temp]. destruct amount as [e|].
  - run_expr. close_writes.
  - close_writes.
Qed.

Ltac run_body IHbody :=
  match goal with
  | |- context [codegen_stmts ?body ?c] =>
      name_state c;
      match goal with
      | |- context [codegen_stmts body ?c0] =>
          let H := fresh "Hb" in
          pose proof (codegen_stmts_writes body IHbody c0) as H;
          destruct (codegen_stmts body c0) as [?|];
          [cbn [writes_opt] in H|exact I]
      end
  end.

Ltac run_arm IH s :=
  match goal with
  | |- context [codegen_stmt s ?c] =>
      name_state c;
      match goal with
      | |- context [codegen_stmt s ?c0] =>
          let H := fresh "Hs" in
          pose proof (IH s eq_refl c0) as H;
          destruct (codegen_stmt s c0) as [?|]; [cbn [writes_opt] in H|exact I]
      end
  end.

Lemma codegen_stmt_writes (s : Stmt) :
  forall cg, writes_opt cg (codegen_stmt s cg).
Proof.
  induction s as [v e|c t e IHt IHe|n e|e|e|c v body IHbody|c body IHbody|n a|n a]
    using Stmt_nested_ind; intros cg.
  - cbn [codegen_stmt]. run_expr. destruct (0 <=? z); close_opt.
  - cbn [codegen_stmt]. run_expr. destruct (z <? 0); [close_opt|].
    cbn [next_temp next_label].
    destruct e as [else_s|]; destruct t as [then_s|]; try exact I.
    + run_arm IHt then_s.
      destruct (is_return then_s); run_arm IHe else_s;
        destruct (is_return else_s); close_opt.
    + run_arm IHt then_s. destruct (is_return then_s); close_opt.
  - cbn [codegen_stmt]. run_expr. destruct (z <? 0); [close_opt|].
    destruct (0 <=? find_local c n); close_opt.
  - cbn [codegen_stmt]. run_expr. close_opt.
  - cbn [codegen_stmt].
    destruct e; try (run_expr; destruct (0 <=? z); close_opt).
    close_opt.
  - rewrite codegen_stmt_repeat_eq. cbv zeta. run_expr.
    destruct (z <? 0); [close_opt|]. cbn [next_temp next_label].
    destruct v as [name|]; run_body IHbody; close_opt.
  - rewrite codegen_stmt_while_eq. cbv zeta. cbn [next_label]. run_expr.
    destruct (z <? 0); [close_opt|]. cbn [next_temp].
    run_body IHbody. close_opt.
  - cbn [codegen_stmt writes_opt]. apply codegen_incdec_writes.
  - cbn [codegen_stmt writes_opt]. apply codegen_incdec_writes.
Qed.

(** ** The lines of a function and of the output file *)

Lemma block_labels_numbers (ls : list ir_line) :
  forallb body_line ls = true ->
  map label_number (block_labels ls) = map Some (block_numbers ls).
Proof.
  induction ls as [|l rest IH]; [reflexivity|].
  cbn [forallb]. intro H. apply andb_true_iff in H. destruct H as [Hl Hrest].
  unfold block_labels, block_numbers, numbers in *. cbn [flat_map].
  rewrite !map_app, (IH Hrest).
  destruct l; try reflexivity.
  destruct l; try reflexivity. discriminate Hl.
Qed.

Lemma block_labels_NoDup (ls : list ir_line) :
  forallb body_line ls = true -> NoDup (block_numbers ls) ->
  NoDup (block_labels ls) /\ ~ In L_entry (block_labels ls).
Proof.
  intros Hb Hn. pose proof (block_labels_numbers ls Hb) as E. split.
  - apply (NoDup_map_inv label_number). rewrite E.
    clear E Hb. induction Hn as [|k l Hk _ IH]; cbn [map]; constructor.
    + intro Hin. apply in_map_iff in Hin. destruct Hin as (k' & E & Hin).
      inversion E. subst. contradiction.
    + exact IH.
  - intro Hin. apply (in_map label_number) in Hin. rewrite E in Hin.
    apply in_map_iff in Hin. destruct Hin as (k & Hk & _). discriminate Hk.
Qed.

Lemma codegen_stmts_all_writes (body : list Stmt) (cg : CodeGen) :
  writes_opt cg (codegen_stmts body cg).
Proof.
  apply codegen_stmts_writes. apply Forall_forall. intros s _.
  apply codegen_stmt_writes.
Qed.

(** The lines of one function. *)
Lemma codegen_func_lines (f : FuncDef) (cg cg' : CodeGen) :
  codegen_func f cg = Some cg' ->
  exists body,
    out cg' = out cg ++ define_line f :: ILabel L_entry :: body ++ [IFuncEnd]
    /\ label_counter cg <= label_counter cg'
    /\ string_counter cg <= string_counter cg'
    /\ string_literals cg' = string_literals cg
    /\ fresh_in def_reg 0 (temp_counter cg') body
    /\ fresh_in line_slot 0 (local_count cg') body
    /\ fresh_in line_label (label_counter cg) (label_counter cg') body
    /\ fresh_in line_string (string_counter cg) (string_counter cg') body
    /\ forallb body_line body = true.
Proof.
  unfold codegen_func.
  match goal with
  | |- context [codegen_stmts ?body ?c] =>
      name_state c;
      match goal with
      | |- context [codegen_stmts body ?c0] =>
          pose proof (codegen_stmts_all_writes body c0) as Hb;
          destruct (codegen_stmts body c0) as [cg1|]; [|discriminate]
      end
  end.
  cbn [writes_opt] in Hb. destruct Hb as (new & added & Hb).
  destruct Hb as [Wout Wlocals Wtemp Wlabel Wstring Wparams Wliterals Werr
                 Wdefs Wblocks Wslots Wstrings Wbody].
  intro H. inversion H; subst cg'; clear H.
  unfold local_count in *.
  cbn [set_params clear_locals out err temp_counter label_counter
       string_counter param_names locals string_literals emit] in *.
  rewrite El in *. cbn [List.length app] in *. rewrite Et, Ek, Es in *.
  destruct (existsb is_return (func_body f));
    cbn [set_params out err temp_counter label_counter string_counter
         param_names locals string_literals emit].
  - exists new. rewrite Wout, Eo, <- !app_assoc. cbn [app].
    split; [reflexivity|]. split; [lia|]. split; [lia|].
    split; [congruence|]. split; [exact Wdefs|]. split; [exact Wslots|].
    split; [exact Wblocks|]. split; [exact Wstrings|exact Wbody].
  - exists (new ++ [IRet (Const d0)]).
    rewrite Wout, Eo, <- !app_assoc. cbn [app].
    split; [reflexivity|]. split; [lia|]. split; [lia|].
    split; [congruence|].
    split; [|split; [|split; [|split]]].
    + intro d. rewrite count_in_app. cbn. specialize (Wdefs d). lia.
    + intro d. rewrite count_in_app. cbn. specialize (Wslots d). lia.
    + intro d. rewrite count_in_app. cbn. specialize (Wblocks d). lia.
    + intro d. rewrite count_in_app. cbn. specialize (Wstrings d). lia.
    + rewrite forallb_app, Wbody. reflexivity.
Qed.

Lemma add_strings_app (cg : CodeGen) (l1 l2 : list string) :
  add_strings cg (l1 ++ l2) = add_strings (add_strings cg l1) l2.
Proof. apply fold_left_app. Qed.

Lemma collect_strings_exprs_eq (args : list Expr) :
  Forall (fun e => forall cg,
            collect_strings_expr cg e = add_strings cg (literals_expr e)) args ->
  forall cg, fold_left collect_strings_expr args cg
             = add_strings cg (flat_map literals_expr args).
Proof.
  induction 1 as [|e rest He _ IH]; intro cg; [reflexivity|].
  cbn [fold_left flat_map]. rewrite He, IH, add_strings_app. reflexivity.
Qed.

Lemma collect_strings_expr_eq (e : Expr) :
  forall cg, collect_strings_expr cg e = add_strings cg (literals_expr e).
Proof.
  induction e as [v|s|b|n|i|op l r IHl IHr|op e IHe|m f args IHargs]
    using Expr_nested_ind; intro cg; cbn [collect_strings_expr literals_expr];
    try reflexivity.
  - rewrite IHl, IHr, add_strings_app. reflexivity.
  - apply IHe.
  - apply collect_strings_exprs_eq. exact IHargs.
Qed.

Lemma collect_strings_stmts_eq (body : list Stmt) :
  Forall (fun s => forall cg,
            collect_strings_stmt cg s = add_strings cg (literals_stmt s)) body ->
  forall cg, fold_left collect_strings_stmt body cg
             = add_strings cg (flat_map literals_stmt body).
Proof.
  induction 1 as [|s rest Hs _ IH]; intro cg; [reflexivity|].
  cbn [fold_left flat_map]. rewrite Hs, IH, add_strings_app. reflexivity.
Qed.

Lemma collect_strings_stmt_eq (s : Stmt) :
  forall cg, collect_strings_stmt cg s = add_strings cg (literals_stmt s).
Proof.
  induction s as [v e|c t e IHt IHe|n e|e|e|c v body IHbody|c body IHbody|n a|n a]
    using Stmt_nested_ind; intro cg;
    cbn [collect_strings_stmt literals_stmt];
    try apply collect_strings_expr_eq; try reflexivity.
  - rewrite !add_strings_app, collect_strings_expr_eq.
    destruct t as [then_s|], e as [else_s|];
      rewrite ?(IHt _ eq_refl), ?(IHe _ eq_refl); reflexivity.
  - rewrite add_strings_app, collect_strings_expr_eq.
    apply collect_strings_stmts_eq. exact IHbody.
  - rewrite add_strings_app, collect_strings_expr_eq.
    apply collect_strings_stmts_eq. exact IHbody.
Qed.

Lemma collect_strings_eq (cg : CodeGen) (p : Program) :
  collect_strings cg p = add_strings cg (literals_program p).
Proof.
  unfold collect_strings, literals_program. revert cg.
  induction (functions p) as [|f rest IH]; intro cg; [reflexivity|].
  cbn [fold_left flat_map]. rewrite IH, add_strings_app. f_equal.
  unfold collect_strings_func. apply collect_strings_stmts_eq.
  apply Forall_forall. intros s _. apply collect_strings_stmt_eq.
Qed.

Lemma add_strings_fields (strs : list string) (cg : CodeGen) :
  out (add_strings cg strs) = out cg
  /\ err (add_strings cg strs) = err cg
  /\ label_counter (add_strings cg strs) = label_counter cg
  /\ string_counter (add_strings cg strs) = string_counter cg
  /\ string_literals (add_strings cg strs) = string_literals cg ++ strs.
Proof.
  revert cg. induction strs as [|s rest IH]; intro cg.
  - cbn. rewrite app_nil_r. repeat split.
  - unfold add_strings in *. cbn [fold_left].
    destruct (IH (add_string cg s)) as (Ho & He & Hk & Hs & Hl).
    rewrite Ho, He, Hk, Hs, Hl. cbn [add_string out err label_counter
      string_counter string_literals]. rewrite <- app_assoc. repeat split.
Qed.

Lemma emit_string_table_fields (strs : list string) :
  forall i cg,
    out (emit_string_table i strs cg) = out cg ++ string_table i strs
    /\ err (emit_string_table i strs cg) = err cg
    /\ label_counter (emit_string_table i strs cg) = label_counter cg
    /\ string_counter (emit_string_table i strs cg) = string_counter cg
    /\ string_literals (emit_string_table i strs cg) = string_literals cg.
Proof.
  induction strs as [|s rest IH]; intros i cg.
  - cbn. rewrite app_nil_r. repeat split.
  - cbn [emit_string_table string_table].
    destruct (IH (i + 1) (emit cg (IStrConst i (strlen s + 1) s)))
      as (Ho & He & Hk & Hs & Hl).
    rewrite Ho, He, Hk, Hs, Hl. cbn [emit out err label_counter
      string_counter string_literals]. rewrite <- app_assoc. repeat split.
Qed.

(** The lines of a list of functions: one chunk per function. *)
Lemma codegen_funcs_lines (fs : list FuncDef) :
  forall cg cg',
    codegen_funcs fs cg = Some cg' ->
    exists chunks,
      out cg' = out cg ++ List.concat chunks
      /\ Forall2 (fun f chunk =>
                    exists body,
                      chunk = define_line f :: ILabel L_entry :: body ++ [IFuncEnd]
                      /\ forallb body_line body = true) fs chunks
      /\ string_literals cg' = string_literals cg
      /\ string_counter cg <= string_counter cg'
      /\ fresh_in line_string (string_counter cg) (string_counter cg')
                  (List.concat chunks).
Proof.
  induction fs as [|f rest IH]; intros cg cg' H; cbn [codegen_funcs] in H.
  - inversion H; subst. exists []. cbn [List.concat]. rewrite app_nil_r.
    split; [reflexivity|]. split; [constructor|]. split; [reflexivity|].
    split; [lia|apply fresh_in_nil].
  - destruct (codegen_func f cg) as [cg1|] eqn:Hf; [|discriminate].
    destruct (codegen_func_lines f cg cg1 Hf)
      as (body & Ho & _ & Hs & Hl & _ & _ & _ & Hstr & Hb).
    destruct (IH cg1 cg' H) as (chunks & Ho' & Hall & Hl' & Hs' & Hstr').
    exists ((define_line f :: ILabel L_entry :: body ++ [IFuncEnd]) :: chunks).
    cbn [List.concat]. rewrite Ho', Ho, <- app_assoc.
    split; [reflexivity|].
    split; [constructor; [exists body; split; [reflexivity|exact Hb]|exact Hall]|].
    split; [congruence|]. split; [lia|].
    intro d. specialize (Hstr d). specialize (Hstr' d).
    rewrite count_in_app. cbn [app count_in line_string define_line].
    rewrite count_in_app. cbn [count_in line_string]. lia.
Qed.

(** X11.  The lines written for one function are its [define] line, the
    entry label, body lines and the closing brace; among the body lines no
    temporary is assigned twice, no stack slot is declared twice and no
    block label is written twice (none is the entry label). *)
Theorem X11_function_defines_each_name_once (f : FuncDef) (cg cg' : CodeGen) :
  codegen_func f cg = Some cg' ->
  exists body,
    out cg' = out cg ++ define_line f :: ILabel L_entry :: body ++ [IFuncEnd]
    /\ forallb body_line body = true
    /\ NoDup (defined_registers body)
    /\ NoDup (declared_slots body)
    /\ NoDup (block_labels body)
    /\ ~ In L_entry (block_labels body).
Proof.
  intro H.
  destruct (codegen_func_lines f cg cg' H)
    as (body & Ho & _ & _ & _ & Hd & Hs & Hk & _ & Hb).
  exists body. split; [exact Ho|]. split; [exact Hb|].
  split; [exact (fresh_in_NoDup _ _ _ _ Hd)|].
  split; [exact (fresh_in_NoDup _ _ _ _ Hs)|].
  apply block_labels_NoDup; [exact Hb|].
  exact (fresh_in_NoDup _ _ _ _ Hk).
Qed.

Lemma X11_function_defines_each_name_once_witness :
  exists cg' body,
    codegen_func func_count codegen_create = Some cg'
    /\ out cg' = out codegen_create
                 ++ define_line func_count :: ILabel L_entry :: body ++ [IFuncEnd]
    /\ forallb body_line body = true
    /\ NoDup (defined_registers body)
    /\ NoDup (declared_slots body)
    /\ NoDup (block_labels body)
    /\ ~ In L_entry (block_labels body).
Proof.
  destruct (codegen_func func_count codegen_create) as [cg'|] eqn:E;
    [|vm_compute in E; discriminate E].
  destruct (X11_function_defines_each_name_once func_count codegen_create cg' E)
    as (body & H).
  exists cg', body. split; [reflexivity|exact H].
Defined.

(** X12.  The output file is the preamble, then one string constant per
    string literal of the program, numbered from 0 in the order of the
    program text and followed by an empty line when there is one, then the
    functions in the order of the program, each from its [define] line to
    its closing brace. *)
Theorem X12_layout_of_the_output (prog : Program) (cg : CodeGen) :
  codegen_program prog = Some cg ->
  exists chunks,
    out cg = preamble
             ++ string_table 0 (literals_program prog)
             ++ table_end (literals_program prog)
             ++ List.concat chunks
    /\ Forall2 function_chunk (functions prog) chunks.
Proof.
  unfold codegen_program. rewrite collect_strings_eq. intro H.
  set (cg0 := emit_all codegen_create preamble) in *.
  destruct (add_strings_fields (literals_program prog) cg0)
    as (Ho1 & _ & _ & _ & Hl1).
  set (cg1 := add_strings cg0 (literals_program prog)) in *.
  assert (Hlit : string_literals cg1 = literals_program prog)
    by (rewrite Hl1; reflexivity).
  rewrite Hlit in H.
  destruct (emit_string_table_fields (literals_program prog) 0 cg1)
    as (Ho2 & _ & _ & _ & Hl2).
  set (cg2 := emit_string_table 0 (literals_program prog) cg1) in *.
  rewrite Hl2, Hlit in H.
  assert (Ho3 : out (match literals_program prog with
                     | [] => cg2
                     | _ :: _ => emit cg2 (IText "")
                     end)
                = preamble ++ string_table 0 (literals_program prog)
                  ++ table_end (literals_program prog)).
  { destruct (literals_program prog); cbn [out emit table_end];
      rewrite Ho2, Ho1, ?app_nil_r, <- ?app_assoc; reflexivity. }
  destruct (codegen_funcs_lines _ _ _ H) as (chunks & Ho & Hall & _).
  exists chunks. rewrite Ho, Ho3, <- !app_assoc. split; [reflexivity|exact Hall].
Qed.

Lemma X12_layout_of_the_output_witness :
  exists cg chunks,
    codegen_program prog_count = Some cg
    /\ out cg = preamble
                ++ string_table 0 (literals_program prog_count)
                ++ table_end (literals_program prog_count)
                ++ List.concat chunks
    /\ Forall2 function_chunk (functions prog_count) chunks.
Proof.
  destruct (codegen_program prog_count) as [cg|] eqn:E;
    [|vm_compute in E; discriminate E].
  destruct (X12_layout_of_the_output prog_count cg E) as (chunks & H).
  exists cg, chunks. split; [reflexivity|exact H].
Defined.

(** ** Names in scope *)

Ltac scope_fields :=
  cbn [out err temp_counter label_counter string_counter param_names locals
       string_literals emit report next_temp next_label next_string
       set_locals add_local bump_local_count fst snd] in *.

Ltac close_scope :=
  unfold same_scope in *; scope_fields;
  repeat match goal with
  | H : _ /\ _ |- _ => destruct H
  end;
  repeat split; congruence.

Lemma codegen_exprs_same_scope (args : list Expr) :
  Forall (fun e => forall cg, same_scope cg (snd (codegen_expr e cg))) args ->
  forall cg, same_scope cg (snd (codegen_exprs args cg)).
Proof.
  induction 1 as [|e rest He _ IH]; intro cg; cbn [codegen_exprs].
  - close_scope.
  - specialize (He cg). destruct (codegen_expr e cg) as [r cg1].
    specialize (IH cg1). destruct (codegen_exprs rest cg1) as [rs cg2].
    cbn [snd] in *. close_scope.
Qed.

(** Evaluating an expression declares no local and draws no label and no
    string number. *)
Lemma codegen_expr_same_scope (e : Expr) :
  forall cg, same_scope cg (snd (codegen_expr e cg)).
Proof.
  induction e as [v|s|b|n|i|op l r IHl IHr|op e IHe|m f args IHargs]
    using Expr_nested_ind; intro cg.
  - cbn [codegen_expr]. close_scope.
  - cbn [codegen_expr]. close_scope.
  - cbn [codegen_expr]. close_scope.
  - cbn [codegen_expr].
    destruct (0 <=? find_local cg n); [close_scope|].
    destruct (0 <=? find_param cg n); close_scope.
  - cbn [codegen_expr]. close_scope.
  - cbn [codegen_expr].
    specialize (IHl cg). destruct (codegen_expr l cg) as [lr cg1].
    specialize (IHr cg1). destruct (codegen_expr r cg1) as [rr cg2].
    cbn [snd] in *.
    destruct ((lr <? 0) || (rr <? 0)); [close_scope|].
    destruct (classify_binop op); close_scope.
  - cbn [codegen_expr].
    specialize (IHe cg). destruct (codegen_expr e cg) as [er cg1].
    cbn [snd] in *.
    destruct (er <? 0); [close_scope|].
    destruct (String.eqb op "not"); [close_scope|].
    destruct (String.eqb op "neg"); close_scope.
  - rewrite codegen_expr_call_eq.
    destruct m as [m|].
    + cbv zeta. cbn [next_temp].
      destruct (String.eqb m "math"); [|close_scope].
      destruct args as [|a0 more]; [close_scope|].
      inversion IHargs as [|? ? Ha0 Hmore]; subst.
      match goal with
      | |- context [codegen_expr a0 ?c] =>
          specialize (Ha0 c); destruct (codegen_expr a0 c) as [ar cg1]
      end.
      cbn [snd] in *.
      destruct (math_unary f); [close_scope|].
      destruct more as [|a1 more']; [close_scope|].
      inversion Hmore as [|? ? Ha1 _]; subst.
      specialize (Ha1 cg1). destruct (codegen_expr a1 cg1) as [ar2 cg2].
      cbn [snd] in *.
      destruct (math_binary f); close_scope.
    + cbv zeta. cbn [next_temp].
      match goal with
      | |- context [codegen_exprs args ?c] =>
          pose proof (codegen_exprs_same_scope args IHargs c) as Hargs;
          destruct (codegen_exprs args c) as [rs cg1]
      end.
      cbn [snd] in *. close_scope.
Qed.

Lemma find_local_in_new (ls : list (option (string * Z))) (name : string)
    (slot : Z) :
  Forall (fun entry => match entry with
                       | Some (_, s) => 0 <= s
                       | None => True
                       end) ls ->
  find_local_in ls name < 0 ->
  find_local_in (ls ++ [Some (name, slot)]) name = slot.
Proof.
  induction 1 as [|entry rest He _ IH]; cbn [app find_local_in].
  - rewrite String.eqb_refl. reflexivity.
  - destruct entry as [[n s]|]; [|exact IH].
    destruct (String.eqb n name); [lia|exact IH].
Qed.

(** X13.  [let] binds its name.  When the value compiles to a register,
    the statement ends with a store of that register to a slot, and the
    name designates this slot afterwards.  A name that is already a local
    keeps its slot and nothing is declared; otherwise the slot is the next
    free one and the line before the store declares it. *)
Theorem X13_let_binds_its_name (name : string) (val : Expr)
    (cg cg1 : CodeGen) (r : Z) :
  slots_valid cg ->
  codegen_expr val cg = (r, cg1) ->
  0 <= r ->
  exists cg' slot,
    codegen_stmt (NODE_LET name val) cg = Some cg'
    /\ 0 <= slot
    /\ find_local cg' name = slot
    /\ (0 <= find_local cg name ->
        slot = find_local cg name
        /\ locals cg' = locals cg
        /\ out cg' = out cg1 ++ [IStore (Reg r) slot])
    /\ (find_local cg name < 0 ->
        slot = local_count cg
        /\ locals cg' = locals cg ++ [Some (name, slot)]
        /\ out cg' = out cg1 ++ [IAlloca slot; IStore (Reg r) slot]).
Proof.
  intros Hvalid E Hr.
  pose proof (codegen_expr_same_scope val cg) as Hs. rewrite E in Hs.
  cbn [snd] in Hs. destruct Hs as (Hl & _).
  cbn [codegen_stmt]. rewrite E.
  assert (Er : (r <? 0) = false) by (apply Z.ltb_ge; exact Hr). rewrite Er.
  assert (Ef : find_local cg1 name = find_local cg name)
    by (unfold find_local; rewrite Hl; reflexivity).
  assert (Ec : local_count cg1 = local_count cg)
    by (unfold local_count; rewrite Hl; reflexivity).
  rewrite Ef, Ec. destruct (0 <=? find_local cg name) eqn:Eb.
  - apply Z.leb_le in Eb. eexists. exists (find_local cg name).
    split; [reflexivity|]. split; [exact Eb|].
    split; [unfold find_local in *; cbn [emit locals]; rewrite Hl; reflexivity|].
    split; [|lia]. intros _. cbn [emit locals out]. repeat split. exact Hl.
  - apply Z.leb_gt in Eb. eexists. exists (local_count cg).
    split; [reflexivity|]. split; [unfold local_count; lia|].
    split.
    + unfold find_local, add_local. cbn [set_locals emit locals]. rewrite Hl.
      apply find_local_in_new; [exact Hvalid|exact Eb].
    + split; [lia|]. intros _. unfold add_local.
      cbn [set_locals emit locals out]. rewrite Hl, <- app_assoc.
      repeat split.
Qed.

Lemma X13_let_binds_its_name_witness :
  exists cg' slot,
    codegen_stmt (NODE_LET "s" (NODE_NUM d1)) codegen_create = Some cg'
    /\ 0 <= slot
    /\ find_local cg' "s" = slot
    /\ (0 <= find_local codegen_create "s" ->
        slot = find_local codegen_create "s"
        /\ locals cg' = locals codegen_create
        /\ out cg' = out (snd (codegen_expr (NODE_NUM d1) codegen_create))
                     ++ [IStore (Reg 0) slot])
    /\ (find_local codegen_create "s" < 0 ->
        slot = local_count codegen_create
        /\ locals cg' = locals codegen_create ++ [Some ("s"%string, slot)]
        /\ out cg' = out (snd (codegen_expr (NODE_NUM d1) codegen_create))
                     ++ [IAlloca slot; IStore (Reg 0) slot]).
Proof.
  exact (X13_let_binds_its_name "s" (NODE_NUM d1) codegen_create _ 0
           (Forall_nil _) eq_refl ltac:(lia)).
Defined.

(** X14.  A name keeps its slot until the end of the function: after any
    statements, a name that was a local still designates the slot it
    designated before (no [let] and no [repeat ... as] rebinds it, and the
    end of a block removes nothing). *)
Theorem X14_locals_keep_their_slot (body : list Stmt) (cg cg' : CodeGen)
    (name : string) :
  codegen_stmts body cg = Some cg' ->
  0 <= find_local cg name ->
  find_local cg' name = find_local cg name
  /\ exists added, locals cg' = locals cg ++ added.
Proof.
  intros H Hfound.
  pose proof (codegen_stmts_all_writes body cg) as Hw. rewrite H in Hw.
  destruct Hw as (new & added & Hw).
  destruct Hw as [Wout Wlocals Wtemp Wlabel Wstring Wparams Wliterals Werr
                 Wdefs Wblocks Wslots Wstrings Wbody].
  split; [|exists added; assumption].
  unfold find_local. rewrite Wlocals. apply find_local_in_app. exact Hfound.
Qed.

Lemma X14_locals_keep_their_slot_witness :
  exists cg',
    codegen_stmts
      [NODE_REPEAT (NODE_NUM d1) (Some "s"%string) []; NODE_LET "s" (NODE_NUM d1)]
      (add_local codegen_create "s" 0) = Some cg'
    /\ 0 <= find_local (add_local codegen_create "s" 0) "s"
    /\ find_local cg' "s" = find_local (add_local codegen_create "s" 0) "s"
    /\ exists added, locals cg' = locals (add_local codegen_create "s" 0) ++ added.
Proof.
  destruct (codegen_stmts
      [NODE_REPEAT (NODE_NUM d1) (Some "s"%string) []; NODE_LET "s" (NODE_NUM d1)]
      (add_local codegen_create "s" 0)) as [cg'|] eqn:E;
    [|vm_compute in E; discriminate E].
  exists cg'. split; [reflexivity|].
  assert (H : 0 <= find_local (add_local codegen_create "s" 0) "s")
    by (vm_compute; discriminate).
  split; [exact H|].
  exact (X14_locals_keep_their_slot _ _ cg' "s" E H).
Defined.

(** ** Diagnostics and abnormal ends of the emitter *)

Ltac open_reports :=
  unfold result_or_report, reports in *;
  repeat match goal with
  | H : exists _, _ |- _ => destruct H
  | H : _ /\ _ |- _ => destruct H
  end.

Ltac msgs_goal :=
  repeat match goal with
  | H : err ?c = _ |- context [err ?c] => rewrite H
  end;
  rewrite <- ?app_assoc;
  first [ reflexivity
        | match goal with |- ?l = ?l ++ ?e => is_evar e;
            instantiate (1 := nil); rewrite app_nil_r; reflexivity end ].

Ltac nonempty :=
  let H := fresh "H" in
  intro H;
  repeat match goal with
  | E : _ ++ _ = [] |- _ => apply app_eq_nil in E; destruct E
  end;
  first [ discriminate | contradiction | tauto ].

(** Closes a goal [result_or_report cg r cg'] or [exists msgs, reports ..]
    once the runs of the sub-terms are among the hypotheses. *)
Ltac close_reports :=
  open_reports; scope_fields;
  repeat match goal with
  | H : _ \/ _ |- _ => destruct H as [[? ?]|?]
  end;
  subst;
  first [ lia
        | eexists; split; [split; [msgs_goal|lia]|];
          first [ right; lia | left; split; [reflexivity|nonempty] ]
        | eexists; split; [msgs_goal|lia] ].

Lemma codegen_exprs_reports (args : list Expr) :
  Forall (fun e => forall cg, 0 <= temp_counter cg ->
                    result_or_report cg (fst (codegen_expr e cg))
                                     (snd (codegen_expr e cg))) args ->
  forall cg, 0 <= temp_counter cg ->
             exists msgs, reports cg (snd (codegen_exprs args cg)) msgs.
Proof.
  induction 1 as [|e rest He _ IH]; intros cg H0; cbn [codegen_exprs].
  - exists []. split; [rewrite app_nil_r; reflexivity|cbn; lia].
  - specialize (He cg H0). destruct (codegen_expr e cg) as [r cg1].
    cbn [fst snd] in He.
    assert (H1 : 0 <= temp_counter cg1)
      by (destruct He as (? & (_ & ?) & _); lia).
    specialize (IH cg1 H1). destruct (codegen_exprs rest cg1) as [rs cg2].
    cbn [snd] in *. unfold reports in *. close_reports.
Qed.

Lemma codegen_expr_reports (e : Expr) :
  forall cg, 0 <= temp_counter cg ->
             result_or_report cg (fst (codegen_expr e cg))
                              (snd (codegen_expr e cg)).
Proof.
  induction e as [v|s|b|n|i|op l r IHl IHr|op e IHe|m f args IHargs]
    using Expr_nested_ind; intros cg H0; unfold result_or_report, reports in *.
  - cbn [codegen_expr]. close_reports.
  - cbn [codegen_expr]. close_reports.
  - cbn [codegen_expr]. close_reports.
  - cbn [codegen_expr].
    destruct (0 <=? find_local cg n); [close_reports|].
    destruct (0 <=? find_param cg n); close_reports.
  - cbn [codegen_expr]. close_reports.
  - cbn [codegen_expr].
    specialize (IHl cg H0). destruct (codegen_expr l cg) as [lr cg1].
    cbn [fst snd] in IHl.
    assert (H1 : 0 <= temp_counter cg1)
      by (destruct IHl as (? & (_ & ?) & _); lia).
    specialize (IHr cg1 H1). destruct (codegen_expr r cg1) as [rr cg2].
    cbn [fst snd] in IHr.
    destruct (Z.ltb_spec lr 0), (Z.ltb_spec rr 0); cbn [orb];
      try close_reports.
    destruct (classify_binop op); close_reports.
  - cbn [codegen_expr].
    specialize (IHe cg H0). destruct (codegen_expr e cg) as [er cg1].
    cbn [fst snd] in IHe.
    destruct (Z.ltb_spec er 0); [close_reports|].
    destruct (String.eqb op "not"); [close_reports|].
    destruct (String.eqb op "neg"); close_reports.
  - rewrite codegen_expr_call_eq.
    destruct m as [m|].
    + cbv zeta. cbn [next_temp].
      destruct (String.eqb m "math"); [|close_reports].
      destruct args as [|a0 more]; [close_reports|].
      inversion IHargs as [|? ? Ha0 Hmore]; subst.
      match goal with
      | |- context [codegen_expr a0 ?c] =>
          assert (H1 : 0 <= temp_counter c) by (scope_fields; lia);
          specialize (Ha0 c H1); destruct (codegen_expr a0 c) as [ar cg1]
      end.
      cbn [fst snd] in Ha0.
      destruct (math_unary f); [close_reports|].
      destruct more as [|a1 more']; [close_reports|].
      inversion Hmore as [|? ? Ha1 _]; subst.
      assert (H2 : 0 <= temp_counter cg1)
        by (destruct Ha0 as (? & (_ & ?) & _); scope_fields; lia).
      specialize (Ha1 cg1 H2). destruct (codegen_expr a1 cg1) as [ar2 cg2].
      cbn [fst snd] in Ha1.
      destruct (math_binary f); close_reports.
    + cbv zeta. cbn [next_temp].
      match goal with
      | |- context [codegen_exprs args ?c] =>
          assert (H1 : 0 <= temp_counter c) by (scope_fields; lia);
          pose proof (codegen_exprs_reports args IHargs c H1) as Hargs;
          destruct (codegen_exprs args c) as [rs cg1]
      end.
      cbn [fst snd] in *. unfold reports in *. close_reports.
Qed.

(** X15.  An expression that fails is reported: [codegen_expr] returns a
    temporary it has drawn during the call, or it returns [-1] after
    writing at least one diagnostic to [stderr].  The diagnostics written
    before the call are kept. *)
Theorem X15_expression_failure_is_reported (e : Expr) (cg cg' : CodeGen)
    (r : Z) :
  0 <= temp_counter cg ->
  codegen_expr e cg = (r, cg') ->
  exists msgs,
    err cg' = err cg ++ msgs
    /\ ((r = -1 /\ msgs <> []) \/ temp_counter cg <= r < temp_counter cg').
Proof.
  intros H0 E. pose proof (codegen_expr_reports e cg H0) as H.
  rewrite E in H. destruct H as (msgs & (Herr & _) & Hres).
  exists msgs. split; assumption.
Qed.

Lemma X15_expression_failure_witness :
  exists cg' msgs,
    codegen_expr (NODE_BINOP "plus" (NODE_VAR "x") (NODE_NUM d1)) codegen_create
    = (-1, cg')
    /\ err cg' = err codegen_create ++ msgs
    /\ ((-1 = -1 /\ msgs <> [])
        \/ temp_counter codegen_create <= -1 < temp_counter cg').
Proof.
  eexists. 
  destruct (X15_expression_failure_is_reported
              (NODE_BINOP "plus" (NODE_VAR "x") (NODE_NUM d1)) codegen_create
              _ (-1) ltac:(cbn; lia) eq_refl) as (msgs & H).
  exists msgs. split; [reflexivity|exact H].
Defined.

Lemma codegen_stmts_return (body : list Stmt) :
  Forall (fun s => then_arms_present s = true ->
                   forall cg, codegen_stmt s cg <> None) body ->
  forallb then_arms_present body = true ->
  forall cg, codegen_stmts body cg <> None.
Proof.
  induction 1 as [|s rest Hs _ IH]; cbn [forallb codegen_stmts]; intros Hall cg.
  - discriminate.
  - apply andb_true_iff in Hall. destruct Hall as [H1 H2].
    specialize (Hs H1 cg). destruct (codegen_stmt s cg) as [cg1|];
      [|contradiction].
    exact (IH H2 cg1).
Qed.

(** The emitter returns on a statement in which every [if] has a then
    arm. *)
Lemma codegen_stmt_returns (s : Stmt) :
  then_arms_present s = true -> forall cg, codegen_stmt s cg <> None.
Proof.
  induction s as [v e|c t e IHt IHe|n e|e|e|c v body IHbody|c body IHbody|n a|n a]
    using Stmt_nested_ind; intros Hp cg.
  - cbn [codegen_stmt]. destruct (codegen_expr e cg) as [r cg1].
    destruct (0 <=? r); discriminate.
  - cbn [codegen_stmt then_arms_present] in *.
    destruct (codegen_expr c cg) as [r cg1].
    destruct (r <? 0); [discriminate|]. cbn [next_temp next_label].
    destruct t as [then_s|]; [|discriminate Hp].
    apply andb_true_iff in Hp. destruct Hp as [Ht He].
    destruct e as [else_s|].
    + match goal with
      | |- context [codegen_stmt then_s ?c0] =>
          pose proof (IHt then_s eq_refl Ht c0) as H1;
          destruct (codegen_stmt then_s c0) as [cg2|]; [|contradiction]
      end.
      match goal with
      | |- context [codegen_stmt else_s ?c0] =>
          pose proof (IHe else_s eq_refl He c0) as H2;
          destruct (codegen_stmt else_s c0) as [cg3|]; [|contradiction]
      end.
      discriminate.
    + match goal with
      | |- context [codegen_stmt then_s ?c0] =>
          pose proof (IHt then_s eq_refl Ht c0) as H1;
          destruct (codegen_stmt then_s c0) as [cg2|]; [|contradiction]
      end.
      discriminate.
  - cbn [codegen_stmt]. destruct (codegen_expr e cg) as [r cg1].
    destruct (r <? 0); [discriminate|].
    destruct (0 <=? find_local cg1 n); discriminate.
  - cbn [codegen_stmt]. discriminate.
  - cbn [codegen_stmt].
    destruct e; try (destruct (codegen_expr _ cg) as [r cg1];
                     destruct (0 <=? r); discriminate).
    discriminate.
  - rewrite codegen_stmt_repeat_eq. cbv zeta.
    destruct (codegen_expr c cg) as [r cg1].
    destruct (r <? 0); [discriminate|]. cbn [next_temp next_label].
    cbn [then_arms_present] in Hp.
    match goal with
    | |- context [codegen_stmts body ?c0] =>
        pose proof (codegen_stmts_return body IHbody Hp c0) as H1;
        destruct (codegen_stmts body c0) as [cg2|]; [|contradiction]
    end.
    discriminate.
  - rewrite codegen_stmt_while_eq. cbv zeta. cbn [next_label].
    destruct (codegen_expr c _) as [r cg1].
    destruct (r <? 0); [discriminate|]. cbn [next_temp].
    cbn [then_arms_present] in Hp.
    match goal with
    | |- context [codegen_stmts body ?c0] =>
        pose proof (codegen_stmts_return body IHbody Hp c0) as H1;
        destruct (codegen_stmts body c0) as [cg2|]; [|contradiction]
    end.
    discriminate.
  - cbn [codegen_stmt]. discriminate.
  - cbn [codegen_stmt]. discriminate.
Qed.

Lemma codegen_funcs_return (fs : list FuncDef) :
  forallb (fun f => forallb then_arms_present (func_body f)) fs = true ->
  forall cg, codegen_funcs fs cg <> None.
Proof.
  induction fs as [|f rest IH]; cbn [forallb codegen_funcs]; intros Hall cg.
  - discriminate.
  - apply andb_true_iff in Hall. destruct Hall as [H1 H2].
    unfold codegen_func.
    match goal with
    | |- context [codegen_stmts ?body ?c0] =>
        assert (Hb : codegen_stmts body c0 <> None)
          by (apply codegen_stmts_return; [|exact H1];
              apply Forall_forall; intros s _; apply codegen_stmt_returns);
        destruct (codegen_stmts body c0) as [cg1|]; [|contradiction]
    end.
    apply (IH H2).
Qed.

(** X16.  For a program in which every [if] has a then arm and every
    [repeat] names its counter, [codegen_llvm] returns.  So [compile] of a
    source with such a tree, when the tree is intact and the input path
    fits the buffer of the default output path, ends by returning a
    status. *)
Theorem X16_emitter_returns_when_then_arms_present (prog : Program) :
  forallb (fun f => forallb then_arms_present (func_body f)) (functions prog)
  = true ->
  program_counters_named prog = true ->
  (exists cg, codegen_program prog = Some cg)
  /\ forall w input src fs,
       (String.length input <= 252)%nat ->
       read_file w input = Some src ->
       front_end_intact src = Some (prog, true) ->
       ended (cmd_compile w [input] fs) <> Crashed.
Proof.
  intros Hall _.
  assert (H : codegen_program prog <> None)
    by (unfold codegen_program; apply codegen_funcs_return; exact Hall).
  split.
  - destruct (codegen_program prog) as [cg|]; [exists cg; reflexivity|].
    contradiction.
  - intros w input src fs _ Hread Hintact.
    pose proof (front_end_of_intact src prog true Hintact) as Hfront.
    unfold cmd_compile.
    destruct (compile_args [input] None None) as [[i|] o] eqn:Ea;
      [|discriminate].
    assert (Ei : i = input).
    { cbn [compile_args] in Ea. destruct (String.eqb input "-o");
        [inversion Ea|].
      destruct (negb (first_char_is_dash input)); inversion Ea. reflexivity. }
    subst i. rewrite Hread, Hfront.
    destruct (can_write w _); [|discriminate].
    destruct (codegen_program prog); [discriminate|contradiction].
Qed.

Lemma X16_emitter_returns_witness :
  (exists cg, codegen_program prog_count = Some cg)
  /\ forall w input src fs,
       (String.length input <= 252)%nat ->
       read_file w input = Some src ->
       front_end_intact src = Some (prog_count, true) ->
       ended (cmd_compile w [input] fs) <> Crashed.
Proof.
  exact (X16_emitter_returns_when_then_arms_present prog_count eq_refl
           eq_refl).
Defined.

(** ** The driver: output path and [tokens] *)

Lemma substring_all (s : string) (n : nat) :
  (String.length s <= n)%nat -> String.substring 0 n s = s.
Proof.
  revert n. induction s as [|c rest IH]; intros n H.
  - destruct n; reflexivity.
  - destruct n as [|n]; [cbn in H; lia|].
    cbn [String.substring]. rewrite IH; [reflexivity|cbn in H; lia].
Qed.

Lemma cut_at_last_dot_none (s : string) :
  has_no_dot s = true -> cut_at_last_dot s = None.
Proof.
  induction s as [|c rest IH]; [reflexivity|].
  unfold has_no_dot. cbn [all_chars]. intro H.
  apply andb_true_iff in H. destruct H as [Hc Hrest].
  cbn [cut_at_last_dot]. rewrite (IH Hrest).
  apply negb_true_iff in Hc. rewrite Hc. reflexivity.
Qed.

Lemma cut_at_last_dot_found (stem ext : string) :
  has_no_dot ext = true ->
  cut_at_last_dot (stem ++ String "." ext) = Some stem.
Proof.
  intro H. induction stem as [|c rest IH].
  - cbn [append cut_at_last_dot]. rewrite (cut_at_last_dot_none ext H).
    reflexivity.
  - cbn [append cut_at_last_dot]. rewrite IH. reflexivity.
Qed.

(** X17.  The default output path of [compile] is the input path with its
    last extension replaced by [.ll]: everything from the last dot of the
    path on is dropped, also when this dot is in a directory name; a path
    without dot gets [.ll] appended.  (For paths that fit the 256-byte
    buffer with the new extension.) *)
Theorem X17_default_output_replaces_last_extension (stem ext : string) :
  has_no_dot ext = true ->
  (String.length stem + String.length ext <= 252)%nat ->
  default_output (stem ++ String "." ext) = (stem ++ ".ll")%string
  /\ default_output ext = (ext ++ ".ll")%string.
Proof.
  intros Hext Hlen. unfold default_output. split.
  - rewrite substring_all.
    + rewrite (cut_at_last_dot_found stem ext Hext). reflexivity.
    + rewrite length_append. cbn [String.length]. lia.
  - rewrite substring_all by lia.
    rewrite (cut_at_last_dot_none ext Hext). reflexivity.
Qed.

Lemma X17_default_output_witness :
  default_output ("" ++ String "." "/prog") = ("" ++ ".ll")%string
  /\ default_output "/prog" = ("/prog" ++ ".ll")%string.
Proof.
  exact (X17_default_output_replaces_last_extension
           "" "/prog" eq_refl ltac:(cbn; lia)).
Defined.

Lemma filter_split_length {A : Type} (p : A -> bool) (l : list A) :
  (List.length (filter p l) + List.length (filter (fun x => negb (p x)) l)
   = List.length l)%nat.
Proof.
  induction l as [|x rest IH]; [reflexivity|].
  cbn [filter]. destruct (p x); cbn [negb List.length]; lia.
Qed.

Lemma lookup_keyword_in_found (tbl : list (string * TokenType)) (w : string) :
  lookup_keyword_in tbl w = TOK_IDENT
  \/ In (w, lookup_keyword_in tbl w) tbl.
Proof.
  induction tbl as [|[k t] tbl IH]; [left; reflexivity|].
  cbn [lookup_keyword_in In].
  destruct (String.eqb k w) eqn:E.
  - apply String.eqb_eq in E. subst k. right. left. reflexivity.
  - destruct IH as [IH|IH]; [left; exact IH|right; right; exact IH].
Qed.

(** The display name of a keyword token is its keyword in upper case. *)
Lemma token_name_of_keyword (w : string) :
  lookup_keyword w = TOK_IDENT
  \/ token_name (lookup_keyword w) = upper_case w.
Proof.
  unfold lookup_keyword.
  destruct (lookup_keyword_in_found keywords w) as [H|H]; [left; exact H|].
  right. remember (lookup_keyword_in keywords w) as k eqn:Ek. clear Ek.
  cbn [keywords In] in H.
  repeat (destruct H as [H|H]; [inversion H; reflexivity|]).
  destruct H.
Qed.

(** X18.  [tokens] on a source the lexer accepts prints the header, then
    the tokens of the lexer in their order, one entry [NAME(value) ] for
    each token that is not a line feed, the last of them being the entry
    [EOF() ] of the end-of-input token, then a line feed; it returns 0
    without touching a file.  The number of entries is the number of tokens
    less the line feeds of the source; a keyword is shown under its own
    spelling in upper case. *)
Theorem X18_tokens_lists_every_token (w : World) (input src : string)
    (fs : list string) (lx : Lexer) :
  first_char_is_dash input = false ->
  read_file w input = Some src ->
  lexer_tokenize src = LexOk lx ->
  exists toks last,
    ltokens lx = toks ++ [last]
    /\ token_entry last = "EOF() "%string
    /\ cmd_tokens w [input] fs
       = {| ended := Exited 0; files := fs;
            printed :=
              [msg_tokens]
              ++ map token_entry
                   (filter (fun t => negb (tok_eqb (ttype t) TOK_NEWLINE))
                           toks)
              ++ [token_entry last; nl];
            errors := []; ir := [] |}
    /\ (List.length
          (filter (fun t => negb (tok_eqb (ttype t) TOK_NEWLINE)) toks)
        + count_LF src + 1 = List.length (ltokens lx))%nat
    /\ Forall (fun t => In (ttype t) open_kinds
                        \/ token_name (ttype t) = upper_case (value t))
              (filter (fun t => negb (tok_eqb (ttype t) TOK_NEWLINE)) toks).
Proof.
  intros Hdash Hread Hlex.
  destruct (lexer_tokenize_spec src lx Hlex) as (toks & E & _ & Hx & _ & Hn).
  exists toks. eexists. split; [exact E|]. split; [reflexivity|].
  split; [|split].
  - unfold cmd_tokens, first_input. cbn [find]. rewrite Hdash. cbn [negb].
    rewrite Hread, Hlex, E, filter_app, map_app, <- app_assoc. reflexivity.
  - rewrite E, length_app. cbn [List.length]. rewrite <- Hn.
    unfold count_tokens.
    pose proof (filter_split_length
                  (fun t => tok_eqb (ttype t) TOK_NEWLINE) toks) as H.
    lia.
  - apply Forall_forall. intros t Hin. apply filter_In in Hin.
    destruct Hin as [Hin _].
    pose proof (proj1 (Forall_forall _ _) Hx t Hin) as Hok.
    unfold lexeme_ok in Hok. unfold open_kinds.
    destruct (ttype t) eqn:Et; cbn [In];
      try (left; tauto);
      destruct Hok as [_ Hk];
      (destruct (token_name_of_keyword (value t)) as [H|H];
       [rewrite Hk in H; discriminate H|rewrite Hk in H; right; exact H]).
Qed.

Lemma X18_tokens_witness :
  exists lx toks last,
    lexer_tokenize src_S1 = LexOk lx
    /\ ltokens lx = toks ++ [last]
    /\ token_entry last = "EOF() "%string
    /\ cmd_tokens (world_with "p.nerd" src_S1 (toolchain_ok 0)) ["p.nerd"%string] []
       = {| ended := Exited 0; files := [];
            printed :=
              [msg_tokens]
              ++ map token_entry
                   (filter (fun t => negb (tok_eqb (ttype t) TOK_NEWLINE))
                           toks)
              ++ [token_entry last; nl];
            errors := []; ir := [] |}
    /\ (List.length
          (filter (fun t => negb (tok_eqb (ttype t) TOK_NEWLINE)) toks)
        + count_LF src_S1 + 1 = List.length (ltokens lx))%nat
    /\ Forall (fun t => In (ttype t) open_kinds
                        \/ token_name (ttype t) = upper_case (value t))
              (filter (fun t => negb (tok_eqb (ttype t) TOK_NEWLINE)) toks).
Proof.
  destruct (lexer_tokenize src_S1) as [lx| |] eqn:E;
    [|vm_compute in E; discriminate E|vm_compute in E; discriminate E].
  destruct (X18_tokens_lists_every_token
              (world_with "p.nerd" src_S1 (toolchain_ok 0)) "p.nerd" src_S1 []
              lx eq_refl eq_refl E) as (toks & last & H).
  exists lx, toks, last. split; [reflexivity|exact H].
Defined.

(** ** String constants and their references *)

Lemma string_refs_app (a b : list ir_line) :
  string_refs (a ++ b) = string_refs a ++ string_refs b.
Proof. apply flat_map_app. Qed.

Lemma string_consts_app (a b : list ir_line) :
  string_consts (a ++ b) = string_consts a ++ string_consts b.
Proof. apply flat_map_app. Qed.

Lemma numbered_app (i : Z) (a b : list string) :
  numbered i (a ++ b)
  = numbered i a ++ numbered (i + Z.of_nat (List.length a)) b.
Proof.
  revert i. induction a as [|s rest IH]; intro i; cbn [app numbered List.length].
  - f_equal. lia.
  - rewrite IH. do 3 f_equal. lia.
Qed.

Lemma no_literal_nil (e : Expr) : no_literal e = true -> literals_expr e = [].
Proof. unfold no_literal. destruct (literals_expr e); [reflexivity|discriminate]. Qed.

Lemma app_eq_self {A : Type} (l x : list A) : l ++ x = l -> x = [].
Proof.
  intro H. apply (app_inv_head l). rewrite app_nil_r. exact H.
Qed.

Lemma no_refs (lo : Z) (ls : list ir_line) :
  fresh_in line_string lo lo ls -> string_refs ls = [].
Proof.
  induction ls as [|l rest IH]; intro H; [reflexivity|].
  assert (Hrest : fresh_in line_string lo lo rest).
  { intro d. specialize (H d). cbn [count_in] in H. split; lia. }
  unfold string_refs in *. cbn [flat_map]. rewrite (IH Hrest).
  destruct l; try reflexivity.
  specialize (H idx). cbn [count_in line_string] in H.
  rewrite Z.eqb_refl in H. lia.
Qed.

Lemma no_consts (ls : list ir_line) :
  forallb body_line ls = true -> string_consts ls = [].
Proof.
  induction ls as [|l rest IH]; [reflexivity|].
  cbn [forallb]. intro H. apply andb_true_iff in H. destruct H as [Hl Hrest].
  unfold string_consts in *. cbn [flat_map]. rewrite (IH Hrest).
  destruct l; try reflexivity. discriminate Hl.
Qed.

(** What the alignment proof needs of the evaluation of an expression. *)
Lemma codegen_expr_quiet (e : Expr) (cg : CodeGen) :
  0 <= temp_counter cg ->
  exists new msgs,
    out (snd (codegen_expr e cg)) = out cg ++ new
    /\ string_refs new = []
    /\ string_counter (snd (codegen_expr e cg)) = string_counter cg
    /\ err (snd (codegen_expr e cg)) = err cg ++ msgs
    /\ (fst (codegen_expr e cg) < 0 -> msgs <> [])
    /\ temp_counter cg <= temp_counter (snd (codegen_expr e cg)).
Proof.
  intro H0.
  destruct (codegen_expr_writes e cg) as (new & added & Hw).
  destruct (codegen_expr_same_scope e cg) as (_ & _ & _ & Hs & _).
  destruct (codegen_expr_reports e cg H0) as (msgs & (Herr & Ht) & Hres).
  destruct Hw as [Wout Wlocals Wtemp Wlabel Wstring Wparams Wliterals Werr
                 Wdefs Wblocks Wslots Wstrings Wbody].
  exists new, msgs.
  split; [assumption|]. split.
  - apply (no_refs (string_counter cg)). rewrite Hs in Wstrings. exact Wstrings.
  - split; [exact Hs|]. split; [exact Herr|]. split; [|exact Ht].
    intro Hneg. destruct Hres as [[_ Hne]|Hr]; [exact Hne|lia].
Qed.

Lemma codegen_incdec_quiet (op : binop) (what name : string)
    (amount : option Expr) (cg : CodeGen) :
  exists new,
    out (codegen_incdec op what name amount cg) = out cg ++ new
    /\ string_refs new = []
    /\ string_counter (codegen_incdec op what name amount cg)
       = string_counter cg.
Proof.
  destruct (codegen_incdec_writes op what name amount cg)
    as (new & added & Hw).
  assert (Hs : string_counter (codegen_incdec op what name amount cg)
               = string_counter cg).
  { unfold codegen_incdec. destruct (find_local cg name <? 0); [reflexivity|].
    cbn [next_temp]. destruct amount as [e|]; [|reflexivity].
    match goal with
    | |- context [codegen_expr e ?c] =>
        destruct (codegen_expr_same_scope e c) as (_ & _ & _ & H & _);
        destruct (codegen_expr e c) as [r c1]
    end.
    cbn [snd] in H. cbn. exact H. }
  destruct Hw as [Wout Wlocals Wtemp Wlabel Wstring Wparams Wliterals Werr
                 Wdefs Wblocks Wslots Wstrings Wbody].
  exists new. split; [assumption|]. split; [|exact Hs].
  apply (no_refs (string_counter cg)). rewrite Hs in Wstrings. exact Wstrings.
Qed.

Lemma string_refs_cons (l : ir_line) (rest : list ir_line) :
  string_refs (l :: rest)
  = match l with
    | IGetStr _ len idx => [(idx, len)]
    | _ => []
    end ++ string_refs rest.
Proof. reflexivity. Qed.

Lemma string_refs_nil : string_refs [] = [].
Proof. reflexivity. Qed.

Lemma writes_opt_err_temp (cg : CodeGen) (o : option CodeGen) :
  writes_opt cg o ->
  match o with
  | Some cg' =>
      (exists msgs, err cg' = err cg ++ msgs)
      /\ temp_counter cg <= temp_counter cg'
  | None => True
  end.
Proof.
  destruct o as [cg'|]; [|trivial]. intros (new & added & H).
  destruct H as [Wout Wlocals Wtemp Wlabel Wstring Wparams Wliterals Werr
                 Wdefs Wblocks Wslots Wstrings Wbody].
  split; assumption.
Qed.

(** From [err final = err cg], no run in between wrote a diagnostic. *)
Ltac no_messages Hfin :=
  cbn [err emit report next_temp next_label next_string set_locals add_local
       bump_local_count fst snd] in Hfin;
  repeat match goal with
  | H : err ?c = _ |- _ =>
      tryif constr_eq H Hfin then fail
      else match type of Hfin with
           | context [err c] => rewrite H in Hfin
           end
  end;
  rewrite <- ?app_assoc in Hfin;
  first [ apply app_eq_self in Hfin | clear Hfin ];
  repeat match goal with
  | E : _ ++ _ = [] |- _ => apply app_eq_nil in E; destruct E
  end;
  subst;
  rewrite ?app_nil_r in *.

Ltac refs_goal :=
  repeat (first [ rewrite string_refs_app
                | rewrite string_refs_cons
                | rewrite string_refs_nil ]);
  repeat match goal with
  | H : string_refs ?l = _ |- context [string_refs ?l] => rewrite H
  end;
  cbn [app]; rewrite ?app_nil_r; rewrite ?numbered_app;
  repeat match goal with
  | H : string_counter ?c = _ |- context [string_counter ?c] => rewrite H
  end;
  cbn [numbered List.length app]; rewrite ?app_nil_r;
  first [ reflexivity | repeat (f_equal; try lia) ].

Ltac counter_goal :=
  cbn [string_counter emit report next_temp next_label next_string set_locals
       add_local bump_local_count fst snd];
  repeat match goal with
  | H : string_counter ?c = _ |- context [string_counter ?c] => rewrite H
  end;
  rewrite ?length_app; cbn [List.length]; lia.

Ltac out_goal :=
  cbn [out emit report next_temp next_label next_string set_locals add_local
       bump_local_count fst snd];
  repeat match goal with
  | H : out ?c = _ |- context [out ?c] => rewrite H
  end;
  rewrite <- ?app_assoc; cbn [app];
  first [ reflexivity
        | match goal with |- ?l = ?l ++ ?e => is_evar e;
            instantiate (1 := nil); rewrite app_nil_r; reflexivity end ].

(** Closes an [aligned] goal once the runs of the sub-terms are among the
    hypotheses. *)
Ltac close_aligned :=
  first
    [ exact I
    | let Hfin := fresh "Hfin" in
      cbn [aligned]; intro Hfin; no_messages Hfin;
      repeat match goal with
      | H : ?a = ?a -> _ |- _ => specialize (H eq_refl)
      | H : err ?c = err ?d -> _, E : err ?c = err ?d |- _ => specialize (H E)
      | H : exists new, _ /\ _ |- _ =>
          let new := fresh "new" in
          destruct H as (new & ? & ? & ?)
      end;
      first [ exfalso; congruence
            | exfalso; match goal with
                       | H : _ -> [] <> [] |- _ => apply H; [lia|reflexivity]
                       end
            | eexists; split; [out_goal|split; [refs_goal|counter_goal]] ] ].

(** Runs the next expression of the goal and records what it did. *)
Ltac run_quiet :=
  match goal with
  | |- context [codegen_expr ?e ?c] =>
      name_state c;
      match goal with
      | |- context [codegen_expr e ?c0] =>
          let H0 := fresh "H0" in
          assert (H0 : 0 <= temp_counter c0) by lia;
          let new := fresh "new" in
          let msgs := fresh "msgs" in
          let Ho := fresh "Ho" in
          let Hr := fresh "Hr" in
          let Hs := fresh "Hs" in
          let He := fresh "He" in
          let Hn := fresh "Hn" in
          let Ht := fresh "Ht" in
          destruct (codegen_expr_quiet e c0 H0)
            as (new & msgs & Ho & Hr & Hs & He & Hn & Ht);
          let r := fresh "r" in
          let c1 := fresh "cg" in
          destruct (codegen_expr e c0) as [r c1]; cbn [fst snd] in *
      end
  end.

Lemma codegen_stmts_aligned (body : list Stmt) :
  Forall (fun s => literals_under_out s = true ->
                   forall cg, 0 <= temp_counter cg ->
                              aligned cg (literals_stmt s) (codegen_stmt s cg))
         body ->
  forallb literals_under_out body = true ->
  forall cg, 0 <= temp_counter cg ->
             aligned cg (flat_map literals_stmt body) (codegen_stmts body cg).
Proof.
  induction 1 as [|s rest Hs _ IH]; cbn [forallb codegen_stmts flat_map];
    intros Hall cg H0.
  - intros _. exists []. rewrite app_nil_r. cbn. split; [reflexivity|].
    split; [reflexivity|lia].
  - apply andb_true_iff in Hall. destruct Hall as [H1 H2].
    specialize (Hs H1 cg H0).
    pose proof (writes_opt_err_temp _ _ (codegen_stmt_writes s cg)) as Hw.
    destruct (codegen_stmt s cg) as [cg1|]; [|exact I].
    destruct Hw as ((m1 & He1) & Ht1).
    assert (H0' : 0 <= temp_counter cg1) by lia.
    specialize (IH H2 cg1 H0').
    pose proof (writes_opt_err_temp _ _ (codegen_stmts_all_writes rest cg1))
      as Hw.
    destruct (codegen_stmts rest cg1) as [cg2|]; [|exact I].
    destruct Hw as ((m2 & He2) & Ht2).
    cbn [aligned] in Hs, IH. close_aligned.
Qed.

Ltac run_aligned_arm IH s :=
  match goal with
  | |- context [codegen_stmt s ?c] =>
      name_state c;
      match goal with
      | |- context [codegen_stmt s ?c0] =>
          let H0 := fresh "H0" in
          assert (H0 : 0 <= temp_counter c0) by lia;
          let Ha := fresh "Ha" in
          pose proof (IH c0 H0) as Ha;
          let Hw := fresh "Hw" in
          pose proof (writes_opt_err_temp _ _ (codegen_stmt_writes s c0)) as Hw;
          destruct (codegen_stmt s c0) as [?|]; [|exact I];
          destruct Hw as ((? & ?) & ?); cbn [aligned] in Ha
      end
  end.

Ltac run_aligned_block IHbody Hall :=
  match goal with
  | |- context [codegen_stmts ?body ?c] =>
      name_state c;
      match goal with
      | |- context [codegen_stmts body ?c0] =>
          let H0 := fresh "H0" in
          assert (H0 : 0 <= temp_counter c0) by lia;
          let Ha := fresh "Ha" in
          pose proof (codegen_stmts_aligned body IHbody Hall c0 H0) as Ha;
          let Hw := fresh "Hw" in
          pose proof (writes_opt_err_temp _ _
                        (codegen_stmts_all_writes body c0)) as Hw;
          destruct (codegen_stmts body c0) as [?|]; [|exact I];
          destruct Hw as ((? & ?) & ?); cbn [aligned] in Ha
      end
  end.

Lemma codegen_stmt_aligned (s : Stmt) :
  literals_under_out s = true ->
  forall cg, 0 <= temp_counter cg ->
             aligned cg (literals_stmt s) (codegen_stmt s cg).
Proof.
  induction s as [v e|c t e IHt IHe|n e|e|e|c v body IHbody|c body IHbody|n a|n a]
    using Stmt_nested_ind; intros Hl cg H0;
    cbn [literals_under_out literals_stmt] in *.
  - cbn [codegen_stmt]. rewrite (no_literal_nil e Hl). run_quiet.
    destruct (0 <=? r); close_aligned.
  - apply andb_true_iff in Hl. destruct Hl as [Hl Hle].
    apply andb_true_iff in Hl. destruct Hl as [Hlc Hlt].
    cbn [codegen_stmt]. rewrite (no_literal_nil c Hlc). run_quiet.
    destruct (Z.ltb_spec r 0); [close_aligned|].
    cbn [next_temp next_label].
    destruct e as [else_s|]; destruct t as [then_s|]; try exact I.
    + run_aligned_arm (IHt then_s eq_refl Hlt) then_s.
      destruct (is_return then_s);
        run_aligned_arm (IHe else_s eq_refl Hle) else_s;
        destruct (is_return else_s); close_aligned.
    + run_aligned_arm (IHt then_s eq_refl Hlt) then_s.
      destruct (is_return then_s); close_aligned.
  - cbn [codegen_stmt]. rewrite (no_literal_nil e Hl). run_quiet.
    destruct (Z.ltb_spec r 0); [close_aligned|].
    destruct (0 <=? find_local cg0 n); close_aligned.
  - cbn [codegen_stmt]. rewrite (no_literal_nil e Hl). run_quiet.
    close_aligned.
  - cbn [codegen_stmt].
    destruct e;
      try (rewrite (no_literal_nil _ Hl); run_quiet;
           destruct (0 <=? r); close_aligned).
    cbn [literals_expr next_string next_temp]. close_aligned.
  - apply andb_true_iff in Hl. destruct Hl as [Hlc Hlb].
    rewrite codegen_stmt_repeat_eq. cbv zeta.
    rewrite (no_literal_nil c Hlc). run_quiet.
    destruct (Z.ltb_spec r 0); [close_aligned|].
    cbn [next_temp next_label].
    destruct v as [name|]; run_aligned_block IHbody Hlb; close_aligned.
  - apply andb_true_iff in Hl. destruct Hl as [Hlc Hlb].
    rewrite codegen_stmt_while_eq. cbv zeta. cbn [next_label].
    rewrite (no_literal_nil c Hlc). run_quiet.
    destruct (Z.ltb_spec r 0); [close_aligned|].
    cbn [next_temp].
    run_aligned_block IHbody Hlb. close_aligned.
  - cbn [codegen_stmt aligned]. intros _.
    destruct (codegen_incdec_quiet Fadd "inc" n a cg) as (new & Ho & Hr & Hs).
    exists new. rewrite Ho, Hr, Hs. cbn. split; [reflexivity|].
    split; [reflexivity|lia].
  - cbn [codegen_stmt aligned]. intros _.
    destruct (codegen_incdec_quiet Fsub "dec" n a cg) as (new & Ho & Hr & Hs).
    exists new. rewrite Ho, Hr, Hs. cbn. split; [reflexivity|].
    split; [reflexivity|lia].
Qed.

Lemma string_consts_table (strs : list string) (i : Z) :
  string_consts (string_table i strs) = numbered i strs
  /\ string_refs (string_table i strs) = [].
Proof.
  revert i. induction strs as [|s rest IH]; intro i; [split; reflexivity|].
  destruct (IH (i + 1)) as [H1 H2].
  cbn [string_table numbered]. unfold string_consts, string_refs in *.
  cbn [flat_map app]. rewrite H1, H2. split; reflexivity.
Qed.

(** The state in which the emitter starts the first function. *)
Lemma codegen_program_start (prog : Program) :
  exists cg0,
    codegen_program prog = codegen_funcs (functions prog) cg0
    /\ out cg0 = preamble ++ string_table 0 (literals_program prog)
                 ++ table_end (literals_program prog)
    /\ err cg0 = []
    /\ string_counter cg0 = 0.
Proof.
  unfold codegen_program. rewrite collect_strings_eq.
  set (c0 := emit_all codegen_create preamble).
  destruct (add_strings_fields (literals_program prog) c0)
    as (Ho1 & He1 & _ & Hs1 & Hl1).
  set (c1 := add_strings c0 (literals_program prog)) in *.
  assert (Hlit : string_literals c1 = literals_program prog)
    by (rewrite Hl1; reflexivity).
  rewrite Hlit.
  destruct (emit_string_table_fields (literals_program prog) 0 c1)
    as (Ho2 & He2 & _ & Hs2 & Hl2).
  set (c2 := emit_string_table 0 (literals_program prog) c1) in *.
  rewrite Hl2, Hlit.
  eexists. split; [reflexivity|].
  destruct (literals_program prog); cbn [out err string_counter emit table_end];
    rewrite Ho2, He2, Hs2, Ho1, He1, Hs1, ?app_nil_r, <- ?app_assoc;
    repeat split.
Qed.

Lemma codegen_func_aligned (f : FuncDef) (cg cg' : CodeGen) :
  forallb literals_under_out (func_body f) = true ->
  codegen_func f cg = Some cg' ->
  (exists msgs, err cg' = err cg ++ msgs)
  /\ (err cg' = err cg ->
      exists lines,
        out cg' = out cg ++ lines
        /\ string_refs lines
           = numbered (string_counter cg) (flat_map literals_stmt (func_body f))
        /\ string_consts lines = []
        /\ string_counter cg'
           = string_counter cg
             + Z.of_nat (List.length (flat_map literals_stmt (func_body f)))).
Proof.
  intros Hall H.
  destruct (codegen_func_lines f cg cg' H)
    as (body & Hout & _ & _ & _ & _ & _ & _ & _ & Hbody).
  unfold codegen_func in H.
  match goal with
  | H : context [codegen_stmts ?b ?c] |- _ =>
      name_state c;
      match type of H with
      | context [codegen_stmts b ?c0] =>
          assert (H0 : 0 <= temp_counter c0)
            by (rewrite Et; cbn [temp_counter set_params clear_locals]; lia);
          pose proof (codegen_stmts_aligned b
                        (proj2 (Forall_forall _ _)
                           (fun s _ => codegen_stmt_aligned s))
                        Hall c0 H0) as Ha;
          pose proof (writes_opt_err_temp _ _ (codegen_stmts_all_writes b c0))
            as Hw;
          destruct (codegen_stmts b c0) as [c1|]; [|discriminate H]
      end
  end.
  destruct Hw as ((msgs & He) & _). cbn [aligned] in Ha.
  cbn [err out string_counter set_params clear_locals emit] in Ee, Es, Eo.
  assert (Hfin : err cg' = err c1 /\ string_counter cg' = string_counter c1).
  { inversion H. destruct (existsb is_return (func_body f)); split; reflexivity. }
  destruct Hfin as [Hfe Hfs]. split.
  - exists msgs. rewrite Hfe, He, Ee. reflexivity.
  - intro Hsame. rewrite Hfe, He, Ee in Hsame. apply app_eq_self in Hsame.
    subst msgs. rewrite app_nil_r in He. destruct (Ha He) as (new & Ho & Hr & Hs).
    exists (define_line f :: ILabel L_entry :: body ++ [IFuncEnd]).
    split; [exact Hout|].
    assert (Hrefs : string_refs body = string_refs new).
    { inversion H as [Hcg]. rewrite <- Hcg in Hout.
      destruct (existsb is_return (func_body f));
        cbn [out set_params emit] in Hout; rewrite Ho, Eo in Hout;
        rewrite <- !app_assoc in Hout; cbn [app] in Hout;
        apply app_inv_head in Hout; inversion Hout as [Hb].
      - apply app_inv_tail in Hb. subst body. reflexivity.
      - change (new ++ IRet (Const d0) :: [IFuncEnd])
          with (new ++ [IRet (Const d0)] ++ [IFuncEnd]) in Hb.
        rewrite app_assoc in Hb. apply app_inv_tail in Hb. subst body.
        rewrite string_refs_app. cbn. rewrite app_nil_r. reflexivity. }
    split.
    + unfold define_line. rewrite !string_refs_cons, string_refs_app.
      cbn [app]. rewrite Hrefs, Hr, Es. cbn. rewrite app_nil_r. reflexivity.
    + split.
      * unfold define_line, string_consts. cbn [flat_map app].
        rewrite flat_map_app. fold (string_consts body).
        rewrite (no_consts body Hbody). reflexivity.
      * rewrite Hfs, Hs, Es. reflexivity.
Qed.

Lemma codegen_funcs_aligned (fs : list FuncDef) :
  forallb (fun f => forallb literals_under_out (func_body f)) fs = true ->
  forall cg cg',
    codegen_funcs fs cg = Some cg' ->
    (exists msgs, err cg' = err cg ++ msgs)
    /\ (err cg' = err cg ->
        exists lines,
          out cg' = out cg ++ lines
          /\ string_refs lines
             = numbered (string_counter cg)
                        (flat_map (fun f => flat_map literals_stmt (func_body f)) fs)
          /\ string_consts lines = []).
Proof.
  induction fs as [|f rest IH]; cbn [forallb codegen_funcs flat_map];
    intros Hall cg cg' H.
  - inversion H; subst. split; [exists []; rewrite app_nil_r; reflexivity|].
    intros _. exists []. rewrite app_nil_r. repeat split.
  - apply andb_true_iff in Hall. destruct Hall as [H1 H2].
    destruct (codegen_func f cg) as [cg1|] eqn:Hf; [|discriminate H].
    destruct (codegen_func_aligned f cg cg1 H1 Hf) as ((m1 & He1) & Ha1).
    destruct (IH H2 cg1 cg' H) as ((m2 & He2) & Ha2).
    split; [exists (m1 ++ m2); rewrite He2, He1, app_assoc; reflexivity|].
    intro Hsame. rewrite He2, He1, <- app_assoc in Hsame.
    apply app_eq_self in Hsame. apply app_eq_nil in Hsame.
    destruct Hsame; subst m1 m2. rewrite app_nil_r in He1, He2.
    destruct (Ha1 He1) as (l1 & Ho1 & Hr1 & Hc1 & Hs1).
    destruct (Ha2 He2) as (l2 & Ho2 & Hr2 & Hc2).
    exists (l1 ++ l2). rewrite Ho2, Ho1, app_assoc.
    split; [reflexivity|].
    rewrite string_refs_app, string_consts_app, Hr1, Hr2, Hc1, Hc2, Hs1,
      numbered_app.
    split; reflexivity.
Qed.

(** X19.  When every string literal of the program is the operand of an
    [out] and the emitter writes no diagnostic, the string references of
    the output and the string constants of its table agree one by one, in
    number and in length: the k-th [out] of a literal refers to the k-th
    constant, which holds that literal. *)
Theorem X19_string_references_match_the_table (prog : Program) (cg : CodeGen) :
  forallb (fun f => forallb literals_under_out (func_body f)) (functions prog)
  = true ->
  codegen_program prog = Some cg ->
  err cg = [] ->
  string_refs (out cg) = numbered 0 (literals_program prog)
  /\ string_consts (out cg) = numbered 0 (literals_program prog).
Proof.
  intros Hall H Herr.
  destruct (codegen_program_start prog) as (cg0 & E & Ho & He & Hs).
  rewrite E in H.
  destruct (codegen_funcs_aligned _ Hall cg0 cg H) as (_ & Ha).
  rewrite He in Ha. destruct (Ha Herr) as (lines & Hout & Hr & Hc).
  change (flat_map (fun f => flat_map literals_stmt (func_body f))
                   (functions prog))
    with (literals_program prog) in Hr.
  destruct (string_consts_table (literals_program prog) 0) as [Ht1 Ht2].
  assert (Hp : string_refs preamble = [] /\ string_consts preamble = [])
    by (split; reflexivity).
  destruct Hp as [Hp1 Hp2].
  assert (Hend : string_refs (table_end (literals_program prog)) = []
                 /\ string_consts (table_end (literals_program prog)) = [])
    by (destruct (literals_program prog); split; reflexivity).
  destruct Hend as [Hend1 Hend2].
  rewrite Hout, Ho, !string_refs_app, !string_consts_app, Hr, Hc, Ht1, Ht2, Hs,
    Hp1, Hp2, Hend1, Hend2.
  cbn [app]. rewrite ?app_nil_r. split; reflexivity.
Qed.

Lemma X19_string_references_witness :
  exists cg,
    codegen_program prog_count = Some cg
    /\ err cg = []
    /\ string_refs (out cg) = numbered 0 (literals_program prog_count)
    /\ string_consts (out cg) = numbered 0 (literals_program prog_count).
Proof.
  destruct (codegen_program prog_count) as [cg|] eqn:E;
    [|vm_compute in E; discriminate E].
  assert (Herr : err cg = [])
    by (vm_compute in E; inversion E; reflexivity).
  exists cg. split; [reflexivity|]. split; [exact Herr|].
  exact (X19_string_references_match_the_table prog_count cg eq_refl E Herr).
Defined.

(** A literal that is not the operand of an [out] takes a number in the
    table but not among the references: here the reference of
    [out "bc"] has number 0 and length 3, and constant 0 is ["a"], of
    length 2. *)
Example string_reference_off_after_other_literal :
  exists cg,
    codegen_program prog_let_literal = Some cg
    /\ err cg = []
    /\ string_refs (out cg) = [(0, 3)]
    /\ string_consts (out cg) = [(0, 2); (1, 3)].
Proof.
  eexists. split; [vm_compute; reflexivity|].
  split; [reflexivity|]. split; vm_compute; reflexivity.
Qed.

(** ** Names and escapes in the text of the output *)

Lemma string_of_Z_inj (a b : Z) : string_of_Z a = string_of_Z b -> a = b.
Proof.
  unfold string_of_Z. intro H.
  assert (Hn : forall z, Z.to_int z <> Decimal.Pos Decimal.Nil
                         /\ Z.to_int z <> Decimal.Neg Decimal.Nil).
  { intro z. destruct z as [|p|p]; cbn [Z.to_int]; split; try discriminate;
      intro E; inversion E as [E'];
      exact (DecimalPos.Unsigned.to_uint_nonnil p E'). }
  apply (f_equal NilZero.int_of_string) in H.
  rewrite !NilZero.isi in H by apply Hn.
  inversion H as [H']. apply DecimalZ.to_int_inj. exact H'.
Qed.

Lemma escape_bytes_cons (c : ascii) (rest : string) :
  escape_bytes (String c rest) = (escape_byte c ++ escape_bytes rest)%string.
Proof. reflexivity. Qed.

Lemma escape_byte_spec (c : ascii) (rest : string) :
  unescape_bytes (escape_byte c ++ rest) = String c (unescape_bytes rest)
  /\ all_plain (escape_byte c ++ rest) = all_plain rest.
Proof.
  destruct c as [[] [] [] [] [] [] [] []]; split; reflexivity.
Qed.

Lemma unescape_escape (s : string) : unescape_bytes (escape_bytes s) = s.
Proof.
  induction s as [|c rest IH]; [reflexivity|].
  rewrite escape_bytes_cons, (proj1 (escape_byte_spec c _)), IH. reflexivity.
Qed.

(** X20.  Names in the text of the output are faithful: the decimal form
    of two different numbers differs, so two different temporaries have
    different names, and two different block labels have different
    names. *)
Theorem X20_names_in_the_text_are_distinct :
  (forall a b, string_of_Z a = string_of_Z b -> a = b)
  /\ (forall r r', temp_name r = temp_name r' -> r = r')
  /\ (forall l l', label_name l = label_name l' -> l = l').
Proof.
  split; [exact string_of_Z_inj|]. split.
  - intros r r' H. unfold temp_name in H. cbn [append] in H.
    apply string_of_Z_inj. congruence.
  - intros l l' H.
    destruct l, l'; cbn [label_name append] in H;
      first [ reflexivity
            | f_equal; apply string_of_Z_inj; congruence
            | exfalso; congruence
            | exfalso; destruct (string_of_Z k); congruence ].
Qed.

(** X21.  The bytes of a string constant are written without loss and
    cannot end the constant early: the text holds only printable ASCII
    characters and no double quote, and reading its escapes back (a
    backslash and two hexadecimal digits are one byte) gives the literal;
    so two different literals are written differently. *)
Theorem X21_string_constants_are_escaped_faithfully :
  (forall s, all_plain (escape_bytes s) = true)
  /\ (forall s, unescape_bytes (escape_bytes s) = s)
  /\ (forall s s', escape_bytes s = escape_bytes s' -> s = s').
Proof.
  split; [|split].
  - induction s as [|c rest IH]; [reflexivity|].
    rewrite escape_bytes_cons, (proj2 (escape_byte_spec c _)). exact IH.
  - exact unescape_escape.
  - intros s s' H. rewrite <- (unescape_escape s), <- (unescape_escape s'), H.
    reflexivity.
Qed.

(** ** Operators from the keyword table to the emitter *)

Lemma lookup_keyword_word (w : string) (k : TokenType) :
  lookup_keyword w = k -> k <> TOK_IDENT -> In (w, k) keywords.
Proof.
  intros H Hk. unfold lookup_keyword in H.
  destruct (lookup_keyword_in_found keywords w) as [E|E].
  - congruence.
  - rewrite H in E. exact E.
Qed.

(** The tokens of the lexer are in order. *)
Lemma lexeme_ok_operator (t : Token) : lexeme_ok t -> operator_ok t.
Proof.
  intros H Hin. unfold lexeme_ok in H.
  unfold lexeme_operators, multiplicative_ops, additive_ops, comparison_ops in Hin.
  cbn [app In] in Hin.
  repeat (destruct Hin as [Hin|Hin];
          [ rewrite <- Hin in H; destruct H as [_ H];
            apply lookup_keyword_word in H; [|discriminate];
            cbn [keywords In] in H;
            repeat (destruct H as [H|H];
                    [inversion H; discriminate|]);
            destruct H
          | ]).
  destruct Hin.
Qed.

Lemma advance_ok (p : Parser) :
  Forall operator_ok p -> Forall operator_ok (snd (parser_advance p)).
Proof.
  intro H. unfold parser_advance. destruct (parser_at_end p); cbn [snd].
  - exact H.
  - destruct p as [|t rest]; [exact H|]. inversion H. assumption.
Qed.

Lemma match_ok (p : Parser) (T : TokenType) :
  Forall operator_ok p -> Forall operator_ok (snd (parser_match p T)).
Proof.
  intro H. unfold parser_match. destruct (parser_check p T); cbn [snd].
  - apply advance_ok. exact H.
  - exact H.
Qed.

Lemma expect_ok (p : Parser) (T : TokenType) (t : Token) (p' : Parser) :
  Forall operator_ok p -> parser_expect p T = Some (t, p') ->
  Forall operator_ok p'.
Proof.
  intros H E. unfold parser_expect in E.
  destruct (parser_check p T); [|discriminate].
  pose proof (advance_ok p H) as Ha.
  injection E as E. rewrite E in Ha. exact Ha.
Qed.

Lemma current_ok (p : Parser) (ops : list TokenType) :
  Forall operator_ok p -> check_any p ops = true ->
  incl ops lexeme_operators ->
  classify_binop (value (fst (parser_advance p))) <> OpUnknown.
Proof.
  intros H Hc Hincl.
  assert (Hcur : fst (parser_advance p) = parser_current p)
    by (unfold parser_advance; destruct (parser_at_end p); reflexivity).
  rewrite Hcur. unfold check_any in Hc. apply existsb_exists in Hc.
  destruct Hc as (T & HT & Hcheck). unfold parser_check in Hcheck.
  apply tok_eqb_eq in Hcheck.
  destruct p as [|t rest].
  - cbn in Hcheck. subst T. apply Hincl in HT.
    unfold lexeme_operators, multiplicative_ops, additive_ops,
      comparison_ops in HT.
    cbn in HT. repeat (destruct HT as [HT|HT]; [discriminate HT|]).
    destruct HT.
  - cbn [parser_current hd] in *. inversion H as [|? ? Ht _]. subst.
    apply Ht. apply Hincl. exact HT.
Qed.

Lemma parsed_ok_bind {A B : Type} (g1 : A -> bool) (g2 : B -> bool)
    (m : presult A) (k : A -> Parser -> presult B) :
  parsed_ok g1 m ->
  (forall x p, g1 x = true -> Forall operator_ok p -> parsed_ok g2 (k x p)) ->
  parsed_ok g2 (pbind m k).
Proof.
  intros Hm Hk. destruct m as [x p|p|]; cbn [pbind parsed_ok] in *;
    [|exact Hm|exact I].
  destruct Hm as [Hx Hp]. exact (Hk x p Hx Hp).
Qed.

Lemma parse_primary_ok (p : Parser) :
  Forall operator_ok p -> parsed_ok ops_known (parse_primary p).
Proof.
  intro H. pose proof (advance_ok p H) as Ha. unfold parse_primary.
  destruct (parser_advance p) as [t p1]. cbn [snd] in Ha.
  repeat match goal with
  | |- context [if ?c then _ else _] => destruct c
  end; cbn [parsed_ok ops_known]; first [exact H | split; trivial].
Qed.

Lemma unary_level_ok (fuel : nat) :
  (forall p, Forall operator_ok p -> parsed_ok ops_known (parse_unary fuel p))
  /\ (forall p, Forall operator_ok p -> parsed_ok ops_known (parse_call fuel p))
  /\ (forall acc p, forallb ops_known acc = true -> Forall operator_ok p ->
                    parsed_ok (forallb ops_known) (parse_call_args fuel acc p)).
Proof.
  induction fuel as [|fuel (IHu & IHc & IHa)].
  { repeat split; intros; exact I. }
  split; [|split].
  - intros p H. cbn [parse_unary].
    destruct (parser_check p TOK_NOT).
    { apply (parsed_ok_bind ops_known); [apply IHu, advance_ok, H|].
      intros x p1 Hx Hp1. cbn [parsed_ok ops_known]. rewrite Hx.
      split; [reflexivity|exact Hp1]. }
    destruct (parser_check p TOK_NEG).
    { apply (parsed_ok_bind ops_known); [apply IHu, advance_ok, H|].
      intros x p1 Hx Hp1. cbn [parsed_ok ops_known]. rewrite Hx.
      split; [reflexivity|exact Hp1]. }
    apply IHc. exact H.
  - intros p H. cbn [parse_call].
    destruct (parser_check p TOK_CALL).
    { destruct (parser_expect _ TOK_IDENT) as [[ft p1]|] eqn:E;
        [|exact (advance_ok p H)].
      apply (parsed_ok_bind (forallb ops_known)).
      - apply IHa; [reflexivity|].
        exact (expect_ok _ _ _ _ (advance_ok p H) E).
      - intros args p2 Hargs Hp2. cbn [parsed_ok ops_known].
        split; [exact Hargs|exact Hp2]. }
    destruct (is_module_token p).
    { pose proof (advance_ok p H) as Ha.
      destruct (parser_advance p) as [mt p0]. cbn [snd] in Ha.
      destruct (parser_expect p0 TOK_IDENT) as [[ft p1]|] eqn:E;
        [|exact Ha].
      apply (parsed_ok_bind (forallb ops_known)).
      - apply IHa; [reflexivity|]. exact (expect_ok _ _ _ _ Ha E).
      - intros args p2 Hargs Hp2. cbn [parsed_ok ops_known].
        split; [exact Hargs|exact Hp2]. }
    apply parse_primary_ok. exact H.
  - intros acc p Hacc H. cbn [parse_call_args].
    destruct (is_end_of_expr p); [split; assumption|].
    apply (parsed_ok_bind ops_known); [apply IHu, H|].
    intros arg p1 Harg Hp1. apply IHa; [|exact Hp1].
    rewrite forallb_app, Hacc. cbn. rewrite Harg. reflexivity.
Qed.

Lemma parse_unary_ok (fuel : nat) (p : Parser) :
  Forall operator_ok p -> parsed_ok ops_known (parse_unary fuel p).
Proof. apply unary_level_ok. Qed.

(** One binary level: its loop, given the level below. *)
Ltac binary_loop_ok sub_ok :=
  let n := fresh "fuel" in
  intro n; induction n as [|? IH]; intros left p Hl H; [exact I|];
  match goal with
  | |- parsed_ok _ (?loop _ _ _) => cbn [loop]
  end;
  match goal with
  | |- context [check_any p ?ops] =>
      destruct (check_any p ops) eqn:E; [|split; assumption];
      assert (Hop : classify_binop (value (fst (parser_advance p)))
                    <> OpUnknown)
        by (apply (current_ok p ops H E); unfold lexeme_operators;
            intros x Hx; rewrite !in_app_iff; tauto);
      pose proof (advance_ok p H) as Ha;
      destruct (parser_advance p) as [op_tok p1]; cbn [fst snd] in Hop, Ha;
      apply (parsed_ok_bind ops_known); [apply sub_ok; exact Ha|];
      intros right p2 Hr Hp2; apply IH; [|exact Hp2];
      cbn [ops_known]; rewrite Hl, Hr;
      destruct (classify_binop (value op_tok));
      first [reflexivity|contradiction Hop; reflexivity]
  end.

Ltac binary_level_ok sub_ok loop_ok :=
  intros H;
  match goal with
  | |- parsed_ok _ (?level _ _) => unfold level
  end;
  apply (parsed_ok_bind ops_known); [apply sub_ok; exact H|];
  intros left p1 Hl Hp1; apply loop_ok; assumption.

Lemma parse_multiplicative_loop_ok :
  forall fuel left p, ops_known left = true -> Forall operator_ok p ->
    parsed_ok ops_known (parse_multiplicative_loop fuel left p).
Proof. binary_loop_ok parse_unary_ok. Qed.

Lemma parse_multiplicative_ok (fuel : nat) (p : Parser) :
  Forall operator_ok p -> parsed_ok ops_known (parse_multiplicative fuel p).
Proof. binary_level_ok parse_unary_ok parse_multiplicative_loop_ok. Qed.

Lemma parse_additive_loop_ok :
  forall fuel left p, ops_known left = true -> Forall operator_ok p ->
    parsed_ok ops_known (parse_additive_loop fuel left p).
Proof. binary_loop_ok parse_multiplicative_ok. Qed.

Lemma parse_additive_ok (fuel : nat) (p : Parser) :
  Forall operator_ok p -> parsed_ok ops_known (parse_additive fuel p).
Proof. binary_level_ok parse_multiplicative_ok parse_additive_loop_ok. Qed.

Lemma parse_comparison_loop_ok :
  forall fuel left p, ops_known left = true -> Forall operator_ok p ->
    parsed_ok ops_known (parse_comparison_loop fuel left p).
Proof. binary_loop_ok parse_additive_ok. Qed.

Lemma parse_comparison_ok (fuel : nat) (p : Parser) :
  Forall operator_ok p -> parsed_ok ops_known (parse_comparison fuel p).
Proof. binary_level_ok parse_additive_ok parse_comparison_loop_ok. Qed.

Lemma parse_and_loop_ok (fuel : nat) :
  forall left p, ops_known left = true -> Forall operator_ok p ->
    parsed_ok ops_known (parse_and_loop fuel left p).
Proof.
  induction fuel as [|fuel IH]; intros left p Hl H; [exact I|].
  cbn [parse_and_loop]. pose proof (match_ok p TOK_AND H) as Hm.
  destruct (parser_match p TOK_AND) as [matched p1]. cbn [snd] in Hm.
  destruct matched; [|split; assumption].
  apply (parsed_ok_bind ops_known); [apply parse_comparison_ok; exact Hm|].
  intros right p2 Hr Hp2. apply IH; [|exact Hp2].
  cbn [ops_known]. rewrite Hl, Hr. reflexivity.
Qed.

Lemma parse_and_ok (fuel : nat) (p : Parser) :
  Forall operator_ok p -> parsed_ok ops_known (parse_and fuel p).
Proof. binary_level_ok parse_comparison_ok parse_and_loop_ok. Qed.

Lemma parse_or_loop_ok (fuel : nat) :
  forall left p, ops_known left = true -> Forall operator_ok p ->
    parsed_ok ops_known (parse_or_loop fuel left p).
Proof.
  induction fuel as [|fuel IH]; intros left p Hl H; [exact I|].
  cbn [parse_or_loop].
  destruct (parser_check p TOK_OR && negb (parser_at_end_of_line p));
    [|split; assumption].
  apply (parsed_ok_bind ops_known);
    [apply parse_and_ok; apply advance_ok; exact H|].
  intros right p2 Hr Hp2. apply IH; [|exact Hp2].
  cbn [ops_known]. rewrite Hl, Hr. reflexivity.
Qed.

Lemma parse_expr_ok (fuel : nat) (p : Parser) :
  Forall operator_ok p -> parsed_ok ops_known (parse_expr fuel p).
Proof.
  intro H. unfold parse_expr, parse_or.
  apply (parsed_ok_bind ops_known); [apply parse_and_ok; exact H|].
  intros left p1 Hl Hp1. apply parse_or_loop_ok; assumption.
Qed.

Lemma skip_newlines_ok (p : Parser) :
  Forall operator_ok p -> Forall operator_ok (parser_skip_newlines p).
Proof.
  induction 1 as [|t rest Ht Hrest IH]; cbn [parser_skip_newlines].
  - constructor.
  - destruct (tok_eqb (ttype t) TOK_NEWLINE); [exact IH|].
    constructor; assumption.
Qed.

Lemma ret_variant_ok (p : Parser) :
  Forall operator_ok p -> Forall operator_ok (snd (parse_ret_variant p)).
Proof.
  intro H. unfold parse_ret_variant.
  pose proof (match_ok p TOK_OK H) as H1.
  destruct (parser_match p TOK_OK) as [is_ok p1]. cbn [snd] in H1.
  destruct is_ok; [exact H1|].
  pose proof (match_ok p1 TOK_ERR H1) as H2.
  destruct (parser_match p1 TOK_ERR) as [is_err p2]. cbn [snd] in H2.
  destruct is_err; exact H2.
Qed.

Lemma parse_params_ok (p : Parser) :
  Forall operator_ok p -> Forall operator_ok (snd (parse_params p)).
Proof.
  induction 1 as [|t rest Ht Hrest IH]; cbn [parse_params].
  - constructor.
  - destruct (negb (parser_at_end_of_line (t :: rest))
              && parser_check (t :: rest) TOK_IDENT).
    + destruct (parse_params rest) as [names p1]. exact IH.
    + constructor; assumption.
Qed.

Lemma skip_type_fields_ok (p : Parser) :
  Forall operator_ok p -> Forall operator_ok (skip_type_fields p).
Proof.
  induction 1 as [|t rest Ht Hrest IH]; cbn [skip_type_fields].
  - constructor.
  - destruct (negb (parser_at_end_of_line (t :: rest))
              && (is_type_token (t :: rest)
                  || parser_check (t :: rest) TOK_IDENT)).
    + exact IH.
    + constructor; assumption.
Qed.

Lemma unchecked_ok {A : Type} (good : A -> bool) (m : presult A) :
  parsed_ok good m -> parsed_ok (opt_good good) (unchecked m).
Proof.
  destruct m as [x p|p|]; cbn [unchecked parsed_ok opt_good]; intro H.
  - exact H.
  - split; [reflexivity|exact H].
  - exact I.
Qed.

Lemma block_carrier_ok (stmts : list Stmt) :
  forallb ops_known_stmt stmts = true ->
  opt_good ops_known_stmt (block_carrier stmts) = true.
Proof.
  destruct stmts as [|s rest]; cbn; [reflexivity|].
  intro H. apply andb_true_iff in H. apply H.
Qed.

(** The state reached by the steps that only move over tokens. *)
Ltac ok_state :=
  repeat first
    [ assumption
    | apply advance_ok
    | apply match_ok
    | apply skip_newlines_ok
    | apply ret_variant_ok
    | apply parse_params_ok
    | apply skip_type_fields_ok
    | match goal with
      | |- Forall operator_ok (if ?c then _ else _) => destruct c
      | E : parser_expect ?p ?T = Some (_, ?q) |- Forall operator_ok ?q =>
          refine (expect_ok p T _ q _ E)
      end ].

Ltac good_node :=
  cbn [ops_known_stmt ops_known opt_good forallb];
  repeat match goal with
  | H : ops_known _ = true |- _ => rewrite H
  | H : ops_known_stmt _ = true |- _ => rewrite H
  | H : opt_good _ _ = true |- _ => rewrite H
  | H : forallb _ _ = true |- _ => rewrite H
  end;
  reflexivity.

(** One step through the body of a parsing function. *)
Ltac parse_step :=
  match goal with
  | |- parsed_ok _ (POk _ _) => split; [good_node|solve [ok_state]]
  | |- parsed_ok _ (PFail _) => cbn [parsed_ok]; solve [ok_state]
  | |- parsed_ok _ (if ?c then _ else _) => destruct c
  | |- parsed_ok _ (let (_, _) := ?m in _) =>
      let H := fresh "Hstate" in
      assert (H : Forall operator_ok (snd m)) by ok_state;
      destruct m; cbn [snd] in H
  | |- parsed_ok _ (match parser_expect ?p ?T with _ => _ end) =>
      let E := fresh "E" in
      destruct (parser_expect p T) as [[? ?]|] eqn:E
  | |- parsed_ok _ (pbind (parse_expr _ _) _) =>
      apply (parsed_ok_bind ops_known);
      [apply parse_expr_ok; solve [ok_state]|intros ? ? ? ?]
  | |- parsed_ok _ (pbind (parse_comparison _ _) _) =>
      apply (parsed_ok_bind ops_known);
      [apply parse_comparison_ok; solve [ok_state]|intros ? ? ? ?]
  | |- parsed_ok _ (pbind (parse_primary _) _) =>
      apply (parsed_ok_bind ops_known);
      [apply parse_primary_ok; solve [ok_state]|intros ? ? ? ?]
  | |- parsed_ok _ (pbind (unchecked (parse_expr _ _)) _) =>
      apply (parsed_ok_bind (opt_good ops_known));
      [apply unchecked_ok, parse_expr_ok; solve [ok_state]|intros ? ? ? ?]
  end.

Lemma parse_inline_stmt_ok (fuel : nat) (p : Parser) :
  Forall operator_ok p -> parsed_ok ops_known_stmt (parse_inline_stmt fuel p).
Proof.
  intro H. unfold parse_inline_stmt. repeat parse_step.
Qed.

Lemma statement_level_ok (fuel : nat) :
  (forall p, Forall operator_ok p ->
             parsed_ok ops_known_stmt (parse_stmt fuel p))
  /\ (forall stop acc p,
        forallb ops_known_stmt acc = true -> Forall operator_ok p ->
        parsed_ok (forallb ops_known_stmt) (parse_block fuel stop acc p)).
Proof.
  induction fuel as [|fuel [IHs IHb]]; [split; intros; exact I|].
  assert (Hblock : forall stop p (k : list Stmt -> Parser -> presult Stmt),
            Forall operator_ok p ->
            (forall body q, forallb ops_known_stmt body = true ->
                            Forall operator_ok q ->
                            parsed_ok ops_known_stmt (k body q)) ->
            parsed_ok ops_known_stmt (pbind (parse_block fuel stop [] p) k)).
  { intros stop p k Hp Hk.
    apply (parsed_ok_bind (forallb ops_known_stmt));
      [apply IHb; [reflexivity|exact Hp]|exact Hk]. }
  split.
  - intros p H. cbn [parse_stmt].
    destruct (parser_check p TOK_RET); [repeat parse_step|].
    destruct (parser_check p TOK_OUT); [repeat parse_step|].
    destruct (parser_check p TOK_INC); [repeat parse_step|].
    destruct (parser_check p TOK_DEC); [repeat parse_step|].
    destruct (parser_check p TOK_IF).
    { parse_step. destruct (parser_check _ TOK_NEWLINE).
      - apply Hblock; [ok_state|]. intros then_block p3 Hthen Hp3.
        pose proof (block_carrier_ok then_block Hthen) as Hcarrier.
        cbv zeta.
        apply (parsed_ok_bind (opt_good ops_known_stmt)).
        + parse_step. parse_step; [|parse_step].
          destruct (parser_check _ TOK_IF).
          * apply unchecked_ok, IHs. ok_state.
          * apply (parsed_ok_bind (forallb ops_known_stmt));
              [apply IHb; [reflexivity|ok_state]|].
            intros else_block q3 Helse Hq3.
            split; [exact (block_carrier_ok else_block Helse)|exact Hq3].
        + intros else_stmt p4 Helse Hp4. split; [|ok_state].
          cbn [ops_known_stmt]. change (opt_good ops_known_stmt
            (block_carrier then_block) = true) in Hcarrier.
          unfold opt_good in Hcarrier, Helse.
          rewrite H0, Hcarrier, Helse. reflexivity.
      - apply (parsed_ok_bind ops_known_stmt);
          [apply parse_inline_stmt_ok; assumption|].
        intros then_stmt p2 Hthen Hp2. parse_step.
        parse_step; [|parse_step].
        destruct (parser_check _ TOK_IF).
        + apply (parsed_ok_bind (opt_good ops_known_stmt));
            [apply unchecked_ok, IHs; assumption|].
          intros else_stmt p4 Helse Hp4. split; [|exact Hp4].
          cbn [ops_known_stmt]. unfold opt_good in Helse.
          rewrite H0, Hthen, Helse. reflexivity.
        + apply (parsed_ok_bind (opt_good ops_known_stmt));
            [apply unchecked_ok, parse_inline_stmt_ok; assumption|].
          intros else_stmt p4 Helse Hp4. split; [|ok_state].
          cbn [ops_known_stmt]. unfold opt_good in Helse.
          rewrite H0, Hthen, Helse. reflexivity. }
    destruct (parser_check p TOK_LET); [repeat parse_step|].
    destruct (parser_check p TOK_REPEAT).
    { parse_step. parse_step; [|parse_step]. parse_step.
      destruct b.
      - destruct (parser_expect _ TOK_IDENT) as [[var_tok p4]|] eqn:E';
          [|parse_step].
        apply Hblock; [ok_state|]. intros body p6 Hbody Hp6.
        repeat parse_step.
      - apply Hblock; [ok_state|]. intros body p6 Hbody Hp6.
        repeat parse_step. }
    destruct (parser_check p TOK_WHILE).
    { parse_step. cbv zeta.
      apply Hblock; [ok_state|]. intros body p3 Hbody Hp3.
      repeat parse_step. }
    repeat parse_step.
  - intros stop acc p Hacc H. cbn [parse_block].
    destruct (negb (parser_at_end p) && negb (stop p)); [|split; assumption].
    parse_step. destruct b; [apply IHb; assumption|].
    apply (parsed_ok_bind ops_known_stmt); [apply IHs; exact H|].
    intros stmt p2 Hstmt Hp2. apply IHb; [|ok_state].
    rewrite forallb_app, Hacc. cbn. rewrite Hstmt. reflexivity.
Qed.

Lemma parse_func_def_ok (fuel : nat) (p : Parser) :
  Forall operator_ok p -> parsed_ok ops_known_func (parse_func_def fuel p).
Proof.
  intro H. unfold parse_func_def. cbv zeta.
  parse_step; [|parse_step]. parse_step.
  apply (parsed_ok_bind (forallb ops_known_stmt)).
  - apply statement_level_ok; [reflexivity|ok_state].
  - intros body p4 Hbody Hp4. split; [exact Hbody|exact Hp4].
Qed.

Lemma parse_type_def_ok (p : Parser) :
  Forall operator_ok p -> parsed_ok (fun _ => true) (parse_type_def p).
Proof.
  intro H. unfold parse_type_def. cbv zeta.
  parse_step; [|parse_step]. parse_step.
  destruct b; split; try reflexivity; ok_state.
Qed.

Lemma parser_parse_loop_ok (fuel : nat) :
  forall prog p,
    ops_known_program prog = true -> Forall operator_ok p ->
    parsed_ok ops_known_program (parser_parse_loop fuel prog p).
Proof.
  induction fuel as [|fuel IH]; intros prog p Hprog H; [exact I|].
  cbn [parser_parse_loop].
  destruct (parser_at_end p); [split; assumption|].
  destruct (parser_check p TOK_TYPE).
  { apply (parsed_ok_bind (fun _ => true)); [apply parse_type_def_ok, H|].
    intros type_def p1 _ Hp1. apply IH; [exact Hprog|ok_state]. }
  destruct (parser_check p TOK_FN).
  { apply (parsed_ok_bind ops_known_func); [apply parse_func_def_ok, H|].
    intros func_def p1 Hf Hp1. apply IH; [|ok_state].
    unfold ops_known_program in *. cbn [functions].
    rewrite forallb_app, Hprog. cbn. rewrite Hf. reflexivity. }
  destruct (parser_check p TOK_NEWLINE); [apply IH; [exact Hprog|ok_state]|].
  exact H.
Qed.

(** The operators of a program read from a source text are known to the
    emitter. *)
Lemma front_end_ops_known (src : string) (prog : Program) :
  front_end src = Some prog -> ops_known_program prog = true.
Proof.
  unfold front_end. intro H.
  destruct (lexer_tokenize src) as [lx| |] eqn:El; try discriminate H.
  destruct (lexer_tokenize_spec src lx El) as (toks & E & _ & Hx & _ & _).
  assert (Hok : Forall operator_ok (ltokens lx)).
  { rewrite E. apply Forall_app. split.
    - apply Forall_forall. intros t Ht. apply lexeme_ok_operator.
      rewrite Forall_forall in Hx. exact (Hx t Ht).
    - constructor; [|constructor]. apply lexeme_ok_operator. reflexivity. }
  pose proof (parser_parse_loop_ok (parse_fuel (ltokens lx))
                {| types := []; functions := [] |}
                (parser_skip_newlines (ltokens lx)) eq_refl
                (skip_newlines_ok _ Hok)) as Hp.
  unfold parser_parse in H.
  destruct (parser_parse_loop _ _ _) as [prog' p'| |]; try discriminate H.
  inversion H. subst. apply Hp.
Qed.

(** The fields that the steps of the emitter leave as they are. *)
Ltac err_fields :=
  cbn [err emit report next_temp next_label next_string set_locals add_local
       bump_local_count set_params clear_locals fst snd] in *.

Lemma report_unknown (msgs : list string) (msg : string) :
  Forall unknown_variable_message msgs ->
  unknown_variable_message msg ->
  Forall unknown_variable_message (msgs ++ [msg]).
Proof.
  intros H Hm. apply Forall_app. split; [exact H|].
  constructor; [exact Hm|constructor].
Qed.

Lemma codegen_exprs_messages (args : list Expr) :
  Forall (fun e => ops_known e = true ->
                   forall cg, Forall unknown_variable_message (err cg) ->
                     Forall unknown_variable_message
                            (err (snd (codegen_expr e cg)))) args ->
  forallb ops_known args = true ->
  forall cg, Forall unknown_variable_message (err cg) ->
    Forall unknown_variable_message (err (snd (codegen_exprs args cg))).
Proof.
  induction 1 as [|e rest He _ IH]; cbn [forallb codegen_exprs];
    intros Hall cg Hcg.
  - exact Hcg.
  - apply andb_true_iff in Hall. destruct Hall as [H1 H2].
    specialize (He H1 cg Hcg). destruct (codegen_expr e cg) as [r cg1].
    specialize (IH H2 cg1 He). destruct (codegen_exprs rest cg1) as [rs cg2].
    exact IH.
Qed.

(** Lowering an expression whose operators are known adds only
    diagnostics about unknown variables. *)
Lemma codegen_expr_messages (e : Expr) :
  ops_known e = true ->
  forall cg, Forall unknown_variable_message (err cg) ->
    Forall unknown_variable_message (err (snd (codegen_expr e cg))).
Proof.
  induction e as [v|s|b|n|i|op l r IHl IHr|op e IHe|m f args IHargs]
    using Expr_nested_ind; intros Hk cg Hcg.
  - exact Hcg.
  - exact Hcg.
  - exact Hcg.
  - cbn [codegen_expr].
    destruct (0 <=? find_local cg n); [exact Hcg|].
    destruct (0 <=? find_param cg n); [exact Hcg|].
    apply report_unknown; [exact Hcg|]. exists n. left. reflexivity.
  - exact Hcg.
  - cbn [codegen_expr ops_known] in *.
    apply andb_true_iff in Hk. destruct Hk as [Hk Hr].
    apply andb_true_iff in Hk. destruct Hk as [Hop Hl].
    specialize (IHl Hl cg Hcg). destruct (codegen_expr l cg) as [lr cg1].
    specialize (IHr Hr cg1 IHl). destruct (codegen_expr r cg1) as [rr cg2].
    destruct ((lr <? 0) || (rr <? 0)); [exact IHr|].
    destruct (classify_binop op); first [exact IHr|discriminate Hop].
  - cbn [codegen_expr ops_known] in *.
    apply andb_true_iff in Hk. destruct Hk as [_ He].
    specialize (IHe He cg Hcg). destruct (codegen_expr e cg) as [er cg1].
    destruct (er <? 0); [exact IHe|].
    destruct (String.eqb op "not"); [exact IHe|].
    destruct (String.eqb op "neg"); exact IHe.
  - rewrite codegen_expr_call_eq. cbn [ops_known] in Hk.
    destruct m as [m|].
    + cbv zeta. cbn [next_temp].
      destruct (String.eqb m "math"); [|exact Hcg].
      destruct args as [|a0 more]; [exact Hcg|].
      inversion IHargs as [|? ? Ha0 Hmore]; subst.
      cbn [forallb] in Hk. apply andb_true_iff in Hk. destruct Hk as [H0 Hk].
      match goal with
      | |- context [codegen_expr a0 ?c] =>
          specialize (Ha0 H0 c Hcg); destruct (codegen_expr a0 c) as [ar cg1]
      end.
      destruct (math_unary f); [exact Ha0|].
      destruct more as [|a1 more']; [exact Ha0|].
      inversion Hmore as [|? ? Ha1 _]; subst.
      cbn [forallb] in Hk. apply andb_true_iff in Hk. destruct Hk as [H1 _].
      specialize (Ha1 H1 cg1 Ha0). destruct (codegen_expr a1 cg1) as [ar2 cg2].
      destruct (math_binary f); exact Ha1.
    + cbv zeta. cbn [next_temp].
      match goal with
      | |- context [codegen_exprs args ?c] =>
          pose proof (codegen_exprs_messages args IHargs Hk c Hcg) as Hargs;
          destruct (codegen_exprs args c) as [rs cg1]
      end.
      exact Hargs.
Qed.

Lemma codegen_incdec_messages (op : binop) (what name : string)
    (amount : option Expr) (cg : CodeGen) :
  unknown_variable_message (msg_unknown_variable_in name what) ->
  opt_good ops_known amount = true ->
  Forall unknown_variable_message (err cg) ->
  Forall unknown_variable_message (err (codegen_incdec op what name amount cg)).
Proof.
  intros Hmsg Hk Hcg. unfold codegen_incdec.
  destruct (find_local cg name <? 0);
    [apply report_unknown; assumption|].
  cbn [next_temp]. destruct amount as [e|].
  - match goal with
    | |- context [codegen_expr e ?c] =>
        pose proof (codegen_expr_messages e Hk c Hcg) as He;
        destruct (codegen_expr e c) as [r cg1]
    end.
    exact He.
  - exact Hcg.
Qed.

Lemma codegen_stmts_messages (body : list Stmt) :
  Forall (fun s => ops_known_stmt s = true ->
                   forall cg cg',
                     Forall unknown_variable_message (err cg) ->
                     codegen_stmt s cg = Some cg' ->
                     Forall unknown_variable_message (err cg')) body ->
  forallb ops_known_stmt body = true ->
  forall cg cg',
    Forall unknown_variable_message (err cg) ->
    codegen_stmts body cg = Some cg' ->
    Forall unknown_variable_message (err cg').
Proof.
  induction 1 as [|s rest Hs _ IH]; cbn [forallb codegen_stmts];
    intros Hall cg cg' Hcg E.
  - inversion E. subst. exact Hcg.
  - apply andb_true_iff in Hall. destruct Hall as [H1 H2].
    destruct (codegen_stmt s cg) as [cg1|] eqn:Es; [|discriminate E].
    exact (IH H2 cg1 cg' (Hs H1 cg cg1 Hcg Es) E).
Qed.

(** Closes the case of a statement once the runs of its parts are among
    the hypotheses. *)
Ltac stmt_done :=
  let E := fresh "E" in
  intro E; inversion E; subst; err_fields; assumption.

(** Lowering a statement whose operators are known adds only diagnostics
    about unknown variables. *)
Lemma codegen_stmt_messages (s : Stmt) :
  ops_known_stmt s = true ->
  forall cg cg',
    Forall unknown_variable_message (err cg) ->
    codegen_stmt s cg = Some cg' ->
    Forall unknown_variable_message (err cg').
Proof.
  induction s as [v e|c t e IHt IHe|n e|e|e|c v body IHbody|c body IHbody|n a|n a]
    using Stmt_nested_ind; intros Hk cg cg' Hcg.
  - cbn [codegen_stmt ops_known_stmt] in *.
    pose proof (codegen_expr_messages e Hk cg Hcg) as He.
    destruct (codegen_expr e cg) as [r cg1].
    destruct (0 <=? r); stmt_done.
  - cbn [codegen_stmt ops_known_stmt] in *.
    apply andb_true_iff in Hk. destruct Hk as [Hk Helse].
    apply andb_true_iff in Hk. destruct Hk as [Hc Hthen].
    pose proof (codegen_expr_messages c Hc cg Hcg) as He.
    destruct (codegen_expr c cg) as [r cg1].
    destruct (r <? 0); [stmt_done|]. cbn [next_temp next_label].
    destruct t as [then_s|]; [|destruct e; discriminate].
    destruct e as [else_s|].
    + match goal with
      | |- context [codegen_stmt then_s ?c0] =>
          destruct (codegen_stmt then_s c0) as [cg2|] eqn:E1; [|discriminate];
          apply (IHt then_s eq_refl Hthen) in E1; [|err_fields; exact He]
      end.
      match goal with
      | |- context [codegen_stmt else_s ?c0] =>
          destruct (codegen_stmt else_s c0) as [cg3|] eqn:E2; [|discriminate];
          apply (IHe else_s eq_refl Helse) in E2;
          [|destruct (is_return then_s); err_fields; exact E1]
      end.
      destruct (is_return else_s); stmt_done.
    + match goal with
      | |- context [codegen_stmt then_s ?c0] =>
          destruct (codegen_stmt then_s c0) as [cg2|] eqn:E1; [|discriminate];
          apply (IHt then_s eq_refl Hthen) in E1; [|err_fields; exact He]
      end.
      destruct (is_return then_s); stmt_done.
  - cbn [codegen_stmt ops_known_stmt] in *.
    pose proof (codegen_expr_messages e Hk cg Hcg) as He.
    destruct (codegen_expr e cg) as [r cg1].
    destruct (r <? 0); [stmt_done|].
    destruct (0 <=? find_local cg1 n); stmt_done.
  - cbn [codegen_stmt ops_known_stmt] in *.
    pose proof (codegen_expr_messages e Hk cg Hcg) as He.
    intro E. inversion E. subst. exact He.
  - cbn [ops_known_stmt] in Hk.
    pose proof (codegen_expr_messages e Hk cg Hcg) as He.
    cbn [codegen_stmt].
    destruct e; try stmt_done;
      destruct (codegen_expr _ cg) as [r cg1]; destruct (0 <=? r); stmt_done.
  - rewrite codegen_stmt_repeat_eq. cbv zeta.
    cbn [ops_known_stmt] in Hk.
    apply andb_true_iff in Hk. destruct Hk as [Hc Hbody].
    pose proof (codegen_expr_messages c Hc cg Hcg) as He.
    destruct (codegen_expr c cg) as [r cg1].
    destruct (r <? 0); [stmt_done|]. cbn [next_temp next_label].
    match goal with
    | |- context [codegen_stmts body ?c0] =>
        assert (Hs : Forall unknown_variable_message (err c0))
          by (destruct v; exact He);
        revert Hs; generalize c0; intros cs Hs
    end.
    destruct (codegen_stmts body cs) as [cg2|] eqn:E1; [|discriminate].
    apply (codegen_stmts_messages body IHbody Hbody _ _ Hs) in E1.
    stmt_done.
  - rewrite codegen_stmt_while_eq. cbv zeta. cbn [next_label].
    cbn [ops_known_stmt] in Hk.
    apply andb_true_iff in Hk. destruct Hk as [Hc Hbody].
    match goal with
    | |- context [codegen_expr c ?c0] =>
        pose proof (codegen_expr_messages c Hc c0 Hcg) as He;
        destruct (codegen_expr c c0) as [r cg1]
    end.
    destruct (r <? 0); [stmt_done|]. cbn [next_temp].
    match goal with
    | |- context [codegen_stmts body ?c0] =>
        assert (Hs : Forall unknown_variable_message (err c0)) by exact He;
        revert Hs; generalize c0; intros cs Hs
    end.
    destruct (codegen_stmts body cs) as [cg2|] eqn:E1; [|discriminate].
    apply (codegen_stmts_messages body IHbody Hbody _ _ Hs) in E1.
    stmt_done.
  - cbn [codegen_stmt ops_known_stmt] in *. intro E. inversion E. subst.
    apply codegen_incdec_messages; [|exact Hk|exact Hcg].
    exists n. right. left. reflexivity.
  - cbn [codegen_stmt ops_known_stmt] in *. intro E. inversion E. subst.
    apply codegen_incdec_messages; [|exact Hk|exact Hcg].
    exists n. right. right. reflexivity.
Qed.

Lemma codegen_funcs_messages (fs : list FuncDef) :
  forallb ops_known_func fs = true ->
  forall cg cg',
    Forall unknown_variable_message (err cg) ->
    codegen_funcs fs cg = Some cg' ->
    Forall unknown_variable_message (err cg').
Proof.
  induction fs as [|f rest IH]; cbn [forallb codegen_funcs];
    intros Hall cg cg' Hcg E.
  - inversion E. subst. exact Hcg.
  - apply andb_true_iff in Hall. destruct Hall as [H1 H2].
    destruct (codegen_func f cg) as [cg1|] eqn:Ef; [|discriminate E].
    apply (IH H2 cg1 cg'); [|exact E].
    unfold codegen_func in Ef.
    match type of Ef with
    | context [codegen_stmts ?body ?c0] =>
        destruct (codegen_stmts body c0) as [cg2|] eqn:Eb; [|discriminate Ef];
        apply (codegen_stmts_messages body) in Eb;
        [ | apply Forall_forall; intros s _; apply codegen_stmt_messages
          | exact H1 | err_fields; exact Hcg ]
    end.
    inversion Ef. subst.
    destruct (existsb is_return (func_body f)); err_fields; exact Eb.
Qed.

Lemma unknown_variable_not_operator (msg op : string) :
  unknown_variable_message msg -> msg <> msg_unknown_operator op.
Proof.
  intros [name [H|[H|H]]] E; rewrite H in E; discriminate E.
Qed.

(** X24.  The operator words of the keyword table are the operator words
    the emitter lowers: for a program read from a source text whose tree
    is intact, every diagnostic of the emitter is about an unknown variable
    (in an expression, in [inc] or in [dec]), and no [Unknown operator]
    message is written. *)
Theorem X24_no_unknown_operator_from_source_text (src : string)
    (prog : Program) (cg : CodeGen) :
  front_end_intact src = Some (prog, true) ->
  codegen_program prog = Some cg ->
  Forall unknown_variable_message (err cg)
  /\ forall op, ~ In (msg_unknown_operator op) (err cg).
Proof.
  intros Hintact Hgen.
  pose proof (front_end_of_intact src prog true Hintact) as Hfront.
  assert (H : Forall unknown_variable_message (err cg)).
  { destruct (codegen_program_start prog) as (cg0 & E & _ & He & _).
    rewrite E in Hgen.
    apply (codegen_funcs_messages (functions prog)
             (front_end_ops_known src prog Hfront) cg0 cg); [|exact Hgen].
    rewrite He. constructor. }
  split; [exact H|].
  intros op Hin. rewrite Forall_forall in H.
  exact (unknown_variable_not_operator _ op (H _ Hin) eq_refl).
Qed.

Lemma X24_no_unknown_operator_witness :
  exists prog cg,
    front_end_intact ("fn f" ++ nl ++ "out x plus 1" ++ nl) = Some (prog, true)
    /\ codegen_program prog = Some cg
    /\ err cg = [msg_unknown_variable "x"]
    /\ Forall unknown_variable_message (err cg)
    /\ forall op, ~ In (msg_unknown_operator op) (err cg).
Proof.
  destruct (front_end_intact ("fn f" ++ nl ++ "out x plus 1" ++ nl))
    as [[prog [|]]|] eqn:Ef;
    [|vm_compute in Ef; discriminate Ef|vm_compute in Ef; discriminate Ef].
  destruct (codegen_program prog) as [cg|] eqn:Eg;
    [|vm_compute in Ef; inversion Ef; subst; vm_compute in Eg;
      discriminate Eg].
  exists prog, cg. split; [reflexivity|]. split; [exact Eg|].
  split.
  - vm_compute in Ef. inversion Ef. subst. vm_compute in Eg.
    inversion Eg. reflexivity.
  - exact (X24_no_unknown_operator_from_source_text _ prog cg Ef Eg).
Defined.
